(** * Bloom / GARF group formation: the SOTRIM algorithm and the grouping engine

    A shallow embedding of
      - [garf-production/worker/sotrim_algo.py] (normalisation of flexible
        answers, pairwise cuts, the vectorised compatibility matrix, the
        group scorer, the greedy group builder and the run driver), and
      - [garf-production/api/app/services/grouping_engine.py] and
        [.../normalization.py] (the policy driven engine around it).

    Conventions of the embedding.
      - A Python float is a rational ([Q]); the missing value NaN is a
        constructor of its own ([NaN]) or [None] after [pd.to_numeric].
        So the numbers of a frame are finite and the arithmetic on them is
        exact: a cell that holds inf, an overflow to inf, and the NaN that
        arithmetic on inf gives are outside the embedding.
      - [float(v)] and [pd.to_numeric(v, errors="coerce")] read a text
        through the one parser [float_of_str] of the runtime; on a number
        they are the identity.
      - A Python [str] is a [string]; [set] of strings is a [gset string];
        a [dict] with string keys is a [gmap string _].
      - A DataFrame has the default RangeIndex: the label of a row is its
        position, so [df.loc] and [df.iloc] are both list lookups.
      - A Python exception is the result [None] of an [option]. *)

From Stdlib Require Import QArith Qabs Lqa Lia Bool Ascii String.
From stdpp Require Import base option list gmap sets strings sorting pretty.

Local Open Scope Q_scope.
Local Open Scope stdpp_scope.
Local Open Scope string_scope.
Local Open Scope list_scope.

(** ** Python strings *)

(** A [str] is held as its UTF-8 bytes.  [str.isspace] of a character of
    one byte: TAB..CR, FS..US and the blank. *)
Definition is_space (a : ascii) : bool :=
  let n := nat_of_ascii a in
  ((9 <=? n)%nat && (n <=? 13)%nat) || ((28 <=? n)%nat && (n <=? 31)%nat) || (n =? 32)%nat.

(** [str.isspace] of a character of two bytes: U+0085 and U+00A0. *)
Definition is_space2 (a b : ascii) : bool :=
  let m := nat_of_ascii a in
  let n := nat_of_ascii b in
  (m =? 194)%nat && ((n =? 133)%nat || (n =? 160)%nat).

(** [str.isspace] of a character of three bytes: U+1680, U+2000..U+200A,
    U+2028, U+2029, U+202F, U+205F and U+3000.  No longer character is white
    space. *)
Definition is_space3 (a b c : ascii) : bool :=
  let m := nat_of_ascii a in
  let n := nat_of_ascii b in
  let k := nat_of_ascii c in
  ((m =? 225)%nat && (n =? 154)%nat && (k =? 128)%nat)
  || ((m =? 226)%nat && (n =? 128)%nat
      && (((128 <=? k)%nat && (k <=? 138)%nat)
          || (k =? 168)%nat || (k =? 169)%nat || (k =? 175)%nat))
  || ((m =? 226)%nat && (n =? 129)%nat && (k =? 159)%nat)
  || ((m =? 227)%nat && (n =? 128)%nat && (k =? 128)%nat).

(** [s] without its leading white space characters.  With [back] the bytes
    of a character are read last to first, as they come in a reversed string. *)
Fixpoint strip_leading (back : bool) (s : string) : string :=
  match s with
  | EmptyString => EmptyString
  | String a s1 =>
      if is_space a then strip_leading back s1
      else
        match s1 with
        | EmptyString => s
        | String b s2 =>
            if (if back then is_space2 b a else is_space2 a b) then strip_leading back s2
            else
              match s2 with
              | EmptyString => s
              | String c s3 =>
                  if (if back then is_space3 c b a else is_space3 a b c)
                  then strip_leading back s3
                  else s
              end
        end
  end.

(** [s.lstrip()] *)
Definition lstrip (s : string) : string := strip_leading false s.

Definition string_rev (s : string) : string :=
  string_of_list_ascii (rev (list_ascii_of_string s)).

(** [s.rstrip()] *)
Definition rstrip (s : string) : string := string_rev (strip_leading true (string_rev s)).

(** [s.strip()] *)
Definition strip (s : string) : string := rstrip (lstrip s).

(** [s.split(",")]: never empty, [EmptyString] splits into one empty part. *)
Fixpoint split_comma (s : string) : list string :=
  match s with
  | EmptyString => [EmptyString]
  | String a s' =>
      if Ascii.eqb a ","%char then EmptyString :: split_comma s'
      else match split_comma s' with
           | [] => [String a EmptyString]
           | w :: ws => String a w :: ws
           end
  end.

(** Truth value of a string: [if s] *)
Definition nonempty_str (s : string) : bool :=
  match s with EmptyString => false | _ => true end.

(** ** DataFrame cells, rows and frames *)

(** A cell of a frame read from CSV: NaN, a string or a float. *)
Inductive cell : Type :=
  | NaN
  | Str (s : string)
  | Num (q : Q).

(** [pd.isna(v)] *)
Definition isna (c : cell) : bool :=
  match c with NaN => true | _ => false end.

(** A row is a Series indexed by column name. *)
Record DataFrame : Type := mkDF {
  columns : list string;
  rows : list (gmap string cell)
}.

(** [row.get(col, dflt)] *)
Definition row_get (r : gmap string cell) (col : string) (dflt : cell) : cell :=
  default dflt (r !! col).

(** [col in df.columns] *)
Definition has_column (df : DataFrame) (col : string) : bool :=
  bool_decide (col ∈ columns df).

(** [df[col]] as a list; a key absent from a row record is NaN, as pandas
    fills it when the frame is built. *)
Definition column_values (rs : list (gmap string cell)) (col : string) : list cell :=
  (fun r => row_get r col NaN) <$> rs.

(** [df.iloc[indices]] / [df.loc[indices]]: raises on an index out of range. *)
Definition iloc (df : DataFrame) (indices : list nat) : option (list (gmap string cell)) :=
  mapM (fun i => rows df !! i) indices.

(** ** Boolean matrices (numpy arrays of dtype bool) *)

Abbreviation matrix := (list (list bool)).

(** [m[i, j]]; [None] is an IndexError. *)
Definition mget (m : matrix) (i j : nat) : option bool :=
  m !! i ≫= (fun r => r !! j).

(** the matrix with entries [f i j], for the loops
    [for i in range(n): for j in range(n): m[i, j] = f(i, j)] *)
Definition mtab (n : nat) (f : nat -> nat -> bool) : matrix :=
  (fun i => f i <$> seq 0 n) <$> seq 0 n.

(** [np.ones((n, n), dtype=bool)] and [np.zeros((n, n), dtype=bool)] *)
Definition ones (n : nat) : matrix := replicate n (replicate n true).
Definition zeros (n : nat) : matrix := replicate n (replicate n false).

(** [m[i, j] = v]  (no change out of range, where numpy raises; every use
    below is in range) *)
Definition mset (m : matrix) (i j : nat) (v : bool) : matrix :=
  match m !! i with
  | Some r => <[i := <[j := v]> r]> m
  | None => m
  end.

(** [m[np.diag_indices(n)] = True] *)
Definition set_diag (m : matrix) : matrix :=
  imap (fun i r => <[i := true]> r) m.

(** [a & b] (dense) or [a.multiply(b)] (sparse): entrywise conjunction *)
Definition mand (a b : matrix) : matrix :=
  zip_with (zip_with andb) a b.

(** [m[mask, :] = False] *)
Definition mask_rows (mask : list bool) (m : matrix) : matrix :=
  zip_with (fun (b : bool) r => if b then (fun _ => false) <$> r else r) mask m.

(** [m[:, mask] = False] *)
Definition mask_cols (mask : list bool) (m : matrix) : matrix :=
  (fun r => zip_with (fun (b : bool) x => if b then false else x) mask r) <$> m.

(** an [n] by [n] array *)
Definition square (n : nat) (m : matrix) : Prop :=
  length m = n /\ Forall (fun r => length r = n) m.

(** ** The Python runtime underneath

    What the program takes from the interpreter and from numpy, and what
    the embedding does not fix: how a float prints and parses, the square
    root of a float, and the order in which a [set] of ints is iterated
    (CPython iterates its hash table; the language leaves the order open). *)
Class Runtime : Type := {
  (** [str(x)] of a float *)
  float_str : Q -> string;
  (** [float(s)] and [pd.to_numeric(s, errors="coerce")] of a string:
      [None] when it does not parse (ValueError, or NaN after coercion) *)
  float_of_str : string -> option Q;
  (** [list(set(l))] *)
  set_iter : list nat -> list nat;
  set_iter_perm : forall l, set_iter l ≡ₚ remove_dups l;
  (** [np.sqrt] / the norm of [np.linalg.norm] *)
  sqrtQ : Q -> Q
}.

(** [str(v)] *)
Definition str_of_cell `{Runtime} (c : cell) : string :=
  match c with
  | NaN => "nan"
  | Str s => s
  | Num q => float_str q
  end.

(** [pd.to_numeric(v, errors="coerce")]: [None] is NaN *)
Definition to_numeric `{Runtime} (c : cell) : option Q :=
  match c with
  | NaN => None
  | Str s => float_of_str s
  | Num q => Some q
  end.

(** [v == ""] *)
Definition is_empty_str (c : cell) : bool :=
  match c with Str EmptyString => true | _ => false end.

(** ** Configuration (the module level constants read from CONFIG) *)

Record AgeBand : Type := mkBand {
  band_min : Q;
  band_max : Q;
  (** [band.get("max_spread")], [None] when absent or null *)
  max_spread : option Q
}.

Record AgeRules : Type := mkAgeRules {
  field : string;
  bands : list AgeBand;
  (** [age_rules.get("allow_cross_band", False)] *)
  allow_cross_band : bool;
  (** the legacy key ["max_age_difference"], when present *)
  max_age_difference : option Q;
  (** [boundary_slack_years] (read by the engine only, default 0) *)
  boundary_slack_years : Q;
  (** [group_constraints.get("max_age_difference")] and [("max_age_std")] *)
  gc_max_age_difference : option Q;
  gc_max_age_std : option Q
}.

Record Config : Type := mkConfig {
  (** keys of [constraints.hard_categorical.fields], in dict order *)
  CUT_CATEGORICAL : list string;
  (** keys of [constraints.hard_multi_choice.fields] *)
  CUT_MULTI : list string;
  (** items of [constraints.hard_numeric_tolerance.fields] *)
  CUT_NUMERIC_TOL : list (string * Q);
  DEFINE_NUMERIC : list string;
  (** [CONFIG["constraints"].get("age_rules", None)]; an empty dict is
      falsy like [None] *)
  AGE_RULES : option AgeRules;
  GROUP_SIZE : Z;
  VALIDATE_INPUT : bool;
  SOFT_CATEGORICAL : list (string * string);
  SOFT_MULTI_CHOICE : list (string * string);
  ALPHA_CONSTRAINTS : Q;
  BETA_DIVERSITY : Q;
  GAMMA_SIMILARITY : Q;
  CATEGORICAL_DIVERSITY : Q;
  MULTI_CHOICE_OVERLAP : Q;
  FLEXIBLE_ANSWERS : gset string
}.

(** The fallback of [load_config] when no configuration file is read. *)
Definition default_config : Config := {|
  CUT_CATEGORICAL := [];
  CUT_MULTI := [];
  CUT_NUMERIC_TOL := [];
  DEFINE_NUMERIC :=
    ["אני אדם מופנם"; "אני אדם יצירתי"; "אני נוטה ללחץ";
     "חשיבות הומור"; "חשיבות רוחניות"; "אני אוהב להתאמן";
     "נהנה יותר בעיר/טבע"; "נהנה משיח פוליטי"];
  AGE_RULES := None;
  GROUP_SIZE := 6;
  VALIDATE_INPUT := true;
  SOFT_CATEGORICAL := [];
  SOFT_MULTI_CHOICE := [];
  ALPHA_CONSTRAINTS := 0;
  BETA_DIVERSITY := 1;
  GAMMA_SIMILARITY := 2 # 10;
  CATEGORICAL_DIVERSITY := 1 # 10;
  MULTI_CHOICE_OVERLAP := 1 # 10;
  FLEXIBLE_ANSWERS :=
    list_to_set
      ["לא משנה לי"; "גם וגם"; "אין"; "לא חשוב"; "שילוב"; "בין לבין";
       "לא משנה"; "כל האפשרויות"; "אין העדפה"; "לא רלוונטי"]
|}.

(** ** Normalisation of flexible answers *)

(** The global [NORMALIZATION_RULES]: column -> flexible answer -> the
    concrete answers of the column.  It is empty when the module is loaded. *)
Abbreviation NormRules := (gmap string (gmap string (gset string))).

Definition skipped_columns : list string := ["Email"; "שם מלא"; "מספר טלפון"].

(** One round of the loop of [build_normalization_rules], for column [col]. *)
Definition build_rules_column `{Runtime} (cfg : Config) (df : DataFrame)
    (rules : NormRules) (col : string) : NormRules :=
  if bool_decide (col ∈ skipped_columns) then rules
  else
    let unique_values : gset string :=
      list_to_set (str_of_cell <$> filter (fun c => isna c = false) (column_values (rows df) col)) in
    let flexible_in_col := unique_values ∩ FLEXIBLE_ANSWERS cfg in
    let concrete_in_col := unique_values ∖ flexible_in_col in
    if bool_decide (flexible_in_col ≠ ∅) && bool_decide (concrete_in_col ≠ ∅)
    then <[col := gset_to_gmap concrete_in_col flexible_in_col]> rules
    else rules.

Definition build_normalization_rules `{Runtime} (cfg : Config) (df : DataFrame)
    (rules : NormRules) : NormRules :=
  foldl (build_rules_column cfg df) rules (columns df).

Definition normalize_answer (rules : NormRules) (answer column : string) : gset string :=
  match rules !! column with
  | None => {[answer]}
  | Some r =>
      match r !! answer with
      | Some expansion => expansion
      | None => {[answer]}
      end
  end.

(** [to_set(val, column)] on a cell of a CSV frame.  [column] is [None] for
    the default argument; [if column] is also false for an empty name. *)
Definition to_set `{Runtime} (rules : NormRules) (val : cell) (column : option string) : gset string :=
  if isna val || is_empty_str val then ∅
  else
    let parts := filter (fun v => nonempty_str v = true)
                   (strip <$> split_comma (str_of_cell val)) in
    match column with
    | Some col =>
        if nonempty_str col
        then foldl (fun result part => result ∪ normalize_answer rules part col) ∅ parts
        else list_to_set parts
    | None => list_to_set parts
    end.

(** ** Pairwise cuts between two participants *)

(** [a.isdisjoint(b)] *)
Definition isdisjoint (a b : gset string) : bool := bool_decide (a ∩ b = ∅).

(** [abs(x - y) <= tol] *)
Definition within_tol (x y tol : Q) : bool := Qle_bool (Qabs (x - y)) tol.

(** one round of the categorical loop of [pass_pairwise_cuts] *)
Definition categorical_passed `{Runtime} (rules : NormRules) (a b : gmap string cell)
    (col : string) : bool :=
  let sa := normalize_answer rules (strip (str_of_cell (row_get a col (Str "")))) col in
  let sb := normalize_answer rules (strip (str_of_cell (row_get b col (Str "")))) col in
  negb (isdisjoint sa sb).

(** one round of the multi-choice loop of [pass_pairwise_cuts] *)
Definition multi_passed `{Runtime} (rules : NormRules) (a b : gmap string cell)
    (col : string) : bool :=
  let A := to_set rules (row_get a col (Str "")) (Some col) in
  let B := to_set rules (row_get b col (Str "")) (Some col) in
  bool_decide (0 < size (A ∩ B))%nat.

(** one round of the numeric loop of [pass_pairwise_cuts]; a value that
    [float()] rejects raises ValueError, which the loop catches as a failure *)
Definition numeric_passed `{Runtime} (a b : gmap string cell) (col : string) (tol : Q) : bool :=
  let va := row_get a col NaN in
  let vb := row_get b col NaN in
  if isna va || isna vb then false
  else
    match to_numeric va, to_numeric vb with
    | Some x, Some y => within_tol x y tol
    | _, _ => false
    end.

(** [pass_pairwise_cuts(a, b)[0]]: every round of the three loops passes
    ([result] starts [True] and is only ever set to [False]). *)
Definition pass_pairwise_cuts `{Runtime} (cfg : Config) (rules : NormRules)
    (a b : gmap string cell) : bool :=
  let result := true in
  let result := foldl (fun result col =>
                  if categorical_passed rules a b col then result else false)
                  result (CUT_CATEGORICAL cfg) in
  let result := foldl (fun result col =>
                  if multi_passed rules a b col then result else false)
                  result (CUT_MULTI cfg) in
  let result := foldl (fun result '(col, tol) =>
                  if numeric_passed a b col tol then result else false)
                  result (CUT_NUMERIC_TOL cfg) in
  result.

(** ** Age bands *)

(** [band["min"] <= age <= band["max"]] *)
Definition in_band (age : Q) (b : AgeBand) : bool :=
  Qle_bool (band_min b) age && Qle_bool age (band_max b).

(** the indices of the bands that contain [age], in order *)
Definition bands_of (bs : list AgeBand) (age : Q) : list nat :=
  fst <$> filter (fun p => in_band age p.2 = true) (imap pair bs).

(** Python's [min(x, y)] and [max(x, y)]: the first argument wins a tie *)
Definition py_min (x y : Q) : Q := if negb (Qle_bool x y) then y else x.
Definition py_max (x y : Q) : Q := if negb (Qle_bool y x) then y else x.

(** [min_max_spread] over the common bands; [None] is [float("inf")] *)
Definition min_max_spread (bs : list AgeBand) (common : list nat) : option Q :=
  foldl (fun acc band_idx =>
           match bs !! band_idx ≫= max_spread with
           | Some s => Some (match acc with None => s | Some m => py_min m s end)
           | None => acc
           end) None common.

(** [max_max_spread] over [bands1 + bands2], from 0 *)
Definition max_max_spread (bs : list AgeBand) (idxs : list nat) : Q :=
  foldl (fun acc band_idx =>
           match bs !! band_idx ≫= max_spread with
           | Some s => py_max acc s
           | None => acc
           end) 0 idxs.

(** [check_age_compatibility(age1, age2, age_rules)]; an age of [None] is NaN *)
Definition check_age_compatibility (age1 age2 : option Q) (age_rules : option AgeRules) : bool :=
  match age_rules, age1, age2 with
  | Some r, Some a1, Some a2 =>
      match max_age_difference r with
      | Some max_diff => within_tol a1 a2 max_diff
      | None =>
          let bands1 := bands_of (bands r) a1 in
          let bands2 := bands_of (bands r) a2 in
          if bool_decide (bands1 = []) || bool_decide (bands2 = []) then false
          else
            let common_bands := filter (fun i => i ∈ bands2) bands1 in
            if negb (bool_decide (common_bands = [])) then
              match min_max_spread (bands r) common_bands with
              | None => true
              | Some s => within_tol a1 a2 s
              end
            else if negb (allow_cross_band r) then false
            else within_tol a1 a2 (max_max_spread (bands r) (bands1 ++ bands2))
      end
  | _, _, _ => false
  end.

(** ** The vectorised compatibility matrix *)

(** the nested loop
    [for i in range(n): for j in range(i+1, n): m = step(m, i, j)] *)
Definition pair_loop {A : Type} (n : nat) (step : A -> nat -> nat -> A) (m : A) : A :=
  foldl (fun m i => foldl (fun m j => step m i j) m (seq (S i) (n - S i))) m (seq 0 n).

(** the layer of one hard categorical column: [compat_cat] *)
Definition categorical_layer `{Runtime} (rules : NormRules)
    (df_subset : list (gmap string cell)) (col : string) : matrix :=
  let n := length df_subset in
  let normalized_values :=
    (fun val => normalize_answer rules (strip (str_of_cell val)) col)
      <$> column_values df_subset col in
  mtab n (fun i j =>
    negb (isdisjoint (default ∅ (normalized_values !! i)) (default ∅ (normalized_values !! j)))).

(** the layer of one hard multi-choice column: [compat_multi] *)
Definition multi_layer `{Runtime} (rules : NormRules)
    (df_subset : list (gmap string cell)) (col : string) : matrix :=
  let n := length df_subset in
  let sets_list := (fun val => to_set rules val (Some col)) <$> column_values df_subset col in
  let compat_multi :=
    pair_loop n (fun m i j =>
      if bool_decide (0 < size (default ∅ (sets_list !! i) ∩ default ∅ (sets_list !! j)))%nat
      then mset (mset m i j true) j i true
      else m) (zeros n) in
  set_diag compat_multi.

(** the age layer: [compat_age] *)
Definition age_layer `{Runtime} (age_rules : AgeRules)
    (df_subset : list (gmap string cell)) : matrix :=
  let n := length df_subset in
  let ages_array := to_numeric <$> column_values df_subset (field age_rules) in
  mtab n (fun i j =>
    if (i =? j)%nat then true
    else
      match default None (ages_array !! i), default None (ages_array !! j) with
      | Some x, Some y => check_age_compatibility (Some x) (Some y) (Some age_rules)
      | _, _ => false
      end).

(** the layer of one hard numeric column: [compat_numeric].  A comparison
    with NaN is false. *)
Definition numeric_layer `{Runtime} (df_subset : list (gmap string cell))
    (col : string) (tol : Q) : matrix :=
  let n := length df_subset in
  let values_array := to_numeric <$> column_values df_subset col in
  let compat_numeric :=
    mtab n (fun i j =>
      match default None (values_array !! i), default None (values_array !! j) with
      | Some x, Some y => within_tol x y tol
      | _, _ => false
      end) in
  let compat_numeric := set_diag compat_numeric in
  let nan_mask := (fun v : option Q => bool_decide (v = None)) <$> values_array in
  let compat_numeric := mask_rows nan_mask compat_numeric in
  let compat_numeric := mask_cols nan_mask compat_numeric in
  set_diag compat_numeric.

(** [build_compatibility_matrix_vectorized(df, indices)].  The sparse
    ([csr_matrix], [multiply], [setdiag]) and the dense ([&]) variants act
    alike on every entry; the [except] branches of the age and the numeric
    blocks are not reached on cells that [pd.to_numeric] coerces. *)
Definition build_compatibility_matrix_vectorized `{Runtime} (cfg : Config)
    (rules : NormRules) (df : DataFrame) (indices : option (list nat)) : option matrix :=
  let indices := default (seq 0 (length (rows df))) indices in
  let n := length indices in
  if (n =? 0)%nat then Some []
  else
    df_subset ← iloc df indices;
    let compat := ones n in
    let compat :=
      foldl (fun compat col =>
               if has_column df col then mand compat (categorical_layer rules df_subset col)
               else compat) compat (CUT_CATEGORICAL cfg) in
    let compat :=
      foldl (fun compat col =>
               if has_column df col then mand compat (multi_layer rules df_subset col)
               else compat) compat (CUT_MULTI cfg) in
    let compat :=
      match AGE_RULES cfg with
      | Some age_rules =>
          if has_column df (field age_rules) then mand compat (age_layer age_rules df_subset)
          else compat
      | None => compat
      end in
    let compat :=
      foldl (fun compat '(col, tol) =>
               if has_column df col then mand compat (numeric_layer df_subset col tol)
               else compat) compat (CUT_NUMERIC_TOL cfg) in
    Some (set_diag compat).

(** [build_compatibility_matrix_per_subspace(df, subspace_indices)] *)
Definition build_compatibility_matrix_per_subspace `{Runtime} (cfg : Config)
    (rules : NormRules) (df : DataFrame) (subspace_indices : list nat) : option matrix :=
  build_compatibility_matrix_vectorized cfg rules df (Some subspace_indices).

(** ** Python dicts with int keys, in insertion order *)

(** [d[k] = v]: a new key goes last, a known key keeps its place *)
Fixpoint dict_set {V : Type} (d : list (nat * V)) (k : nat) (v : V) : list (nat * V) :=
  match d with
  | [] => [(k, v)]
  | (k', v') :: d' => if (k =? k')%nat then (k, v) :: d' else (k', v') :: dict_set d' k v
  end.

(** [d[k]]; [None] is a KeyError *)
Fixpoint dict_get {V : Type} (d : list (nat * V)) (k : nat) : option V :=
  match d with
  | [] => None
  | (k', v') :: d' => if (k =? k')%nat then Some v' else dict_get d' k
  end.

(** [min(d, key=d.get)]: the first key, in insertion order, whose value is
    minimal; [None] (ValueError) on an empty dict *)
Definition dict_argmin (d : list (nat * nat)) : option nat :=
  match d with
  | [] => None
  | kv :: d' =>
      Some (fst (foldl (fun best kv' => if (snd kv' <? snd best)%nat then kv' else best) kv d'))
  end.

(** ** Group level constraints *)

Definition Qsum (l : list Q) : Q := foldr Qplus 0 l.
Definition Qmean (l : list Q) : Q := Qsum l / inject_Z (Z.of_nat (length l)).

(** [np.max] and [np.min] of a non-empty array *)
Definition Qmaximum (l : list Q) : Q :=
  match l with [] => 0 | x :: l' => foldl py_max x l' end.
Definition Qminimum (l : list Q) : Q :=
  match l with [] => 0 | x :: l' => foldl py_min x l' end.

(** the population variance, [np.std(a) ** 2] *)
Definition pvariance (l : list Q) : Q :=
  let m := Qmean l in Qmean ((fun x => (x - m) * (x - m)) <$> l).

(** [band_id(a)]: the first band that contains [a]; [None] is -1 *)
Definition band_id (bs : list AgeBand) (a : Q) : option nat :=
  head (bands_of bs a).

(** [pass_group_constraints(df_group)] *)
Definition pass_group_constraints `{Runtime} (cfg : Config) (df : DataFrame)
    (df_group : list (gmap string cell)) : bool :=
  match AGE_RULES cfg with
  | Some age_rules =>
      if has_column df (field age_rules) then
        let ages := to_numeric <$> column_values df_group (field age_rules) in
        if existsb (fun a : option Q => bool_decide (a = None)) ages then false
        else
          let ages := omap id ages in
          if match gc_max_age_difference age_rules with
             | Some max_age_diff => negb (Qle_bool (Qmaximum ages - Qminimum ages) max_age_diff)
             | None => false
             end then false
          else if match gc_max_age_std age_rules with
                  | Some max_age_std => negb (Qle_bool (sqrtQ (pvariance ages)) max_age_std)
                  | None => false
                  end then false
          else if negb (bool_decide (bands age_rules = [])) then
            let group_bands := band_id (bands age_rules) <$> ages in
            if negb (allow_cross_band age_rules)
               && bool_decide (1 < length (remove_dups group_bands))%nat
            then false else true
          else true
      else true
  | None => true
  end.

(** ** The group scorer *)

(** [_score_cache] and [_feature_cache], both keyed by [tuple(sorted(indices))] *)
Record Caches : Type := mkCaches {
  score_cache : gmap (list nat) Q;
  feature_cache : gmap (list nat) (list (list (option Q)))
}.

(** [clear_caches()] *)
Definition clear_caches (_ : Caches) : Caches := mkCaches ∅ ∅.

(** [tuple(sorted(indices))] *)
Definition cache_key (indices : list nat) : list nat := merge_sort Nat.le indices.

(** [get_cached_features(df_group, indices)]: the array of the
    DEFINE_NUMERIC columns, one row per member, NaN where a column is absent *)
Definition get_cached_features `{Runtime} (cfg : Config) (df : DataFrame) (caches : Caches)
    (df_group : list (gmap string cell)) (indices : list nat)
    : list (list (option Q)) * Caches :=
  match feature_cache caches !! cache_key indices with
  | Some X => (X, caches)
  | None =>
      let features_array :=
        (fun r => (fun col => if has_column df col then to_numeric (row_get r col NaN) else None)
                    <$> DEFINE_NUMERIC cfg) <$> df_group in
      (features_array,
       mkCaches (score_cache caches) (<[cache_key indices := features_array]> (feature_cache caches)))
  end.

(** pandas [Series.var()]: the sample variance (ddof = 1) *)
Definition sample_variance (vals : list Q) : Q :=
  let m := Qmean vals in
  Qsum ((fun x => (x - m) * (x - m)) <$> vals) / inject_Z (Z.of_nat (length vals) - 1).

(** the list [div_vars] *)
Definition div_vars `{Runtime} (cfg : Config) (df : DataFrame)
    (df_group : list (gmap string cell)) : list Q :=
  foldl (fun acc col =>
           if has_column df col then
             let vals := omap to_numeric (column_values df_group col) in
             if bool_decide (1 < length vals)%nat then acc ++ [sample_variance vals] else acc
           else acc) [] (DEFINE_NUMERIC cfg).

(** the numeric diversity term D *)
Definition diversity `{Runtime} (cfg : Config) (df : DataFrame)
    (df_group : list (gmap string cell)) : Q :=
  match div_vars cfg df df_group with
  | [] => 0
  | vs => Qmean vs
  end.

(** [np.nanmin] and [np.nanmax] of a column: NaN when the column is all NaN *)
Definition nanmin (col : list (option Q)) : option Q :=
  match omap id col with [] => None | x :: l => Some (foldl py_min x l) end.
Definition nanmax (col : list (option Q)) : option Q :=
  match omap id col with [] => None | x :: l => Some (foldl py_max x l) end.

Definition column_of (X : list (list (option Q))) (k : nat) : list (option Q) :=
  (fun row => default None (row !! k)) <$> X.

(** [Xn]: the valid columns, min-max normalised; a zero range divides by 1 *)
Definition normalized_features (X : list (list (option Q))) (ncols : nat) : list (list (option Q)) :=
  let valid_cols :=
    filter (fun k => negb (bool_decide (nanmin (column_of X k) = None)
                           && bool_decide (nanmax (column_of X k) = None)) = true)
           (seq 0 ncols) in
  (fun row =>
     (fun k =>
        match default None (row !! k), nanmin (column_of X k), nanmax (column_of X k) with
        | Some x, Some col_min, Some col_max =>
            let denom := col_max - col_min in
            let denom := if Qeq_bool denom 0 then 1 else denom in
            Some ((x - col_min) / denom)
        | _, _, _ => None
        end) <$> valid_cols) <$> X.

(** [itertools.combinations(l, 2)] *)
Fixpoint combinations2 {A : Type} (l : list A) : list (A * A) :=
  match l with
  | [] => []
  | x :: l' => (pair x <$> l') ++ combinations2 l'
  end.

(** [np.linalg.norm(u - v)] for two rows without NaN, else [None] *)
Definition row_distance `{Runtime} (u v : list (option Q)) : option Q :=
  if existsb (fun a : option Q => bool_decide (a = None)) u
     || existsb (fun a : option Q => bool_decide (a = None)) v
  then None
  else Some (sqrtQ (Qsum (zip_with (fun a b => (a - b) * (a - b)) (omap id u) (omap id v)))).

(** the similarity bonus S, from the feature array [X] *)
Definition sim_bonus_of `{Runtime} (cfg : Config) (X : list (list (option Q))) : Q :=
  let ncols := length (DEFINE_NUMERIC cfg) in
  let any_valid :=
    existsb (fun k => negb (bool_decide (nanmin (column_of X k) = None)
                            && bool_decide (nanmax (column_of X k) = None))) (seq 0 ncols) in
  if negb any_valid then 0
  else
    let Xn := normalized_features X ncols in
    if bool_decide (2 <= length Xn)%nat then
      let valid_pairs := omap (fun p => row_distance p.1 p.2) (combinations2 Xn) in
      match valid_pairs with
      | [] => 0
      | _ => 1 / (1 + Qmean valid_pairs)
      end
    else 0.

(** the locals of the soft-categorical loop: the running score and which of
    the names [value_counts], [diversity_bonus], [balance_score] are bound *)
Record CatLocals : Type := mkCatLocals {
  categorical_diversity_score : Q;
  value_counts_bound : bool;
  diversity_bonus_bound : bool;
  balance_score_bound : bool
}.

(** one round of the soft-categorical loop; [None] is the NameError of the
    [explain] record when it reads a name that no round has bound yet *)
Definition categorical_round `{Runtime} (df : DataFrame) (df_group : list (gmap string cell))
    (explain : bool) (st : CatLocals) (item : string * string) : option CatLocals :=
  let '(col, scoring_type) := item in
  if has_column df col then
    let values := (fun c => strip (str_of_cell c)) <$> column_values df_group col in
    let unique_values := length (remove_dups values) in
    let st :=
      if String.eqb scoring_type "diversity" then
        let diversity_bonus :=
          inject_Z (Z.of_nat unique_values) / inject_Z (Z.of_nat (length df_group)) in
        mkCatLocals (categorical_diversity_score st + diversity_bonus)
                    (value_counts_bound st) true (balance_score_bound st)
      else if String.eqb scoring_type "balance" then
        if bool_decide (1 < unique_values)%nat then
          let balance_score := py_min 1 (inject_Z (Z.of_nat unique_values) / 3) in
          mkCatLocals (categorical_diversity_score st + balance_score)
                      true (diversity_bonus_bound st) true
        else mkCatLocals (categorical_diversity_score st) true
                         (diversity_bonus_bound st) (balance_score_bound st)
      else st in
    if explain then
      if value_counts_bound st
         && (if String.eqb scoring_type "diversity" then diversity_bonus_bound st
             else balance_score_bound st)
      then Some st else None
    else Some st
  else Some st.

(** the categorical diversity term C *)
Definition categorical_term `{Runtime} (cfg : Config) (df : DataFrame)
    (df_group : list (gmap string cell)) (explain : bool) : option Q :=
  categorical_diversity_score <$>
    foldl (fun st item => st ≫= fun st => categorical_round df df_group explain st item)
          (Some (mkCatLocals 0 false false false)) (SOFT_CATEGORICAL cfg).

(** the mean Jaccard overlap of one soft multi-choice column, when some pair
    has a non-empty union *)
Definition average_overlap (sets_list : list (gset string)) : option Q :=
  let ratios :=
    omap (fun p : gset string * gset string =>
            let intersection_size := size (p.1 ∩ p.2) in
            let union_size := size (p.1 ∪ p.2) in
            if bool_decide (0 < union_size)%nat
            then Some (inject_Z (Z.of_nat intersection_size) / inject_Z (Z.of_nat union_size))
            else None) (combinations2 sets_list) in
  match ratios with
  | [] => None
  | _ => Some (Qsum ratios / inject_Z (Z.of_nat (length ratios)))
  end.

(** the multi-choice overlap term M *)
Definition multi_choice_term `{Runtime} (cfg : Config) (rules : NormRules) (df : DataFrame)
    (df_group : list (gmap string cell)) : Q :=
  foldl (fun multi_choice_overlap_score '(col, scoring_type) =>
           if has_column df col && String.eqb scoring_type "overlap_bonus" then
             let sets_list :=
               (fun val => to_set rules val (Some col)) <$> column_values df_group col in
             match average_overlap sets_list with
             | Some avg_overlap => multi_choice_overlap_score + avg_overlap
             | None => multi_choice_overlap_score
             end
           else multi_choice_overlap_score) 0 (SOFT_MULTI_CHOICE cfg).

(** the similarity bonus S, through the feature cache *)
Definition similarity_term `{Runtime} (cfg : Config) (df : DataFrame) (caches : Caches)
    (df_group : list (gmap string cell)) (indices : list nat) : Q * Caches :=
  if bool_decide (2 <= length df_group)%nat
     && negb (bool_decide (div_vars cfg df df_group = []))
  then
    let '(X, caches) := get_cached_features cfg df caches df_group indices in
    (sim_bonus_of cfg X, caches)
  else (0, caches).

(** [group_score(df_group, explain)[0]] with the caches it reads and writes.
    [indices] is [df_group.index.tolist()]; [None] is an exception. *)
Definition group_score `{Runtime} (cfg : Config) (rules : NormRules) (df : DataFrame)
    (caches : Caches) (indices : list nat) (df_group : list (gmap string cell))
    (explain : bool) : option (Q * Caches) :=
  if bool_decide (df_group = []) || bool_decide (columns df = []) then
    Some (- (1000000000), caches)
  else
    let hit :=
      match score_cache caches !! cache_key indices with
      | Some cached => if negb explain then Some cached else None
      | None => None
      end in
    match hit with
    | Some cached => Some (cached, caches)
    | None =>
        let diversity := diversity cfg df df_group in
        let '(sim_bonus, caches) := similarity_term cfg df caches df_group indices in
        categorical_diversity_score ← categorical_term cfg df df_group explain;
        let multi_choice_overlap_score := multi_choice_term cfg rules df df_group in
        let score := BETA_DIVERSITY cfg * diversity
                     + GAMMA_SIMILARITY cfg * sim_bonus
                     + CATEGORICAL_DIVERSITY cfg * categorical_diversity_score
                     + MULTI_CHOICE_OVERLAP cfg * multi_choice_overlap_score in
        Some (score,
              mkCaches (<[cache_key indices := score]> (score_cache caches))
                       (feature_cache caches))
    end.

(** ** The greedy group builder *)

(** [sum(compat_matrix[local_idx, j] for j in local_indices if j != local_idx)] *)
Definition compat_count (compat_matrix : matrix) (local_indices : list nat) (local_idx : nat)
    : option nat :=
  row ← mapM (fun j => mget compat_matrix local_idx j)
             (filter (fun j => j ≠ local_idx) local_indices);
  Some (length (filter (fun b => b = true) row)).

(** [enumerate(local_indices)] paired with [candidates[i]]; [None] is the
    IndexError of [candidates[i]] *)
Definition enumerate_candidates (candidates local_indices : list nat) : option (list (nat * nat)) :=
  mapM (fun '(i, local_idx) => global_idx ← candidates !! i; Some (local_idx, global_idx))
       (imap pair local_indices).

(** the dict [compat_counts] *)
Definition compat_counts (compat_matrix : matrix) (candidates local_indices : list nat)
    : option (list (nat * nat)) :=
  pairs ← enumerate_candidates candidates local_indices;
  foldl (fun acc '(local_idx, global_idx) =>
           d ← acc;
           c ← compat_count compat_matrix local_indices local_idx;
           Some (dict_set d global_idx c)) (Some []) pairs.

(** [seed_global = min(compat_counts, key=compat_counts.get)] *)
Definition choose_seed (compat_matrix : matrix) (candidates local_indices : list nat)
    : option nat :=
  counts ← compat_counts compat_matrix candidates local_indices;
  dict_argmin counts.

(** [all(compat_matrix[local_idx, g] for g in group_local)], lazily *)
Fixpoint all_compatible (compat_matrix : matrix) (local_idx : nat) (group_local : list nat)
    : option bool :=
  match group_local with
  | [] => Some true
  | g_local :: rest =>
      match mget compat_matrix local_idx g_local with
      | None => None
      | Some false => Some false
      | Some true => all_compatible compat_matrix local_idx rest
      end
  end.

(** [best_cand_global] after the scoring loop, from the pairs
    (candidate, score) in the order of [feasibles_global] *)
Definition pick_best (scored : list (nat * Q)) : option nat :=
  fst (foldl (fun best '(global_idx, score) =>
                if negb (Qle_bool score (snd best)) then (Some global_idx, score) else best)
             (None, - (1000000000)) scored).

Section Builder.
(** The builder calls [pass_group_constraints(df.loc[g])] and
    [group_score(df.loc[g])] on the frame it is given; [St] is the state
    the scorer keeps between calls (its caches). *)
Context {St : Type}.
Variable group_size : Z.
Variable group_ok : list nat -> option bool.
Variable score : St -> list nat -> option (Q * St).

(** the body of the loop that builds [feasibles_global]: is [global_idx]
    compatible with every member, and does the group with it pass the group
    constraints *)
Definition is_feasible (compat_matrix : matrix) (global_to_local : list (nat * nat))
    (group_global : list nat) (global_idx : nat) : option bool :=
  local_idx ← dict_get global_to_local global_idx;
  group_local ← mapM (dict_get global_to_local) group_global;
  ok ← all_compatible compat_matrix local_idx group_local;
  if negb ok then Some false
  else group_ok (group_global ++ [global_idx]).

(** the list [feasibles_global] of one round of the [while] loop *)
Definition feasibles (compat_matrix : matrix) (global_to_local : list (nat * nat))
    (group_global remaining_global : list nat) : option (list nat) :=
  foldl (fun acc global_idx =>
           feasibles_global ← acc;
           feasible ← is_feasible compat_matrix global_to_local group_global global_idx;
           Some (if feasible : bool then feasibles_global ++ [global_idx] else feasibles_global))
        (Some []) remaining_global.

(** the scores of [group_global + [x]] for the feasible [x], in order *)
Fixpoint score_all (st : St) (group_global feasibles_global : list nat)
    : option (list (nat * Q) * St) :=
  match feasibles_global with
  | [] => Some ([], st)
  | global_idx :: rest =>
      '(s, st) ← score st (group_global ++ [global_idx]);
      '(scored, st) ← score_all st group_global rest;
      Some ((global_idx, s) :: scored, st)
  end.

(** One round of the [while] loop: [Some (None, _)] is the [break],
    [Some (Some x, _)] appends [x].  When no score exceeds -1e9 the code
    appends [None] and [remaining_global.remove(None)] raises. *)
Definition extend_step (compat_matrix : matrix) (global_to_local : list (nat * nat))
    (st : St) (group_global remaining_global : list nat) : option (option nat * St) :=
  feasibles_global ← feasibles compat_matrix global_to_local group_global remaining_global;
  match feasibles_global with
  | [] => Some (None, st)
  | _ =>
      '(scored, st) ← score_all st group_global feasibles_global;
      best_cand_global ← pick_best scored;
      Some (Some best_cand_global, st)
  end.

(** The [while] loop.  [remaining_global] lists the set in its iteration
    order; [remove] keeps the order of the other elements.  Each round
    removes one element, so [fuel = len(remaining_global)] rounds suffice. *)
Fixpoint extend_loop (fuel : nat) (compat_matrix : matrix) (global_to_local : list (nat * nat))
    (st : St) (group_global remaining_global : list nat) : option (list nat * St) :=
  if (Z.of_nat (length group_global) <? group_size)%Z
     && negb (bool_decide (remaining_global = []))
  then
    match fuel with
    | O => None
    | S fuel =>
        '(r, st) ← extend_step compat_matrix global_to_local st group_global remaining_global;
        match r with
        | None => Some (group_global, st)
        | Some best_cand_global =>
            extend_loop fuel compat_matrix global_to_local st
              (group_global ++ [best_cand_global])
              (filter (fun g => g ≠ best_cand_global) remaining_global)
        end
    end
  else Some (group_global, st).

(** [build_one_group_optimized(df, candidates, compat_matrix, local_indices)] *)
Definition build_one_group_optimized `{Runtime} (st : St) (candidates : list nat)
    (compat_matrix : matrix) (local_indices : list nat) : option (list nat * St) :=
  if bool_decide (candidates = []) || bool_decide (local_indices = []) then Some ([], st)
  else
    pairs ← enumerate_candidates candidates local_indices;
    let local_to_global := foldl (fun d '(local_idx, global_idx) => dict_set d local_idx global_idx) [] pairs in
    let global_to_local := foldl (fun d '(local_idx, global_idx) => dict_set d global_idx local_idx) [] local_to_global in
    seed_global ← choose_seed compat_matrix candidates local_indices;
    let group_global := [seed_global] in
    let remaining_global := set_iter (filter (fun g => g ≠ seed_global) candidates) in
    '(group_global, st) ← extend_loop (length remaining_global) compat_matrix global_to_local
                            st group_global remaining_global;
    let min_group_size := 4%nat in
    let result := if bool_decide (min_group_size <= length group_global)%nat
                  then group_global else [] in
    Some (result, st).
End Builder.

(** ** The run driver of the legacy algorithm *)

(** [validate_config()]: [false] is an AssertionError *)
Definition validate_config (cfg : Config) : bool :=
  bool_decide (0 < GROUP_SIZE cfg)%Z
  && forallb (fun '(_, tol) => negb (Qle_bool tol 0)) (CUT_NUMERIC_TOL cfg)
  && forallb (fun weight => Qle_bool 0 weight)
       [ALPHA_CONSTRAINTS cfg; BETA_DIVERSITY cfg; GAMMA_SIMILARITY cfg]
  && match AGE_RULES cfg with
     | Some age_rules =>
         negb (bool_decide (bands age_rules = []))
         && forallb (fun band =>
                       Qle_bool (band_min band) (band_max band)
                       && match max_spread band with
                          | Some s => Qle_bool 0 s
                          | None => true
                          end) (bands age_rules)
     | None => true
     end.

(** [validate_dataframe(df)]: [false] is a ValueError *)
Definition validate_dataframe (cfg : Config) (df : DataFrame) : bool :=
  forallb (has_column df) (CUT_CATEGORICAL cfg)
  && forallb (has_column df) (CUT_MULTI cfg)
  && forallb (fun '(col, _) => has_column df col) (CUT_NUMERIC_TOL cfg)
  && forallb (has_column df) (DEFINE_NUMERIC cfg)
  && match AGE_RULES cfg with
     | Some age_rules => has_column df (field age_rules)
     | None => true
     end
  && negb (bool_decide (rows df = [])).

(** [subspace_key(row)]: the stripped values of the hard categorical columns
    (the column names of the key are the same for every row) *)
Definition subspace_key `{Runtime} (cfg : Config) (row : gmap string cell) : list (string * string) :=
  (fun col => (col, strip (str_of_cell (row_get row col (Str ""))))) <$> CUT_CATEGORICAL cfg.

(** [buckets[key].append(idx)] on a dict in insertion order *)
Fixpoint bucket_append {K : Type} `{EqDecision K} (buckets : list (K * list nat))
    (key : K) (idx : nat) : list (K * list nat) :=
  match buckets with
  | [] => [(key, [idx])]
  | (k, idxs) :: rest =>
      if decide (k = key) then (k, idxs ++ [idx]) :: rest
      else (k, idxs) :: bucket_append rest key idx
  end.

(** [partition_into_subspaces(df)] *)
Definition partition_into_subspaces `{Runtime} (cfg : Config) (df : DataFrame)
    : list (list (string * string) * list nat) :=
  foldl (fun buckets '(idx, row) => bucket_append buckets (subspace_key cfg row) idx)
        [] (imap pair (rows df)).

(** [l.index(x)]; [None] is a ValueError *)
Fixpoint list_index (l : list nat) (x : nat) : option nat :=
  match l with
  | [] => None
  | y :: l' => if (x =? y)%nat then Some O else S <$> list_index l' x
  end.

(** the state of [make_groups] between groups *)
Record RunState : Type := mkRunState {
  all_groups : list (list nat);
  used : gset nat;
  caches : Caches
}.

(** the callbacks of the builder on the frame [df] *)
Definition group_ok_on `{Runtime} (cfg : Config) (df : DataFrame) (g : list nat) : option bool :=
  df_try ← iloc df g; Some (pass_group_constraints cfg df df_try).

Definition score_on `{Runtime} (cfg : Config) (rules : NormRules) (df : DataFrame)
    (caches : Caches) (g : list nat) : option (Q * Caches) :=
  df_group ← iloc df g; group_score cfg rules df caches g df_group false.

(** the [while True] loop of one subspace.  Every round that does not break
    marks at least one more member as used, so [len(pool) + 1] rounds suffice. *)
Fixpoint subspace_loop `{Runtime} (fuel : nat) (cfg : Config) (rules : NormRules)
    (df : DataFrame) (compat_matrix : matrix) (pool : list nat) (st : RunState)
    : option RunState :=
  let min_group_size := 4%nat in
  let available_candidates := filter (fun i => i ∉ used st) pool in
  if bool_decide (length available_candidates < min_group_size)%nat then Some st
  else
    match fuel with
    | O => None
    | S fuel =>
        local_indices ← mapM (list_index pool) available_candidates;
        '(group, caches) ← build_one_group_optimized (GROUP_SIZE cfg) (group_ok_on cfg df)
                             (score_on cfg rules df) (caches st)
                             available_candidates compat_matrix local_indices;
        if bool_decide (group = []) then Some (mkRunState (all_groups st) (used st) caches)
        else
          let used := used st ∪ list_to_set group in
          let pool := filter (fun i => i ∉ used) pool in
          subspace_loop fuel cfg rules df compat_matrix pool
            (mkRunState (all_groups st ++ [group]) used caches)
    end.

(** one round of the loop over the subspaces *)
Definition process_bucket `{Runtime} (cfg : Config) (rules : NormRules) (df : DataFrame)
    (st : RunState) (idxs : list nat) : option RunState :=
  let pool := filter (fun i => i ∉ used st) idxs in
  let min_group_size := 4%nat in
  if bool_decide (length pool < min_group_size)%nat then Some st
  else
    compat_matrix ← build_compatibility_matrix_per_subspace cfg rules df pool;
    subspace_loop (S (length pool)) cfg rules df compat_matrix pool st.

(** [make_groups(df)]; [None] is an exception *)
Definition make_groups `{Runtime} (cfg : Config) (rules : NormRules) (df : DataFrame)
    (caches : Caches) : option (list (list nat)) :=
  if VALIDATE_INPUT cfg && negb (validate_config cfg && validate_dataframe cfg df) then None
  else
    let caches := clear_caches caches in
    let subspaces := partition_into_subspaces cfg df in
    all_groups <$>
      foldl (fun st '(_, idxs) => st ≫= fun st => process_bucket cfg rules df st idxs)
            (Some (mkRunState [] ∅ caches)) subspaces.

(** ** The grouping engine ([grouping_engine.py]) *)

(** A cell of the features frame: as a CSV cell, or a list of strings (a
    normalised categorical feature). *)
Inductive fcell : Type :=
  | FNaN
  | FStr (s : string)
  | FNum (q : Q)
  | FList (l : list string).

Record FeaturesFrame : Type := mkFF {
  fcolumns : list string;
  frows : list (gmap string fcell)
}.

(** the policy after [_parse_policy] *)
Record Policy : Type := mkPolicy {
  group_size : Z;
  subspaces : list (list string);
  categorical_equal : list string;
  multi_overlap : list string;
  numeric_tol : list (string * Q);
  numeric_features : list string;
  weights : list (string * Q);
  age_rules : option AgeRules;
  flexible_answers : gset string;
  min_group_size : Z;
  max_group_size : Z;
  defer_if_infeasible : bool
}.

(** [pd.notna(v)] *)
Definition notna (c : fcell) : bool :=
  match c with FNaN => false | _ => true end.

(** [str(v)]; of a list, the bracketed list of its quoted items *)
Definition str_of_fcell `{Runtime} (c : fcell) : string :=
  match c with
  | FNaN => "nan"
  | FStr s => s
  | FNum q => float_str q
  | FList l =>
      String.append "["
        (String.append
           (String.concat ", " ((fun s => String.append "'" (String.append s "'")) <$> l)) "]")
  end.

(** the set read off one value by [_check_categorical_match] *)
Definition categorical_set `{Runtime} (val : fcell) : gset string :=
  match val with
  | FList l => list_to_set l
  | _ => if notna val then {[strip (str_of_fcell val)]} else ∅
  end.

(** [_check_categorical_match(val1, val2)] *)
Definition _check_categorical_match `{Runtime} (val1 val2 : fcell) : bool :=
  let set1 := categorical_set val1 in
  let set2 := categorical_set val2 in
  if negb (bool_decide (set1 = ∅)) && negb (bool_decide (set2 = ∅))
  then bool_decide (0 < size (set1 ∩ set2))%nat
  else false.

(** [_check_multi_overlap(val1, val2)] *)
Definition _check_multi_overlap (val1 val2 : fcell) : bool :=
  let set1 : gset string := match val1 with FList l => list_to_set l | _ => ∅ end in
  let set2 : gset string := match val2 with FList l => list_to_set l | _ => ∅ end in
  bool_decide (0 < size (set1 ∩ set2))%nat.

(** [float(v)]; [None] is the ValueError or TypeError it raises *)
Definition float_of_fcell `{Runtime} (c : fcell) : option Q :=
  match c with
  | FNum q => Some q
  | FStr s => float_of_str s
  | _ => None
  end.

(** [_check_age_compatibility(age1, age2)] on two numbers *)
Definition engine_age_compatible (r : AgeRules) (age1 age2 : Q) : bool :=
  let bands1 := bands_of (bands r) age1 in
  let bands2 := bands_of (bands r) age2 in
  let common := filter (fun i => i ∈ bands2) bands1 in
  if existsb (fun band_idx =>
                match bands r !! band_idx ≫= max_spread with
                | None => true
                | Some s => within_tol age1 age2 s
                end) common
  then true
  else if allow_cross_band r then within_tol age1 age2 (boundary_slack_years r)
  else false.

(** [_check_age_compatibility(age1, age2)] on two cells that are not NaN.
    An age that is not a number raises TypeError at the first comparison with
    a band or at the subtraction; without bands and without cross-band the
    ages are not touched. *)
Definition _check_age_compatibility (rules : option AgeRules) (age1 age2 : fcell) : option bool :=
  match rules with
  | None => Some true
  | Some r =>
      match age1, age2 with
      | FNum a1, FNum a2 => Some (engine_age_compatible r a1 a2)
      | _, _ =>
          if bool_decide (bands r = []) && negb (allow_cross_band r) then Some false
          else None
      end
  end.

(** [df.iloc[i][field]]; a key absent from the row record is NaN *)
Definition fcell_at (df_subset : list (gmap string fcell)) (i : nat) (fld : string) : option fcell :=
  r ← df_subset !! i; Some (default FNaN (r !! fld)).

(** [compat[i, j] = compat[j, i] = False] *)
Definition clear_pair (compat : matrix) (i j : nat) : matrix :=
  mset (mset compat i j false) j i false.

(** the loop over [categorical_equal] for the pair (i, j): [Some true] when
    it ends in the [break] after clearing the pair *)
Fixpoint categorical_break `{Runtime} (ff : FeaturesFrame) (df_subset : list (gmap string fcell))
    (i j : nat) (fields : list string) : option bool :=
  match fields with
  | [] => Some false
  | fld :: rest =>
      if bool_decide (fld ∈ fcolumns ff) then
        val_i ← fcell_at df_subset i fld;
        val_j ← fcell_at df_subset j fld;
        if negb (_check_categorical_match val_i val_j) then Some true
        else categorical_break ff df_subset i j rest
      else categorical_break ff df_subset i j rest
  end.

(** the loop over [multi_overlap] for the pair (i, j) *)
Fixpoint multi_break (ff : FeaturesFrame) (df_subset : list (gmap string fcell))
    (i j : nat) (fields : list string) : option bool :=
  match fields with
  | [] => Some false
  | fld :: rest =>
      if bool_decide (fld ∈ fcolumns ff) then
        val_i ← fcell_at df_subset i fld;
        val_j ← fcell_at df_subset j fld;
        if negb (_check_multi_overlap val_i val_j) then Some true
        else multi_break ff df_subset i j rest
      else multi_break ff df_subset i j rest
  end.

(** the loop over [numeric_tol] for the pair (i, j): the difference is only
    looked at when both values are present *)
Fixpoint numeric_break `{Runtime} (ff : FeaturesFrame) (df_subset : list (gmap string fcell))
    (i j : nat) (fields : list (string * Q)) : option bool :=
  match fields with
  | [] => Some false
  | (fld, tol) :: rest =>
      if bool_decide (fld ∈ fcolumns ff) then
        val_i ← fcell_at df_subset i fld;
        val_j ← fcell_at df_subset j fld;
        if notna val_i && notna val_j then
          x ← float_of_fcell val_i;
          y ← float_of_fcell val_j;
          if negb (within_tol x y tol) then Some true
          else numeric_break ff df_subset i j rest
        else numeric_break ff df_subset i j rest
      else numeric_break ff df_subset i j rest
  end.

(** the pair is cleared when the loop over the fields broke *)
Definition clear_if (broke : bool) (compat : matrix) (i j : nat) : matrix :=
  if broke then clear_pair compat i j else compat.

(** the body of the double loop of [_build_compatibility_matrix] *)
Definition engine_pair_step `{Runtime} (p : Policy) (ff : FeaturesFrame)
    (df_subset : list (gmap string fcell)) (compat : matrix) (i j : nat) : option matrix :=
  broke ← categorical_break ff df_subset i j (categorical_equal p);
  let compat := clear_if broke compat i j in
  c ← mget compat i j;
  if negb c then Some compat
  else
    broke ← multi_break ff df_subset i j (multi_overlap p);
    let compat := clear_if broke compat i j in
    c ← mget compat i j;
    if negb c then Some compat
    else
      broke ← numeric_break ff df_subset i j (numeric_tol p);
      let compat := clear_if broke compat i j in
      match age_rules p with
      | Some r =>
          c ← mget compat i j;
          if negb c then Some compat
          else if bool_decide (field r ∈ fcolumns ff) then
            age_i ← fcell_at df_subset i (field r);
            age_j ← fcell_at df_subset j (field r);
            if notna age_i && notna age_j then
              ok ← _check_age_compatibility (age_rules p) age_i age_j;
              if negb ok then Some (clear_pair compat i j) else Some compat
            else Some compat
          else Some compat
      | None => Some compat
      end.

(** [np.fill_diagonal(compat, True)] is [set_diag]. *)

(** [_build_compatibility_matrix(df, indices)]; [None] is an exception *)
Definition _build_compatibility_matrix `{Runtime} (p : Policy) (ff : FeaturesFrame)
    (df_subset : list (gmap string fcell)) (indices : list nat) : option matrix :=
  let n := length indices in
  compat ← pair_loop n (fun acc i j => acc ≫= fun compat => engine_pair_step p ff df_subset compat i j)
             (Some (ones n));
  Some (set_diag compat).

(** the order of Python strings: by code point, that is by UTF-8 byte *)
Definition str_le (a b : string) : Prop := String.leb a b = true.

#[global] Instance str_le_dec : RelDecision str_le.
Proof. intros a b. unfold str_le. apply _. Defined.

(** [",".join(sorted(l))] *)
Definition join_sorted (l : list string) : string :=
  String.concat "," (merge_sort str_le l).

(** the text of [value] in the f-string [f"{field}={value}"]; [row.get]
    gives [None] for an absent field *)
Definition key_value_text `{Runtime} (row : gmap string fcell) (fld : string) : string :=
  match row !! fld with
  | None => "None"
  | Some (FList l) => join_sorted l
  | Some v => str_of_fcell v
  end.

(** the composite key of one row *)
Definition composite_key `{Runtime} (p : Policy) (row : gmap string fcell) : string :=
  String.concat "||"
    ((fun subspace_fields =>
        String.concat "|"
          ((fun fld => String.append fld (String.append "=" (key_value_text row fld)))
             <$> subspace_fields)) <$> subspaces p).

(** [_partition_by_subspaces()] *)
Definition _partition_by_subspaces `{Runtime} (p : Policy) (ff : FeaturesFrame)
    : list (string * list nat) :=
  foldl (fun partitions '(idx, row) => bucket_append partitions (composite_key p row) idx)
        [] (imap pair (frows ff)).

(** what the engine keeps of an explanation here: the subspace key, the
    members, the score and the size (the other entries are copies of the
    policy and of the members' values) *)
Record Explanation : Type := mkExplanation {
  e_subspace : string;
  e_members : list nat;
  e_group_score : Q;
  e_group_size : nat
}.

Section Engine.
Context `{Runtime} {St : Type}.
(** the module constant [GROUP_SIZE] of the legacy algorithm, and its
    [pass_group_constraints] and [group_score] on the features frame *)
Variable legacy_group_size : Z.
Variable group_ok : list nat -> option bool.
Variable score : St -> list nat -> option (Q * St).
(** [group_score(df_group, explain=True)] *)
Variable score_explain : St -> list nat -> option (Q * St).

Record EngineState : Type := mkEngineState {
  groups : list (list nat);
  ungrouped : gset nat;
  explanations : list Explanation;
  scorer_state : St
}.

(** [_build_group]: the legacy builder on [self.features_df] *)
Definition _build_group (st : St) (candidates : list nat) (compat_matrix : matrix)
    (local_indices : list nat) : option (list nat * St) :=
  build_one_group_optimized legacy_group_size group_ok score st
    candidates compat_matrix local_indices.

(** [_create_group_explanation(group, subspace_key)] *)
Definition _create_group_explanation (st : St) (group : list nat) (subspace_key : string)
    : option (Explanation * St) :=
  '(s, st) ← score_explain st group;
  Some (mkExplanation subspace_key group s (length group), st).

(** [self.features_df.iloc[available]] *)
Definition features_iloc (ff : FeaturesFrame) (available : list nat)
    : option (list (gmap string fcell)) :=
  mapM (fun i => frows ff !! i) available.

(** the [while] loop of [_process_subspace]; every round that does not
    break takes at least one member out of [available] *)
Fixpoint process_loop (fuel : nat) (p : Policy) (ff : FeaturesFrame) (subspace_key : string)
    (available : list nat) (compat_matrix : matrix) (es : EngineState) : option EngineState :=
  if bool_decide (min_group_size p <= Z.of_nat (length available))%Z then
    match fuel with
    | O => None
    | S fuel =>
        let local_indices := seq 0 (length available) in
        '(group, st) ← _build_group (scorer_state es) available compat_matrix local_indices;
        if bool_decide (group = [])
        then Some (mkEngineState (groups es) (ungrouped es) (explanations es) st)
        else
          let ungrouped := ungrouped es ∖ list_to_set group in
          '(explanation, st) ← _create_group_explanation st group subspace_key;
          let es := mkEngineState (groups es ++ [group]) ungrouped
                      (explanations es ++ [explanation]) st in
          let available := filter (fun i => i ∈ ungrouped) available in
          if bool_decide (available = []) then
            process_loop fuel p ff subspace_key available compat_matrix es
          else
            df_subset ← features_iloc ff available;
            compat_matrix ← _build_compatibility_matrix p ff df_subset available;
            process_loop fuel p ff subspace_key available compat_matrix es
    end
  else Some es.

(** [_process_subspace(subspace_key, indices)] *)
Definition _process_subspace (p : Policy) (ff : FeaturesFrame) (es : EngineState)
    (subspace_key : string) (indices : list nat) : option EngineState :=
  let available := filter (fun i => i ∈ ungrouped es) indices in
  if bool_decide (Z.of_nat (length available) < min_group_size p)%Z then Some es
  else
    df_subset ← features_iloc ff available;
    compat_matrix ← _build_compatibility_matrix p ff df_subset available;
    process_loop (S (length available)) p ff subspace_key available compat_matrix es.

(** [GroupingEngine(policy, features_df).run()] *)
Definition run (p : Policy) (ff : FeaturesFrame) (st : St)
    : option (list (list nat) * list Explanation) :=
  let subspace_partitions :=
    if negb (bool_decide (subspaces p = [])) then _partition_by_subspaces p ff
    else [("global", seq 0 (length (frows ff)))] in
  es ← foldl (fun es '(subspace_key, indices) =>
                es ≫= fun es => _process_subspace p ff es subspace_key indices)
             (Some (mkEngineState [] (list_to_set (seq 0 (length (frows ff)))) [] st))
             subspace_partitions;
  Some (groups es, explanations es).
End Engine.


(** ** The engine after a run, and its statistics *)

Section EngineStatistics.
Context `{Runtime} {St : Type}.
Variable legacy_group_size : Z.
Variable group_ok : list nat -> option bool.
Variable score : St -> list nat -> option (Q * St).
Variable score_explain : St -> list nat -> option (Q * St).

(** the engine object when [run()] returns: [run] hands out its [groups] and
    [explanations] *)
Definition run_engine (p : Policy) (ff : FeaturesFrame) (st : St) : option (@EngineState St) :=
  let subspace_partitions :=
    if negb (bool_decide (subspaces p = [])) then _partition_by_subspaces p ff
    else [("global", seq 0 (length (frows ff)))] in
  foldl (fun es '(subspace_key, indices) =>
           es ≫= fun es => _process_subspace legacy_group_size group_ok score score_explain
                             p ff es subspace_key indices)
        (Some (mkEngineState [] (list_to_set (seq 0 (length (frows ff)))) [] st))
        subspace_partitions.
End EngineStatistics.

(** the dict that [get_statistics()] returns *)
Record Statistics : Type := mkStatistics {
  total_participants : nat;
  total_groups : nat;
  (** [len(self.features_df) - len(self.ungrouped)], a Python int *)
  grouped_participants : Z;
  ungrouped_participants : nat;
  group_sizes : list nat;
  average_group_size : Q;
  average_group_score : Q
}.

(** [get_statistics()] *)
Definition get_statistics {St : Type} (ff : FeaturesFrame) (es : @EngineState St) : Statistics :=
  {| total_participants := length (frows ff);
     total_groups := length (groups es);
     grouped_participants := Z.of_nat (length (frows ff)) - Z.of_nat (size (ungrouped es));
     ungrouped_participants := size (ungrouped es);
     group_sizes := length <$> groups es;
     average_group_size :=
       if negb (bool_decide (groups es = []))
       then Qmean ((fun g => inject_Z (Z.of_nat (length g))) <$> groups es) else 0;
     average_group_score :=
       if negb (bool_decide (explanations es = []))
       then Qmean (e_group_score <$> explanations es) else 0 |}.

(** ** The normalisation service ([normalization.py]) *)

(** [NormalizationConfig] of a field, with the options of the field *)
Record FieldRules : Type := mkFieldRules {
  wildcards : gset string;
  expansion : gset string;
  synonyms : gmap string string;
  options : gset string
}.

(** a [FieldDefinition], as far as the rules read it *)
Record FieldDefinition : Type := mkField {
  fd_name : string;
  fd_options : option (list string);
  fd_normalization : option (list string * list string * gmap string string)
}.

Record NormalizationService : Type := mkService {
  svc_flexible_answers : gset string;
  normalization_rules : gmap string FieldRules
}.



(** [service.build_normalization_rules(fields)] *)
Definition service_build_rules (svc : NormalizationService) (fields : list FieldDefinition)
    : NormalizationService :=
  foldl (fun svc fd =>
           match fd_normalization fd with
           | None => svc
           | Some (w, e, syn) =>
               mkService (svc_flexible_answers svc)
                 (<[fd_name fd :=
                      mkFieldRules (list_to_set w) (list_to_set e) syn
                        (list_to_set (default [] (fd_options fd)))]>
                    (normalization_rules svc))
           end) svc fields.

(** [service.normalize_answer(value, field_name)] *)
Definition service_normalize_answer `{Runtime} (svc : NormalizationService)
    (value : cell) (field_name : string) : gset string :=
  if isna value || is_empty_str value then ∅
  else
    let value_str := strip (str_of_cell value) in
    match normalization_rules svc !! field_name with
    | None => {[value_str]}
    | Some rules =>
        let value_str := default value_str (synonyms rules !! value_str) in
        if bool_decide (value_str ∈ wildcards rules)
           || bool_decide (value_str ∈ svc_flexible_answers svc)
        then
          if negb (bool_decide (expansion rules = ∅)) then expansion rules
          else if negb (bool_decide (options rules = ∅)) then options rules
          else {[value_str]}
        else {[value_str]}
    end.


(** ** The multi-choice normalisers *)

(** [normalize_multi_answer(answer, column)] of the legacy module, on a cell
    of a CSV frame: unlike [to_set] it keeps the blank parts *)
Definition normalize_multi_answer `{Runtime} (rules : NormRules) (answer : cell)
    (column : string) : gset string :=
  if isna answer || is_empty_str answer then ∅
  else
    let parts := strip <$> split_comma (str_of_cell answer) in
    foldl (fun normalized_parts part => normalized_parts ∪ normalize_answer rules part column)
          ∅ parts.

(** [service.normalize_multi_answer(value, field_name)] on a scalar value (a
    string, a number or a missing value) *)
Definition service_normalize_multi_answer `{Runtime} (svc : NormalizationService)
    (value : cell) (field_name : string) : gset string :=
  if isna value || is_empty_str value then ∅
  else
    let parts := filter (fun p => nonempty_str p = true)
                   (strip <$> split_comma (str_of_cell value)) in
    foldl (fun result part => result ∪ service_normalize_answer svc (Str part) field_name)
          ∅ parts.

(** ** The band of an age *)

(** the loop of [get_age_band]: the index of the first band, counted from
    [i], that contains the age; -1 when there is none *)
Fixpoint first_band (bs : list AgeBand) (age : Q) (i : Z) : Z :=
  match bs with
  | [] => (-1)%Z
  | band :: rest => if in_band age band then i else first_band rest age (i + 1)%Z
  end.

(** [get_age_band(age, age_rules)]; a missing age is [None] *)
Definition get_age_band (age : option Q) (age_rules : option AgeRules) : Z :=
  match age_rules, age with
  | Some r, Some a => first_band (bands r) a 0%Z
  | _, _ => (-1)%Z
  end.

(** ** A concrete runtime, for the examples

    Floats print and parse as whole numbers, the square root is exact on
    squares, and a set of ints is iterated by slot of an 8-slot hash table:
    the order of CPython for a set of at most four small ints with distinct
    residues modulo 8 ([list({1, 2, 3, 8})] is [[8, 1, 2, 3]]). *)

Definition example_float_str (q : Q) : string :=
  String.append (pretty (Qnum q / Zpos (Qden q))%Z) ".0".

Fixpoint parse_digits (acc : Z) (s : string) : option Z :=
  match s with
  | EmptyString => Some acc
  | String a s' =>
      let n := nat_of_ascii a in
      if (48 <=? n)%nat && (n <=? 57)%nat
      then parse_digits (10 * acc + Z.of_nat (n - 48))%Z s'
      else None
  end.

Definition example_float_of_str (s : string) : option Q :=
  match s with
  | EmptyString => None
  | _ => inject_Z <$> parse_digits 0 s
  end.

Definition slot_le (a b : nat) : Prop := (a mod 8 <= b mod 8)%nat.

#[global] Instance slot_le_dec : RelDecision slot_le.
Proof. intros a b. unfold slot_le. apply _. Defined.

Definition small_table_order (l : list nat) : list nat :=
  merge_sort slot_le (remove_dups l).

Definition example_sqrt (q : Q) : Q :=
  Z.sqrt (Qnum q * Zpos (Qden q)) # Qden q.

Definition cpython_runtime : Runtime :=
  {| float_str := example_float_str;
     float_of_str := example_float_of_str;
     set_iter := small_table_order;
     set_iter_perm := fun l => merge_sort_Permutation slot_le (remove_dups l);
     sqrtQ := example_sqrt |}.

(** ** Example data

    Small frames, configurations and policies on which the definitions above
    are evaluated in the examples that follow the properties. *)

Definition no_caches : Caches := mkCaches ∅ ∅.

(** three participants: a language (hard categorical), areas (hard
    multi-choice) and a budget (numeric tolerance 2); the third one left the
    areas and the budget blank *)
Definition ex_row_he : gmap string cell :=
  {[ "lang" := Str "he"; "area" := Str "north, south"; "budget" := Num 3 ]}.
Definition ex_row_any : gmap string cell :=
  {[ "lang" := Str "any"; "area" := Str "south"; "budget" := Num 5 ]}.
Definition ex_row_en : gmap string cell :=
  {[ "lang" := Str "en"; "area" := NaN; "budget" := NaN ]}.

Definition ex_df : DataFrame :=
  mkDF ["lang"; "area"; "budget"] [ex_row_he; ex_row_any; ex_row_en].

Definition ex_cfg : Config :=
  mkConfig ["lang"] ["area"] [("budget", 2)] [] None 6 true [] [] 0
    1 (2 # 10) (1 # 10) (1 # 10) {[ "any" ]}.

Definition ex_rules : NormRules :=
  @build_normalization_rules cpython_runtime ex_cfg ex_df ∅.

(** nine participants without any scored column, groups of four: every
    group scores the same *)
Definition tie_df : DataFrame := mkDF ["name"] (replicate 9 ∅).

Definition tie_cfg : Config :=
  mkConfig [] [] [] [] None 4 true [] [] 0 1 (2 # 10) (1 # 10) (1 # 10) ∅.

Definition tie_group_ok : list nat -> option bool :=
  @group_ok_on cpython_runtime tie_cfg tie_df.

Definition tie_score : Caches -> list nat -> option (Q * Caches) :=
  @score_on cpython_runtime tie_cfg ∅ tie_df.

(** the candidates 0, 1, 2, 3 and 8 at the local positions 0 to 4, and what
    remains of [set(candidates)] once the seed 0 is taken out *)
Definition tie_global_to_local : list (nat * nat) :=
  [(0, 0); (1, 1); (2, 2); (3, 3); (8, 4)]%nat.

Definition tie_remaining : list nat :=
  @set_iter cpython_runtime (filter (fun g => g ≠ 0%nat) [0; 1; 2; 3; 8]%nat).

(** one age band, 20 to 30, with a spread of 100 years, crossing allowed *)
Definition ex_age_rules : AgeRules :=
  mkAgeRules "age" [mkBand 20 30 (Some 100)] true None 2 None None.

(** two participants with a soft categorical column, a soft multi-choice
    column and a numeric feature, scored with the weights of [default_config] *)
Definition soft_cfg : Config :=
  mkConfig [] [] [] ["budget"] None 6 true
    [("lang", "balance")] [("area", "overlap_bonus")] 0
    (BETA_DIVERSITY default_config) (GAMMA_SIMILARITY default_config)
    (CATEGORICAL_DIVERSITY default_config) (MULTI_CHOICE_OVERLAP default_config) ∅.

Definition soft_df : DataFrame :=
  mkDF ["lang"; "area"; "budget"]
    [ {[ "lang" := Str "he"; "area" := Str "north, south"; "budget" := Num 3 ]};
      {[ "lang" := Str "en"; "area" := Str "south"; "budget" := Num 5 ]} ].


(** the engine with a numeric tolerance of 2 on the budget; the second
    participant has no budget *)
Definition gap_features : FeaturesFrame :=
  mkFF ["budget"] [ {[ "budget" := FNum 3 ]}; {[ "budget" := FNaN ]} ].

Definition gap_policy : Policy :=
  mkPolicy 6 [] [] [] [("budget", 2)] [] [] None ∅ 4 8 true.


(** the engine on five participants with the budgets 3, 3, 3, 1 and 5: the
    last two are more than 2 apart *)
Definition bug_features : FeaturesFrame :=
  mkFF ["budget"]
    [ {[ "budget" := FNum 3 ]}; {[ "budget" := FNum 3 ]}; {[ "budget" := FNum 3 ]};
      {[ "budget" := FNum 1 ]}; {[ "budget" := FNum 5 ]} ].

Definition bug_df : DataFrame :=
  mkDF ["budget"]
    [ {[ "budget" := Num 3 ]}; {[ "budget" := Num 3 ]}; {[ "budget" := Num 3 ]};
      {[ "budget" := Num 1 ]}; {[ "budget" := Num 5 ]} ].

(** a policy asking for groups of at least five, and one asking for groups
    of exactly four *)
Definition bug_policy : Policy :=
  mkPolicy 6 [] [] [] [("budget", 2)] [] [] None ∅ 5 8 true.

Definition small_policy : Policy :=
  mkPolicy 4 [] [] [] [] [] [] None ∅ 4 4 true.

(** the engine's run over [bug_features], the legacy module left at its
    defaults ([GROUP_SIZE = 6]) *)
Definition bug_run (p : Policy) : option (list (list nat) * list Explanation) :=
  @run cpython_runtime Caches (GROUP_SIZE default_config)
    (@group_ok_on cpython_runtime default_config bug_df)
    (@score_on cpython_runtime default_config ∅ bug_df)
    (fun c g => rows ← iloc bug_df g;
                @group_score cpython_runtime default_config ∅ bug_df c g rows true)
    p bug_features no_caches.

(** eight participants of two cities, groups of four *)
Definition city_cfg : Config :=
  mkConfig ["city"] [] [] [] None 4 true [] [] 0 1 (2 # 10) (1 # 10) (1 # 10) {[ "any" ]}.

Definition city_df : DataFrame :=
  mkDF ["city"]
    [ {[ "city" := Str "north" ]}; {[ "city" := Str "south" ]};
      {[ "city" := Str "north" ]}; {[ "city" := Str "south" ]};
      {[ "city" := Str "north" ]}; {[ "city" := Str "south" ]};
      {[ "city" := Str "north" ]}; {[ "city" := Str "south" ]} ].

(** age rules with two bands that may not be crossed, at most 6 years between
    the youngest and the oldest of a group and a standard deviation of at most
    3 years; four participants of the first band *)
Definition banded_rules : AgeRules :=
  mkAgeRules "age" [mkBand 20 30 (Some 5); mkBand 31 40 None] false None 0 (Some 6) (Some 3).

Definition banded_cfg : Config :=
  mkConfig [] [] [] [] (Some banded_rules) 4 true [] [] 0 1 (2 # 10) (1 # 10) (1 # 10) ∅.

Definition banded_df : DataFrame :=
  mkDF ["age"]
    [ {[ "age" := Num 22 ]}; {[ "age" := Num 24 ]}; {[ "age" := Num 25 ]};
      {[ "age" := Num 27 ]} ].

(** a configuration whose only soft categorical column is scored by
    diversity *)
Definition diversity_cfg : Config :=
  mkConfig [] [] [] [] None 6 true [("lang", "diversity")] [] 0
    1 (2 # 10) (1 # 10) (1 # 10) ∅.

(** the engine object after the run over [bug_features] *)
Definition bug_run_engine (p : Policy) : option (@EngineState Caches) :=
  @run_engine cpython_runtime Caches (GROUP_SIZE default_config)
    (@group_ok_on cpython_runtime default_config bug_df)
    (@score_on cpython_runtime default_config ∅ bug_df)
    (fun c g => rows ← iloc bug_df g;
                @group_score cpython_runtime default_config ∅ bug_df c g rows true)
    p bug_features no_caches.

(** eight participants in one subspace with a hard multi-choice column:
    the first four share the area k; the fifth shares u with the first three,
    the sixth shares v with the second, third and fourth; the last two share
    s, respectively t, with each of the first four *)
Definition stale_cfg : Config :=
  mkConfig [] ["area"] [] [] None 4 true [] [] 0 1 (2 # 10) (1 # 10) (1 # 10) ∅.

Definition stale_df : DataFrame :=
  mkDF ["area"]
    [ {[ "area" := Str "k, u, s, t" ]}; {[ "area" := Str "k, u, v, s, t" ]};
      {[ "area" := Str "k, u, v, s, t" ]}; {[ "area" := Str "k, v, s, t" ]};
      {[ "area" := Str "u" ]}; {[ "area" := Str "v" ]};
      {[ "area" := Str "s" ]}; {[ "area" := Str "t" ]} ].

(** * Properties *)

(** ** Boolean matrices *)

(** [m] is symmetric on its first [n] rows and columns *)
Definition symmetric (n : nat) (m : matrix) : Prop :=
  forall i j, (i < n)%nat -> (j < n)%nat -> mget m i j = mget m j i.

(** the diagonal of [m] is true *)
Definition reflexive (n : nat) (m : matrix) : Prop :=
  forall i, (i < n)%nat -> mget m i i = Some true.

Lemma square_lookup n m i j :
  square n m -> (i < n)%nat -> (j < n)%nat -> is_Some (mget m i j).
Proof.
  intros [Hl Hr] Hi Hj. unfold mget.
  destruct (lookup_lt_is_Some_2 m i) as [r Hr']; [lia|].
  rewrite Hr'. simpl. apply lookup_lt_is_Some_2.
  rewrite Forall_lookup in Hr. rewrite (Hr _ _ Hr'). lia.
Qed.

Lemma mget_mtab n f i j :
  (i < n)%nat -> (j < n)%nat -> mget (mtab n f) i j = Some (f i j).
Proof.
  intros Hi Hj. unfold mget, mtab.
  rewrite list_lookup_fmap, lookup_seq_lt by lia. simpl.
  rewrite list_lookup_fmap, lookup_seq_lt by lia. reflexivity.
Qed.

Lemma square_mtab n f : square n (mtab n f).
Proof.
  split.
  - unfold mtab. rewrite length_fmap, length_seq. reflexivity.
  - unfold mtab. apply Forall_fmap, Forall_forall. intros i _. simpl.
    rewrite length_fmap, length_seq. reflexivity.
Qed.

Lemma square_replicate n b : square n (replicate n (replicate n b)).
Proof.
  split; [apply length_replicate|].
  apply Forall_replicate. apply length_replicate.
Qed.

Lemma mget_replicate n b i j :
  (i < n)%nat -> (j < n)%nat -> mget (replicate n (replicate n b)) i j = Some b.
Proof.
  intros Hi Hj. unfold mget.
  rewrite (lookup_replicate_2 n (replicate n b) i Hi). simpl.
  apply lookup_replicate_2. exact Hj.
Qed.

Lemma square_mand n a b : square n a -> square n b -> square n (mand a b).
Proof.
  intros [Ha Hra] [Hb Hrb]. split.
  - unfold mand. rewrite length_zip_with. lia.
  - unfold mand. apply Forall_lookup. intros i r Hr.
    apply lookup_zip_with_Some in Hr as (x & y & -> & Hx & Hy).
    rewrite length_zip_with.
    rewrite Forall_lookup in Hra. rewrite Forall_lookup in Hrb.
    rewrite (Hra _ _ Hx), (Hrb _ _ Hy). lia.
Qed.

Lemma mget_mand a b i j :
  mget (mand a b) i j =
    match mget a i j, mget b i j with
    | Some x, Some y => Some (x && y)
    | _, _ => None
    end.
Proof.
  unfold mget, mand. rewrite lookup_zip_with.
  destruct (a !! i) as [ra|]; simpl; [|reflexivity].
  destruct (b !! i) as [rb|]; simpl.
  - rewrite lookup_zip_with.
    destruct (ra !! j); simpl; [|reflexivity].
    destruct (rb !! j); reflexivity.
  - destruct (ra !! j); reflexivity.
Qed.

Lemma square_set_diag n m : square n m -> square n (set_diag m).
Proof.
  intros [Hl Hr]. split.
  - unfold set_diag. rewrite length_imap. exact Hl.
  - unfold set_diag. apply Forall_lookup. intros i r Hi.
    rewrite list_lookup_imap in Hi.
    destruct (m !! i) as [r'|] eqn:E; simpl in Hi; [|discriminate].
    injection Hi as <-. rewrite length_insert.
    rewrite Forall_lookup in Hr. exact (Hr _ _ E).
Qed.

Lemma mget_set_diag n m i j :
  square n m -> (i < n)%nat -> (j < n)%nat ->
  mget (set_diag m) i j = if decide (i = j) then Some true else mget m i j.
Proof.
  intros [Hl Hr] Hi Hj. unfold mget, set_diag.
  rewrite list_lookup_imap.
  destruct (m !! i) as [r|] eqn:E; simpl.
  - rewrite Forall_lookup in Hr. specialize (Hr _ _ E).
    destruct (decide (i = j)) as [->|Hne].
    + apply list_lookup_insert_eq. lia.
    + apply list_lookup_insert_ne. exact Hne.
  - apply lookup_ge_None in E. lia.
Qed.

Lemma square_mask_rows n mask m :
  length mask = n -> square n m -> square n (mask_rows mask m).
Proof.
  intros Hm [Hl Hr]. split.
  - unfold mask_rows. rewrite length_zip_with. lia.
  - unfold mask_rows. apply Forall_lookup. intros i r Hi.
    apply lookup_zip_with_Some in Hi as (b & r' & -> & _ & Hr').
    rewrite Forall_lookup in Hr. specialize (Hr _ _ Hr').
    destruct b; [rewrite length_fmap|]; exact Hr.
Qed.

Lemma mget_mask_rows n mask m i j :
  length mask = n -> square n m -> (i < n)%nat -> (j < n)%nat ->
  mget (mask_rows mask m) i j =
    if default false (mask !! i) then Some false else mget m i j.
Proof.
  intros Hm [Hl Hr] Hi Hj. unfold mget, mask_rows.
  rewrite lookup_zip_with.
  destruct (lookup_lt_is_Some_2 mask i) as [b Hb]; [lia|].
  destruct (lookup_lt_is_Some_2 m i) as [r Hr']; [lia|].
  rewrite Hb, Hr'. simpl.
  rewrite Forall_lookup in Hr. specialize (Hr _ _ Hr').
  destruct b; [|reflexivity].
  rewrite list_lookup_fmap.
  destruct (lookup_lt_is_Some_2 r j) as [x Hx]; [lia|].
  rewrite Hx. reflexivity.
Qed.

Lemma square_mask_cols n mask m :
  length mask = n -> square n m -> square n (mask_cols mask m).
Proof.
  intros Hm [Hl Hr]. split.
  - unfold mask_cols. rewrite length_fmap. exact Hl.
  - unfold mask_cols. apply Forall_fmap.
    eapply Forall_impl; [exact Hr|]. intros r Hlen. unfold compose. simpl in *.
    rewrite length_zip_with. lia.
Qed.

Lemma mget_mask_cols n mask m i j :
  length mask = n -> square n m -> (i < n)%nat -> (j < n)%nat ->
  mget (mask_cols mask m) i j =
    if default false (mask !! j) then Some false else mget m i j.
Proof.
  intros Hm [Hl Hr] Hi Hj. unfold mget, mask_cols.
  rewrite list_lookup_fmap.
  destruct (lookup_lt_is_Some_2 m i) as [r Hr']; [lia|].
  rewrite Hr'. simpl.
  rewrite Forall_lookup in Hr. specialize (Hr _ _ Hr').
  rewrite lookup_zip_with.
  destruct (lookup_lt_is_Some_2 mask j) as [b Hb]; [lia|].
  destruct (lookup_lt_is_Some_2 r j) as [x Hx]; [lia|].
  rewrite Hb, Hx. simpl. destruct b; reflexivity.
Qed.

Lemma square_mset n m a b v : square n m -> square n (mset m a b v).
Proof.
  intros [Hl Hr]. unfold mset.
  destruct (m !! a) as [r|] eqn:E; [|split; assumption].
  split.
  - rewrite length_insert. exact Hl.
  - apply Forall_insert; [exact Hr|].
    rewrite length_insert. rewrite Forall_lookup in Hr. exact (Hr _ _ E).
Qed.

Lemma mget_mset n m a b v i j :
  square n m -> (a < n)%nat -> (b < n)%nat ->
  mget (mset m a b v) i j =
    if decide (i = a /\ j = b) then Some v else mget m i j.
Proof.
  intros [Hl Hr] Ha Hb. unfold mget, mset.
  destruct (lookup_lt_is_Some_2 m a) as [r Hr']; [lia|].
  rewrite Hr'.
  rewrite Forall_lookup in Hr. specialize (Hr _ _ Hr').
  destruct (decide (i = a)) as [->|Hne].
  - rewrite list_lookup_insert_eq by lia. simpl.
    destruct (decide (j = b)) as [->|Hne'].
    + rewrite list_lookup_insert_eq by lia.
      rewrite decide_True by (split; reflexivity). reflexivity.
    + rewrite list_lookup_insert_ne by (intros ->; apply Hne'; reflexivity).
      rewrite Hr'. simpl.
      rewrite decide_False by (intros [_ ?]; contradiction). reflexivity.
  - rewrite list_lookup_insert_ne by (intros ->; apply Hne; reflexivity).
    rewrite decide_False by (intros [? _]; contradiction). reflexivity.
Qed.

(** an invariant of a [for] loop *)
Lemma foldl_invariant {A B : Type} (P : A -> Prop) (f : A -> B -> A) (l : list B) (a : A) :
  P a -> (forall a x, x ∈ l -> P a -> P (f a x)) -> P (foldl f a l).
Proof.
  revert a. induction l as [|x l IH]; intros a Ha Hstep; [exact Ha|].
  simpl. apply IH.
  - apply Hstep; [left|exact Ha].
  - intros a' y Hy. apply Hstep. right. exact Hy.
Qed.

(** an invariant of the double loop over the pairs i < j < n *)
Lemma pair_loop_invariant {A : Type} (P : A -> Prop) n (step : A -> nat -> nat -> A) (m : A) :
  P m ->
  (forall m i j, (i < j)%nat -> (j < n)%nat -> P m -> P (step m i j)) ->
  P (pair_loop n step m).
Proof.
  intros Hm Hstep. unfold pair_loop.
  apply foldl_invariant; [exact Hm|].
  intros a i Hi Ha. apply elem_of_seq in Hi.
  apply foldl_invariant; [exact Ha|].
  intros a' j Hj Ha'. apply elem_of_seq in Hj.
  apply Hstep; [lia|lia|exact Ha'].
Qed.

(** ** Numeric tolerance and age bands *)

Lemma within_tol_iff x y tol : within_tol x y tol = true <-> Qabs (x - y) <= tol.
Proof. unfold within_tol. apply Qle_bool_iff. Qed.

Lemma within_tol_sym x y tol : within_tol x y tol = within_tol y x tol.
Proof. unfold within_tol. rewrite Qabs_Qminus. reflexivity. Qed.

Lemma within_tol_refl x tol : 0 <= tol -> within_tol x x tol = true.
Proof.
  intros Htol. apply within_tol_iff.
  assert (E : x - x == 0) by ring. rewrite E. simpl. exact Htol.
Qed.

(** band number [i] of [bs] contains the age [a] *)
Definition band_contains (bs : list AgeBand) (i : nat) (a : Q) : Prop :=
  exists b, bs !! i = Some b /\ band_min b <= a /\ a <= band_max b.

(** band number [i] of [bs] defines the spread [s] *)
Definition band_spread (bs : list AgeBand) (i : nat) (s : Q) : Prop :=
  bs !! i ≫= max_spread = Some s.

Lemma in_band_iff a b : in_band a b = true <-> band_min b <= a /\ a <= band_max b.
Proof.
  unfold in_band. rewrite andb_true_iff, !Qle_bool_iff. reflexivity.
Qed.

Lemma elem_of_bands_of bs a i : i ∈ bands_of bs a <-> band_contains bs i a.
Proof.
  unfold bands_of, band_contains. rewrite list_elem_of_fmap. split.
  - intros [[k b] [-> Hin]]. apply list_elem_of_filter in Hin as [Hb Hin].
    apply elem_of_lookup_imap in Hin as (k' & b' & Heq & Hl).
    injection Heq as -> ->. simpl in *.
    exists b'. split; [exact Hl|]. apply in_band_iff. exact Hb.
  - intros (b & Hl & Hb). exists (i, b). split; [reflexivity|].
    apply list_elem_of_filter. split.
    + simpl. apply in_band_iff. exact Hb.
    + apply elem_of_lookup_imap. exists i, b. split; [reflexivity|exact Hl].
Qed.

Lemma py_min_le x y d : d <= py_min x y <-> d <= x /\ d <= y.
Proof.
  unfold py_min. destruct (Qle_bool x y) eqn:E; simpl.
  - apply Qle_bool_iff in E. split.
    + intros Hd. split; [exact Hd|]. eapply Qle_trans; eassumption.
    + intros [Hd _]. exact Hd.
  - assert (Hyx : y <= x).
    { destruct (Qlt_le_dec y x) as [Hlt|Hle]; [apply Qlt_le_weak; exact Hlt|].
      apply Qle_bool_iff in Hle. congruence. }
    split.
    + intros Hd. split; [|exact Hd]. eapply Qle_trans; eassumption.
    + intros [_ Hd]. exact Hd.
Qed.

Lemma py_max_le x y d : d <= py_max x y <-> d <= x \/ d <= y.
Proof.
  unfold py_max. destruct (Qle_bool y x) eqn:E; simpl.
  - apply Qle_bool_iff in E. split.
    + intros Hd. left. exact Hd.
    + intros [Hd|Hd]; [exact Hd|]. eapply Qle_trans; eassumption.
  - assert (Hxy : x <= y).
    { destruct (Qlt_le_dec x y) as [Hlt|Hle]; [apply Qlt_le_weak; exact Hlt|].
      apply Qle_bool_iff in Hle. congruence. }
    split.
    + intros Hd. right. exact Hd.
    + intros [Hd|Hd]; [|exact Hd]. eapply Qle_trans; eassumption.
Qed.

(** the fold of [min_max_spread], from any accumulator *)
Lemma min_spread_fold bs common acc d :
  match foldl (fun acc band_idx =>
                 match bs !! band_idx ≫= max_spread with
                 | Some s => Some (match acc with None => s | Some m => py_min m s end)
                 | None => acc
                 end) acc common with
  | None => True
  | Some m => d <= m
  end <->
  (match acc with None => True | Some m => d <= m end
   /\ forall i s, i ∈ common -> band_spread bs i s -> d <= s).
Proof.
  revert acc. induction common as [|k common IH]; intros acc; simpl.
  - split; [intros Hd; split; [exact Hd|]|intros [Hd _]; exact Hd].
    intros i s Hi. inversion Hi.
  - rewrite IH. unfold band_spread.
    destruct (bs !! k ≫= max_spread) as [s|] eqn:E.
    + split.
      * intros [Hacc Hrest]. split.
        -- destruct acc as [m|]; [|exact I]. apply py_min_le in Hacc. apply Hacc.
        -- intros i s' Hi Hs. apply elem_of_cons in Hi as [->|Hi].
           ++ rewrite E in Hs. injection Hs as <-.
              destruct acc as [m|]; [apply py_min_le in Hacc; apply Hacc|exact Hacc].
           ++ eapply Hrest; eassumption.
      * intros [Hacc Hall]. split.
        -- assert (Hs : d <= s) by (apply (Hall k); [left|exact E]).
           destruct acc as [m|]; [apply py_min_le; split; assumption|exact Hs].
        -- intros i s' Hi Hs. apply (Hall i); [right; exact Hi|exact Hs].
    + split.
      * intros [Hacc Hrest]. split; [exact Hacc|].
        intros i s' Hi Hs. apply elem_of_cons in Hi as [->|Hi].
        -- rewrite E in Hs. discriminate.
        -- eapply Hrest; eassumption.
      * intros [Hacc Hall]. split; [exact Hacc|].
        intros i s' Hi Hs. apply (Hall i); [right; exact Hi|exact Hs].
Qed.

Lemma min_max_spread_spec bs common d :
  match min_max_spread bs common with None => True | Some m => d <= m end <->
  forall i s, i ∈ common -> band_spread bs i s -> d <= s.
Proof.
  unfold min_max_spread. rewrite min_spread_fold. tauto.
Qed.

(** the fold of [max_max_spread], from any accumulator *)
Lemma max_spread_fold bs idxs acc d :
  d <= foldl (fun acc band_idx =>
                match bs !! band_idx ≫= max_spread with
                | Some s => py_max acc s
                | None => acc
                end) acc idxs <->
  (d <= acc \/ exists i s, i ∈ idxs /\ band_spread bs i s /\ d <= s).
Proof.
  revert acc. induction idxs as [|k idxs IH]; intros acc; simpl.
  - split; [intros Hd; left; exact Hd|].
    intros [Hd|(i & s & Hi & _)]; [exact Hd|inversion Hi].
  - rewrite IH. unfold band_spread.
    destruct (bs !! k ≫= max_spread) as [s|] eqn:E.
    + rewrite py_max_le. split.
      * intros [[Hd|Hd]|(i & s' & Hi & Hs & Hd)].
        -- left. exact Hd.
        -- right. exists k, s. split; [left|]. split; assumption.
        -- right. exists i, s'. split; [right; exact Hi|]. split; assumption.
      * intros [Hd|(i & s' & Hi & Hs & Hd)].
        -- left. left. exact Hd.
        -- apply elem_of_cons in Hi as [->|Hi].
           ++ rewrite E in Hs. injection Hs as <-. left. right. exact Hd.
           ++ right. exists i, s'. split; [exact Hi|]. split; assumption.
    + split.
      * intros [Hd|(i & s' & Hi & Hs & Hd)]; [left; exact Hd|].
        right. exists i, s'. split; [right; exact Hi|]. split; assumption.
      * intros [Hd|(i & s' & Hi & Hs & Hd)]; [left; exact Hd|].
        apply elem_of_cons in Hi as [->|Hi].
        -- rewrite E in Hs. discriminate.
        -- right. exists i, s'. split; [exact Hi|]. split; assumption.
Qed.

Lemma max_max_spread_spec bs idxs d :
  d <= max_max_spread bs idxs <->
  (d <= 0 \/ exists i s, i ∈ idxs /\ band_spread bs i s /\ d <= s).
Proof. unfold max_max_spread. apply max_spread_fold. Qed.

(** the two ages lie in a common band *)
Definition shares_band (bs : list AgeBand) (a b : Q) : Prop :=
  exists i, band_contains bs i a /\ band_contains bs i b.

(** [|a - b|] is within the spread of every common band that defines one:
    within the minimum of these spreads, and free when there is none *)
Definition within_shared_spreads (bs : list AgeBand) (a b : Q) : Prop :=
  forall i s, band_contains bs i a -> band_contains bs i b -> band_spread bs i s ->
              Qabs (a - b) <= s.

(** [|a - b|] is within the spread of some band that contains either age:
    within the maximum of these spreads *)
Definition within_some_spread (bs : list AgeBand) (a b : Q) : Prop :=
  exists i s, (band_contains bs i a \/ band_contains bs i b) /\ band_spread bs i s
              /\ Qabs (a - b) <= s.

(** Age compatibility in the words of the specification. *)
Definition spec_age_compatible (r : AgeRules) (a b : Q) : Prop :=
  (shares_band (bands r) a b /\ within_shared_spreads (bands r) a b)
  \/ (~ shares_band (bands r) a b /\ allow_cross_band r = true
      /\ within_some_spread (bands r) a b).

Lemma bands_of_nil bs a : bands_of bs a = [] <-> ~ exists i, band_contains bs i a.
Proof.
  split.
  - intros E [i Hi]. apply elem_of_bands_of in Hi. rewrite E in Hi. inversion Hi.
  - intros Hn. apply elem_of_nil_inv. intros i Hi. apply Hn. exists i.
    apply elem_of_bands_of. exact Hi.
Qed.

Lemma common_bands_nil bs a b :
  filter (fun i => i ∈ bands_of bs b) (bands_of bs a) = [] <-> ~ shares_band bs a b.
Proof.
  split.
  - intros E (i & Ha & Hb).
    assert (Hin : i ∈ filter (fun i => i ∈ bands_of bs b) (bands_of bs a)).
    { apply list_elem_of_filter. split; apply elem_of_bands_of; assumption. }
    rewrite E in Hin. inversion Hin.
  - intros Hn. apply elem_of_nil_inv. intros i Hi.
    apply list_elem_of_filter in Hi as [Hb Ha]. apply Hn. exists i.
    split; apply elem_of_bands_of; assumption.
Qed.

Lemma band_contains_Qeq bs i a b : a == b -> band_contains bs i a -> band_contains bs i b.
Proof.
  intros E (x & Hl & H1 & H2). exists x. split; [exact Hl|]. split; lra.
Qed.

(** What [check_age_compatibility] computes under band rules. *)
Lemma check_age_compatibility_bands r a b :
  max_age_difference r = None ->
  check_age_compatibility (Some a) (Some b) (Some r) = true <->
  ((exists i, band_contains (bands r) i a) /\ (exists i, band_contains (bands r) i b)
   /\ spec_age_compatible r a b).
Proof.
  intros Hlegacy. unfold check_age_compatibility. rewrite Hlegacy.
  set (bs := bands r).
  destruct (bool_decide (bands_of bs a = [])) eqn:E1.
  { apply bool_decide_eq_true in E1. apply bands_of_nil in E1.
    simpl. split; [discriminate|]. intros [Ha _]. contradiction. }
  destruct (bool_decide (bands_of bs b = [])) eqn:E2.
  { apply bool_decide_eq_true in E2. apply bands_of_nil in E2.
    simpl. split; [discriminate|]. intros (_ & Hb & _). contradiction. }
  apply bool_decide_eq_false in E1, E2. simpl.
  assert (Ha : exists i, band_contains bs i a).
  { destruct (bands_of bs a) as [|i l] eqn:E; [contradiction|].
    exists i. apply elem_of_bands_of. rewrite E. left. }
  assert (Hb : exists i, band_contains bs i b).
  { destruct (bands_of bs b) as [|i l] eqn:E; [contradiction|].
    exists i. apply elem_of_bands_of. rewrite E. left. }
  unfold spec_age_compatible. fold bs.
  destruct (bool_decide (filter (fun i => i ∈ bands_of bs b) (bands_of bs a) = [])) eqn:E3; simpl.
  - apply bool_decide_eq_true in E3. apply common_bands_nil in E3.
    destruct (allow_cross_band r); simpl.
    + rewrite within_tol_iff, max_max_spread_spec. split.
      * intros Hd. split; [exact Ha|]. split; [exact Hb|]. right.
        split; [exact E3|]. split; [reflexivity|].
        destruct Hd as [Hd|(i & s & Hi & Hs & Hd)].
        -- exfalso. apply E3. destruct Ha as [i Hi]. exists i. split; [exact Hi|].
           apply Qabs_Qle_condition in Hd.
           eapply band_contains_Qeq; [|exact Hi]. lra.
        -- exists i, s. split; [|split; assumption].
           apply elem_of_app in Hi as [Hi|Hi]; [left|right]; apply elem_of_bands_of; exact Hi.
      * intros (_ & _ & [[Hs _]|(_ & _ & i & s & Hi & Hs & Hd)]); [contradiction|].
        right. exists i, s. split; [|split; assumption].
        apply elem_of_app. destruct Hi as [Hi|Hi]; [left|right]; apply elem_of_bands_of; exact Hi.
    + split; [discriminate|].
      intros (_ & _ & [[Hs _]|(_ & Hc & _)]); [contradiction|discriminate].
  - apply bool_decide_eq_false in E3.
    assert (Hs : shares_band bs a b).
    { destruct (filter (fun i => i ∈ bands_of bs b) (bands_of bs a)) as [|i l] eqn:E;
        [contradiction|].
      assert (Hi : i ∈ filter (fun i => i ∈ bands_of bs b) (bands_of bs a))
        by (rewrite E; left).
      apply list_elem_of_filter in Hi as [Hi2 Hi1].
      exists i. split; apply elem_of_bands_of; assumption. }
    transitivity (within_shared_spreads bs a b).
    + pose proof (min_max_spread_spec bs
                    (filter (fun i => i ∈ bands_of bs b) (bands_of bs a))
                    (Qabs (a - b))) as Hspec.
      unfold within_shared_spreads.
      destruct (min_max_spread bs _) as [m|].
      * rewrite within_tol_iff, Hspec. split.
        -- intros H i s Hia Hib. apply H. apply list_elem_of_filter.
           split; apply elem_of_bands_of; assumption.
        -- intros H i s Hi. apply list_elem_of_filter in Hi as [Hi2 Hi1].
           apply H; apply elem_of_bands_of; assumption.
      * split; [intros _|reflexivity].
        intros i s Hia Hib. apply Hspec; [exact I|].
        apply list_elem_of_filter. split; apply elem_of_bands_of; assumption.
    + split.
      * intros Hw. split; [exact Ha|]. split; [exact Hb|]. left. split; assumption.
      * intros (_ & _ & [[_ Hw]|(Hn & _)]); [exact Hw|contradiction].
Qed.

Lemma spec_age_compatible_sym r a b : spec_age_compatible r a b -> spec_age_compatible r b a.
Proof.
  unfold spec_age_compatible, shares_band, within_shared_spreads, within_some_spread.
  rewrite (Qabs_Qminus b a).
  intros [[(i & H1 & H2) Hw]|(Hn & Hc & i & s & Hi & Hs & Hd)].
  - left. split; [exists i; split; assumption|].
    intros k s Hb Ha. apply Hw; assumption.
  - right. split.
    + intros (k & H1 & H2). apply Hn. exists k. split; assumption.
    + split; [exact Hc|]. exists i, s. split; [tauto|]. split; assumption.
Qed.

Lemma check_age_compatibility_sym age1 age2 age_rules :
  check_age_compatibility age1 age2 age_rules = check_age_compatibility age2 age1 age_rules.
Proof.
  destruct age_rules as [r|], age1 as [a|], age2 as [b|]; try reflexivity.
  destruct (max_age_difference r) as [d|] eqn:E.
  - unfold check_age_compatibility. rewrite E. apply within_tol_sym.
  - apply eq_true_iff_eq. rewrite !check_age_compatibility_bands by exact E.
    split; intros (H1 & H2 & H3); (split; [exact H2|]); (split; [exact H1|]);
      apply spec_age_compatible_sym; exact H3.
Qed.

(** ** The layers of the vectorised matrix are square and symmetric *)

Lemma isdisjoint_sym a b : isdisjoint a b = isdisjoint b a.
Proof. unfold isdisjoint. rewrite (comm_L (∩) a b). reflexivity. Qed.

Section Layers.
Context `{Runtime}.

Lemma symmetric_mtab n f :
  (forall i j, f i j = f j i) -> symmetric n (mtab n f).
Proof.
  intros Hf i j Hi Hj. rewrite !mget_mtab by assumption. rewrite Hf. reflexivity.
Qed.

Lemma symmetric_mand n a b :
  symmetric n a -> symmetric n b -> symmetric n (mand a b).
Proof.
  intros Ha Hb i j Hi Hj. rewrite !mget_mand.
  rewrite (Ha i j), (Hb i j) by assumption. reflexivity.
Qed.

Lemma symmetric_set_diag n m :
  square n m -> symmetric n m -> symmetric n (set_diag m).
Proof.
  intros Hsq Hm i j Hi Hj.
  rewrite !(mget_set_diag n) by assumption.
  destruct (decide (i = j)) as [->|Hne].
  - rewrite decide_True by reflexivity. reflexivity.
  - rewrite decide_False by (intros ->; apply Hne; reflexivity). apply Hm; assumption.
Qed.

Lemma reflexive_set_diag n m : square n m -> reflexive n (set_diag m).
Proof.
  intros Hsq i Hi. rewrite (mget_set_diag n) by assumption.
  rewrite decide_True by reflexivity. reflexivity.
Qed.

Lemma length_column_values (rs : list (gmap string cell)) col :
  length (column_values rs col) = length rs.
Proof. unfold column_values. apply length_fmap. Qed.

Lemma categorical_layer_ok rules df_subset col :
  square (length df_subset) (categorical_layer rules df_subset col)
  /\ symmetric (length df_subset) (categorical_layer rules df_subset col).
Proof.
  unfold categorical_layer. split; [apply square_mtab|].
  apply symmetric_mtab. intros i j. f_equal. apply isdisjoint_sym.
Qed.

Lemma age_layer_ok age_rules df_subset :
  square (length df_subset) (age_layer age_rules df_subset)
  /\ symmetric (length df_subset) (age_layer age_rules df_subset).
Proof.
  unfold age_layer. split; [apply square_mtab|].
  apply symmetric_mtab. intros i j.
  rewrite (Nat.eqb_sym j i).
  destruct (i =? j)%nat; [reflexivity|].
  destruct (default None _) as [x|], (default None _) as [y|]; try reflexivity.
  apply check_age_compatibility_sym.
Qed.
End Layers.

Section MoreLayers.
Context `{Runtime}.

(** [m[i, j] = m[j, i] = v] keeps a square matrix square and symmetric *)
Lemma mget_set_pair n m i j v a b :
  square n m -> (i < n)%nat -> (j < n)%nat ->
  mget (mset (mset m i j v) j i v) a b =
    if decide ((a = i /\ b = j) \/ (a = j /\ b = i)) then Some v else mget m a b.
Proof.
  intros Hsq Hi Hj.
  rewrite (mget_mset n) by (try apply square_mset; assumption).
  rewrite (mget_mset n) by assumption.
  repeat case_decide; try reflexivity; exfalso; tauto.
Qed.

Lemma symmetric_set_pair n m i j v :
  square n m -> symmetric n m -> (i < n)%nat -> (j < n)%nat ->
  symmetric n (mset (mset m i j v) j i v).
Proof.
  intros Hsq Hm Hi Hj a b Ha Hb.
  rewrite !(mget_set_pair n) by assumption.
  repeat case_decide; try reflexivity; try (exfalso; tauto).
  apply Hm; assumption.
Qed.

Lemma square_set_pair n m i j v :
  square n m -> square n (mset (mset m i j v) j i v).
Proof. intros Hsq. apply square_mset, square_mset. exact Hsq. Qed.

(** the entries of the multi-choice layer *)
Lemma multi_layer_ok rules df_subset col :
  let n := length df_subset in
  let sets_list := (fun val => to_set rules val (Some col)) <$> column_values df_subset col in
  square n (multi_layer rules df_subset col)
  /\ symmetric n (multi_layer rules df_subset col)
  /\ forall i j, (i < n)%nat -> (j < n)%nat -> i <> j ->
       mget (multi_layer rules df_subset col) i j = Some true ->
       (0 < size (default ∅ (sets_list !! i) ∩ default ∅ (sets_list !! j)))%nat.
Proof.
  intros n sets_list. unfold multi_layer. fold n. fold sets_list.
  set (overlap := fun i j =>
         (0 < size (default ∅ (sets_list !! i) ∩ default ∅ (sets_list !! j)))%nat).
  assert (Hinv :
    let m := pair_loop n (fun m i j =>
               if bool_decide (0 < size (default ∅ (sets_list !! i)
                                         ∩ default ∅ (sets_list !! j)))%nat
               then mset (mset m i j true) j i true else m)
               (zeros n) in
    square n m /\ symmetric n m
    /\ forall i j, (i < n)%nat -> (j < n)%nat -> mget m i j = Some true -> overlap i j).
  { apply (pair_loop_invariant
             (fun m => square n m /\ symmetric n m
                       /\ forall i j, (i < n)%nat -> (j < n)%nat ->
                                      mget m i j = Some true -> overlap i j)).
    - split; [apply square_replicate|]. split.
      + intros i j Hi Hj. unfold zeros. rewrite !mget_replicate by assumption. reflexivity.
      + intros i j Hi Hj. unfold zeros. rewrite mget_replicate by assumption. discriminate.
    - intros m i j Hij Hj (Hsq & Hsym & Htrue).
      destruct (bool_decide _) eqn:E; [|split; [exact Hsq|split; [exact Hsym|exact Htrue]]].
      apply bool_decide_eq_true in E. fold (overlap i j) in E.
      split; [apply square_set_pair; exact Hsq|].
      split; [apply symmetric_set_pair; [assumption|assumption|lia|lia]|].
      intros a b Ha Hb. rewrite (mget_set_pair n) by (assumption || lia).
      case_decide as Hd; [|apply Htrue; assumption].
      intros _. destruct Hd as [[-> ->]|[-> ->]]; [exact E|].
      unfold overlap in *. rewrite (comm_L (∩)). exact E. }
  destruct Hinv as (Hsq & Hsym & Htrue).
  split; [apply square_set_diag; exact Hsq|].
  split; [apply symmetric_set_diag; assumption|].
  intros i j Hi Hj Hne. rewrite (mget_set_diag n) by assumption.
  rewrite decide_False by exact Hne. apply Htrue; assumption.
Qed.

(** the entries of the numeric layer *)
Lemma mget_numeric_layer df_subset col tol i j :
  let n := length df_subset in
  let values_array := to_numeric <$> column_values df_subset col in
  (i < n)%nat -> (j < n)%nat ->
  mget (numeric_layer df_subset col tol) i j =
    Some (if decide (i = j) then true
          else match default None (values_array !! i), default None (values_array !! j) with
               | Some x, Some y => within_tol x y tol
               | _, _ => false
               end).
Proof.
  intros n values_array Hi Hj. unfold numeric_layer. fold n. fold values_array.
  set (mask := (fun v : option Q => bool_decide (v = None)) <$> values_array).
  assert (Hmask : length mask = n).
  { unfold mask, values_array. rewrite !length_fmap. apply length_column_values. }
  set (m0 := set_diag (mtab n _)).
  assert (Hsq0 : square n m0) by apply square_set_diag, square_mtab.
  rewrite (mget_set_diag n);
    [|apply square_mask_cols; [exact Hmask|apply square_mask_rows; assumption]|exact Hi|exact Hj].
  destruct (decide (i = j)) as [->|Hne]; [reflexivity|].
  rewrite (mget_mask_cols n) by (try apply square_mask_rows; assumption).
  rewrite (mget_mask_rows n) by assumption.
  unfold m0. rewrite (mget_set_diag n) by (try apply square_mtab; assumption).
  rewrite decide_False by exact Hne. rewrite mget_mtab by assumption.
  assert (Hlen : length values_array = n).
  { unfold values_array. rewrite length_fmap. apply length_column_values. }
  destruct (lookup_lt_is_Some_2 values_array i) as [vi Hvi]; [lia|].
  destruct (lookup_lt_is_Some_2 values_array j) as [vj Hvj]; [lia|].
  unfold mask. rewrite !list_lookup_fmap, Hvi, Hvj. simpl.
  destruct vi, vj; reflexivity.
Qed.

Lemma square_numeric_layer df_subset col tol :
  square (length df_subset) (numeric_layer df_subset col tol).
Proof.
  unfold numeric_layer.
  assert (Hmask : forall vs : list (option Q),
            length vs = length df_subset ->
            length ((fun v : option Q => bool_decide (v = None)) <$> vs) = length df_subset).
  { intros vs Hvs. rewrite length_fmap. exact Hvs. }
  apply square_set_diag, square_mask_cols.
  - apply Hmask. rewrite length_fmap. apply length_column_values.
  - apply square_mask_rows.
    + apply Hmask. rewrite length_fmap. apply length_column_values.
    + apply square_set_diag, square_mtab.
Qed.

Lemma numeric_layer_ok df_subset col tol :
  square (length df_subset) (numeric_layer df_subset col tol)
  /\ symmetric (length df_subset) (numeric_layer df_subset col tol).
Proof.
  split; [apply square_numeric_layer|].
  intros i j Hi Hj. rewrite !mget_numeric_layer by assumption.
  destruct (decide (i = j)) as [->|Hne].
  - rewrite decide_True by reflexivity. reflexivity.
  - rewrite decide_False by (intros ->; apply Hne; reflexivity).
    destruct (default None _) as [x|], (default None _) as [y|]; try reflexivity.
    rewrite within_tol_sym. reflexivity.
Qed.
End MoreLayers.

(** ** C1: the compatibility matrices are symmetric and reflexive *)

Section Symmetry.
Context `{Runtime}.

Lemma iloc_length df indices df_subset :
  iloc df indices = Some df_subset -> length df_subset = length indices.
Proof. intros E. symmetry. exact (length_mapM _ _ _ E). Qed.

Lemma iloc_total df indices :
  Forall (fun i => (i < length (rows df))%nat) indices -> is_Some (iloc df indices).
Proof.
  intros Hall. unfold iloc. apply mapM_is_Some.
  eapply Forall_impl; [exact Hall|]. intros i Hi. simpl.
  apply lookup_lt_is_Some_2. exact Hi.
Qed.

(** [foldl] of [compat & layer] over the columns that the frame has *)
Lemma fold_layers_ok {A : Type} n (present : A -> bool) (layer : A -> matrix)
    (l : list A) (m : matrix) :
  (forall x, square n (layer x) /\ symmetric n (layer x)) ->
  square n m /\ symmetric n m ->
  let m' := foldl (fun compat x => if present x then mand compat (layer x) else compat) m l in
  square n m' /\ symmetric n m'.
Proof.
  intros Hlayer Hm. apply (foldl_invariant (fun m => square n m /\ symmetric n m)); [exact Hm|].
  intros a x _ [Hsq Hsym]. destruct (present x); [|split; assumption].
  destruct (Hlayer x) as [Hsq' Hsym'].
  split; [apply square_mand|apply symmetric_mand]; assumption.
Qed.

Lemma ones_ok n : square n (ones n) /\ symmetric n (ones n).
Proof.
  split; [apply square_replicate|].
  intros i j Hi Hj. unfold ones. rewrite !mget_replicate by assumption. reflexivity.
Qed.

(** the result of the legacy builder, when [df.iloc] does not raise *)
Lemma vectorized_matrix_ok cfg rules df indices m :
  build_compatibility_matrix_vectorized cfg rules df indices = Some m ->
  let n := length (default (seq 0 (length (rows df))) indices) in
  square n m /\ reflexive n m /\ symmetric n m.
Proof.
  unfold build_compatibility_matrix_vectorized.
  set (idxs := default (seq 0 (length (rows df))) indices).
  destruct (length idxs =? 0)%nat eqn:En.
  { intros [= <-]. apply Nat.eqb_eq in En. simpl. rewrite En.
    split; [split; [reflexivity|constructor]|]. split; intros i; lia. }
  destruct (iloc df idxs) as [df_subset|] eqn:Ei; [|discriminate].
  simpl. intros [= <-].
  pose proof (iloc_length _ _ _ Ei) as Hlen. rewrite <- Hlen.
  set (n := length df_subset).
  pose proof (fold_layers_ok n (has_column df) (categorical_layer rules df_subset)
                (CUT_CATEGORICAL cfg) (ones n)
                (categorical_layer_ok rules df_subset) (ones_ok n)) as Hcat.
  simpl in Hcat.
  pose proof (fold_layers_ok n (has_column df) (multi_layer rules df_subset)
                (CUT_MULTI cfg) _
                (fun col => let '(conj a (conj b _)) := multi_layer_ok rules df_subset col
                            in conj a b) Hcat) as Hmulti.
  simpl in Hmulti.
  match goal with
  | |- square n (set_diag (foldl ?f ?c _)) /\ _ =>
      assert (Hage : square n c /\ symmetric n c)
  end.
  { destruct (AGE_RULES cfg) as [age_rules|]; [|exact Hmulti].
    destruct (has_column df (field age_rules)); [|exact Hmulti].
    destruct Hmulti as [Hsq Hsym].
    destruct (age_layer_ok age_rules df_subset) as [Hsq' Hsym'].
    split; [apply square_mand|apply symmetric_mand]; assumption. }
  match goal with
  | |- square n (set_diag ?c) /\ _ => assert (Hnum : square n c /\ symmetric n c)
  end.
  { apply (foldl_invariant (fun m => square n m /\ symmetric n m)); [exact Hage|].
    intros a [col tol] _ [Hsq Hsym]. destruct (has_column df col); [|split; assumption].
    destruct (numeric_layer_ok df_subset col tol) as [Hsq' Hsym'].
    split; [apply square_mand|apply symmetric_mand]; assumption. }
  destruct Hnum as [Hsq Hsym].
  split; [apply square_set_diag; exact Hsq|].
  split; [apply reflexive_set_diag; exact Hsq|apply symmetric_set_diag; assumption].
Qed.
Lemma clear_pair_ok n compat i j :
  (i < n)%nat -> (j < n)%nat ->
  square n compat /\ symmetric n compat ->
  square n (clear_pair compat i j) /\ symmetric n (clear_pair compat i j).
Proof.
  intros Hi Hj [Hsq Hsym]. unfold clear_pair.
  split; [apply square_set_pair|apply symmetric_set_pair]; assumption.
Qed.

Lemma clear_if_ok n broke compat i j :
  (i < n)%nat -> (j < n)%nat ->
  square n compat /\ symmetric n compat ->
  square n (clear_if broke compat i j) /\ symmetric n (clear_if broke compat i j).
Proof.
  intros Hi Hj Hm. destruct broke; [apply clear_pair_ok; assumption|exact Hm].
Qed.

(** the body of the engine's double loop keeps the matrix square and symmetric *)
Lemma engine_pair_step_ok n p ff df_subset compat i j m :
  (i < n)%nat -> (j < n)%nat ->
  square n compat /\ symmetric n compat ->
  engine_pair_step p ff df_subset compat i j = Some m ->
  square n m /\ symmetric n m.
Proof.
  intros Hi Hj Hm. unfold engine_pair_step. intros Hstep.
  pose proof (fun b c => clear_if_ok n b c i j Hi Hj) as Hif.
  pose proof (fun c => clear_pair_ok n c i j Hi Hj) as Hpair.
  repeat (first [ progress simplify_option_eq | case_match ]); auto.
Qed.

(** the result of the engine's builder, when it does not raise *)
Lemma engine_matrix_ok p ff df_subset indices m :
  _build_compatibility_matrix p ff df_subset indices = Some m ->
  let n := length indices in
  square n m /\ reflexive n m /\ symmetric n m.
Proof.
  unfold _build_compatibility_matrix. set (n := length indices).
  destruct (pair_loop n _ _) as [compat|] eqn:E; [|discriminate].
  simpl. intros [= <-].
  assert (HP : forall c, Some compat = Some c -> square n c /\ symmetric n c).
  { rewrite <- E.
    apply (pair_loop_invariant
             (fun acc : option matrix => forall c, acc = Some c -> square n c /\ symmetric n c)).
    - intros c [= <-]. apply ones_ok.
    - intros acc i j Hij Hj Hacc c Hc.
      destruct acc as [compat'|]; [|discriminate]. simpl in Hc.
      eapply (engine_pair_step_ok n); [| |apply Hacc; reflexivity|exact Hc]; lia. }
  destruct (HP compat eq_refl) as [Hsq Hsym].
  split; [apply square_set_diag; exact Hsq|].
  split; [apply reflexive_set_diag; exact Hsq|apply symmetric_set_diag; assumption].
Qed.
(** the legacy builder returns a matrix when every index is a row of the frame *)
Lemma vectorized_matrix_total cfg rules df indices :
  Forall (fun i => (i < length (rows df))%nat) (default (seq 0 (length (rows df))) indices) ->
  is_Some (build_compatibility_matrix_vectorized cfg rules df indices).
Proof.
  intros Hall. unfold build_compatibility_matrix_vectorized.
  destruct (length _ =? 0)%nat; [eexists; reflexivity|].
  destruct (iloc_total _ _ Hall) as [df_subset ->]. simpl. eexists; reflexivity.
Qed.

(** C1. Every compatibility matrix built for a subspace is symmetric and
    reflexive.  The vectorised builder of the legacy algorithm returns, for
    every frame and every list of row indices of it, a matrix [compat] with
    [compat[i,i] = True] and [compat[i,j] = compat[j,i]] for all [i], [j]
    within the list; and so is every matrix that the engine's
    [_build_compatibility_matrix] returns. *)
Theorem compatibility_matrix_symmetric_reflexive :
  (forall cfg rules df indices,
     let idxs := default (seq 0 (length (rows df))) indices in
     Forall (fun i => (i < length (rows df))%nat) idxs ->
     exists compat,
       build_compatibility_matrix_vectorized cfg rules df indices = Some compat
       /\ forall i j, (i < length idxs)%nat -> (j < length idxs)%nat ->
            mget compat i i = Some true /\ mget compat i j = mget compat j i)
  /\ (forall p ff df_subset indices compat,
        _build_compatibility_matrix p ff df_subset indices = Some compat ->
        forall i j, (i < length indices)%nat -> (j < length indices)%nat ->
          mget compat i i = Some true /\ mget compat i j = mget compat j i).
Proof.
  split.
  - intros cfg rules df indices idxs Hall.
    destruct (vectorized_matrix_total cfg rules df indices Hall) as [compat E].
    exists compat. split; [exact E|].
    destruct (vectorized_matrix_ok _ _ _ _ _ E) as (_ & Hrefl & Hsym).
    intros i j Hi Hj. split; [apply Hrefl|apply Hsym]; assumption.
  - intros p ff df_subset indices compat E.
    destruct (engine_matrix_ok _ _ _ _ _ E) as (_ & Hrefl & Hsym).
    intros i j Hi Hj. split; [apply Hrefl|apply Hsym]; assumption.
Qed.
End Symmetry.

(** ** C10: a missing multi-choice value pairs with nobody *)

Section MissingMulti.
Context `{Runtime}.

(** a missing (NaN) or empty value of a column *)
Definition missing_value (c : cell) : Prop := c = NaN \/ c = Str "".

Lemma to_set_missing rules c column : missing_value c -> to_set rules c column = ∅.
Proof. intros [->| ->]; reflexivity. Qed.

Lemma no_overlap_empty_l (B : gset string) : ~ (0 < size (∅ ∩ B))%nat.
Proof. rewrite (left_absorb_L ∅ (∩)), size_empty. lia. Qed.

Lemma no_overlap_empty_r (A : gset string) : ~ (0 < size (A ∩ ∅))%nat.
Proof. rewrite (right_absorb_L ∅ (∩)), size_empty. lia. Qed.

Lemma multi_passed_missing rules a b col :
  missing_value (row_get a col (Str "")) ->
  multi_passed rules a b col = false /\ multi_passed rules b a col = false.
Proof.
  intros Hm. unfold multi_passed. rewrite (to_set_missing _ _ _ Hm).
  split; apply bool_decide_eq_false; [apply no_overlap_empty_l|apply no_overlap_empty_r].
Qed.

(** a failed round makes the whole of [pass_pairwise_cuts] fail *)
Lemma foldl_false_fixed {A : Type} (g : bool -> A -> bool) (l : list A) :
  (forall x, g false x = false) -> foldl g false l = false.
Proof. intros Hg. induction l as [|x l IH]; simpl; [reflexivity|]. rewrite Hg. exact IH. Qed.

Lemma foldl_stays_false {A : Type} (f : A -> bool) (l : list A) :
  foldl (fun result x => if f x then result else false) false l = false.
Proof. apply foldl_false_fixed. intros x. destruct (f x); reflexivity. Qed.

Lemma foldl_rounds_false {A : Type} (f : A -> bool) (l : list A) (x : A) (result : bool) :
  x ∈ l -> f x = false ->
  foldl (fun result x => if f x then result else false) result l = false.
Proof.
  revert result. induction l as [|y l IH]; intros result Hx Hf; [inversion Hx|].
  simpl. apply elem_of_cons in Hx as [<-|Hx].
  - rewrite Hf. apply foldl_stays_false.
  - apply IH; assumption.
Qed.

Lemma pass_pairwise_cuts_multi_false cfg rules a b col :
  col ∈ CUT_MULTI cfg -> multi_passed rules a b col = false ->
  pass_pairwise_cuts cfg rules a b = false.
Proof.
  intros Hcol Hf. unfold pass_pairwise_cuts.
  rewrite (foldl_rounds_false (fun col => multi_passed rules a b col) _ col _ Hcol Hf).
  apply foldl_false_fixed. intros [c t]. destruct (numeric_passed a b c t); reflexivity.
Qed.

Lemma multi_layer_missing rules df_subset col i j r :
  (i < length df_subset)%nat -> (j < length df_subset)%nat -> i <> j ->
  df_subset !! i = Some r -> missing_value (row_get r col NaN) ->
  mget (multi_layer rules df_subset col) i j = Some false
  /\ mget (multi_layer rules df_subset col) j i = Some false.
Proof.
  intros Hi Hj Hne Hr Hm.
  destruct (multi_layer_ok rules df_subset col) as (Hsq & Hsym & Htrue).
  assert (Hij : mget (multi_layer rules df_subset col) i j = Some false).
  { destruct (square_lookup _ _ i j Hsq Hi Hj) as [[|] E]; [|exact E].
    exfalso. specialize (Htrue i j Hi Hj Hne E).
    unfold column_values in Htrue. rewrite !list_lookup_fmap, Hr in Htrue.
    simpl in Htrue. rewrite (to_set_missing _ _ _ Hm) in Htrue.
    exact (no_overlap_empty_l _ Htrue). }
  split; [exact Hij|]. rewrite <- (Hsym i j Hi Hj). exact Hij.
Qed.
End MissingMulti.

(** ** A true entry of the built matrix is true in every layer *)

Section Soundness.
Context `{Runtime}.

Lemma mget_mand_true a b i j :
  mget (mand a b) i j = Some true -> mget a i j = Some true /\ mget b i j = Some true.
Proof.
  rewrite mget_mand.
  destruct (mget a i j) as [[|]|], (mget b i j) as [[|]|]; simpl; try discriminate.
  intros _. split; reflexivity.
Qed.

Lemma fold_layers_true {A : Type} (f : matrix -> A -> matrix) (present : A -> bool)
    (layer : A -> matrix) (l : list A) (m : matrix) i j :
  (forall c x, f c x = if present x then mand c (layer x) else c) ->
  mget (foldl f m l) i j = Some true ->
  mget m i j = Some true
  /\ forall x, x ∈ l -> present x = true -> mget (layer x) i j = Some true.
Proof.
  intros Hf. revert m. induction l as [|y l IH]; intros m Hm; simpl in Hm.
  - split; [exact Hm|]. intros x Hx. inversion Hx.
  - destruct (IH _ Hm) as [Hy Hrest]. rewrite Hf in Hy.
    destruct (present y) eqn:Ey.
    + apply mget_mand_true in Hy as [Hm' Hy]. split; [exact Hm'|].
      intros x Hx Hp. apply elem_of_cons in Hx as [->|Hx]; [exact Hy|].
      apply Hrest; assumption.
    + split; [exact Hy|].
      intros x Hx Hp. apply elem_of_cons in Hx as [->|Hx]; [congruence|].
      apply Hrest; assumption.
Qed.

(** Off the diagonal, an entry of the matrix of the legacy builder is true
    only if it is true in the layer of every hard column of the frame. *)
Lemma vectorized_entry_true cfg rules df idxs df_subset compat i j :
  build_compatibility_matrix_vectorized cfg rules df (Some idxs) = Some compat ->
  iloc df idxs = Some df_subset ->
  (i < length idxs)%nat -> (j < length idxs)%nat -> i <> j ->
  mget compat i j = Some true ->
  (forall col, col ∈ CUT_CATEGORICAL cfg -> has_column df col = true ->
     mget (categorical_layer rules df_subset col) i j = Some true)
  /\ (forall col, col ∈ CUT_MULTI cfg -> has_column df col = true ->
        mget (multi_layer rules df_subset col) i j = Some true)
  /\ (forall age_rules, AGE_RULES cfg = Some age_rules ->
        has_column df (field age_rules) = true ->
        mget (age_layer age_rules df_subset) i j = Some true)
  /\ (forall col tol, (col, tol) ∈ CUT_NUMERIC_TOL cfg -> has_column df col = true ->
        mget (numeric_layer df_subset col tol) i j = Some true).
Proof.
  intros Hbuild Hiloc Hi Hj Hne Htrue.
  revert Hbuild. unfold build_compatibility_matrix_vectorized. simpl.
  destruct (length idxs =? 0)%nat eqn:En; [apply Nat.eqb_eq in En; lia|].
  rewrite Hiloc. simpl. intros [= <-].
  pose proof (iloc_length _ _ _ Hiloc) as Hlen. rewrite <- Hlen in *. clear Hlen En.
  set (n := length df_subset) in *.
  match type of Htrue with
  | mget (set_diag ?c) _ _ = _ => assert (Hsq : square n c)
  end.
  { pose proof (fold_layers_ok n (has_column df) (categorical_layer rules df_subset)
                  (CUT_CATEGORICAL cfg) (ones n)
                  (categorical_layer_ok rules df_subset) (ones_ok n)) as Hcat.
    pose proof (fold_layers_ok n (has_column df) (multi_layer rules df_subset)
                  (CUT_MULTI cfg) _
                  (fun col => let '(conj a (conj b _)) := multi_layer_ok rules df_subset col
                              in conj a b) Hcat) as Hmulti.
    simpl in Hmulti.
    apply (foldl_invariant (fun m => square n m)).
    - destruct (AGE_RULES cfg) as [age_rules|]; [|apply Hmulti].
      destruct (has_column df (field age_rules)); [|apply Hmulti].
      apply square_mand; [apply Hmulti|apply age_layer_ok].
    - intros a [col tol] _ Hsq. destruct (has_column df col); [|exact Hsq].
      apply square_mand; [exact Hsq|apply square_numeric_layer]. }
  rewrite (mget_set_diag n) in Htrue by assumption.
  rewrite decide_False in Htrue by exact Hne.
  apply (fold_layers_true _ (fun p => has_column df p.1)
           (fun p => numeric_layer df_subset p.1 p.2)) in Htrue;
    [|intros c [col tol]; reflexivity].
  destruct Htrue as [Hage Hnum].
  assert (Hmulti : mget (foldl (fun compat col =>
                      if has_column df col then mand compat (multi_layer rules df_subset col)
                      else compat)
                    (foldl (fun compat col =>
                      if has_column df col
                      then mand compat (categorical_layer rules df_subset col)
                      else compat) (ones n) (CUT_CATEGORICAL cfg)) (CUT_MULTI cfg)) i j
                   = Some true
                   /\ forall age_rules, AGE_RULES cfg = Some age_rules ->
                        has_column df (field age_rules) = true ->
                        mget (age_layer age_rules df_subset) i j = Some true).
  { destruct (AGE_RULES cfg) as [age_rules|]; [|split; [exact Hage|discriminate]].
    destruct (has_column df (field age_rules)) eqn:Ec.
    - apply mget_mand_true in Hage as [Hm Ha]. split; [exact Hm|].
      intros r [= <-] _. exact Ha.
    - split; [exact Hage|]. intros r [= <-]. congruence. }
  destruct Hmulti as [Hmulti Hage'].
  apply (fold_layers_true _ (has_column df) (multi_layer rules df_subset)) in Hmulti;
    [|reflexivity].
  destruct Hmulti as [Hcat Hmulti].
  apply (fold_layers_true _ (has_column df) (categorical_layer rules df_subset)) in Hcat;
    [|reflexivity].
  destruct Hcat as [_ Hcat].
  split; [exact Hcat|]. split; [exact Hmulti|]. split; [exact Hage'|].
  intros col tol Hin Hc. exact (Hnum (col, tol) Hin Hc).
Qed.
End Soundness.

Section MissingMultiClaim.
Context `{Runtime}.

(** C10. A record whose value on a hard multi-overlap column is missing (NaN)
    or the empty string has the empty set for that column; it fails the
    pairwise multi-overlap check, and so [pass_pairwise_cuts], against every
    record [b], on either side; and in the matrix of every subspace it is
    in, its entries off the diagonal are false, in the layer of the column
    and in the matrix built. *)
Theorem missing_multi_value_never_pairs cfg rules col :
  col ∈ CUT_MULTI cfg ->
  (forall c, missing_value c -> to_set rules c (Some col) = ∅)
  /\ (forall a b, missing_value (row_get a col (Str "")) ->
        multi_passed rules a b col = false /\ multi_passed rules b a col = false
        /\ pass_pairwise_cuts cfg rules a b = false
        /\ pass_pairwise_cuts cfg rules b a = false)
  /\ (forall df idxs df_subset compat i j r,
        has_column df col = true ->
        build_compatibility_matrix_vectorized cfg rules df (Some idxs) = Some compat ->
        iloc df idxs = Some df_subset ->
        (i < length idxs)%nat -> (j < length idxs)%nat -> i <> j ->
        df_subset !! i = Some r -> missing_value (row_get r col NaN) ->
        mget (multi_layer rules df_subset col) i j = Some false
        /\ mget (multi_layer rules df_subset col) j i = Some false
        /\ mget compat i j = Some false /\ mget compat j i = Some false).
Proof.
  intros Hcol. split; [intros c Hc; apply to_set_missing; exact Hc|]. split.
  - intros a b Hm. destruct (multi_passed_missing rules a b col Hm) as [Hab Hba].
    split; [exact Hab|]. split; [exact Hba|].
    split; eapply pass_pairwise_cuts_multi_false; eassumption.
  - intros df idxs df_subset compat i j r Hc Hbuild Hiloc Hi Hj Hne Hr Hm.
    pose proof (iloc_length _ _ _ Hiloc) as Hlen.
    destruct (multi_layer_missing rules df_subset col i j r) as [Hij Hji];
      try assumption; try lia.
    split; [exact Hij|]. split; [exact Hji|].
    destruct (vectorized_matrix_ok _ _ _ _ _ Hbuild) as (Hsq & _ & Hsym). simpl in Hsq, Hsym.
    assert (E : mget compat i j = Some false).
    { destruct (square_lookup _ _ i j Hsq Hi Hj) as [[|] E]; [|exact E].
      exfalso.
      destruct (vectorized_entry_true _ _ _ _ _ _ _ _ Hbuild Hiloc Hi Hj Hne E)
        as (_ & Hmulti & _).
      rewrite (Hmulti col Hcol Hc) in Hij. discriminate. }
    split; [exact E|]. rewrite <- (Hsym i j Hi Hj). exact E.
Qed.
End MissingMultiClaim.

(** ** C4: the numeric tolerance rule *)


Section NumericTolerance.
Context `{Runtime}.





End NumericTolerance.

(** ** C5: age compatibility *)

Section AgeRule.
Context `{Runtime}.

Lemma age_layer_missing age_rules df_subset i j ri :
  (i < length df_subset)%nat -> (j < length df_subset)%nat -> i <> j ->
  df_subset !! i = Some ri -> to_numeric (row_get ri (field age_rules) NaN) = None ->
  mget (age_layer age_rules df_subset) i j = Some false
  /\ mget (age_layer age_rules df_subset) j i = Some false.
Proof.
  intros Hi Hj Hne Hri Hna. unfold age_layer.
  rewrite !mget_mtab by assumption.
  assert (Ei : default None ((to_numeric <$> column_values df_subset (field age_rules)) !! i)
               = None).
  { unfold column_values. rewrite !list_lookup_fmap, Hri. simpl. exact Hna. }
  replace (i =? j)%nat with false by (symmetry; apply Nat.eqb_neq; exact Hne).
  replace (j =? i)%nat with false
    by (symmetry; apply Nat.eqb_neq; intros ->; apply Hne; reflexivity).
  rewrite Ei.
  split; [reflexivity|].
  destruct (default None ((to_numeric <$> column_values df_subset (field age_rules)) !! j));
    reflexivity.
Qed.

(** what the engine's [_check_age_compatibility] computes on two numbers *)
Lemma engine_age_compatible_iff r a b :
  engine_age_compatible r a b = true <->
  ((exists i, band_contains (bands r) i a /\ band_contains (bands r) i b
              /\ (bands r !! i ≫= max_spread = None
                  \/ exists s, band_spread (bands r) i s /\ Qabs (a - b) <= s))
   \/ (allow_cross_band r = true /\ Qabs (a - b) <= boundary_slack_years r)).
Proof.
  unfold engine_age_compatible.
  destruct (existsb _ _) eqn:E.
  - split; [intros _|reflexivity]. left.
    apply existsb_exists in E as (i & Hi & Hok).
    apply list_elem_of_In, list_elem_of_filter in Hi as [Hb Ha].
    apply elem_of_bands_of in Ha, Hb.
    exists i. split; [exact Ha|]. split; [exact Hb|].
    unfold band_spread. destruct (bands r !! i ≫= max_spread) as [s|]; [|left; reflexivity].
    right. exists s. split; [reflexivity|]. apply within_tol_iff. exact Hok.
  - assert (Hno : ~ exists i, band_contains (bands r) i a /\ band_contains (bands r) i b
                    /\ (bands r !! i ≫= max_spread = None
                        \/ exists s, band_spread (bands r) i s /\ Qabs (a - b) <= s)).
    { intros (i & Ha & Hb & Hs).
      assert (Hex : existsb (fun band_idx =>
                match bands r !! band_idx ≫= max_spread with
                | None => true
                | Some s => within_tol a b s
                end)
               (filter (fun i => i ∈ bands_of (bands r) b) (bands_of (bands r) a)) = true).
      { apply existsb_exists. exists i. split.
        - apply list_elem_of_In, list_elem_of_filter.
          split; apply elem_of_bands_of; assumption.
        - destruct Hs as [-> |(s & Hs & Hd)]; [reflexivity|].
          unfold band_spread in Hs. rewrite Hs. apply within_tol_iff. exact Hd. }
      congruence. }
    destruct (allow_cross_band r).
    + rewrite within_tol_iff. split.
      * intros Hd. right. split; [reflexivity|exact Hd].
      * intros [Hex|[_ Hd]]; [contradiction|exact Hd].
    + split; [discriminate|]. intros [Hex|[Hc _]]; [contradiction|discriminate].
Qed.

(** C5, as the code has it.  Under band rules (no legacy key
    [max_age_difference]) two ages are compatible for the legacy algorithm
    iff each lies in at least one band and either they share a band and
    [|a - b|] is within the smallest spread of the shared bands (free when no
    shared band defines one), or they share no band, [allow_cross_band] is set
    and [|a - b|] is within the largest spread of the bands of either age.
    A missing age is compatible with no age, and off the diagonal of the age
    layer the entries of a record with a missing age are false.  For the
    engine two ages are compatible iff some shared band has no spread or
    [|a - b|] is within its spread, or [allow_cross_band] is set and
    [|a - b| <= boundary_slack_years]. *)
Theorem age_compatibility_rule r :
  max_age_difference r = None ->
  (forall a b,
     check_age_compatibility (Some a) (Some b) (Some r) = true <->
     ((exists i, band_contains (bands r) i a) /\ (exists i, band_contains (bands r) i b)
      /\ spec_age_compatible r a b))
  /\ (forall x, check_age_compatibility None x (Some r) = false
                /\ check_age_compatibility x None (Some r) = false)
  /\ (forall df_subset i j ri,
        (i < length df_subset)%nat -> (j < length df_subset)%nat -> i <> j ->
        df_subset !! i = Some ri -> to_numeric (row_get ri (field r) NaN) = None ->
        mget (age_layer r df_subset) i j = Some false
        /\ mget (age_layer r df_subset) j i = Some false)
  /\ (forall a b,
        engine_age_compatible r a b = true <->
        ((exists i, band_contains (bands r) i a /\ band_contains (bands r) i b
                    /\ (bands r !! i ≫= max_spread = None
                        \/ exists s, band_spread (bands r) i s /\ Qabs (a - b) <= s))
         \/ (allow_cross_band r = true /\ Qabs (a - b) <= boundary_slack_years r))).
Proof.
  intros Hlegacy.
  split; [intros a b; apply check_age_compatibility_bands; exact Hlegacy|].
  split; [intros [x|]; split; reflexivity|].
  split; [apply age_layer_missing|apply engine_age_compatible_iff].
Qed.
End AgeRule.

(** ** The greedy builder *)

Section BuilderProps.
Context `{Runtime} {St : Type}.
Variable group_size : Z.
Variable group_ok : list nat -> option bool.
Variable score : St -> list nat -> option (Q * St).

Lemma foldl_None_fixed {A B : Type} (g : option A -> B -> option A) (l : list B) :
  (forall x, g None x = None) -> foldl g None l = None.
Proof. intros Hg. induction l as [|x l IH]; simpl; [reflexivity|]. rewrite Hg. exact IH. Qed.

Lemma foldl_bind_None {A B : Type} (f : A -> B -> option A) (l : list B) :
  foldl (fun acc x => acc ≫= fun a => f a x) None l = None.
Proof. apply foldl_None_fixed. reflexivity. Qed.

(** the feasible candidates are the remaining ones that pass [is_feasible],
    in the order of the remaining ones *)
Lemma feasibles_spec compat_matrix global_to_local group_global remaining_global fs :
  feasibles group_ok compat_matrix global_to_local group_global remaining_global = Some fs ->
  fs = filter (fun x => is_feasible group_ok compat_matrix global_to_local group_global x
                        = Some true) remaining_global.
Proof.
  unfold feasibles.
  change (Some []) with (Some ([] : list nat)).
  assert (Hgen : forall acc,
    foldl (fun acc global_idx =>
             feasibles_global ← acc;
             feasible ← is_feasible group_ok compat_matrix global_to_local group_global
                          global_idx;
             Some (if feasible : bool then feasibles_global ++ [global_idx]
                   else feasibles_global)) (Some acc) remaining_global = Some fs ->
    fs = acc ++ filter (fun x => is_feasible group_ok compat_matrix global_to_local
                                   group_global x = Some true) remaining_global).
  { induction remaining_global as [|x l IH]; intros acc; simpl.
    - intros [= <-]. rewrite app_nil_r. reflexivity.
    - destruct (is_feasible group_ok compat_matrix global_to_local group_global x)
        as [[|]|] eqn:E; simpl.
      + intros Hf. rewrite (IH _ Hf). rewrite filter_cons_True by exact E.
        rewrite <- app_assoc. reflexivity.
      + intros Hf. rewrite (IH _ Hf). rewrite filter_cons_False by congruence.
        reflexivity.
      + intros Hf. exfalso.
        rewrite (foldl_bind_None
                   (fun feasibles_global global_idx =>
                      feasible ← is_feasible group_ok compat_matrix global_to_local
                                   group_global global_idx;
                      Some (if feasible : bool then feasibles_global ++ [global_idx]
                            else feasibles_global))) in Hf.
        discriminate. }
  intros Hf. exact (Hgen [] Hf).
Qed.

(** the scores are computed for the feasible candidates, in their order *)
Lemma score_all_fst st group_global fs scored st' :
  score_all score st group_global fs = Some (scored, st') -> scored.*1 = fs.
Proof.
  revert st scored st'. induction fs as [|x fs IH]; intros st scored st'; simpl.
  - intros [= <- _]. reflexivity.
  - destruct (score st (group_global ++ [x])) as [[s st1]|]; [|discriminate]. simpl.
    destruct (score_all score st1 group_global fs) as [[scored1 st2]|] eqn:E; [|discriminate].
    simpl. intros [= <- _]. rewrite fmap_cons. f_equal. exact (IH _ _ _ E).
Qed.
End BuilderProps.

(** the scoring loop keeps the first candidate of the highest score, when
    that score exceeds the initial [best_score] *)
Lemma pick_best_fold (scored : list (nat * Q)) (b0 : option nat) (s0 : Q) :
  let r := foldl (fun best '(global_idx, score) =>
                    if negb (Qle_bool score (snd best)) then (Some global_idx, score) else best)
                 (b0, s0) scored in
  (r = (b0, s0) /\ forall y sy, (y, sy) ∈ scored -> sy <= s0)
  \/ (exists pre post x sx,
        scored = pre ++ (x, sx) :: post /\ r = (Some x, sx) /\ s0 < sx
        /\ (forall y sy, (y, sy) ∈ pre -> sy < sx)
        /\ (forall y sy, (y, sy) ∈ post -> sy <= sx)).
Proof.
  revert b0 s0. induction scored as [|[y sy] l IH]; intros b0 s0; simpl.
  - left. split; [reflexivity|]. intros y sy Hin. inversion Hin.
  - destruct (Qle_bool sy s0) eqn:E; simpl.
    + apply Qle_bool_iff in E.
      destruct (IH b0 s0) as [[Hr Hall]|(pre & post & x & sx & Hl & Hr & Hlt & Hpre & Hpost)].
      * left. split; [exact Hr|]. intros z sz Hin.
        apply elem_of_cons in Hin as [[= -> ->]|Hin]; [exact E|eapply Hall; exact Hin].
      * right. exists ((y, sy) :: pre), post, x, sx.
        split; [rewrite Hl; reflexivity|]. split; [exact Hr|]. split; [exact Hlt|].
        split; [|exact Hpost]. intros z sz Hin.
        apply elem_of_cons in Hin as [[= -> ->]|Hin]; [|eapply Hpre; exact Hin].
        eapply Qle_lt_trans; eassumption.
    + assert (Hlt0 : s0 < sy).
      { apply Qnot_le_lt. intros Hle. apply Qle_bool_iff in Hle. congruence. }
      right.
      destruct (IH (Some y) sy) as [[Hr Hall]|(pre & post & x & sx & Hl & Hr & Hlt & Hpre & Hpost)].
      * exists [], l, y, sy. split; [reflexivity|]. split; [exact Hr|]. split; [exact Hlt0|].
        split; [|exact Hall]. intros z sz Hin. inversion Hin.
      * exists ((y, sy) :: pre), post, x, sx.
        split; [rewrite Hl; reflexivity|]. split; [exact Hr|].
        split; [eapply Qlt_trans; eassumption|].
        split; [|exact Hpost]. intros z sz Hin.
        apply elem_of_cons in Hin as [[= -> ->]|Hin]; [exact Hlt|eapply Hpre; exact Hin].
Qed.

Lemma pick_best_Some scored x :
  pick_best scored = Some x ->
  exists pre post sx,
    scored = pre ++ (x, sx) :: post
    /\ - (1000000000) < sx
    /\ (forall y sy, (y, sy) ∈ pre -> sy < sx)
    /\ (forall y sy, (y, sy) ∈ post -> sy <= sx).
Proof.
  unfold pick_best.
  destruct (pick_best_fold scored None (- (1000000000)))
    as [[Hr _]|(pre & post & x' & sx & Hl & Hr & Hlt & Hpre & Hpost)]; rewrite Hr; simpl.
  - discriminate.
  - intros [= ->]. exists pre, post, sx. repeat split; assumption.
Qed.

Lemma pick_best_None scored :
  pick_best scored = None -> forall y sy, (y, sy) ∈ scored -> sy <= - (1000000000).
Proof.
  unfold pick_best.
  destruct (pick_best_fold scored None (- (1000000000)))
    as [[Hr Hall]|(pre & post & x' & sx & Hl & Hr & Hlt & Hpre & Hpost)]; rewrite Hr; simpl.
  - intros _. exact Hall.
  - discriminate.
Qed.

Lemma StronglySorted_filter {A : Type} (R : relation A) (P : A -> Prop)
    `{forall x, Decision (P x)} (l : list A) :
  StronglySorted R l -> StronglySorted R (filter P l).
Proof.
  induction 1 as [|a l Hs IH Ha]; [constructor|].
  destruct (decide (P a)) as [Hp|Hp].
  - rewrite filter_cons_True by exact Hp. constructor; [exact IH|].
    apply Forall_forall. intros x Hx. apply list_elem_of_filter in Hx as [_ Hx].
    rewrite Forall_forall in Ha. apply Ha. exact Hx.
  - rewrite filter_cons_False by exact Hp. exact IH.
Qed.

(** ** C7: the extension step takes the first candidate of maximal score *)

Section Extension.
Context `{Runtime} {St : Type}.
Variable group_ok : list nat -> option bool.
Variable score : St -> list nat -> option (Q * St).

(** a round that appends [x] scored the feasible candidates and [x] is the
    pick among the scored ones *)
Lemma extend_step_inv compat_matrix global_to_local st st' group_global remaining_global x :
  extend_step group_ok score compat_matrix global_to_local st group_global remaining_global
    = Some (Some x, st') ->
  exists scored,
    score_all score st group_global
      (filter (fun y => is_feasible group_ok compat_matrix global_to_local group_global y
                        = Some true) remaining_global) = Some (scored, st')
    /\ pick_best scored = Some x.
Proof.
  intros Hstep. unfold extend_step in Hstep.
  destruct (feasibles group_ok compat_matrix global_to_local group_global remaining_global)
    as [fs'|] eqn:Ef; [|discriminate].
  pose proof (feasibles_spec _ _ _ _ _ _ Ef) as Hfs. subst fs'.
  simpl in Hstep.
  set (fs := filter _ remaining_global) in *.
  destruct fs as [|f0 fs0] eqn:Efs; [discriminate|]. rewrite <- Efs in *.
  destruct (score_all score st group_global fs) as [[scored st1]|] eqn:Es; [|discriminate].
  simpl in Hstep.
  destruct (pick_best scored) as [best|] eqn:Ep; [|discriminate].
  simpl in Hstep. injection Hstep as -> ->.
  exists scored. split; [reflexivity|exact Ep].
Qed.

(** C7, as the code has it.  When a round of the extension loop appends [x]:
    the scores [score(G + [y])] were computed for the feasible candidates
    [y], in the order in which the set of remaining candidates is iterated;
    the score of [x] is at least the score of every feasible candidate; and
    [x] is the first candidate of that score in this order, every candidate
    before it scoring strictly less.  When the set is iterated in ascending
    order, [x] is the lowest index among the candidates of maximal score. *)
Theorem extension_takes_first_maximum compat_matrix global_to_local st st'
    group_global remaining_global x :
  extend_step group_ok score compat_matrix global_to_local st group_global remaining_global
    = Some (Some x, st') ->
  let fs := filter (fun y => is_feasible group_ok compat_matrix global_to_local group_global y
                             = Some true) remaining_global in
  exists scored pre post sx,
    score_all score st group_global fs = Some (scored, st')
    /\ scored.*1 = fs
    /\ scored = pre ++ (x, sx) :: post
    /\ (forall y sy, (y, sy) ∈ scored -> sy <= sx)
    /\ (forall y sy, (y, sy) ∈ pre -> sy < sx)
    /\ (StronglySorted lt remaining_global ->
        forall y sy, (y, sy) ∈ scored -> sy == sx -> (x <= y)%nat).
Proof.
  intros Hstep fs.
  destruct (extend_step_inv _ _ _ _ _ _ _ Hstep) as (scored & Es & Ep). fold fs in Es.
  destruct (pick_best_Some _ _ Ep) as (pre & post & sx & Hl & Hlow & Hpre & Hpost).
  pose proof (score_all_fst _ _ _ _ _ _ Es) as Hfst.
  exists scored, pre, post, sx.
  split; [exact Es|]. split; [exact Hfst|]. split; [exact Hl|].
  split; [|split; [exact Hpre|]].
  - intros y sy Hin. rewrite Hl in Hin.
    apply elem_of_app in Hin as [Hin|Hin]; [apply Qlt_le_weak; eapply Hpre; exact Hin|].
    apply elem_of_cons in Hin as [[= -> ->]|Hin]; [apply Qle_refl|eapply Hpost; exact Hin].
  - intros Hsorted y sy Hin Heq.
    assert (Hs : StronglySorted lt (scored.*1)).
    { rewrite Hfst. unfold fs. apply StronglySorted_filter. exact Hsorted. }
    rewrite Hl in Hin, Hs.
    apply elem_of_app in Hin as [Hin|Hin].
    + exfalso. specialize (Hpre _ _ Hin). rewrite Heq in Hpre.
      exact (Qlt_irrefl _ Hpre).
    + apply elem_of_cons in Hin as [[= -> ->]|Hin]; [lia|].
      rewrite fmap_app, fmap_cons in Hs. apply StronglySorted_app_1_r in Hs.
      apply StronglySorted_inv in Hs as [_ Hall]. rewrite Forall_forall in Hall.
      assert (Hy : y ∈ post.*1) by (apply list_elem_of_fmap; exists (y, sy); split; [reflexivity|exact Hin]).
      specialize (Hall _ Hy). simpl in Hall. lia.
Qed.
End Extension.

(** ** Dicts, the seed and the extension loop *)

Lemma dict_set_keys {V : Type} (d : list (nat * V)) k v k' :
  k' ∈ (dict_set d k v).*1 <-> k' = k \/ k' ∈ d.*1.
Proof.
  induction d as [|[k0 v0] d IH]; simpl.
  - rewrite list_elem_of_singleton. split; [intros ->; left; reflexivity|].
    intros [->|Hin]; [reflexivity|inversion Hin].
  - destruct (k =? k0)%nat eqn:E.
    + apply Nat.eqb_eq in E. subst k0. simpl. rewrite !elem_of_cons. tauto.
    + simpl. rewrite !elem_of_cons, IH. tauto.
Qed.

Lemma dict_argmin_fold_in (best : nat * nat) (l : list (nat * nat)) :
  foldl (fun best kv' => if (snd kv' <? snd best)%nat then kv' else best) best l ∈ best :: l.
Proof.
  revert best. induction l as [|kv l IH]; intros best; simpl; [left|].
  destruct (snd kv <? snd best)%nat.
  - right. apply IH.
  - specialize (IH best). apply elem_of_cons in IH as [->|Hin]; [left|right; right; exact Hin].
Qed.

Lemma dict_argmin_in (d : list (nat * nat)) k : dict_argmin d = Some k -> k ∈ d.*1.
Proof.
  destruct d as [|kv d]; unfold dict_argmin; [discriminate|]. intros [= <-].
  apply (list_elem_of_fmap_2 fst). apply dict_argmin_fold_in.
Qed.

Lemma enumerate_candidates_in candidates local_indices pairs :
  enumerate_candidates candidates local_indices = Some pairs ->
  forall l g, (l, g) ∈ pairs -> g ∈ candidates.
Proof.
  unfold enumerate_candidates. intros Hm l g Hin.
  apply mapM_Some_1 in Hm.
  apply list_elem_of_lookup in Hin as [k Hk].
  destruct (Forall2_lookup_r _ _ _ _ _ Hm Hk) as ([i li] & _ & Hf).
  simpl in Hf. destruct (candidates !! i) as [g'|] eqn:E; [|discriminate].
  simpl in Hf. injection Hf as <- <-. apply list_elem_of_lookup. exists i. exact E.
Qed.

Lemma compat_counts_keys compat_matrix candidates local_indices counts :
  compat_counts compat_matrix candidates local_indices = Some counts ->
  forall k, k ∈ counts.*1 -> k ∈ candidates.
Proof.
  unfold compat_counts.
  destruct (enumerate_candidates candidates local_indices) as [pairs|] eqn:E; [|discriminate].
  simpl. pose proof (enumerate_candidates_in _ _ _ E) as Hin.
  assert (Hgen : forall acc c,
    (forall k, k ∈ acc.*1 -> k ∈ candidates) ->
    foldl (fun acc '(local_idx, global_idx) =>
             d ← acc;
             c ← compat_count compat_matrix local_indices local_idx;
             Some (dict_set d global_idx c)) (Some acc) pairs = Some c ->
    forall k, k ∈ c.*1 -> k ∈ candidates).
  { clear E. induction pairs as [|[l g] pairs IH]; intros acc c Hacc; simpl.
    - intros [= <-]. exact Hacc.
    - destruct (compat_count compat_matrix local_indices l) as [n|]; simpl.
      + apply IH.
        * intros l' g' Hin'. apply (Hin l' g'). right. exact Hin'.
        * intros k Hk. apply dict_set_keys in Hk as [->|Hk]; [|apply Hacc; exact Hk].
          apply (Hin l g). left.
      + intros Hf. exfalso.
        rewrite foldl_None_fixed in Hf; [discriminate|]. intros [? ?]. reflexivity. }
  intros Hf. apply (Hgen [] counts); [|exact Hf].
  intros k Hk. inversion Hk.
Qed.

Lemma choose_seed_in compat_matrix candidates local_indices seed :
  choose_seed compat_matrix candidates local_indices = Some seed -> seed ∈ candidates.
Proof.
  unfold choose_seed.
  destruct (compat_counts compat_matrix candidates local_indices) as [counts|] eqn:E;
    [|discriminate].
  simpl. intros Hs. eapply compat_counts_keys; [exact E|]. apply dict_argmin_in. exact Hs.
Qed.

Section BuilderResult.
Context `{Runtime} {St : Type}.
Variable group_size : Z.
Variable group_ok : list nat -> option bool.
Variable score : St -> list nat -> option (Q * St).

Lemma extend_step_in compat_matrix global_to_local st st' group_global remaining_global x :
  extend_step group_ok score compat_matrix global_to_local st group_global remaining_global
    = Some (Some x, st') ->
  x ∈ remaining_global.
Proof.
  intros Hstep.
  destruct (extend_step_inv _ _ _ _ _ _ _ _ _ Hstep) as (scored & Es & Ep).
  destruct (pick_best_Some _ _ Ep) as (pre & post & sx & Hl & _).
  pose proof (score_all_fst _ _ _ _ _ _ Es) as Hfst.
  assert (Hx : x ∈ scored.*1).
  { rewrite Hl, fmap_app, fmap_cons. apply elem_of_app. right. left. }
  rewrite Hfst in Hx. apply list_elem_of_filter in Hx as [_ Hx]. exact Hx.
Qed.

(** what the extension loop returns: the group it was given, then members
    taken from the remaining candidates, each once, up to the target size *)
Lemma extend_loop_spec fuel compat_matrix global_to_local st st' group_global
    remaining_global g :
  extend_loop group_size group_ok score fuel compat_matrix global_to_local st
    group_global remaining_global = Some (g, st') ->
  exists added,
    g = group_global ++ added
    /\ (forall a, a ∈ added -> a ∈ remaining_global)
    /\ (NoDup remaining_global -> NoDup added)
    /\ (Z.of_nat (length g) <= Z.max (Z.of_nat (length group_global)) group_size)%Z.
Proof.
  revert st group_global remaining_global.
  induction fuel as [|fuel IH]; intros st group_global remaining_global; simpl.
  - destruct ((Z.of_nat (length group_global) <? group_size)%Z
              && negb (bool_decide (remaining_global = []))); [discriminate|].
    intros [= <- _]. exists []. rewrite app_nil_r.
    split; [reflexivity|]. split; [intros a Ha; inversion Ha|].
    split; [intros _; constructor|lia].
  - destruct ((Z.of_nat (length group_global) <? group_size)%Z
              && negb (bool_decide (remaining_global = []))) eqn:Ec.
    + apply andb_true_iff in Ec as [Hlt _]. apply Z.ltb_lt in Hlt.
      destruct (extend_step group_ok score compat_matrix global_to_local st group_global
                  remaining_global) as [[[x|] st1]|] eqn:Es; simpl; [| |discriminate].
      * intros Hloop. destruct (IH _ _ _ Hloop) as (added & Hg & Hin & Hnd & Hlen).
        pose proof (extend_step_in _ _ _ _ _ _ _ Es) as Hx.
        exists (x :: added). split; [rewrite Hg, <- app_assoc; reflexivity|].
        split; [|split].
        -- intros a Ha. apply elem_of_cons in Ha as [->|Ha]; [exact Hx|].
           apply Hin, list_elem_of_filter in Ha as [_ Ha]. exact Ha.
        -- intros Hr. constructor.
           ++ intros Ha. apply Hin, list_elem_of_filter in Ha as [Hne _]. apply Hne. reflexivity.
           ++ apply Hnd, NoDup_filter. exact Hr.
        -- rewrite length_app in Hlen. simpl in Hlen. lia.
      * intros [= <- _]. exists []. rewrite app_nil_r.
        split; [reflexivity|]. split; [intros a Ha; inversion Ha|].
        split; [intros _; constructor|lia].
    + intros [= <- _]. exists []. rewrite app_nil_r.
      split; [reflexivity|]. split; [intros a Ha; inversion Ha|].
      split; [intros _; constructor|lia].
Qed.

(** What the builder returns: nothing, or the seed followed by distinct
    other candidates, at least 4 and at most [GROUP_SIZE] members in all. *)
Lemma build_one_group_spec st st' candidates compat_matrix local_indices g :
  build_one_group_optimized group_size group_ok score st candidates compat_matrix
    local_indices = Some (g, st') ->
  g = []
  \/ (exists seed added,
        choose_seed compat_matrix candidates local_indices = Some seed
        /\ g = seed :: added
        /\ NoDup g
        /\ (forall a, a ∈ g -> a ∈ candidates)
        /\ (4 <= length g)%nat
        /\ (Z.of_nat (length g) <= group_size)%Z).
Proof.
  unfold build_one_group_optimized.
  destruct (bool_decide (candidates = []) || bool_decide (local_indices = []));
    [intros [= <- _]; left; reflexivity|].
  destruct (enumerate_candidates candidates local_indices) as [pairs|]; [|discriminate].
  simpl.
  destruct (choose_seed compat_matrix candidates local_indices) as [seed|] eqn:Eseed;
    [|discriminate].
  simpl.
  set (remaining := set_iter (filter (fun g => g ≠ seed) candidates)).
  destruct (extend_loop _ _ _ _ _ _ _ _ _) as [[g' st1]|] eqn:El; [|discriminate].
  simpl. intros [= <- _].
  destruct (bool_decide (4 <= length g')%nat) eqn:E4; [|left; reflexivity].
  apply bool_decide_eq_true in E4. right.
  destruct (extend_loop_spec _ _ _ _ _ _ _ _ El) as (added & Hg & Hin & Hnd & Hlen).
  assert (Hperm : remaining ≡ₚ remove_dups (filter (fun g => g ≠ seed) candidates))
    by apply set_iter_perm.
  assert (Hrem : forall a, a ∈ remaining -> a ∈ candidates /\ a <> seed).
  { intros a Ha. rewrite Hperm in Ha. apply elem_of_remove_dups, list_elem_of_filter in Ha.
    tauto. }
  assert (Hndr : NoDup remaining) by (rewrite Hperm; apply NoDup_remove_dups).
  exists seed, added. split; [reflexivity|]. split; [exact Hg|].
  split; [|split; [|split]].
  - rewrite Hg. simpl. constructor; [|apply Hnd; exact Hndr].
    intros Hs. apply Hin, Hrem in Hs as [_ Hne]. apply Hne. reflexivity.
  - intros a Ha. rewrite Hg in Ha. simpl in Ha.
    apply elem_of_cons in Ha as [->|Ha]; [eapply choose_seed_in; exact Eseed|].
    apply Hin, Hrem in Ha. tauto.
  - exact E4.
  - simpl in Hlen. lia.
Qed.
End BuilderResult.

(** ** The run drivers: emitted groups are disjoint and of bounded size *)

(** the groups are pairwise disjoint, and no group lists a member twice *)
Definition disjoint_groups (groups : list (list nat)) : Prop :=
  NoDup (concat groups).

(** the size bounds of the legacy builder *)
Definition size_ok (group_size : Z) (g : list nat) : Prop :=
  (4 <= length g)%nat /\ (Z.of_nat (length g) <= group_size)%Z.

Lemma elem_of_concat {A : Type} (x : A) (ls : list (list A)) :
  x ∈ concat ls <-> exists l, x ∈ l /\ l ∈ ls.
Proof.
  induction ls as [|l ls IH]; simpl.
  - split; [intros Hx; inversion Hx|intros (l & _ & Hl); inversion Hl].
  - rewrite elem_of_app, IH. split.
    + intros [Hx|(l' & Hx & Hl)]; [exists l; split; [exact Hx|left]|].
      exists l'. split; [exact Hx|right; exact Hl].
    + intros (l' & Hx & Hl). apply elem_of_cons in Hl as [->|Hl]; [left; exact Hx|].
      right. exists l'. split; assumption.
Qed.

Lemma disjoint_groups_app groups g :
  disjoint_groups groups -> NoDup g ->
  (forall x, x ∈ g -> x ∉ concat groups) ->
  disjoint_groups (groups ++ [g]).
Proof.
  unfold disjoint_groups. intros Hgs Hg Hnew.
  rewrite concat_app. simpl. rewrite app_nil_r.
  apply NoDup_app. split; [exact Hgs|]. split; [|exact Hg].
  intros x Hx Hxg. exact (Hnew x Hxg Hx).
Qed.

Lemma disjoint_groups_lookup groups i j gi gj x :
  disjoint_groups groups ->
  groups !! i = Some gi -> groups !! j = Some gj -> i <> j ->
  x ∈ gi -> x ∉ gj.
Proof.
  unfold disjoint_groups. revert i j.
  induction groups as [|g groups IH]; intros i j Hnd Hi Hj Hne Hxi Hxj; [discriminate|].
  simpl in Hnd. apply NoDup_app in Hnd as (_ & Hdis & Hrest).
  destruct i as [|i], j as [|j]; simpl in Hi, Hj.
  - contradiction.
  - injection Hi as ->. apply (Hdis x Hxi).
    apply elem_of_concat. exists gj. split; [exact Hxj|].
    apply list_elem_of_lookup. exists j. exact Hj.
  - injection Hj as ->. apply (Hdis x Hxj).
    apply elem_of_concat. exists gi. split; [exact Hxi|].
    apply list_elem_of_lookup. exists i. exact Hi.
  - apply (IH i j Hrest Hi Hj); [lia|exact Hxi|exact Hxj].
Qed.

Section LegacyRun.
Context `{Runtime}.

(** the invariant of [make_groups]: the groups so far are disjoint, of
    bounded size, and their members are marked as used *)
Definition run_invariant (cfg : Config) (st : RunState) : Prop :=
  disjoint_groups (all_groups st)
  /\ (forall x, x ∈ concat (all_groups st) -> x ∈ used st)
  /\ Forall (size_ok (GROUP_SIZE cfg)) (all_groups st).

Lemma subspace_loop_invariant fuel cfg rules df compat_matrix pool st st' :
  run_invariant cfg st ->
  subspace_loop fuel cfg rules df compat_matrix pool st = Some st' ->
  run_invariant cfg st'.
Proof.
  revert pool st. induction fuel as [|fuel IH]; intros pool st Hinv; simpl.
  - destruct (bool_decide _); [intros [= <-]; exact Hinv|discriminate].
  - destruct (bool_decide _); [intros [= <-]; exact Hinv|].
    destruct (mapM (list_index pool) _) as [local_indices|]; [|discriminate]. simpl.
    destruct (build_one_group_optimized _ _ _ _ _ _ _) as [[group caches']|] eqn:Eb;
      [|discriminate].
    simpl.
    destruct (build_one_group_spec _ _ _ _ _ _ _ _ _ Eb)
      as [->|(seed & added & _ & Hg & Hnd & Hin & H4 & Hsz)].
    + rewrite bool_decide_eq_true_2 by reflexivity. intros [= <-]. exact Hinv.
    + rewrite bool_decide_eq_false_2 by (rewrite Hg; discriminate).
      apply IH. destruct Hinv as (Hdis & Hused & Hsize).
      split; [|split]; simpl.
      * apply disjoint_groups_app; [exact Hdis|exact Hnd|].
        intros x Hx Hc. apply Hin, list_elem_of_filter in Hx as [Hnot _].
        apply Hnot, Hused. exact Hc.
      * intros x Hx. rewrite concat_app in Hx. simpl in Hx. rewrite app_nil_r in Hx.
        apply elem_of_app in Hx as [Hx|Hx]; apply elem_of_union;
          [left; apply Hused; exact Hx|right; apply elem_of_list_to_set; exact Hx].
      * apply Forall_app. split; [exact Hsize|].
        constructor; [split; assumption|constructor].
Qed.

Lemma process_bucket_invariant cfg rules df st idxs st' :
  run_invariant cfg st ->
  process_bucket cfg rules df st idxs = Some st' ->
  run_invariant cfg st'.
Proof.
  intros Hinv. unfold process_bucket.
  destruct (bool_decide _); [intros [= <-]; exact Hinv|].
  destruct (build_compatibility_matrix_per_subspace _ _ _ _) as [compat|]; [|discriminate].
  intros Hloop. eapply subspace_loop_invariant; [exact Hinv|exact Hloop].
Qed.

Lemma make_groups_invariant cfg rules df caches0 groups :
  make_groups cfg rules df caches0 = Some groups ->
  disjoint_groups groups /\ Forall (size_ok (GROUP_SIZE cfg)) groups.
Proof.
  unfold make_groups.
  destruct (VALIDATE_INPUT cfg && negb _); [discriminate|].
  destruct (foldl _ _ _) as [st|] eqn:Ef; [|discriminate].
  simpl. intros [= <-].
  assert (Hinv : forall st', Some st = Some st' -> run_invariant cfg st').
  { rewrite <- Ef.
    apply (foldl_invariant
             (fun acc : option RunState => forall st', acc = Some st' -> run_invariant cfg st')).
    - intros st' [= <-]. split; [constructor|]. split; [intros x Hx; inversion Hx|constructor].
    - intros acc [key idxs] _ Hacc st'.
      destruct acc as [st0|]; [|discriminate]. simpl.
      apply process_bucket_invariant. apply Hacc. reflexivity. }
  destruct (Hinv st eq_refl) as (Hdis & _ & Hsize). split; assumption.
Qed.
End LegacyRun.

Section EngineRun.
Context `{Runtime} {St : Type}.
Variable legacy_group_size : Z.
Variable group_ok : list nat -> option bool.
Variable score : St -> list nat -> option (Q * St).
Variable score_explain : St -> list nat -> option (Q * St).

(** the invariant of the engine: the groups so far are disjoint, of the
    size the legacy builder allows, and their members are no longer ungrouped *)
Definition engine_invariant (es : @EngineState St) : Prop :=
  disjoint_groups (groups es)
  /\ (forall x, x ∈ concat (groups es) -> x ∉ ungrouped es)
  /\ Forall (size_ok legacy_group_size) (groups es).

Lemma process_loop_invariant fuel p ff subspace_key available compat_matrix es es' :
  engine_invariant es ->
  (forall x, x ∈ available -> x ∈ ungrouped es) ->
  process_loop legacy_group_size group_ok score score_explain fuel p ff subspace_key
    available compat_matrix es = Some es' ->
  engine_invariant es'.
Proof.
  revert available compat_matrix es.
  induction fuel as [|fuel IH]; intros available compat_matrix es Hinv Hav; simpl.
  - destruct (bool_decide _); [discriminate|intros [= <-]; exact Hinv].
  - destruct (bool_decide _); [|intros [= <-]; exact Hinv].
    unfold _build_group.
    destruct (build_one_group_optimized _ _ _ _ _ _ _) as [[group st1]|] eqn:Eb;
      [|discriminate].
    simpl.
    destruct (build_one_group_spec _ _ _ _ _ _ _ _ _ Eb)
      as [->|(seed & added & _ & Hg & Hnd & Hin & H4 & Hsz)].
    + rewrite bool_decide_eq_true_2 by reflexivity. intros [= <-]. exact Hinv.
    + rewrite bool_decide_eq_false_2 by (rewrite Hg; discriminate).
      destruct (_create_group_explanation score_explain st1 group subspace_key)
        as [[explanation st2]|]; [|discriminate].
      simpl.
      set (ungrouped' := ungrouped es ∖ list_to_set group).
      set (es1 := mkEngineState (groups es ++ [group]) ungrouped'
                    (explanations es ++ [explanation]) st2).
      assert (Hinv1 : engine_invariant es1).
      { destruct Hinv as (Hdis & Hun & Hsize). split; [|split]; simpl.
        - apply disjoint_groups_app; [exact Hdis|exact Hnd|].
          intros x Hx Hc. apply (Hun x Hc). apply Hav, Hin. exact Hx.
        - intros x Hx. rewrite concat_app in Hx. simpl in Hx. rewrite app_nil_r in Hx.
          unfold ungrouped'. rewrite elem_of_difference, elem_of_list_to_set.
          apply elem_of_app in Hx as [Hx|Hx]; [|tauto].
          intros [Hu _]. exact (Hun x Hx Hu).
        - apply Forall_app. split; [exact Hsize|].
          constructor; [split; assumption|constructor]. }
      assert (Hav1 : forall x, x ∈ filter (fun i => i ∈ ungrouped') available ->
                               x ∈ ungrouped es1).
      { intros x Hx. apply list_elem_of_filter in Hx as [Hx _]. exact Hx. }
      destruct (bool_decide (filter (fun i => i ∈ ungrouped') available = [])).
      * intros Hloop. eapply IH; [exact Hinv1|exact Hav1|exact Hloop].
      * destruct (features_iloc ff _) as [df_subset|]; [|discriminate]. simpl.
        destruct (_build_compatibility_matrix p ff df_subset _) as [compat'|];
          [|discriminate].
        intros Hloop. eapply IH; [exact Hinv1|exact Hav1|exact Hloop].
Qed.

Lemma process_subspace_invariant p ff es subspace_key indices es' :
  engine_invariant es ->
  _process_subspace legacy_group_size group_ok score score_explain p ff es subspace_key
    indices = Some es' ->
  engine_invariant es'.
Proof.
  intros Hinv. unfold _process_subspace.
  destruct (bool_decide _); [intros [= <-]; exact Hinv|].
  destruct (features_iloc ff _) as [df_subset|]; [|discriminate]. cbn -[process_loop].
  destruct (_build_compatibility_matrix p ff df_subset _) as [compat|]; [|discriminate].
  cbn -[process_loop].
  intros Hloop. eapply process_loop_invariant; [exact Hinv| |exact Hloop].
  intros x Hx. apply list_elem_of_filter in Hx as [Hx _]. exact Hx.
Qed.

Lemma run_invariant_groups p ff st groups explanations :
  run legacy_group_size group_ok score score_explain p ff st = Some (groups, explanations) ->
  disjoint_groups groups /\ Forall (size_ok legacy_group_size) groups.
Proof.
  unfold run.
  destruct (foldl _ _ _) as [es|] eqn:Ef; [|discriminate].
  simpl. intros [= <- _].
  assert (Hinv : forall es', Some es = Some es' -> engine_invariant es').
  { rewrite <- Ef.
    apply (foldl_invariant
             (fun acc : option (@EngineState St) =>
                forall es', acc = Some es' -> engine_invariant es')).
    - intros es' [= <-]. split; [constructor|].
      split; [intros x Hx; inversion Hx|constructor].
    - intros acc [key idxs] _ Hacc es'.
      destruct acc as [es0|]; [|discriminate]. simpl.
      apply process_subspace_invariant. apply Hacc. reflexivity. }
  destruct (Hinv es eq_refl) as (Hdis & _ & Hsize). split; assumption.
Qed.
End EngineRun.

(** ** The loops end within their bound

    The recursion bounds of the three [while] loops are never the reason for
    a result [None]: a larger bound gives the same result. *)

Lemma length_filter_remove (l : list nat) (x : nat) :
  x ∈ l -> (length (filter (fun g => g ≠ x) l) < length l)%nat.
Proof.
  intros Hx. apply (length_filter_lt _ l x Hx). intros Hne. apply Hne. reflexivity.
Qed.

Lemma length_filter_narrow (P Q : nat -> Prop) `{forall x, Decision (P x)}
    `{forall x, Decision (Q x)} (l : list nat) (x : nat) :
  (forall y, Q y -> P y) -> x ∈ l -> P x -> ~ Q x ->
  (length (filter Q l) < length (filter P l))%nat.
Proof.
  intros Himp Hx Hp Hq.
  assert (E : filter Q l = filter Q (filter P l)).
  { rewrite list_filter_filter. apply list_filter_iff. intros y. split; [|tauto].
    intros Hy. split; [exact Hy|apply Himp; exact Hy]. }
  rewrite E. apply (length_filter_lt _ _ x); [|exact Hq].
  apply list_elem_of_filter. split; assumption.
Qed.

Section Termination.
Context `{Runtime} {St : Type}.
Variable group_size : Z.
Variable group_ok : list nat -> option bool.
Variable score : St -> list nat -> option (Q * St).
Variable score_explain : St -> list nat -> option (Q * St).

Lemma extend_loop_fuel fuel fuel' compat_matrix global_to_local st group_global
    remaining_global :
  (length remaining_global <= fuel)%nat -> (length remaining_global <= fuel')%nat ->
  extend_loop group_size group_ok score fuel compat_matrix global_to_local st
    group_global remaining_global
  = extend_loop group_size group_ok score fuel' compat_matrix global_to_local st
      group_global remaining_global.
Proof.
  revert fuel' st group_global remaining_global.
  induction fuel as [|fuel IH]; intros fuel' st group_global remaining_global Hf Hf'.
  - destruct remaining_global; [|simpl in Hf; lia].
    destruct fuel'; simpl; rewrite andb_false_r; reflexivity.
  - destruct fuel' as [|fuel'].
    + destruct remaining_global; [|simpl in Hf'; lia].
      simpl. rewrite andb_false_r. reflexivity.
    + simpl. destruct (_ && _); [|reflexivity].
      destruct (extend_step group_ok score compat_matrix global_to_local st group_global
                  remaining_global) as [[[x|] st1]|] eqn:Es; simpl; try reflexivity.
      pose proof (length_filter_remove _ _ (extend_step_in _ _ _ _ _ _ _ _ _ Es)) as Hlt.
      apply IH; lia.
Qed.

Lemma subspace_loop_fuel fuel fuel' cfg rules df compat_matrix pool st :
  (length (filter (fun i => i ∉ used st) pool) < fuel)%nat ->
  (length (filter (fun i => i ∉ used st) pool) < fuel')%nat ->
  subspace_loop fuel cfg rules df compat_matrix pool st
  = subspace_loop fuel' cfg rules df compat_matrix pool st.
Proof.
  revert fuel' pool st. induction fuel as [|fuel IH]; intros fuel' pool st Hf Hf'; [lia|].
  destruct fuel' as [|fuel']; [lia|]. simpl.
  destruct (bool_decide _); [reflexivity|].
  destruct (mapM (list_index pool) _) as [local_indices|]; [|reflexivity]. simpl.
  destruct (build_one_group_optimized _ _ _ _ _ _ _) as [[group caches']|] eqn:Eb;
    [|reflexivity].
  simpl.
  destruct (build_one_group_spec _ _ _ _ _ _ _ _ _ Eb)
    as [->|(seed & added & _ & Hg & Hnd & Hin & _)].
  - rewrite bool_decide_eq_true_2 by reflexivity. reflexivity.
  - rewrite bool_decide_eq_false_2 by (rewrite Hg; discriminate).
    assert (Hseed : seed ∈ filter (fun i => i ∉ used st) pool).
    { apply Hin. rewrite Hg. left. }
    apply list_elem_of_filter in Hseed as [Hnot Hpool].
    set (used' := used st ∪ list_to_set group).
    assert (Hlt : (length (filter (fun i => i ∉ used') (filter (fun i => i ∉ used') pool))
                   < length (filter (fun i => i ∉ used st) pool))%nat).
    { eapply Nat.le_lt_trans; [apply length_filter|].
      apply (length_filter_narrow _ _ pool seed); [|exact Hpool|exact Hnot|].
      - intros y Hy Hu. apply Hy. apply elem_of_union. left. exact Hu.
      - intros Hs. apply Hs. apply elem_of_union. right.
        apply elem_of_list_to_set. rewrite Hg. left. }
    apply IH; simpl; fold used'; lia.
Qed.

Lemma process_loop_fuel fuel fuel' p ff subspace_key available compat_matrix
    (es : @EngineState St) :
  (length available < fuel)%nat -> (length available < fuel')%nat ->
  process_loop group_size group_ok score score_explain fuel p ff subspace_key available
    compat_matrix es
  = process_loop group_size group_ok score score_explain fuel' p ff subspace_key available
      compat_matrix es.
Proof.
  revert fuel' available compat_matrix es.
  induction fuel as [|fuel IH]; intros fuel' available compat_matrix es Hf Hf'; [lia|].
  destruct fuel' as [|fuel']; [lia|]. simpl.
  destruct (bool_decide _); [|reflexivity].
  unfold _build_group.
  destruct (build_one_group_optimized _ _ _ _ _ _ _) as [[group st1]|] eqn:Eb; [|reflexivity].
  simpl.
  destruct (build_one_group_spec _ _ _ _ _ _ _ _ _ Eb)
    as [->|(seed & added & _ & Hg & Hnd & Hin & _)].
  - rewrite bool_decide_eq_true_2 by reflexivity. reflexivity.
  - rewrite bool_decide_eq_false_2 by (rewrite Hg; discriminate).
    destruct (_create_group_explanation score_explain st1 group subspace_key)
      as [[explanation st2]|]; [|reflexivity].
    simpl.
    assert (Hlt : (length (filter (fun i => i ∈ ungrouped es ∖ list_to_set group) available)
                   < length available)%nat).
    { apply (length_filter_lt _ _ seed); [apply Hin; rewrite Hg; left|].
      rewrite elem_of_difference, elem_of_list_to_set. intros [_ Hn]. apply Hn.
      rewrite Hg. left. }
    destruct (bool_decide _); [apply IH; lia|].
    destruct (features_iloc ff _) as [df_subset|]; [|reflexivity]. simpl.
    destruct (_build_compatibility_matrix p ff df_subset _) as [compat'|]; [|reflexivity].
    simpl. apply IH; lia.
Qed.
End Termination.

(** ** C3: the groups of a run are pairwise disjoint *)

Section Disjointness.
Context `{Runtime}.

(** C3. Groups emitted within a single run are pairwise disjoint: in the
    list of groups that [make_groups] returns, and in the list that the
    engine's [run] returns, over all the subspaces of the run, no record
    index is in two groups, and none is twice in one group.  (The loops of
    both drivers end within their bounds: [subspace_loop_fuel],
    [process_loop_fuel], [extend_loop_fuel].) *)
Theorem emitted_groups_disjoint :
  (forall cfg rules df caches0 groups,
     make_groups cfg rules df caches0 = Some groups ->
     NoDup (concat groups)
     /\ forall i j gi gj x,
          groups !! i = Some gi -> groups !! j = Some gj -> i <> j ->
          x ∈ gi -> x ∉ gj)
  /\ (forall (St : Type) legacy_group_size group_ok
             (score score_explain : St -> list nat -> option (Q * St))
             p ff st groups explanations,
        run legacy_group_size group_ok score score_explain p ff st
          = Some (groups, explanations) ->
        NoDup (concat groups)
        /\ forall i j gi gj x,
             groups !! i = Some gi -> groups !! j = Some gj -> i <> j ->
             x ∈ gi -> x ∉ gj).
Proof.
  split.
  - intros cfg rules df caches0 groups Hrun.
    destruct (make_groups_invariant _ _ _ _ _ Hrun) as [Hdis _].
    split; [exact Hdis|]. intros i j gi gj x. apply disjoint_groups_lookup. exact Hdis.
  - intros St legacy_group_size group_ok score score_explain p ff st groups explanations Hrun.
    destruct (run_invariant_groups _ _ _ _ _ _ _ _ _ Hrun) as [Hdis _].
    split; [exact Hdis|]. intros i j gi gj x. apply disjoint_groups_lookup. exact Hdis.
Qed.

(** The sizes of the emitted groups: at least the fixed minimum 4 of the
    legacy builder and at most its module constant [GROUP_SIZE], in
    [make_groups] and in the engine alike. *)
Lemma emitted_group_sizes :
  (forall cfg rules df caches0 groups,
     make_groups cfg rules df caches0 = Some groups ->
     forall g, g ∈ groups ->
       (4 <= length g)%nat /\ (Z.of_nat (length g) <= GROUP_SIZE cfg)%Z)
  /\ (forall (St : Type) legacy_group_size group_ok
             (score score_explain : St -> list nat -> option (Q * St))
             p ff st groups explanations,
        run legacy_group_size group_ok score score_explain p ff st
          = Some (groups, explanations) ->
        forall g, g ∈ groups ->
          (4 <= length g)%nat /\ (Z.of_nat (length g) <= legacy_group_size)%Z).
Proof.
  split.
  - intros cfg rules df caches0 groups Hrun g Hg.
    destruct (make_groups_invariant _ _ _ _ _ Hrun) as [_ Hsize].
    rewrite Forall_forall in Hsize. exact (Hsize g Hg).
  - intros St legacy_group_size group_ok score score_explain p ff st groups explanations
      Hrun g Hg.
    destruct (run_invariant_groups _ _ _ _ _ _ _ _ _ Hrun) as [_ Hsize].
    rewrite Forall_forall in Hsize. exact (Hsize g Hg).
Qed.
End Disjointness.

(** ** The seed of a group *)

(** the compatibility degree of the candidate at [local_idx]: the number of
    the other available local indices that its row of the matrix marks true *)
Definition degree (compat_matrix : matrix) (local_indices : list nat) (local_idx : nat) : nat :=
  length (filter (fun j => j ≠ local_idx /\ mget compat_matrix local_idx j = Some true)
                 local_indices).

Lemma compat_count_degree n compat_matrix local_indices local_idx :
  square n compat_matrix -> (local_idx < n)%nat ->
  Forall (fun j => (j < n)%nat) local_indices ->
  compat_count compat_matrix local_indices local_idx
  = Some (degree compat_matrix local_indices local_idx).
Proof.
  intros Hsq Hl Hall. unfold compat_count, degree.
  induction Hall as [|j L Hj Hall IH]; [reflexivity|].
  destruct (decide (j = local_idx)) as [->|Hne].
  - rewrite filter_cons_False by (intros Hn; apply Hn; reflexivity).
    rewrite filter_cons_False by (intros [Hn _]; apply Hn; reflexivity).
    exact IH.
  - rewrite filter_cons_True by exact Hne.
    destruct (mapM _ (filter _ L)) as [row|] eqn:Em; [|discriminate].
    simpl in IH. injection IH as IH.
    destruct (square_lookup _ _ local_idx j Hsq Hl Hj) as [b Hb].
    simpl. rewrite Hb. simpl. rewrite Em. simpl. f_equal.
    destruct b.
    + rewrite filter_cons_True by reflexivity.
      rewrite filter_cons_True by (split; [exact Hne|exact Hb]).
      simpl. f_equal. exact IH.
    + rewrite filter_cons_False by discriminate.
      rewrite filter_cons_False by (intros [_ Hc]; congruence).
      exact IH.
Qed.

Lemma enumerate_candidates_zip candidates local_indices :
  (length local_indices <= length candidates)%nat ->
  enumerate_candidates candidates local_indices = Some (zip local_indices candidates).
Proof.
  intros Hlen. unfold enumerate_candidates. apply mapM_Some_2.
  apply Forall2_same_length_lookup_2.
  - rewrite length_imap, length_zip_with. lia.
  - intros i [i' l] [l' g] Hi Hz.
    rewrite list_lookup_imap in Hi.
    destruct (local_indices !! i) as [li|] eqn:El; [|discriminate].
    simpl in Hi. injection Hi as <- <-.
    apply lookup_zip_with_Some in Hz as (x & y & [= -> ->] & Hx & Hy).
    rewrite El in Hx. injection Hx as ->. rewrite Hy. reflexivity.
Qed.

Lemma dict_set_fresh {V : Type} (d : list (nat * V)) k v :
  k ∉ d.*1 -> dict_set d k v = d ++ [(k, v)].
Proof.
  induction d as [|[k0 v0] d IH]; intros Hk; simpl; [reflexivity|].
  rewrite fmap_cons, not_elem_of_cons in Hk. destruct Hk as [Hne Hk]. simpl in Hne.
  replace (k =? k0)%nat with false by (symmetry; apply Nat.eqb_neq; exact Hne).
  rewrite (IH Hk). reflexivity.
Qed.

(** with distinct candidates the dict [compat_counts] lists every candidate
    with its degree, in the order of the candidates *)
Lemma compat_counts_zip n compat_matrix candidates local_indices :
  length candidates = length local_indices -> NoDup candidates ->
  square n compat_matrix -> Forall (fun j => (j < n)%nat) local_indices ->
  compat_counts compat_matrix candidates local_indices
  = Some (zip candidates (degree compat_matrix local_indices <$> local_indices)).
Proof.
  intros Hlen Hnd Hsq Hall. unfold compat_counts.
  rewrite enumerate_candidates_zip by lia. simpl.
  assert (Hgen : forall (ls cs : list nat) acc,
    length cs = length ls -> NoDup cs -> (forall c, c ∈ cs -> c ∉ acc.*1) ->
    Forall (fun j => (j < n)%nat) ls ->
    foldl (fun acc '(local_idx, global_idx) =>
             d ← acc;
             c ← compat_count compat_matrix local_indices local_idx;
             Some (dict_set d global_idx c)) (Some acc) (zip ls cs)
    = Some (acc ++ zip cs (degree compat_matrix local_indices <$> ls))).
  { induction ls as [|l ls IH]; intros cs acc Hl Hn Hfresh Hls.
    - destruct cs; [|discriminate]. simpl. rewrite app_nil_r. reflexivity.
    - destruct cs as [|c cs]; [discriminate|]. simpl in Hl. injection Hl as Hl.
      apply NoDup_cons in Hn as [Hc Hn]. apply Forall_cons in Hls as [Hlt Hls].
      simpl. rewrite (compat_count_degree n) by assumption. simpl.
      rewrite dict_set_fresh by (apply Hfresh; left).
      rewrite (IH cs _ Hl Hn); [rewrite <- app_assoc; reflexivity| |exact Hls].
      intros c' Hc' Hin. rewrite fmap_app in Hin. apply elem_of_app in Hin as [Hin|Hin].
      + apply (Hfresh c'); [right; exact Hc'|exact Hin].
      + simpl in Hin. apply list_elem_of_singleton in Hin as ->. contradiction. }
  rewrite (Hgen local_indices candidates []); [reflexivity|exact Hlen|exact Hnd| |exact Hall].
  intros c _ Hin. inversion Hin.
Qed.

(** [min(d, key=d.get)] is the first entry of the least value *)
Lemma dict_argmin_fold (best : nat * nat) (l : list (nat * nat)) :
  let r := foldl (fun best kv' => if (snd kv' <? snd best)%nat then kv' else best) best l in
  exists pre post,
    best :: l = pre ++ r :: post
    /\ (forall x, x ∈ pre -> (snd r < snd x)%nat)
    /\ (forall x, x ∈ post -> (snd r <= snd x)%nat).
Proof.
  revert best. induction l as [|kv l IH]; intros best; simpl.
  - exists [], []. split; [reflexivity|]. split; intros x Hx; inversion Hx.
  - destruct (snd kv <? snd best)%nat eqn:E.
    + apply Nat.ltb_lt in E.
      destruct (IH kv) as (pre & post & Hl & Hpre & Hpost).
      exists (best :: pre), post. split; [rewrite Hl; reflexivity|]. split; [|exact Hpost].
      intros x Hx. apply elem_of_cons in Hx as [->|Hx]; [|apply Hpre; exact Hx].
      assert (Hr : (snd (foldl (fun best kv' =>
                       if (snd kv' <? snd best)%nat then kv' else best) kv l) <= snd kv)%nat).
      { destruct pre as [|p pre].
        - simpl in Hl. injection Hl as Hl _. rewrite <- Hl. lia.
        - simpl in Hl. injection Hl as Hl _. subst p.
          specialize (Hpre kv). apply Nat.lt_le_incl, Hpre. left. }
      lia.
    + apply Nat.ltb_ge in E.
      destruct (IH best) as (pre & post & Hl & Hpre & Hpost).
      destruct pre as [|p pre].
      * simpl in Hl. injection Hl as Hr Hl.
        exists [], (kv :: post). split; [simpl; rewrite <- Hr, Hl; reflexivity|].
        split; [intros x Hx; inversion Hx|].
        intros x Hx. apply elem_of_cons in Hx as [->|Hx]; [|apply Hpost; exact Hx].
        rewrite <- Hr. exact E.
      * simpl in Hl. injection Hl as Hp Hl. subst p.
        exists (best :: kv :: pre), post. split; [simpl; do 2 f_equal; exact Hl|].
        split; [|exact Hpost].
        intros x Hx. apply elem_of_cons in Hx as [->|Hx]; [apply Hpre; left|].
        apply elem_of_cons in Hx as [->|Hx]; [|apply Hpre; right; exact Hx].
        eapply Nat.lt_le_trans; [apply (Hpre best); left|exact E].
Qed.

Lemma dict_argmin_first (d : list (nat * nat)) :
  d <> [] ->
  exists pre post k v,
    dict_argmin d = Some k /\ d = pre ++ (k, v) :: post
    /\ (forall x, x ∈ pre -> (v < snd x)%nat)
    /\ (forall x, x ∈ post -> (v <= snd x)%nat).
Proof.
  destruct d as [|kv d]; [contradiction|]. intros _. unfold dict_argmin.
  destruct (dict_argmin_fold kv d) as (pre & post & Hl & Hpre & Hpost).
  destruct (foldl _ kv d) as [k v] eqn:E. simpl in *.
  exists pre, post, k, v. repeat split; assumption.
Qed.

Section Seed.
Context `{Runtime}.

(** X24.  The seed step of [build_one_group_optimized], on the matrix and
    the local indices that it is handed: for distinct candidates whose local
    indices lie in the matrix, the seed is the candidate whose row of the
    matrix, at its local index, has the fewest true entries over the local
    indices handed over, its own left out; it is the first such candidate in
    the order of the candidates, so with the candidates in ascending order
    ties go to the lowest index.  Whether these rows are the rows of the
    candidates is the caller's affair: the rows of [make_groups] after the
    first group of a subspace are not. *)
Theorem seed_is_least_compatible n compat_matrix candidates local_indices :
  candidates <> [] ->
  length candidates = length local_indices ->
  NoDup candidates ->
  square n compat_matrix ->
  Forall (fun j => (j < n)%nat) local_indices ->
  exists k seed local_seed,
    choose_seed compat_matrix candidates local_indices = Some seed
    /\ candidates !! k = Some seed /\ local_indices !! k = Some local_seed
    /\ (forall k' l', local_indices !! k' = Some l' ->
          (degree compat_matrix local_indices local_seed
           <= degree compat_matrix local_indices l')%nat)
    /\ (forall k' l', (k' < k)%nat -> local_indices !! k' = Some l' ->
          (degree compat_matrix local_indices local_seed
           < degree compat_matrix local_indices l')%nat)
    /\ (StronglySorted lt candidates ->
        forall k' c' l', candidates !! k' = Some c' -> local_indices !! k' = Some l' ->
          degree compat_matrix local_indices l'
          = degree compat_matrix local_indices local_seed ->
          (seed <= c')%nat).
Proof.
  intros Hne Hlen Hnd Hsq Hall. unfold choose_seed.
  rewrite (compat_counts_zip n) by assumption. simpl.
  set (deg := degree compat_matrix local_indices).
  set (d := zip candidates (deg <$> local_indices)).
  assert (Hd : d <> []).
  { unfold d. destruct candidates as [|c cs]; [contradiction|].
    destruct local_indices; [discriminate|]. discriminate. }
  destruct (dict_argmin_first d Hd) as (pre & post & seed & v & Hs & Hdl & Hpre & Hpost).
  assert (Hlook : forall i c l, candidates !! i = Some c -> local_indices !! i = Some l ->
                                d !! i = Some (c, deg l)).
  { intros i c l Hc Hl. unfold d. rewrite lookup_zip_with, Hc. simpl.
    rewrite list_lookup_fmap, Hl. reflexivity. }
  assert (Hk : d !! length pre = Some (seed, v)).
  { rewrite Hdl. rewrite lookup_app_r by lia. rewrite Nat.sub_diag. reflexivity. }
  assert (Hkc : exists local_seed, candidates !! length pre = Some seed
                                   /\ local_indices !! length pre = Some local_seed
                                   /\ v = deg local_seed).
  { unfold d in Hk. apply lookup_zip_with_Some in Hk as (c & dv & [= -> ->] & Hc & Hv).
    rewrite list_lookup_fmap in Hv.
    destruct (local_indices !! length pre) as [l|]; [|discriminate].
    injection Hv as <-. exists l. repeat split. exact Hc. }
  destruct Hkc as (local_seed & Hc & Hl & ->).
  assert (Hcand : forall i l, local_indices !! i = Some l -> exists c, candidates !! i = Some c).
  { intros i l Hi. apply lookup_lt_Some in Hi. apply lookup_lt_is_Some_2. lia. }
  assert (Hbefore : forall k' l', (k' < length pre)%nat -> local_indices !! k' = Some l' ->
                                  (deg local_seed < deg l')%nat).
  { intros k' l' Hlt Hl'. destruct (Hcand _ _ Hl') as [c' Hc'].
    pose proof (Hlook _ _ _ Hc' Hl') as Hd'. rewrite Hdl in Hd'.
    rewrite lookup_app_l in Hd' by exact Hlt.
    apply (Hpre (c', deg l')). apply list_elem_of_lookup. exists k'. exact Hd'. }
  exists (length pre), seed, local_seed.
  split; [exact Hs|]. split; [exact Hc|]. split; [exact Hl|].
  split; [|split; [exact Hbefore|]].
  - intros k' l' Hl'.
    destruct (Nat.lt_trichotomy k' (length pre)) as [Hlt|[->|Hgt]].
    + apply Nat.lt_le_incl. eapply Hbefore; eassumption.
    + rewrite Hl in Hl'. injection Hl' as <-. lia.
    + destruct (Hcand _ _ Hl') as [c' Hc'].
      pose proof (Hlook _ _ _ Hc' Hl') as Hd'. rewrite Hdl in Hd'.
      rewrite lookup_app_r in Hd' by lia.
      destruct (k' - length pre)%nat as [|m] eqn:Em; [lia|]. simpl in Hd'.
      apply (Hpost (c', deg l')). apply list_elem_of_lookup. exists m. exact Hd'.
  - intros Hsorted k' c' l' Hc' Hl' Heq.
    destruct (Nat.lt_trichotomy k' (length pre)) as [Hlt|[->|Hgt]].
    + specialize (Hbefore _ _ Hlt Hl'). fold deg in Heq. lia.
    + rewrite Hc in Hc'. injection Hc' as <-. lia.
    + apply Nat.lt_le_incl.
      rewrite <- (take_drop (S (length pre)) candidates) in Hsorted.
      apply (StronglySorted_app_1_elem_of _ _ _ seed c') in Hsorted; [exact Hsorted| |].
      * apply list_elem_of_lookup. exists (length pre).
        rewrite lookup_take_lt by lia. exact Hc.
      * apply list_elem_of_lookup. exists (k' - S (length pre))%nat.
        rewrite lookup_drop. replace (S (length pre) + (k' - S (length pre)))%nat with k' by lia.
        exact Hc'.
Qed.
End Seed.

(** ** The drivers pass the candidates in ascending order *)

Lemma StronglySorted_snoc (l : list nat) (x : nat) :
  StronglySorted lt l -> (forall y, y ∈ l -> (y < x)%nat) -> StronglySorted lt (l ++ [x]).
Proof.
  intros Hs Hlt. apply StronglySorted_app_2.
  - intros y z Hy Hz. apply list_elem_of_singleton in Hz as ->. apply Hlt. exact Hy.
  - exact Hs.
  - repeat constructor.
Qed.

Lemma bucket_append_sorted {K : Type} `{EqDecision K} (buckets : list (K * list nat))
    (key : K) (idx : nat) :
  (forall k idxs, (k, idxs) ∈ buckets ->
     StronglySorted lt idxs /\ forall y, y ∈ idxs -> (y < idx)%nat) ->
  forall k idxs, (k, idxs) ∈ bucket_append buckets key idx ->
    StronglySorted lt idxs /\ forall y, y ∈ idxs -> (y < S idx)%nat.
Proof.
  induction buckets as [|[k0 idxs0] buckets IH]; intros Hinv k idxs Hin; simpl in Hin.
  - apply list_elem_of_singleton in Hin as [= -> ->].
    split; [repeat constructor|]. intros y Hy. apply list_elem_of_singleton in Hy as ->. lia.
  - destruct (decide (k0 = key)) as [->|Hne].
    + apply elem_of_cons in Hin as [[= -> ->]|Hin].
      * destruct (Hinv key idxs0) as [Hs Hlt]; [left|].
        split; [apply StronglySorted_snoc; assumption|].
        intros y Hy. apply elem_of_app in Hy as [Hy|Hy].
        -- specialize (Hlt y Hy). lia.
        -- apply list_elem_of_singleton in Hy as ->. lia.
      * destruct (Hinv k idxs) as [Hs Hlt]; [right; exact Hin|].
        split; [exact Hs|]. intros y Hy. specialize (Hlt y Hy). lia.
    + apply elem_of_cons in Hin as [[= -> ->]|Hin].
      * destruct (Hinv k0 idxs0) as [Hs Hlt]; [left|].
        split; [exact Hs|]. intros y Hy. specialize (Hlt y Hy). lia.
      * eapply IH; [|exact Hin].
        intros k' idxs' Hin'. apply (Hinv k' idxs'). right. exact Hin'.
Qed.

(** every bucket of a partition lists its rows in ascending order *)
Lemma buckets_sorted {K A : Type} `{EqDecision K} (key_of : A -> K) (rs : list A) :
  forall k idxs,
    (k, idxs) ∈ foldl (fun buckets '(idx, row) => bucket_append buckets (key_of row) idx)
                      [] (imap pair rs) ->
    StronglySorted lt idxs /\ forall y, y ∈ idxs -> (y < length rs)%nat.
Proof.
  induction rs as [|r rs IH] using rev_ind.
  - intros k idxs Hin. inversion Hin.
  - rewrite imap_app, foldl_app. simpl. rewrite Nat.add_0_r.
    intros k idxs Hin. rewrite length_app. simpl.
    replace (length rs + 1)%nat with (S (length rs)) by lia.
    eapply bucket_append_sorted; [|exact Hin]. exact IH.
Qed.

Lemma partition_into_subspaces_sorted `{Runtime} cfg df key idxs :
  (key, idxs) ∈ partition_into_subspaces cfg df -> StronglySorted lt idxs.
Proof. intros Hin. exact (proj1 (buckets_sorted (subspace_key cfg) (rows df) key idxs Hin)). Qed.

Lemma partition_by_subspaces_sorted `{Runtime} p ff key idxs :
  (key, idxs) ∈ _partition_by_subspaces p ff -> StronglySorted lt idxs.
Proof. intros Hin. exact (proj1 (buckets_sorted (composite_key p) (frows ff) key idxs Hin)). Qed.

(** ** C6: flexible answers *)

Section Wildcards.
Context `{Runtime}.

(** the values of a column as [build_normalization_rules] reads them *)
Definition unique_values (df : DataFrame) (col : string) : gset string :=
  list_to_set (str_of_cell <$> filter (fun c => isna c = false) (column_values (rows df) col)).

(** the entry of [NORMALIZATION_RULES] for a column with flexible and
    concrete answers *)
Definition rules_of_column (cfg : Config) (df : DataFrame) (col : string)
    : gmap string (gset string) :=
  gset_to_gmap (unique_values df col ∖ (unique_values df col ∩ FLEXIBLE_ANSWERS cfg))
               (unique_values df col ∩ FLEXIBLE_ANSWERS cfg).

Lemma build_rules_column_same cfg df rules col :
  col ∉ skipped_columns ->
  unique_values df col ∩ FLEXIBLE_ANSWERS cfg ≠ ∅ ->
  unique_values df col ∖ (unique_values df col ∩ FLEXIBLE_ANSWERS cfg) ≠ ∅ ->
  build_rules_column cfg df rules col = <[col := rules_of_column cfg df col]> rules.
Proof.
  intros Hskip Hflex Hconc. unfold build_rules_column.
  rewrite bool_decide_eq_false_2 by exact Hskip.
  fold (unique_values df col).
  rewrite (bool_decide_eq_true_2 _ Hflex), (bool_decide_eq_true_2 _ Hconc). reflexivity.
Qed.

Lemma build_rules_column_other cfg df rules col col' :
  col' <> col -> build_rules_column cfg df rules col' !! col = rules !! col.
Proof.
  intros Hne. unfold build_rules_column.
  destruct (bool_decide (col' ∈ skipped_columns)); [reflexivity|].
  destruct (_ && _); [|reflexivity].
  apply lookup_insert_ne. exact Hne.
Qed.

Lemma build_normalization_rules_lookup cfg df rules col :
  col ∈ columns df -> col ∉ skipped_columns ->
  unique_values df col ∩ FLEXIBLE_ANSWERS cfg ≠ ∅ ->
  unique_values df col ∖ (unique_values df col ∩ FLEXIBLE_ANSWERS cfg) ≠ ∅ ->
  build_normalization_rules cfg df rules !! col = Some (rules_of_column cfg df col).
Proof.
  intros Hcol Hskip Hflex Hconc. unfold build_normalization_rules.
  assert (Hstable : forall l rules,
            rules !! col = Some (rules_of_column cfg df col) ->
            foldl (build_rules_column cfg df) rules l !! col
            = Some (rules_of_column cfg df col)).
  { induction l as [|c l IH]; intros rules0 Hr; [exact Hr|]. simpl. apply IH.
    destruct (decide (c = col)) as [->|Hne].
    - rewrite build_rules_column_same by assumption. apply lookup_insert_eq.
    - rewrite build_rules_column_other by exact Hne. exact Hr. }
  revert rules. induction (columns df) as [|c l IH]; intros rules; [inversion Hcol|].
  simpl. apply elem_of_cons in Hcol as [<-|Hcol].
  - apply Hstable. rewrite build_rules_column_same by assumption. apply lookup_insert_eq.
  - apply IH. exact Hcol.
Qed.

Lemma unique_values_elem df col r s :
  r ∈ rows df -> r !! col = Some (Str s) -> s ∈ unique_values df col.
Proof.
  intros Hr Hs. unfold unique_values. apply elem_of_list_to_set.
  apply list_elem_of_fmap. exists (Str s). split; [reflexivity|].
  apply list_elem_of_filter. split; [reflexivity|].
  unfold column_values. apply list_elem_of_fmap. exists r. split; [|exact Hr].
  unfold row_get. rewrite Hs. reflexivity.
Qed.

End Wildcards.


Section ServiceWildcards.
Context `{Runtime}.






End ServiceWildcards.

(** ** C9: the final score *)

Section Score.
Context `{Runtime}.

(** without [explain] the soft-categorical loop never raises *)
Lemma categorical_term_total cfg df df_group :
  is_Some (categorical_term cfg df df_group false).
Proof.
  unfold categorical_term.
  assert (Hgen : forall l st,
            is_Some (foldl (fun st item =>
                              st ≫= fun st => categorical_round df df_group false st item)
                           (Some st) l)).
  { induction l as [|[col ty] l IH]; intros st; simpl; [eexists; reflexivity|].
    destruct (has_column df col); [|apply IH].
    destruct (String.eqb ty "diversity"); [apply IH|].
    destruct (String.eqb ty "balance"); [|apply IH].
    destruct (bool_decide _); apply IH. }
  destruct (Hgen (SOFT_CATEGORICAL cfg) (mkCatLocals 0 false false false)) as [st ->].
  eexists; reflexivity.
Qed.

(** C9, as the code has it.  For a non-empty group whose score is not taken
    from the cache, the final score is
    [beta * D + gamma * S + kappa * C + mu * M] with the numeric diversity [D],
    the similarity bonus [S], the categorical diversity [C] and the
    multi-choice overlap [M], and it is stored in the cache under the sorted
    indices; without [explain] the scorer always returns.  The weights are
    the module constants read from the configuration's [scoring_weights];
    when no configuration file is read they are (1.0, 0.2, 0.1, 0.1). *)
Theorem group_score_formula cfg rules df caches0 indices df_group :
  df_group <> [] -> columns df <> [] ->
  let D := diversity cfg df df_group in
  let S := fst (similarity_term cfg df caches0 df_group indices) in
  let M := multi_choice_term cfg rules df df_group in
  (forall explain s caches1,
     explain = true \/ score_cache caches0 !! cache_key indices = None ->
     group_score cfg rules df caches0 indices df_group explain = Some (s, caches1) ->
     exists C,
       categorical_term cfg df df_group explain = Some C
       /\ s = BETA_DIVERSITY cfg * D + GAMMA_SIMILARITY cfg * S
              + CATEGORICAL_DIVERSITY cfg * C + MULTI_CHOICE_OVERLAP cfg * M
       /\ score_cache caches1 !! cache_key indices = Some s)
  /\ (score_cache caches0 !! cache_key indices = None ->
      exists C caches1,
        categorical_term cfg df df_group false = Some C
        /\ group_score cfg rules df caches0 indices df_group false
           = Some (BETA_DIVERSITY cfg * D + GAMMA_SIMILARITY cfg * S
                   + CATEGORICAL_DIVERSITY cfg * C + MULTI_CHOICE_OVERLAP cfg * M, caches1))
  /\ (BETA_DIVERSITY default_config = 1 /\ GAMMA_SIMILARITY default_config = 2 # 10
      /\ CATEGORICAL_DIVERSITY default_config = 1 # 10
      /\ MULTI_CHOICE_OVERLAP default_config = 1 # 10).
Proof.
  intros Hg Hc D S M.
  assert (Hmiss : forall explain,
            explain = true \/ score_cache caches0 !! cache_key indices = None ->
            group_score cfg rules df caches0 indices df_group explain
            = categorical_term cfg df df_group explain ≫= fun C =>
                let s := BETA_DIVERSITY cfg * D + GAMMA_SIMILARITY cfg * S
                         + CATEGORICAL_DIVERSITY cfg * C + MULTI_CHOICE_OVERLAP cfg * M in
                Some (s, mkCaches
                           (<[cache_key indices := s]>
                              (score_cache (snd (similarity_term cfg df caches0 df_group indices))))
                           (feature_cache (snd (similarity_term cfg df caches0 df_group indices))))).
  { intros explain Hmiss. unfold group_score.
    rewrite (bool_decide_eq_false_2 _ Hg), (bool_decide_eq_false_2 _ Hc). simpl.
    assert (Hhit : match score_cache caches0 !! cache_key indices with
                   | Some cached => if negb explain then Some cached else None
                   | None => None
                   end = None).
    { destruct Hmiss as [-> | ->]; [|reflexivity].
      destruct (score_cache caches0 !! cache_key indices); reflexivity. }
    rewrite Hhit. unfold S.
    destruct (similarity_term cfg df caches0 df_group indices) as [sim caches']. reflexivity. }
  split; [|split].
  - intros explain s caches1 Hm. rewrite (Hmiss explain Hm).
    destruct (categorical_term cfg df df_group explain) as [C|]; [|discriminate].
    simpl. intros [= <- <-]. exists C. split; [reflexivity|]. split; [reflexivity|].
    simpl. apply lookup_insert_eq.
  - intros Hm. rewrite (Hmiss false (or_intror Hm)).
    destruct (categorical_term_total cfg df df_group) as [C ->].
    simpl. eexists _, _. split; reflexivity.
  - repeat split.
Qed.
End Score.

(** * Further properties of the code *)


(** ** Partitions into subspaces *)

Lemma bucket_append_keys {K : Type} `{EqDecision K} (buckets : list (K * list nat))
    (key : K) (idx : nat) :
  (bucket_append buckets key idx).*1
  = if bool_decide (key ∈ buckets.*1) then buckets.*1 else buckets.*1 ++ [key].
Proof.
  induction buckets as [|[k idxs] buckets IH]; [reflexivity|].
  cbn [bucket_append]. destruct (decide (k = key)) as [->|Hne]; rewrite !fmap_cons; cbn [fst].
  - rewrite bool_decide_eq_true_2 by left. reflexivity.
  - rewrite IH. destruct (bool_decide (key ∈ buckets.*1)) eqn:E.
    + apply bool_decide_eq_true in E. rewrite bool_decide_eq_true_2 by (right; exact E).
      reflexivity.
    + apply bool_decide_eq_false in E. rewrite bool_decide_eq_false_2; [reflexivity|].
      intros Hin. apply elem_of_cons in Hin as [->|Hin]; [apply Hne; reflexivity|exact (E Hin)].
Qed.

Lemma bucket_append_NoDup {K : Type} `{EqDecision K} (buckets : list (K * list nat))
    (key : K) (idx : nat) :
  NoDup (buckets.*1) -> NoDup ((bucket_append buckets key idx).*1).
Proof.
  intros Hnd. rewrite bucket_append_keys.
  destruct (bool_decide (key ∈ buckets.*1)) eqn:E; [exact Hnd|].
  apply bool_decide_eq_false in E. apply NoDup_app. split; [exact Hnd|].
  split; [|apply NoDup_singleton].
  intros x Hx Hk. apply list_elem_of_singleton in Hk as ->. exact (E Hx).
Qed.

Lemma bucket_append_concat {K : Type} `{EqDecision K} (buckets : list (K * list nat))
    (key : K) (idx : nat) :
  concat ((bucket_append buckets key idx).*2) ≡ₚ idx :: concat (buckets.*2).
Proof.
  induction buckets as [|[k idxs] buckets IH]; [reflexivity|].
  cbn [bucket_append]. destruct (decide (k = key)) as [->|Hne];
    rewrite !fmap_cons; cbn [snd concat].
  - rewrite <- app_assoc. cbn [app].
    rewrite <- Permutation_middle. reflexivity.
  - rewrite IH. rewrite <- Permutation_middle. reflexivity.
Qed.

Lemma bucket_append_elem {K : Type} `{EqDecision K} (buckets : list (K * list nat))
    (key : K) (idx : nat) k idxs :
  (k, idxs) ∈ bucket_append buckets key idx ->
  (k, idxs) ∈ buckets
  \/ (k = key /\ exists idxs0, idxs = idxs0 ++ [idx]
                 /\ (idxs0 = [] \/ (key, idxs0) ∈ buckets)).
Proof.
  induction buckets as [|[k0 idxs0] buckets IH]; simpl; intros Hin.
  - apply list_elem_of_singleton in Hin as [= -> ->].
    right. split; [reflexivity|]. exists []. split; [reflexivity|left; reflexivity].
  - destruct (decide (k0 = key)) as [->|Hne].
    + apply elem_of_cons in Hin as [[= -> ->]|Hin].
      * right. split; [reflexivity|]. exists idxs0. split; [reflexivity|right; left].
      * left. right. exact Hin.
    + apply elem_of_cons in Hin as [[= -> ->]|Hin]; [left; left|].
      destruct (IH Hin) as [H1|(-> & i0 & -> & [->|H2])].
      * left. right. exact H1.
      * right. split; [reflexivity|]. exists []. split; [reflexivity|left; reflexivity].
      * right. split; [reflexivity|]. exists i0. split; [reflexivity|right; right; exact H2].
Qed.

(** the buckets of a partition: the keys are distinct, every row is in one
    bucket, the one of its key, and no bucket is empty *)
Lemma buckets_partition {K A : Type} `{EqDecision K} (key_of : A -> K) (rs : list A) :
  let buckets :=
    foldl (fun buckets '(idx, row) => bucket_append buckets (key_of row) idx)
          [] (imap pair rs) in
  NoDup (buckets.*1)
  /\ concat (buckets.*2) ≡ₚ seq 0 (length rs)
  /\ forall k idxs, (k, idxs) ∈ buckets ->
       idxs <> [] /\ forall i, i ∈ idxs -> exists r, rs !! i = Some r /\ key_of r = k.
Proof.
  induction rs as [|r rs IH] using rev_ind.
  - simpl. split; [constructor|]. split; [reflexivity|]. intros k idxs Hin. inversion Hin.
  - rewrite imap_app, foldl_app. simpl. rewrite Nat.add_0_r.
    simpl in IH. destruct IH as (Hnd & Hperm & Hrows).
    set (buckets := foldl _ [] (imap pair rs)) in *.
    split; [apply bucket_append_NoDup; exact Hnd|]. split.
    + rewrite bucket_append_concat, Hperm, length_app. simpl.
      rewrite seq_app. simpl. rewrite <- Permutation_cons_append. reflexivity.
    + intros k idxs Hin. apply bucket_append_elem in Hin as [Hin|(-> & idxs0 & -> & Hold)].
      * destruct (Hrows k idxs Hin) as [Hne Hall]. split; [exact Hne|].
        intros i Hi. destruct (Hall i Hi) as (r' & Hr' & Hk).
        exists r'. split; [|exact Hk]. apply lookup_app_l_Some. exact Hr'.
      * split; [destruct idxs0; discriminate|].
        intros i Hi. apply elem_of_app in Hi as [Hi|Hi].
        -- destruct Hold as [->|Hold]; [inversion Hi|].
           destruct (Hrows _ _ Hold) as [_ Hall].
           destruct (Hall i Hi) as (r' & Hr' & Hk).
           exists r'. split; [|exact Hk]. apply lookup_app_l_Some. exact Hr'.
        -- apply list_elem_of_singleton in Hi as ->. exists r. split; [|reflexivity].
           rewrite lookup_app_r by lia. rewrite Nat.sub_diag. reflexivity.
Qed.


(** ** What the builder guarantees of the group it returns *)

Lemma dict_get_elem {V : Type} (d : list (nat * V)) k v :
  dict_get d k = Some v -> (k, v) ∈ d.
Proof.
  induction d as [|[k0 v0] d IH]; simpl; [discriminate|].
  destruct (k =? k0)%nat eqn:E.
  - apply Nat.eqb_eq in E. subst k0. intros [= ->]. left.
  - intros Hd. right. apply IH. exact Hd.
Qed.

Lemma dict_set_entries {V : Type} (d : list (nat * V)) k v e :
  e ∈ dict_set d k v -> e = (k, v) \/ e ∈ d.
Proof.
  induction d as [|[k0 v0] d IH]; simpl.
  - intros He. apply list_elem_of_singleton in He. left. exact He.
  - destruct (k =? k0)%nat.
    + intros He. apply elem_of_cons in He as [->|He]; [left; reflexivity|right; right; exact He].
    + intros He. apply elem_of_cons in He as [->|He]; [right; left|].
      destruct (IH He) as [->|Hd]; [left; reflexivity|right; right; exact Hd].
Qed.

(** the entries of [global_to_local] pair a candidate with its local index *)
Lemma global_to_local_entries (pairs : list (nat * nat)) g l :
  (g, l) ∈ foldl (fun d '(local_idx, global_idx) => dict_set d global_idx local_idx) []
             (foldl (fun d '(local_idx, global_idx) => dict_set d local_idx global_idx) []
                pairs) ->
  (l, g) ∈ pairs.
Proof.
  assert (H1 : forall (ps : list (nat * nat)) d0 e,
            e ∈ foldl (fun d '(local_idx, global_idx) => dict_set d local_idx global_idx) d0 ps ->
            e ∈ d0 \/ e ∈ ps).
  { induction ps as [|[l0 g0] ps IH]; intros d0 e; simpl; [left; assumption|].
    intros He. destruct (IH _ _ He) as [Hd|Hp]; [|right; right; exact Hp].
    apply dict_set_entries in Hd as [->|Hd]; [right; left|left; exact Hd]. }
  assert (H2 : forall (ps : list (nat * nat)) d0 e,
            e ∈ foldl (fun d '(local_idx, global_idx) => dict_set d global_idx local_idx) d0 ps ->
            e ∈ d0 \/ (e.2, e.1) ∈ ps).
  { induction ps as [|[l0 g0] ps IH]; intros d0 e; simpl; [left; assumption|].
    intros He. destruct (IH _ _ He) as [Hd|Hp]; [|right; right; exact Hp].
    apply dict_set_entries in Hd as [->|Hd]; [right; left|left; exact Hd]. }
  intros He. apply H2 in He as [He|He]; [inversion He|]. simpl in He.
  apply H1 in He as [He|He]; [inversion He|exact He].
Qed.

Lemma all_compatible_true compat_matrix local_idx group_local :
  all_compatible compat_matrix local_idx group_local = Some true ->
  forall g_local, g_local ∈ group_local -> mget compat_matrix local_idx g_local = Some true.
Proof.
  induction group_local as [|g0 rest IH]; simpl; intros Hall g Hg; [inversion Hg|].
  destruct (mget compat_matrix local_idx g0) as [[|]|] eqn:E; try discriminate.
  apply elem_of_cons in Hg as [->|Hg]; [exact E|apply IH; assumption].
Qed.

Section BuilderGuarantees.
Context `{Runtime} {St : Type}.
Variable group_size : Z.
Variable group_ok : list nat -> option bool.
Variable score : St -> list nat -> option (Q * St).

(** a feasible candidate has a local index, is compatible in the matrix with
    every member of the group, and the group with it passes the group
    constraints *)
Lemma is_feasible_true compat_matrix global_to_local group_global global_idx :
  is_feasible group_ok compat_matrix global_to_local group_global global_idx = Some true ->
  group_ok (group_global ++ [global_idx]) = Some true
  /\ exists local_idx,
       dict_get global_to_local global_idx = Some local_idx
       /\ forall g, g ∈ group_global ->
            exists g_local, dict_get global_to_local g = Some g_local
                            /\ mget compat_matrix local_idx g_local = Some true.
Proof.
  unfold is_feasible.
  destruct (dict_get global_to_local global_idx) as [local_idx|]; [|discriminate]. simpl.
  destruct (mapM (dict_get global_to_local) group_global) as [group_local|] eqn:Em;
    [|discriminate].
  simpl.
  destruct (all_compatible compat_matrix local_idx group_local) as [[|]|] eqn:Ea;
    try discriminate.
  simpl. intros Hok. split; [exact Hok|]. exists local_idx. split; [reflexivity|].
  intros g Hg. apply mapM_Some_1 in Em.
  apply list_elem_of_lookup in Hg as [k Hk].
  destruct (Forall2_lookup_l _ _ _ _ _ Em Hk) as (g_local & Hl & Hd).
  exists g_local. split; [exact Hd|].
  eapply all_compatible_true; [exact Ea|]. apply list_elem_of_lookup. exists k. exact Hl.
Qed.

Lemma extend_step_feasible compat_matrix global_to_local st st' group_global remaining_global x :
  extend_step group_ok score compat_matrix global_to_local st group_global remaining_global
    = Some (Some x, st') ->
  is_feasible group_ok compat_matrix global_to_local group_global x = Some true.
Proof.
  intros Hstep.
  destruct (extend_step_inv _ _ _ _ _ _ _ _ _ Hstep) as (scored & Es & Ep).
  destruct (pick_best_Some _ _ Ep) as (pre & post & sx & Hl & _).
  pose proof (score_all_fst _ _ _ _ _ _ Es) as Hfst.
  assert (Hx : x ∈ scored.*1).
  { rewrite Hl, fmap_app, fmap_cons. apply elem_of_app. right. left. }
  rewrite Hfst in Hx. apply list_elem_of_filter in Hx as [Hx _]. exact Hx.
Qed.

(** a property of the group that every feasible extension keeps holds of
    the group that the extension loop returns *)
Lemma extend_loop_invariant (Inv : list nat -> Prop) fuel compat_matrix global_to_local
    st st' group_global remaining_global g :
  (forall grp x, Inv grp ->
     is_feasible group_ok compat_matrix global_to_local grp x = Some true ->
     Inv (grp ++ [x])) ->
  Inv group_global ->
  extend_loop group_size group_ok score fuel compat_matrix global_to_local st
    group_global remaining_global = Some (g, st') ->
  Inv g.
Proof.
  intros Hstep. revert st group_global remaining_global.
  induction fuel as [|fuel IH]; intros st group_global remaining_global Hinv; simpl.
  - destruct (_ && _); [discriminate|]. intros [= <- _]. exact Hinv.
  - destruct (_ && _); [|intros [= <- _]; exact Hinv].
    destruct (extend_step group_ok score compat_matrix global_to_local st group_global
                remaining_global) as [[[x|] st1]|] eqn:Es; simpl; [| |discriminate].
    + apply IH. apply Hstep; [exact Hinv|]. eapply extend_step_feasible. exact Es.
    + intros [= <- _]. exact Hinv.
Qed.
End BuilderGuarantees.


Lemma enumerate_candidates_lookup candidates local_indices pairs l g :
  enumerate_candidates candidates local_indices = Some pairs ->
  (l, g) ∈ pairs ->
  exists k, local_indices !! k = Some l /\ candidates !! k = Some g.
Proof.
  unfold enumerate_candidates. intros Hm Hin.
  apply mapM_Some_1 in Hm.
  apply list_elem_of_lookup in Hin as [k Hk].
  destruct (Forall2_lookup_r _ _ _ _ _ Hm Hk) as ([i li] & Hi & Hf).
  rewrite list_lookup_imap in Hi.
  destruct (local_indices !! k) as [lk|] eqn:El; [|discriminate].
  simpl in Hi. injection Hi as <- <-.
  simpl in Hf. destruct (candidates !! k) as [g'|] eqn:E; [|discriminate].
  simpl in Hf. injection Hf as <- <-. exists k. split; [exact El|exact E].
Qed.

Section BuilderTheorems.
Context `{Runtime} {St : Type}.
Variable group_size : Z.
Variable group_ok : list nat -> option bool.
Variable score : St -> list nat -> option (Q * St).

(** a group that the builder returns passed the group constraints when its
    last member was added *)
Lemma build_one_group_group_ok st st' candidates compat_matrix local_indices g :
  build_one_group_optimized group_size group_ok score st candidates compat_matrix
    local_indices = Some (g, st') ->
  g <> [] -> group_ok g = Some true.
Proof.
  unfold build_one_group_optimized.
  destruct (bool_decide (candidates = []) || bool_decide (local_indices = []));
    [intros [= <- _] Hne; contradiction|].
  destruct (enumerate_candidates candidates local_indices) as [pairs|]; [|discriminate].
  simpl.
  destruct (choose_seed compat_matrix candidates local_indices) as [seed|]; [|discriminate].
  simpl.
  destruct (extend_loop _ _ _ _ _ _ _ _ _) as [[g' st1]|] eqn:El; [|discriminate].
  simpl. intros [= <- _].
  destruct (bool_decide (4 <= length g')%nat) eqn:E4; [|intros Hne; contradiction].
  apply bool_decide_eq_true in E4. intros _.
  destruct (extend_loop_invariant group_size group_ok score
              (fun grp => grp = [seed] \/ group_ok grp = Some true)
              _ _ _ _ _ _ _ _
              (fun grp x _ Hf => or_intror (proj1 (is_feasible_true group_ok _ _ _ _ Hf)))
              (or_introl eq_refl) El) as [->|Hok]; [simpl in E4; lia|exact Hok].
Qed.

(** in a group that the builder returns, every member is compatible in the
    matrix with every member added before it *)
Lemma build_one_group_compatible st st' candidates compat_matrix local_indices g :
  build_one_group_optimized group_size group_ok score st candidates compat_matrix
    local_indices = Some (g, st') ->
  forall p q x y, (p < q)%nat -> g !! p = Some x -> g !! q = Some y ->
    exists kx ky lx ly,
      candidates !! kx = Some x /\ local_indices !! kx = Some lx
      /\ candidates !! ky = Some y /\ local_indices !! ky = Some ly
      /\ mget compat_matrix ly lx = Some true.
Proof.
  unfold build_one_group_optimized.
  destruct (bool_decide (candidates = []) || bool_decide (local_indices = []));
    [intros [= <- _] p q x y _ Hp; discriminate|].
  destruct (enumerate_candidates candidates local_indices) as [pairs|] eqn:Ep; [|discriminate].
  simpl.
  destruct (choose_seed compat_matrix candidates local_indices) as [seed|]; [|discriminate].
  simpl.
  set (global_to_local := foldl _ [] (foldl _ [] pairs)).
  destruct (extend_loop _ _ _ _ _ _ _ _ _) as [[g' st1]|] eqn:El; [|discriminate].
  simpl. intros [= <- _].
  destruct (bool_decide (4 <= length g')%nat); [|intros p q x y _ Hp; discriminate].
  assert (Hinv : forall p q x y, (p < q)%nat -> g' !! p = Some x -> g' !! q = Some y ->
            exists lx ly, dict_get global_to_local x = Some lx
                          /\ dict_get global_to_local y = Some ly
                          /\ mget compat_matrix ly lx = Some true).
  { apply (extend_loop_invariant group_size group_ok score
             (fun grp => forall p q x y, (p < q)%nat -> grp !! p = Some x -> grp !! q = Some y ->
                exists lx ly, dict_get global_to_local x = Some lx
                              /\ dict_get global_to_local y = Some ly
                              /\ mget compat_matrix ly lx = Some true)
             _ _ _ _ _ _ _ _) with (3 := El).
    - intros grp z Hgrp Hf p q x y Hpq Hp Hq.
      destruct (is_feasible_true group_ok _ _ _ _ Hf) as (_ & lz & Hlz & Hall).
      destruct (decide (q < length grp)%nat) as [Hlt|Hge].
      + rewrite lookup_app_l in Hp by lia. rewrite lookup_app_l in Hq by lia.
        exact (Hgrp p q x y Hpq Hp Hq).
      + assert (Hq' : q = length grp).
        { apply lookup_lt_Some in Hq. rewrite length_app in Hq. simpl in Hq. lia. }
        subst q. rewrite lookup_app_l in Hp by lia.
        rewrite lookup_app_r in Hq by lia. rewrite Nat.sub_diag in Hq. injection Hq as <-.
        destruct (Hall x) as (lx & Hlx & Hm); [apply list_elem_of_lookup; exists p; exact Hp|].
        exists lx, lz. split; [exact Hlx|]. split; [exact Hlz|exact Hm].
    - intros p q x y Hpq Hp Hq. destruct p, q; try lia; discriminate. }
  intros p q x y Hpq Hp Hq.
  destruct (Hinv p q x y Hpq Hp Hq) as (lx & ly & Hlx & Hly & Hm).
  apply dict_get_elem, global_to_local_entries in Hlx, Hly.
  destruct (enumerate_candidates_lookup _ _ _ _ _ Ep Hlx) as (kx & Hkx1 & Hkx2).
  destruct (enumerate_candidates_lookup _ _ _ _ _ Ep Hly) as (ky & Hky1 & Hky2).
  exists kx, ky, lx, ly. repeat split; assumption.
Qed.
End BuilderTheorems.


Section LegacyProvenance.
Context `{Runtime}.

(** [g] was returned by the builder for candidates of one subspace *)
Definition built_in_subspace (cfg : Config) (rules : NormRules) (df : DataFrame)
    (g : list nat) : Prop :=
  exists key idxs candidates compat_matrix local_indices st st',
    (key, idxs) ∈ partition_into_subspaces cfg df
    /\ (forall x, x ∈ candidates -> x ∈ idxs)
    /\ g <> []
    /\ build_one_group_optimized (GROUP_SIZE cfg) (group_ok_on cfg df) (score_on cfg rules df)
         st candidates compat_matrix local_indices = Some (g, st').

Lemma subspace_loop_provenance fuel cfg rules df compat_matrix key idxs pool st st' :
  (key, idxs) ∈ partition_into_subspaces cfg df ->
  (forall x, x ∈ pool -> x ∈ idxs) ->
  Forall (built_in_subspace cfg rules df) (all_groups st) ->
  subspace_loop fuel cfg rules df compat_matrix pool st = Some st' ->
  Forall (built_in_subspace cfg rules df) (all_groups st').
Proof.
  intros Hkey. revert pool st.
  induction fuel as [|fuel IH]; intros pool st Hpool Hall; simpl.
  - destruct (bool_decide _); [intros [= <-]; exact Hall|discriminate].
  - destruct (bool_decide _); [intros [= <-]; exact Hall|].
    destruct (mapM (list_index pool) _) as [local_indices|]; [|discriminate]. simpl.
    destruct (build_one_group_optimized _ _ _ _ _ _ _) as [[group caches']|] eqn:Eb;
      [|discriminate].
    simpl. destruct (bool_decide (group = [])) eqn:Eg; [intros [= <-]; exact Hall|].
    apply bool_decide_eq_false in Eg.
    apply IH.
    + intros x Hx. apply list_elem_of_filter in Hx as [_ Hx]. apply Hpool. exact Hx.
    + simpl. apply Forall_app. split; [exact Hall|]. constructor; [|constructor].
      exists key, idxs, (filter (fun i => i ∉ used st) pool), compat_matrix, local_indices,
        (caches st), caches'.
      split; [exact Hkey|]. split; [|split; [exact Eg|exact Eb]].
      intros x Hx. apply list_elem_of_filter in Hx as [_ Hx]. apply Hpool. exact Hx.
Qed.

Lemma make_groups_provenance cfg rules df caches0 groups :
  make_groups cfg rules df caches0 = Some groups ->
  Forall (built_in_subspace cfg rules df) groups.
Proof.
  unfold make_groups.
  destruct (VALIDATE_INPUT cfg && negb _); [discriminate|].
  destruct (foldl _ _ _) as [st|] eqn:Ef; [|discriminate].
  simpl. intros [= <-].
  assert (Hinv : forall st', Some st = Some st' ->
                             Forall (built_in_subspace cfg rules df) (all_groups st')).
  { rewrite <- Ef.
    apply (foldl_invariant
             (fun acc : option RunState =>
                forall st', acc = Some st' ->
                            Forall (built_in_subspace cfg rules df) (all_groups st'))).
    - intros st' [= <-]. constructor.
    - intros acc [key idxs] Hin Hacc st'.
      destruct acc as [st0|]; [|discriminate]. simpl.
      unfold process_bucket.
      destruct (bool_decide _); [intros [= <-]; apply Hacc; reflexivity|].
      destruct (build_compatibility_matrix_per_subspace _ _ _ _) as [compat|]; [|discriminate].
      intros Hloop. eapply subspace_loop_provenance; [exact Hin| |apply Hacc; reflexivity|exact Hloop].
      intros x Hx. apply list_elem_of_filter in Hx as [_ Hx]. exact Hx. }
  exact (Hinv st eq_refl).
Qed.
End LegacyProvenance.


(** ** The hard constraints of the engine, pair by pair *)

Lemma foldl_established {A B : Type} (I Q : A -> Prop) (f : A -> B -> A) (l : list B)
    (a : A) (x : B) :
  x ∈ l -> I a ->
  (forall a y, y ∈ l -> I a -> I (f a y)) ->
  (forall a, I a -> Q (f a x)) ->
  (forall a y, y ∈ l -> I a -> Q a -> Q (f a y)) ->
  I (foldl f a l) /\ Q (foldl f a l).
Proof.
  revert a. induction l as [|y l IH]; intros a Hx Ha HI Hest Hkeep; [inversion Hx|].
  simpl. apply elem_of_cons in Hx as [->|Hx].
  - apply (foldl_invariant (fun b => I b /\ Q b)).
    + split; [apply HI; [left|exact Ha]|apply Hest; exact Ha].
    + intros b z Hz [Hb1 Hb2]. split; [apply HI|apply Hkeep]; try assumption; right; exact Hz.
  - apply IH; [exact Hx|apply HI; [left|exact Ha]| | |].
    + intros b z Hz. apply HI. right. exact Hz.
    + exact Hest.
    + intros b z Hz. apply Hkeep. right. exact Hz.
Qed.

(** a property that the round [(i, j)] of the double loop establishes and
    that every round keeps holds after the loop *)
Lemma pair_loop_established {A : Type} (I Q : A -> Prop) n (step : A -> nat -> nat -> A)
    (m : A) i j :
  (i < j)%nat -> (j < n)%nat ->
  I m ->
  (forall a i' j', (i' < j')%nat -> (j' < n)%nat -> I a -> I (step a i' j')) ->
  (forall a, I a -> Q (step a i j)) ->
  (forall a i' j', (i' < j')%nat -> (j' < n)%nat -> I a -> Q a -> Q (step a i' j')) ->
  Q (pair_loop n step m).
Proof.
  intros Hij Hjn Hm HI Hest Hkeep. unfold pair_loop.
  assert (Hinner : forall a i', (i' < n)%nat ->
            I a -> I (foldl (fun m j => step m i' j) a (seq (S i') (n - S i')))).
  { intros a i' Hi' Ha. apply foldl_invariant; [exact Ha|].
    intros a' j' Hj' Ha'. apply elem_of_seq in Hj'. apply HI; [lia|lia|exact Ha']. }
  apply (foldl_established I Q _ (seq 0 n) m i).
  - apply elem_of_seq. lia.
  - exact Hm.
  - intros a i' Hi' Ha. apply elem_of_seq in Hi'. apply Hinner; [lia|exact Ha].
  - intros a Ha.
    apply (foldl_established I Q (fun m j => step m i j) (seq (S i) (n - S i)) a j).
    + apply elem_of_seq. lia.
    + exact Ha.
    + intros a' j' Hj' Ha'. apply elem_of_seq in Hj'. apply HI; [lia|lia|exact Ha'].
    + exact Hest.
    + intros a' j' Hj' Ha1 Ha2. apply elem_of_seq in Hj'. apply Hkeep; [lia|lia|assumption|assumption].
  - intros a i' Hi' Ha1 Ha2. apply elem_of_seq in Hi'.
    apply (foldl_invariant (fun b => I b /\ Q b)); [split; assumption|].
    intros a' j' Hj' [Hb1 Hb2]. apply elem_of_seq in Hj'.
    split; [apply HI|apply Hkeep]; try assumption; lia.
Qed.

Section EngineHard.
Context `{Runtime}.

(** [row[field]] of a row of the features frame *)
Definition feature_of (row : gmap string fcell) (fld : string) : fcell :=
  default FNaN (row !! fld).

(** the hard constraints of the policy pass between two rows *)
Definition hard_constraints_hold (p : Policy) (ff : FeaturesFrame)
    (ri rj : gmap string fcell) : Prop :=
  (forall fld, fld ∈ categorical_equal p -> fld ∈ fcolumns ff ->
     _check_categorical_match (feature_of ri fld) (feature_of rj fld) = true)
  /\ (forall fld, fld ∈ multi_overlap p -> fld ∈ fcolumns ff ->
        _check_multi_overlap (feature_of ri fld) (feature_of rj fld) = true)
  /\ (forall fld tol, (fld, tol) ∈ numeric_tol p -> fld ∈ fcolumns ff ->
        notna (feature_of ri fld) = true -> notna (feature_of rj fld) = true ->
        exists x y, float_of_fcell (feature_of ri fld) = Some x
                    /\ float_of_fcell (feature_of rj fld) = Some y
                    /\ Qabs (x - y) <= tol)
  /\ (forall r, age_rules p = Some r -> field r ∈ fcolumns ff ->
        notna (feature_of ri (field r)) = true -> notna (feature_of rj (field r)) = true ->
        _check_age_compatibility (Some r) (feature_of ri (field r)) (feature_of rj (field r))
        = Some true).

Lemma fcell_at_row df_subset i fld r :
  df_subset !! i = Some r -> fcell_at df_subset i fld = Some (feature_of r fld).
Proof. intros Hr. unfold fcell_at. rewrite Hr. reflexivity. Qed.

Lemma categorical_break_false ff df_subset i j fields ri rj :
  df_subset !! i = Some ri -> df_subset !! j = Some rj ->
  categorical_break ff df_subset i j fields = Some false ->
  forall fld, fld ∈ fields -> fld ∈ fcolumns ff ->
    _check_categorical_match (feature_of ri fld) (feature_of rj fld) = true.
Proof.
  intros Hi Hj. induction fields as [|f fields IH]; simpl; intros Hb fld Hin Hc;
    [inversion Hin|].
  rewrite (fcell_at_row _ _ _ _ Hi), (fcell_at_row _ _ _ _ Hj) in Hb. simpl in Hb.
  destruct (bool_decide (f ∈ fcolumns ff)) eqn:Ef.
  - destruct (_check_categorical_match (feature_of ri f) (feature_of rj f)) eqn:Em;
      simpl in Hb; [|discriminate].
    apply elem_of_cons in Hin as [->|Hin]; [exact Em|apply IH; assumption].
  - apply bool_decide_eq_false in Ef.
    apply elem_of_cons in Hin as [->|Hin]; [contradiction|apply IH; assumption].
Qed.

Lemma multi_break_false ff df_subset i j fields ri rj :
  df_subset !! i = Some ri -> df_subset !! j = Some rj ->
  multi_break ff df_subset i j fields = Some false ->
  forall fld, fld ∈ fields -> fld ∈ fcolumns ff ->
    _check_multi_overlap (feature_of ri fld) (feature_of rj fld) = true.
Proof.
  intros Hi Hj. induction fields as [|f fields IH]; simpl; intros Hb fld Hin Hc;
    [inversion Hin|].
  rewrite (fcell_at_row _ _ _ _ Hi), (fcell_at_row _ _ _ _ Hj) in Hb. simpl in Hb.
  destruct (bool_decide (f ∈ fcolumns ff)) eqn:Ef.
  - destruct (_check_multi_overlap (feature_of ri f) (feature_of rj f)) eqn:Em;
      simpl in Hb; [|discriminate].
    apply elem_of_cons in Hin as [->|Hin]; [exact Em|apply IH; assumption].
  - apply bool_decide_eq_false in Ef.
    apply elem_of_cons in Hin as [->|Hin]; [contradiction|apply IH; assumption].
Qed.

Lemma numeric_break_false ff df_subset i j fields ri rj :
  df_subset !! i = Some ri -> df_subset !! j = Some rj ->
  numeric_break ff df_subset i j fields = Some false ->
  forall fld tol, (fld, tol) ∈ fields -> fld ∈ fcolumns ff ->
    notna (feature_of ri fld) = true -> notna (feature_of rj fld) = true ->
    exists x y, float_of_fcell (feature_of ri fld) = Some x
                /\ float_of_fcell (feature_of rj fld) = Some y
                /\ Qabs (x - y) <= tol.
Proof.
  intros Hi Hj. induction fields as [|[f t] fields IH]; simpl; intros Hb fld tol Hin Hc Hni Hnj;
    [inversion Hin|].
  rewrite (fcell_at_row _ _ _ _ Hi), (fcell_at_row _ _ _ _ Hj) in Hb. simpl in Hb.
  destruct (bool_decide (f ∈ fcolumns ff)) eqn:Ef.
  - destruct (notna (feature_of ri f) && notna (feature_of rj f)) eqn:En.
    + destruct (float_of_fcell (feature_of ri f)) as [x|] eqn:Ex; [|discriminate].
      destruct (float_of_fcell (feature_of rj f)) as [y|] eqn:Ey; [|discriminate].
      simpl in Hb. destruct (within_tol x y t) eqn:Ew; simpl in Hb; [|discriminate].
      apply elem_of_cons in Hin as [[= -> ->]|Hin]; [|eapply IH; eassumption].
      exists x, y. split; [exact Ex|]. split; [exact Ey|]. apply within_tol_iff. exact Ew.
    + apply elem_of_cons in Hin as [[= -> ->]|Hin]; [|eapply IH; eassumption].
      rewrite Hni, Hnj in En. discriminate.
  - apply bool_decide_eq_false in Ef.
    apply elem_of_cons in Hin as [[= -> ->]|Hin]; [contradiction|eapply IH; eassumption].
Qed.
End EngineHard.


Section EngineMatrixEntries.
Context `{Runtime}.

Lemma mget_clear_pair n compat a b i j :
  square n compat -> (a < n)%nat -> (b < n)%nat ->
  mget (clear_pair compat a b) i j
  = if decide ((i = a /\ j = b) \/ (i = b /\ j = a)) then Some false else mget compat i j.
Proof.
  intros Hsq Ha Hb. unfold clear_pair.
  rewrite (mget_mset n) by (try apply square_mset; assumption).
  rewrite (mget_mset n) by assumption.
  repeat case_decide; try reflexivity; tauto.
Qed.

Lemma mget_clear_if n broke compat a b i j :
  square n compat -> (a < n)%nat -> (b < n)%nat ->
  mget (clear_if broke compat a b) i j = Some true ->
  mget compat i j = Some true /\ (broke = true -> ~ (i = a /\ j = b)).
Proof.
  intros Hsq Ha Hb. destruct broke; simpl.
  - rewrite (mget_clear_pair n) by assumption.
    case_decide; [discriminate|]. intros Hm. split; [exact Hm|]. intros _. tauto.
  - intros Hm. split; [exact Hm|discriminate].
Qed.

(** a round of the double loop only clears entries *)
Lemma engine_pair_step_decreasing n p ff df_subset compat a b m i j :
  square n compat -> (a < n)%nat -> (b < n)%nat ->
  engine_pair_step p ff df_subset compat a b = Some m ->
  mget m i j = Some true -> mget compat i j = Some true.
Proof.
  intros Hsq Ha Hb. unfold engine_pair_step.
  remember (_check_age_compatibility (age_rules p)) as chk eqn:Echk. clear Echk.
  destruct (categorical_break ff df_subset a b (categorical_equal p)) as [b1|]; [|discriminate].
  simpl.
  set (c1 := clear_if b1 compat a b).
  assert (H1 : mget c1 i j = Some true -> mget compat i j = Some true).
  { intros Hm. exact (proj1 (mget_clear_if n _ _ _ _ _ _ Hsq Ha Hb Hm)). }
  assert (Hsq1 : square n c1) by (destruct b1; [apply square_set_pair|]; assumption).
  destruct (mget c1 a b) as [[|]|]; simpl; [|intros [= <-]; exact H1|discriminate].
  destruct (multi_break ff df_subset a b (multi_overlap p)) as [b2|]; [|discriminate].
  simpl.
  set (c2 := clear_if b2 c1 a b).
  assert (H2 : mget c2 i j = Some true -> mget compat i j = Some true).
  { intros Hm. apply H1. exact (proj1 (mget_clear_if n _ _ _ _ _ _ Hsq1 Ha Hb Hm)). }
  assert (Hsq2 : square n c2) by (destruct b2; [apply square_set_pair|]; assumption).
  destruct (mget c2 a b) as [[|]|]; simpl; [|intros [= <-]; exact H2|discriminate].
  destruct (numeric_break ff df_subset a b (numeric_tol p)) as [b3|]; [|discriminate].
  simpl.
  set (c3 := clear_if b3 c2 a b).
  assert (H3 : mget c3 i j = Some true -> mget compat i j = Some true).
  { intros Hm. apply H2. exact (proj1 (mget_clear_if n _ _ _ _ _ _ Hsq2 Ha Hb Hm)). }
  assert (Hsq3 : square n c3) by (destruct b3; [apply square_set_pair|]; assumption).
  destruct (age_rules p) as [r|]; [|intros [= <-]; exact H3].
  destruct (mget c3 a b) as [[|]|]; simpl; [|intros [= <-]; exact H3|discriminate].
  destruct (bool_decide (field r ∈ fcolumns ff)); [|intros [= <-]; exact H3].
  destruct (fcell_at df_subset a (field r)) as [age_i|]; [|discriminate]. simpl.
  destruct (fcell_at df_subset b (field r)) as [age_j|]; [|discriminate]. simpl.
  destruct (notna age_i && notna age_j); [|intros [= <-]; exact H3].
  destruct (chk age_i age_j) as [[|]|]; simpl;
    [intros [= <-]; exact H3| |discriminate].
  intros [= <-] Hm. apply H3.
  rewrite (mget_clear_pair n) in Hm by assumption.
  case_decide; [discriminate|exact Hm].
Qed.

(** the round of the pair [(i, j)] leaves its entry true only if the hard
    constraints pass between the two rows *)
Lemma engine_pair_step_entry n p ff df_subset compat i j m ri rj :
  square n compat -> (i < n)%nat -> (j < n)%nat ->
  df_subset !! i = Some ri -> df_subset !! j = Some rj ->
  engine_pair_step p ff df_subset compat i j = Some m ->
  mget m i j = Some true ->
  hard_constraints_hold p ff ri rj.
Proof.
  intros Hsq Hi Hj Hri Hrj. unfold engine_pair_step.
  remember (_check_age_compatibility (age_rules p)) as chk eqn:Echk.
  destruct (categorical_break ff df_subset i j (categorical_equal p)) as [b1|] eqn:E1;
    [|discriminate].
  simpl.
  set (c1 := clear_if b1 compat i j).
  assert (Hsq1 : square n c1) by (destruct b1; [apply square_set_pair|]; assumption).
  assert (Hb1 : forall c, mget c1 i j = Some c -> c = true -> b1 = false).
  { intros c Hc ->. destruct (mget_clear_if n _ _ _ _ _ _ Hsq Hi Hj Hc) as [_ Hn].
    destruct b1; [exfalso; apply Hn; [reflexivity|split; reflexivity]|reflexivity]. }
  destruct (mget c1 i j) as [[|]|] eqn:Ec1; simpl;
    [|intros [= <-] Hm; rewrite Ec1 in Hm; discriminate|discriminate].
  specialize (Hb1 true eq_refl eq_refl). subst b1.
  destruct (multi_break ff df_subset i j (multi_overlap p)) as [b2|] eqn:E2; [|discriminate].
  simpl.
  set (c2 := clear_if b2 c1 i j).
  assert (Hsq2 : square n c2) by (destruct b2; [apply square_set_pair|]; assumption).
  assert (Hb2 : forall c, mget c2 i j = Some c -> c = true -> b2 = false).
  { intros c Hc ->. destruct (mget_clear_if n _ _ _ _ _ _ Hsq1 Hi Hj Hc) as [_ Hn].
    destruct b2; [exfalso; apply Hn; [reflexivity|split; reflexivity]|reflexivity]. }
  destruct (mget c2 i j) as [[|]|] eqn:Ec2; simpl;
    [|intros [= <-] Hm; rewrite Ec2 in Hm; discriminate|discriminate].
  specialize (Hb2 true eq_refl eq_refl). subst b2.
  destruct (numeric_break ff df_subset i j (numeric_tol p)) as [b3|] eqn:E3; [|discriminate].
  simpl.
  set (c3 := clear_if b3 c2 i j).
  assert (Hsq3 : square n c3) by (destruct b3; [apply square_set_pair|]; assumption).
  assert (Hb3 : mget c3 i j = Some true -> b3 = false).
  { intros Hc. destruct (mget_clear_if n _ _ _ _ _ _ Hsq2 Hi Hj Hc) as [_ Hn].
    destruct b3; [exfalso; apply Hn; [reflexivity|split; reflexivity]|reflexivity]. }
  assert (Hdone : b3 = false ->
            (forall r, age_rules p = Some r -> field r ∈ fcolumns ff ->
               notna (feature_of ri (field r)) = true ->
               notna (feature_of rj (field r)) = true ->
               _check_age_compatibility (Some r) (feature_of ri (field r))
                 (feature_of rj (field r)) = Some true) ->
            hard_constraints_hold p ff ri rj).
  { intros -> Hage. split; [|split; [|split]].
    - eapply categorical_break_false; eassumption.
    - eapply multi_break_false; eassumption.
    - eapply numeric_break_false; eassumption.
    - exact Hage. }
  destruct (age_rules p) as [r|] eqn:Er.
  - destruct (mget c3 i j) as [[|]|] eqn:Ec3; simpl;
      [|intros [= <-] Hm; rewrite Ec3 in Hm; discriminate|discriminate].
    specialize (Hb3 eq_refl).
    destruct (bool_decide (field r ∈ fcolumns ff)) eqn:Ef.
    + rewrite (fcell_at_row _ _ _ _ Hri), (fcell_at_row _ _ _ _ Hrj). simpl.
      destruct (notna (feature_of ri (field r)) && notna (feature_of rj (field r))) eqn:En.
      * destruct (chk (feature_of ri (field r)) (feature_of rj (field r))) as [[|]|] eqn:Ea;
          simpl; [| |discriminate].
        -- intros [= <-] _. apply Hdone; [exact Hb3|]. intros r' [= <-] _ _ _.
           rewrite <- Ea, Echk. reflexivity.
        -- intros [= <-] Hm. rewrite (mget_clear_pair n) in Hm by assumption.
           rewrite decide_True in Hm by (left; split; reflexivity). discriminate.
      * intros [= <-] _. apply Hdone; [exact Hb3|]. intros r' [= <-] _ Hni Hnj.
        rewrite Hni, Hnj in En. discriminate.
    + intros [= <-] _. apply Hdone; [exact Hb3|]. intros r' [= <-] Hc.
      apply bool_decide_eq_false in Ef. contradiction.
  - intros [= <-] Hm. apply Hdone; [exact (Hb3 Hm)|]. intros r' [=].
Qed.

(** an entry above the diagonal of the engine's matrix is true only if the
    hard constraints pass between the two rows *)
Lemma engine_matrix_entry p ff df_subset indices m i j ri rj :
  _build_compatibility_matrix p ff df_subset indices = Some m ->
  (i < j)%nat -> (j < length indices)%nat ->
  df_subset !! i = Some ri -> df_subset !! j = Some rj ->
  mget m i j = Some true ->
  hard_constraints_hold p ff ri rj.
Proof.
  unfold _build_compatibility_matrix. set (n := length indices).
  destruct (pair_loop n _ _) as [compat|] eqn:E; [|discriminate].
  simpl. intros [= <-] Hij Hjn Hri Hrj Hm.
  assert (HQ : forall c, Some compat = Some c ->
                 square n c /\ (mget c i j = Some true -> hard_constraints_hold p ff ri rj)).
  { rewrite <- E.
    apply (pair_loop_established
             (fun acc : option matrix => forall c, acc = Some c -> square n c /\ symmetric n c)
             (fun acc : option matrix => forall c, acc = Some c ->
                square n c /\ (mget c i j = Some true -> hard_constraints_hold p ff ri rj))
             n _ _ i j Hij Hjn).
    - intros c [= <-]. apply ones_ok.
    - intros acc i' j' Hi' Hj' Hacc c Hc.
      destruct acc as [c0|]; [|discriminate]. simpl in Hc.
      eapply (engine_pair_step_ok n); [| |apply Hacc; reflexivity|exact Hc]; lia.
    - intros acc Hacc c Hc. destruct acc as [c0|]; [|discriminate]. simpl in Hc.
      destruct (Hacc c0 eq_refl) as [Hsq0 Hsym0].
      split; [eapply (engine_pair_step_ok n); [| | |exact Hc]; [lia|lia|split; assumption]|].
      intros Ht. eapply (engine_pair_step_entry n); [exact Hsq0| | | | |exact Hc|exact Ht];
        try assumption; lia.
    - intros acc i' j' Hi' Hj' Hacc HQ c Hc.
      destruct acc as [c0|]; [|discriminate]. simpl in Hc.
      destruct (Hacc c0 eq_refl) as [Hsq0 Hsym0].
      split; [eapply (engine_pair_step_ok n); [| | |exact Hc]; [lia|lia|split; assumption]|].
      intros Ht. apply (proj2 (HQ c0 eq_refl)).
      eapply (engine_pair_step_decreasing n); [exact Hsq0| | |exact Hc|exact Ht]; lia. }
  destruct (HQ compat eq_refl) as [Hsq Himp]. apply Himp.
  rewrite (mget_set_diag n) in Hm by (try assumption; lia).
  rewrite decide_False in Hm by lia. exact Hm.
Qed.
End EngineMatrixEntries.


Lemma StronglySorted_lookup_lt (l : list nat) i j x y :
  StronglySorted lt l -> l !! i = Some x -> l !! j = Some y -> (i < j)%nat -> (x < y)%nat.
Proof.
  intros Hs. revert i j. induction Hs as [|a l Hs IH Ha]; intros i j Hi Hj Hij; [discriminate|].
  destruct j as [|j]; [lia|]. simpl in Hj.
  destruct i as [|i]; simpl in Hi.
  - injection Hi as <-. rewrite Forall_forall in Ha. apply Ha.
    apply list_elem_of_lookup. exists j. exact Hj.
  - apply (IH i j); [assumption|assumption|lia].
Qed.

Lemma StronglySorted_lookup_inv (l : list nat) i j x y :
  StronglySorted lt l -> l !! i = Some x -> l !! j = Some y -> (x < y)%nat -> (i < j)%nat.
Proof.
  intros Hs Hi Hj Hxy.
  destruct (Nat.lt_trichotomy i j) as [Hlt|[->|Hgt]]; [exact Hlt| |].
  - rewrite Hi in Hj. injection Hj as ->. lia.
  - pose proof (StronglySorted_lookup_lt l j i y x Hs Hj Hi Hgt). lia.
Qed.

Lemma StronglySorted_seq a n : StronglySorted lt (seq a n).
Proof.
  revert a. induction n as [|n IH]; intros a; simpl; constructor; [apply IH|].
  apply Forall_forall. intros x Hx. apply elem_of_seq in Hx. lia.
Qed.

Section EngineProvenance.
Context `{Runtime} {St : Type}.
Variable legacy_group_size : Z.
Variable group_ok : list nat -> option bool.
Variable score : St -> list nat -> option (Q * St).
Variable score_explain : St -> list nat -> option (Q * St).

(** the partitions that [run] goes through *)
Definition engine_partitions (p : Policy) (ff : FeaturesFrame) : list (string * list nat) :=
  if negb (bool_decide (subspaces p = [])) then _partition_by_subspaces p ff
  else [("global", seq 0 (length (frows ff)))].

(** [g] was returned by the builder for the participants [available] of one
    partition, with the matrix that the engine built for them *)
Definition built_for_available (p : Policy) (ff : FeaturesFrame) (key : string)
    (g : list nat) : Prop :=
  exists indices available df_subset compat_matrix st st',
    (key, indices) ∈ engine_partitions p ff
    /\ (forall x, x ∈ available -> x ∈ indices)
    /\ StronglySorted lt available
    /\ features_iloc ff available = Some df_subset
    /\ _build_compatibility_matrix p ff df_subset available = Some compat_matrix
    /\ g <> []
    /\ build_one_group_optimized legacy_group_size group_ok score st available compat_matrix
         (seq 0 (length available)) = Some (g, st').

(** the groups and their explanations go together *)
Definition explained (p : Policy) (ff : FeaturesFrame) (g : list nat) (e : Explanation) : Prop :=
  e_members e = g /\ e_group_size e = length g
  /\ built_for_available p ff (e_subspace e) g
  /\ exists st st', score_explain st g = Some (e_group_score e, st').

Lemma process_loop_provenance fuel p ff key indices available compat_matrix es es' :
  (key, indices) ∈ engine_partitions p ff ->
  (forall x, x ∈ available -> x ∈ indices) ->
  StronglySorted lt available ->
  (available = []
   \/ exists df_subset, features_iloc ff available = Some df_subset
        /\ _build_compatibility_matrix p ff df_subset available = Some compat_matrix) ->
  Forall2 (explained p ff) (groups es) (explanations es) ->
  process_loop legacy_group_size group_ok score score_explain fuel p ff key
    available compat_matrix es = Some es' ->
  Forall2 (explained p ff) (groups es') (explanations es').
Proof.
  intros Hkey. revert available compat_matrix es.
  induction fuel as [|fuel IH]; intros available compat_matrix es Hav Hs Hm Hall; simpl.
  - destruct (bool_decide _); [discriminate|intros [= <-]; exact Hall].
  - destruct (bool_decide _); [|intros [= <-]; exact Hall].
    unfold _build_group.
    destruct (build_one_group_optimized _ _ _ _ _ _ _) as [[group st1]|] eqn:Eb;
      [|discriminate].
    simpl. destruct (bool_decide (group = [])) eqn:Eg; [intros [= <-]; exact Hall|].
    apply bool_decide_eq_false in Eg.
    unfold _create_group_explanation.
    destruct (score_explain st1 group) as [[s st2]|] eqn:Ee; [|discriminate].
    simpl.
    set (ungrouped' := ungrouped es ∖ list_to_set group).
    set (available' := filter (fun i => i ∈ ungrouped') available).
    assert (Hnew : explained p ff group (mkExplanation key group s (length group))).
    { split; [reflexivity|]. split; [reflexivity|]. split; [|exists st1, st2; exact Ee].
      destruct Hm as [->|(df_subset & Hdf & Hmat)].
      - unfold build_one_group_optimized in Eb.
        rewrite bool_decide_eq_true_2 in Eb by reflexivity. simpl in Eb.
        injection Eb as <- _. contradiction.
      - exists indices, available, df_subset, compat_matrix, (scorer_state es), st1.
        repeat split; assumption. }
    assert (Hall' : Forall2 (explained p ff) (groups es ++ [group])
                      (explanations es ++ [mkExplanation key group s (length group)])).
    { apply Forall2_app; [exact Hall|]. constructor; [exact Hnew|constructor]. }
    assert (Hav' : forall x, x ∈ available' -> x ∈ indices).
    { intros x Hx. apply list_elem_of_filter in Hx as [_ Hx]. apply Hav. exact Hx. }
    assert (Hs' : StronglySorted lt available') by (apply StronglySorted_filter; exact Hs).
    destruct (bool_decide (available' = [])) eqn:Ea.
    + apply bool_decide_eq_true in Ea. intros Hloop.
      eapply IH; [| | | |exact Hloop]; [exact Hav'|exact Hs'|left; exact Ea|exact Hall'].
    + destruct (features_iloc ff available') as [df_subset'|] eqn:Ed; [|discriminate]. simpl.
      destruct (_build_compatibility_matrix p ff df_subset' available') as [compat'|] eqn:Ec;
        [|discriminate].
      intros Hloop.
      eapply IH; [| | | |exact Hloop]; [exact Hav'|exact Hs'| |exact Hall'].
      right. exists df_subset'. split; [exact Ed|exact Ec].
Qed.

Lemma engine_partitions_sorted p ff key indices :
  (key, indices) ∈ engine_partitions p ff ->
  StronglySorted lt indices /\ forall x, x ∈ indices -> (x < length (frows ff))%nat.
Proof.
  unfold engine_partitions. destruct (negb _).
  - intros Hin. exact (buckets_sorted (composite_key p) (frows ff) key indices Hin).
  - intros Hin. apply list_elem_of_singleton in Hin as [= -> ->].
    split; [apply StronglySorted_seq|]. intros x Hx. apply elem_of_seq in Hx. lia.
Qed.

Lemma process_subspace_provenance p ff es key indices es' :
  (key, indices) ∈ engine_partitions p ff ->
  Forall2 (explained p ff) (groups es) (explanations es) ->
  _process_subspace legacy_group_size group_ok score score_explain p ff es key indices
    = Some es' ->
  Forall2 (explained p ff) (groups es') (explanations es').
Proof.
  intros Hkey Hall. unfold _process_subspace.
  destruct (bool_decide _); [intros [= <-]; exact Hall|].
  destruct (features_iloc ff _) as [df_subset|] eqn:Ed; [|discriminate]. cbn -[process_loop].
  destruct (_build_compatibility_matrix p ff df_subset _) as [compat|] eqn:Ec; [|discriminate].
  cbn -[process_loop].
  intros Hloop. eapply process_loop_provenance; [exact Hkey| | | | |exact Hloop]; [| | |exact Hall].
  - intros x Hx. apply list_elem_of_filter in Hx as [_ Hx]. exact Hx.
  - apply StronglySorted_filter. exact (proj1 (engine_partitions_sorted _ _ _ _ Hkey)).
  - right. exists df_subset. split; [exact Ed|exact Ec].
Qed.

Lemma run_provenance p ff st gs exps :
  run legacy_group_size group_ok score score_explain p ff st = Some (gs, exps) ->
  Forall2 (explained p ff) gs exps.
Proof.
  unfold run. fold (engine_partitions p ff).
  destruct (foldl _ _ _) as [es|] eqn:Ef; [|discriminate].
  simpl. intros [= <- <-].
  assert (Hinv : forall es', Some es = Some es' ->
                   Forall2 (explained p ff) (groups es') (explanations es')).
  { rewrite <- Ef.
    apply (foldl_invariant
             (fun acc : option (@EngineState St) =>
                forall es', acc = Some es' ->
                  Forall2 (explained p ff) (groups es') (explanations es'))).
    - intros es' [= <-]. constructor.
    - intros acc [key idxs] Hin Hacc es'.
      destruct acc as [es0|]; [|discriminate]. simpl.
      apply process_subspace_provenance; [exact Hin|apply Hacc; reflexivity]. }
  exact (Hinv es eq_refl).
Qed.
End EngineProvenance.


Section EngineGroups.
Context `{Runtime} {St : Type}.
Variable legacy_group_size : Z.
Variable group_ok : list nat -> option bool.
Variable score : St -> list nat -> option (Q * St).
Variable score_explain : St -> list nat -> option (Q * St).

Lemma features_iloc_lookup ff available df_subset k x :
  features_iloc ff available = Some df_subset -> available !! k = Some x ->
  exists r, df_subset !! k = Some r /\ frows ff !! x = Some r.
Proof.
  unfold features_iloc. intros Hm Hk. apply mapM_Some_1 in Hm.
  destruct (Forall2_lookup_l _ _ _ _ _ Hm Hk) as (r & Hr & Hx).
  exists r. split; assumption.
Qed.

Lemma built_for_available_hard p ff key g x y :
  built_for_available legacy_group_size group_ok score p ff key g ->
  x ∈ g -> y ∈ g -> (x < y)%nat ->
  exists rx ry, frows ff !! x = Some rx /\ frows ff !! y = Some ry
                /\ hard_constraints_hold p ff rx ry.
Proof.
  intros (indices & available & df_subset & compat & st & st' & _ & _ & Hs & Hdf & Hmat
          & _ & Hb) Hx Hy Hxy.
  apply list_elem_of_lookup in Hx as [px Hpx]. apply list_elem_of_lookup in Hy as [py Hpy].
  destruct (engine_matrix_ok _ _ _ _ _ Hmat) as (Hsq & _ & Hsym). simpl in Hsq, Hsym.
  assert (Hpos : exists kx ky, available !! kx = Some x /\ available !! ky = Some y
                               /\ mget compat kx ky = Some true).
  { destruct (Nat.lt_trichotomy px py) as [Hlt|[->|Hgt]].
    - destruct (build_one_group_compatible _ _ _ _ _ _ _ _ _ Hb px py x y Hlt Hpx Hpy)
        as (kx & ky & lx & ly & Hkx & Hlx & Hky & Hly & Hm).
      apply lookup_seq in Hlx as [-> Hkxn]. apply lookup_seq in Hly as [-> Hkyn].
      simpl in Hm. exists kx, ky. split; [exact Hkx|]. split; [exact Hky|].
      rewrite (Hsym kx ky) by lia. exact Hm.
    - rewrite Hpx in Hpy. injection Hpy as ->. lia.
    - destruct (build_one_group_compatible _ _ _ _ _ _ _ _ _ Hb py px y x Hgt Hpy Hpx)
        as (ky & kx & ly & lx & Hky & Hly & Hkx & Hlx & Hm).
      apply lookup_seq in Hlx as [-> Hkxn]. apply lookup_seq in Hly as [-> Hkyn].
      simpl in Hm. exists kx, ky. split; [exact Hkx|]. split; [exact Hky|exact Hm]. }
  destruct Hpos as (kx & ky & Hkx & Hky & Hm).
  pose proof (StronglySorted_lookup_inv _ _ _ _ _ Hs Hkx Hky Hxy) as Hk.
  destruct (features_iloc_lookup _ _ _ _ _ Hdf Hkx) as (rx & Hrx & Hfx).
  destruct (features_iloc_lookup _ _ _ _ _ Hdf Hky) as (ry & Hry & Hfy).
  exists rx, ry. split; [exact Hfx|]. split; [exact Hfy|].
  eapply engine_matrix_entry; [exact Hmat|exact Hk| |exact Hrx|exact Hry|exact Hm].
  apply lookup_lt_Some in Hky. exact Hky.
Qed.

(** X7.  Within every group that the engine emits the hard constraints of the
    policy pass between any two members: the values match on every
    [categorical_equal] field and overlap on every [multi_overlap] field of the
    frame, two present values of a [numeric_tol] field are within its
    tolerance, and two present ages are compatible under the age rules. *)
Theorem engine_groups_satisfy_hard_constraints p ff st groups explanations :
  run legacy_group_size group_ok score score_explain p ff st = Some (groups, explanations) ->
  forall g x y, g ∈ groups -> x ∈ g -> y ∈ g -> (x < y)%nat ->
    exists rx ry, frows ff !! x = Some rx /\ frows ff !! y = Some ry
                  /\ hard_constraints_hold p ff rx ry.
Proof.
  intros Hrun g x y Hg Hx Hy Hxy.
  pose proof (run_provenance _ _ _ _ _ _ _ _ _ Hrun) as Hall.
  apply list_elem_of_lookup in Hg as [k Hk].
  destruct (Forall2_lookup_l _ _ _ _ _ Hall Hk) as (e & _ & _ & _ & Hbuilt & _).
  eapply built_for_available_hard; eassumption.
Qed.
End EngineGroups.


(** ** The statistics of a run of the engine *)

Section EngineConservation.
Context `{Runtime} {St : Type}.
Variable legacy_group_size : Z.
Variable group_ok : list nat -> option bool.
Variable score : St -> list nat -> option (Q * St).
Variable score_explain : St -> list nat -> option (Q * St).

(** no participant is lost: who is not in a group is still ungrouped *)
Definition conserved (n : nat) (es : @EngineState St) : Prop :=
  NoDup (concat (groups es))
  /\ (forall x, x ∈ concat (groups es) -> (x < n)%nat)
  /\ (forall x, x ∈ ungrouped es <-> (x < n)%nat /\ x ∉ concat (groups es))
  /\ length (explanations es) = length (groups es).

Lemma process_loop_conserved n fuel p ff key available compat_matrix es es' :
  conserved n es ->
  (forall x, x ∈ available -> x ∈ ungrouped es) ->
  process_loop legacy_group_size group_ok score score_explain fuel p ff key
    available compat_matrix es = Some es' ->
  conserved n es'.
Proof.
  revert available compat_matrix es.
  induction fuel as [|fuel IH]; intros available compat_matrix es Hinv Hav; simpl.
  - destruct (bool_decide _); [discriminate|intros [= <-]; exact Hinv].
  - destruct (bool_decide _); [|intros [= <-]; exact Hinv].
    unfold _build_group.
    destruct (build_one_group_optimized _ _ _ _ _ _ _) as [[group st1]|] eqn:Eb;
      [|discriminate].
    simpl.
    destruct (build_one_group_spec _ _ _ _ _ _ _ _ _ Eb)
      as [->|(seed & added & _ & Hg & Hnd & Hin & H4 & Hsz)].
    + rewrite bool_decide_eq_true_2 by reflexivity. intros [= <-]. exact Hinv.
    + rewrite bool_decide_eq_false_2 by (rewrite Hg; discriminate).
      destruct (_create_group_explanation score_explain st1 group key)
        as [[explanation st2]|]; [|discriminate].
      simpl.
      set (ungrouped' := ungrouped es ∖ list_to_set group).
      set (es1 := mkEngineState (groups es ++ [group]) ungrouped'
                    (explanations es ++ [explanation]) st2).
      destruct Hinv as (Hnodup & Hlt & Hun & Hlen).
      assert (Hinv1 : conserved n es1).
      { split; [|split; [|split]]; simpl.
        - rewrite concat_app. simpl. rewrite app_nil_r. apply NoDup_app.
          split; [exact Hnodup|]. split; [|exact Hnd].
          intros x Hc Hx. apply Hin, Hav, Hun in Hx as [_ Hx]. exact (Hx Hc).
        - intros x Hx. rewrite concat_app in Hx. simpl in Hx. rewrite app_nil_r in Hx.
          apply elem_of_app in Hx as [Hx|Hx]; [exact (Hlt x Hx)|].
          apply Hin, Hav, Hun in Hx as [Hx _]. exact Hx.
        - intros x. unfold ungrouped'. rewrite elem_of_difference, elem_of_list_to_set, Hun.
          rewrite concat_app. simpl. rewrite app_nil_r, elem_of_app. tauto.
        - rewrite !length_app, Hlen. reflexivity. }
      assert (Hav1 : forall x, x ∈ filter (fun i => i ∈ ungrouped') available ->
                               x ∈ ungrouped es1).
      { intros x Hx. apply list_elem_of_filter in Hx as [Hx _]. exact Hx. }
      destruct (bool_decide (filter (fun i => i ∈ ungrouped') available = [])).
      * intros Hloop. eapply IH; [exact Hinv1|exact Hav1|exact Hloop].
      * destruct (features_iloc ff _) as [df_subset|]; [|discriminate]. simpl.
        destruct (_build_compatibility_matrix p ff df_subset _) as [compat'|];
          [|discriminate].
        intros Hloop. eapply IH; [exact Hinv1|exact Hav1|exact Hloop].
Qed.

Lemma process_subspace_conserved n p ff es key indices es' :
  conserved n es ->
  _process_subspace legacy_group_size group_ok score score_explain p ff es key indices
    = Some es' ->
  conserved n es'.
Proof.
  intros Hinv. unfold _process_subspace.
  destruct (bool_decide _); [intros [= <-]; exact Hinv|].
  destruct (features_iloc ff _) as [df_subset|]; [|discriminate]. cbn -[process_loop].
  destruct (_build_compatibility_matrix p ff df_subset _) as [compat|]; [|discriminate].
  cbn -[process_loop].
  intros Hloop. eapply process_loop_conserved; [exact Hinv| |exact Hloop].
  intros x Hx. apply list_elem_of_filter in Hx as [Hx _]. exact Hx.
Qed.

Lemma run_engine_conserved p ff st es :
  run_engine legacy_group_size group_ok score score_explain p ff st = Some es ->
  conserved (length (frows ff)) es.
Proof.
  unfold run_engine. intros Ef.
  assert (Hinv : forall es', Some es = Some es' -> conserved (length (frows ff)) es').
  { rewrite <- Ef.
    apply (foldl_invariant
             (fun acc : option (@EngineState St) =>
                forall es', acc = Some es' -> conserved (length (frows ff)) es')).
    - intros es' [= <-]. split; [constructor|]. split; [intros x Hx; inversion Hx|].
      split; [|reflexivity]. intros x. simpl. rewrite elem_of_list_to_set, elem_of_seq.
      split; [intros Hx; split; [lia|intros Hc; inversion Hc]|intros [Hx _]; lia].
    - intros acc [key idxs] _ Hacc es'.
      destruct acc as [es0|]; [|discriminate]. simpl.
      apply process_subspace_conserved. apply Hacc. reflexivity. }
  exact (Hinv es eq_refl).
Qed.

Lemma length_concat_sum (ls : list (list nat)) :
  length (concat ls) = sum_list (length <$> ls).
Proof. induction ls as [|l ls IH]; simpl; [reflexivity|]. rewrite length_app, IH. reflexivity. Qed.

(** X9.  The statistics of a run add up: the engine's [run] returns the groups
    and explanations of the final state, one explanation per group; every
    participant is in exactly one group or still ungrouped, so
    [grouped_participants] is the sum of [group_sizes] and, with
    [ungrouped_participants], gives [total_participants]. *)
Theorem engine_statistics_add_up p ff st es :
  run_engine legacy_group_size group_ok score score_explain p ff st = Some es ->
  let stats := get_statistics ff es in
  run legacy_group_size group_ok score score_explain p ff st
    = Some (groups es, explanations es)
  /\ length (explanations es) = total_groups stats
  /\ grouped_participants stats = Z.of_nat (sum_list (group_sizes stats))
  /\ total_participants stats
     = (sum_list (group_sizes stats) + ungrouped_participants stats)%nat
  /\ (forall x, (x < total_participants stats)%nat ->
        (x ∈ ungrouped es /\ x ∉ concat (groups es))
        \/ ((x ∉ ungrouped es)
            /\ (exists g, g ∈ groups es /\ x ∈ g
                  /\ forall g', g' ∈ groups es -> x ∈ g' -> g' = g))).
Proof.
  intros Hrun stats.
  destruct (run_engine_conserved _ _ _ _ Hrun) as (Hnodup & Hlt & Hun & Hlen).
  assert (Hsize : (size (ungrouped es) + length (concat (groups es)) = length (frows ff))%nat).
  { assert (E : ungrouped es
                = list_to_set (seq 0 (length (frows ff))) ∖ list_to_set (concat (groups es))).
    { apply set_eq. intros x.
      rewrite Hun, elem_of_difference, !elem_of_list_to_set, elem_of_seq.
      split; [intros [Hx Hn]; split; [lia|exact Hn]|intros [Hx Hn]; split; [lia|exact Hn]]. }
    rewrite E, size_difference.
    - rewrite !size_list_to_set by (try apply NoDup_seq; assumption).
      rewrite length_seq.
      assert (length (concat (groups es)) <= length (seq 0 (length (frows ff))))%nat
        as Hle; [|rewrite length_seq in Hle; lia].
      apply submseteq_length, NoDup_submseteq; [exact Hnodup|].
      intros x Hx. apply elem_of_seq. specialize (Hlt x Hx). lia.
    - intros x. rewrite !elem_of_list_to_set, elem_of_seq. intros Hx.
      specialize (Hlt x Hx). lia. }
  rewrite length_concat_sum in Hsize.
  split; [|split; [|split; [|split]]].
  - unfold run. unfold run_engine in Hrun. rewrite Hrun. reflexivity.
  - exact Hlen.
  - simpl. lia.
  - simpl. lia.
  - simpl. intros x Hx.
    destruct (decide (x ∈ concat (groups es))) as [Hin|Hnot].
    + right. split; [intros Hu; apply Hun in Hu as [_ Hu]; exact (Hu Hin)|].
      apply elem_of_concat in Hin as (g & Hxg & Hg). exists g.
      split; [exact Hg|]. split; [exact Hxg|].
      intros g' Hg' Hxg'.
      apply list_elem_of_lookup in Hg as [i Hi]. apply list_elem_of_lookup in Hg' as [j Hj].
      destruct (decide (i = j)) as [->|Hne]; [congruence|].
      exfalso. exact (disjoint_groups_lookup _ _ _ _ _ _ Hnodup Hi Hj Hne Hxg Hxg').
    + left. split; [apply Hun; split; assumption|exact Hnot].
Qed.
End EngineConservation.


(** ** Group constraints *)

Lemma foldl_py_max_ge (l : list Q) (x a : Q) :
  a <= x \/ (exists b, b ∈ l /\ a <= b) -> a <= foldl py_max x l.
Proof.
  revert x. induction l as [|y l IH]; intros x; simpl.
  - intros [Ha|(b & Hb & _)]; [exact Ha|inversion Hb].
  - intros [Ha|(b & Hb & Hab)].
    + apply IH. left. apply py_max_le. left. exact Ha.
    + apply elem_of_cons in Hb as [->|Hb].
      * apply IH. left. apply py_max_le. right. exact Hab.
      * apply IH. right. exists b. split; assumption.
Qed.

Lemma py_min_ge x y d : py_min x y <= d <-> x <= d \/ y <= d.
Proof.
  unfold py_min. destruct (Qle_bool x y) eqn:E; simpl.
  - apply Qle_bool_iff in E. split; [intros Hd; left; exact Hd|].
    intros [Hd|Hd]; [exact Hd|]. eapply Qle_trans; eassumption.
  - assert (Hyx : y <= x).
    { destruct (Qlt_le_dec y x) as [Hlt|Hle]; [apply Qlt_le_weak; exact Hlt|].
      apply Qle_bool_iff in Hle. congruence. }
    split; [intros Hd; right; exact Hd|].
    intros [Hd|Hd]; [|exact Hd]. eapply Qle_trans; eassumption.
Qed.

Lemma foldl_py_min_le (l : list Q) (x a : Q) :
  x <= a \/ (exists b, b ∈ l /\ b <= a) -> foldl py_min x l <= a.
Proof.
  revert x. induction l as [|y l IH]; intros x; simpl.
  - intros [Ha|(b & Hb & _)]; [exact Ha|inversion Hb].
  - intros [Ha|(b & Hb & Hab)].
    + apply IH. left. apply py_min_ge. left. exact Ha.
    + apply elem_of_cons in Hb as [->|Hb].
      * apply IH. left. apply py_min_ge. right. exact Hab.
      * apply IH. right. exists b. split; assumption.
Qed.

Lemma Qmaximum_ge (l : list Q) a : a ∈ l -> a <= Qmaximum l.
Proof.
  destruct l as [|x l]; [intros Ha; inversion Ha|]. intros Ha. simpl.
  apply foldl_py_max_ge. apply elem_of_cons in Ha as [->|Ha]; [left; apply Qle_refl|].
  right. exists a. split; [exact Ha|apply Qle_refl].
Qed.

Lemma Qminimum_le (l : list Q) a : a ∈ l -> Qminimum l <= a.
Proof.
  destruct l as [|x l]; [intros Ha; inversion Ha|]. intros Ha. simpl.
  apply foldl_py_min_le. apply elem_of_cons in Ha as [->|Ha]; [left; apply Qle_refl|].
  right. exists a. split; [exact Ha|apply Qle_refl].
Qed.

Lemma no_missing_age (ages : list (option Q)) :
  existsb (fun a : option Q => bool_decide (a = None)) ages = false ->
  ages = Some <$> omap id ages.
Proof.
  induction ages as [|[a|] ages IH]; simpl; [reflexivity| |discriminate].
  intros Hex. f_equal. apply IH. exact Hex.
Qed.

Lemma one_value_remove_dups {A : Type} `{EqDecision A} (l : list A) (x y : A) :
  ~ (1 < length (remove_dups l))%nat -> x ∈ l -> y ∈ l -> x = y.
Proof.
  intros Hlen Hx Hy. apply elem_of_remove_dups in Hx, Hy.
  destruct (remove_dups l) as [|i0 [|i1 rest]]; [inversion Hx| |simpl in Hlen; lia].
  apply list_elem_of_singleton in Hx, Hy. congruence.
Qed.

Section GroupConstraints.
Context `{Runtime}.

(** X5.  What a non-empty group that passes [pass_group_constraints] is like, under
    age rules on a column of the frame: no member's age is missing; any two ages
    differ by at most [group_constraints.max_age_difference]; the standard
    deviation of the ages is at most [group_constraints.max_age_std]; and when
    bands are given and crossing them is not allowed, the first band that
    contains the age is the same for every member. *)
Theorem pass_group_constraints_accepted cfg df df_group r :
  AGE_RULES cfg = Some r -> has_column df (field r) = true -> df_group <> [] ->
  pass_group_constraints cfg df df_group = true ->
  exists ages,
    to_numeric <$> column_values df_group (field r) = Some <$> ages
    /\ (forall d a b, gc_max_age_difference r = Some d -> a ∈ ages -> b ∈ ages -> a - b <= d)
    /\ (forall s, gc_max_age_std r = Some s -> sqrtQ (pvariance ages) <= s)
    /\ (bands r <> [] -> allow_cross_band r = false ->
        forall a b, a ∈ ages -> b ∈ ages -> band_id (bands r) a = band_id (bands r) b).
Proof.
  intros Hr Hc _. unfold pass_group_constraints. rewrite Hr, Hc.
  set (raw := to_numeric <$> column_values df_group (field r)).
  destruct (existsb _ raw) eqn:Ex; [discriminate|].
  set (ages := omap id raw).
  intros Hpass. exists ages. split; [apply no_missing_age; exact Ex|].
  assert (Hdiff : forall d, gc_max_age_difference r = Some d ->
                            Qmaximum ages - Qminimum ages <= d).
  { intros d Ed. rewrite Ed in Hpass.
    destruct (Qle_bool (Qmaximum ages - Qminimum ages) d) eqn:E; [|discriminate].
    apply Qle_bool_iff. exact E. }
  assert (Hrest : (if match gc_max_age_std r with
                      | Some max_age_std => negb (Qle_bool (sqrtQ (pvariance ages)) max_age_std)
                      | None => false
                      end then false
                   else if negb (bool_decide (bands r = [])) then
                     if negb (allow_cross_band r)
                        && bool_decide (1 < length (remove_dups (band_id (bands r) <$> ages)))%nat
                     then false else true
                   else true) = true).
  { destruct (match gc_max_age_difference r with
              | Some d => negb (Qle_bool (Qmaximum ages - Qminimum ages) d)
              | None => false
              end); [discriminate|exact Hpass]. }
  clear Hpass. split; [|split].
  - intros d a b Ed Ha Hb. specialize (Hdiff d Ed).
    pose proof (Qmaximum_ge _ _ Ha). pose proof (Qminimum_le _ _ Hb). lra.
  - intros s Es. rewrite Es in Hrest.
    destruct (Qle_bool (sqrtQ (pvariance ages)) s) eqn:E; [|discriminate].
    apply Qle_bool_iff. exact E.
  - intros Hbands Hcross a b Ha Hb.
    destruct (match gc_max_age_std r with
              | Some max_age_std => negb (Qle_bool (sqrtQ (pvariance ages)) max_age_std)
              | None => false
              end); [discriminate|].
    rewrite (bool_decide_eq_false_2 _ Hbands), Hcross in Hrest. simpl in Hrest.
    destruct (bool_decide (1 < length (remove_dups (band_id (bands r) <$> ages)))%nat)
      eqn:El; [discriminate|].
    apply bool_decide_eq_false in El.
    apply (one_value_remove_dups _ _ _ El); apply list_elem_of_fmap;
      [exists a|exists b]; (split; [reflexivity|assumption]).
Qed.
End GroupConstraints.


(** ** What every emitted group went through *)

Section EmittedGroups.
Context `{Runtime}.

(** X6.  The members of a group that [make_groups] emits are rows of one
    subspace: they have the same stripped value on every hard categorical
    column.  The subspaces are keyed by the answers as they are written, so a
    member with a flexible answer and a member with a concrete answer on such a
    column are never in one group. *)
Theorem make_groups_members_share_subspace cfg rules df caches0 groups :
  make_groups cfg rules df caches0 = Some groups ->
  forall g x y, g ∈ groups -> x ∈ g -> y ∈ g ->
    exists rx ry,
      rows df !! x = Some rx /\ rows df !! y = Some ry
      /\ subspace_key cfg rx = subspace_key cfg ry
      /\ forall col, col ∈ CUT_CATEGORICAL cfg ->
           strip (str_of_cell (row_get rx col (Str "")))
           = strip (str_of_cell (row_get ry col (Str ""))).
Proof.
  intros Hrun g x y Hg Hx Hy.
  pose proof (make_groups_provenance _ _ _ _ _ Hrun) as Hall.
  rewrite Forall_forall in Hall. specialize (Hall g Hg).
  destruct Hall as (key & idxs & candidates & compat & local & st & st' & Hkey & Hsub & Hne & Hb).
  destruct (build_one_group_spec _ _ _ _ _ _ _ _ _ Hb)
    as [->|(seed & added & _ & _ & _ & Hin & _)]; [contradiction|].
  destruct (buckets_partition (subspace_key cfg) (rows df)) as (_ & _ & Hrows).
  destruct (Hrows key idxs Hkey) as [_ Hrow].
  destruct (Hrow x (Hsub x (Hin x Hx))) as (rx & Hrx & Hkx).
  destruct (Hrow y (Hsub y (Hin y Hy))) as (ry & Hry & Hky).
  exists rx, ry. split; [exact Hrx|]. split; [exact Hry|].
  assert (E : subspace_key cfg rx = subspace_key cfg ry) by congruence.
  split; [exact E|].
  intros col Hcol. unfold subspace_key in E.
  apply list_elem_of_lookup in Hcol as [k Hk].
  assert (E' : ((fun col => (col, strip (str_of_cell (row_get rx col (Str "")))))
                  <$> CUT_CATEGORICAL cfg) !! k
               = ((fun col => (col, strip (str_of_cell (row_get ry col (Str "")))))
                  <$> CUT_CATEGORICAL cfg) !! k) by (rewrite E; reflexivity).
  rewrite !list_lookup_fmap, Hk in E'. simpl in E'. congruence.
Qed.

(** X4.  Every group that is emitted passed the group constraints as a whole:
    the builder returns a group only after [pass_group_constraints] accepted it
    with its last member, so the groups of [make_groups] pass it on the frame,
    and the groups of the engine pass the check of the legacy module. *)
Theorem emitted_groups_pass_group_constraints :
  (forall (St : Type) group_size group_ok (score : St -> list nat -> option (Q * St))
          st st' candidates compat_matrix local_indices g,
     build_one_group_optimized group_size group_ok score st candidates compat_matrix
       local_indices = Some (g, st') ->
     g <> [] -> group_ok g = Some true)
  /\ (forall cfg rules df caches0 groups,
        make_groups cfg rules df caches0 = Some groups ->
        forall g, g ∈ groups ->
          exists df_group, iloc df g = Some df_group
                           /\ pass_group_constraints cfg df df_group = true)
  /\ (forall (St : Type) legacy_group_size group_ok
             (score score_explain : St -> list nat -> option (Q * St))
             p ff st groups explanations,
        run legacy_group_size group_ok score score_explain p ff st
          = Some (groups, explanations) ->
        forall g, g ∈ groups -> group_ok g = Some true).
Proof.
  split; [|split].
  - intros St group_size group_ok score st st' candidates compat local g.
    apply build_one_group_group_ok.
  - intros cfg rules df caches0 groups Hrun g Hg.
    pose proof (make_groups_provenance _ _ _ _ _ Hrun) as Hall.
    rewrite Forall_forall in Hall.
    destruct (Hall g Hg)
      as (key & idxs & candidates & compat & local & st & st' & _ & _ & Hne & Hb).
    pose proof (build_one_group_group_ok _ _ _ _ _ _ _ _ _ Hb Hne) as Hok.
    unfold group_ok_on in Hok.
    destruct (iloc df g) as [df_group|]; [|discriminate]. simpl in Hok.
    exists df_group. split; [reflexivity|]. congruence.
  - intros St legacy_group_size group_ok score score_explain p ff st groups explanations
      Hrun g Hg.
    pose proof (run_provenance _ _ _ _ _ _ _ _ _ Hrun) as Hall.
    apply list_elem_of_lookup in Hg as [k Hk].
    destruct (Forall2_lookup_l _ _ _ _ _ Hall Hk) as (e & _ & _ & _ & Hbuilt & _).
    destruct Hbuilt as (indices & available & df_subset & compat & st0 & st1 & _ & _ & _
                        & _ & _ & Hne & Hb).
    exact (build_one_group_group_ok _ _ _ _ _ _ _ _ _ Hb Hne).
Qed.
End EmittedGroups.


(** ** The scorer: its cache and its [explain] record *)

Lemma cache_key_permutation (l1 l2 : list nat) : l1 ≡ₚ l2 -> cache_key l1 = cache_key l2.
Proof.
  intros E. unfold cache_key.
  apply (Sorted_unique Nat.le).
  - apply Sorted_merge_sort. intros x y. unfold Nat.le. lia.
  - apply Sorted_merge_sort. intros x y. unfold Nat.le. lia.
  - rewrite !merge_sort_Permutation. exact E.
Qed.

Section ScoreCache.
Context `{Runtime}.

(** X10.  A score, once computed without [explain], is served from the cache for
    any later frame whose index holds the same participants, in any order and
    whatever its rows: the second call returns the first score and leaves the
    caches as they are. *)
Theorem group_score_served_from_cache cfg rules df caches0 indices df_group s caches1
    indices' df_group' :
  df_group <> [] -> columns df <> [] ->
  group_score cfg rules df caches0 indices df_group false = Some (s, caches1) ->
  indices' ≡ₚ indices -> df_group' <> [] ->
  score_cache caches1 !! cache_key indices = Some s
  /\ group_score cfg rules df caches1 indices' df_group' false = Some (s, caches1).
Proof.
  intros Hg Hc Hfirst Hperm Hg'.
  assert (Hstored : score_cache caches1 !! cache_key indices = Some s).
  { revert Hfirst. unfold group_score.
    rewrite (bool_decide_eq_false_2 _ Hg), (bool_decide_eq_false_2 _ Hc). simpl.
    destruct (score_cache caches0 !! cache_key indices) as [cached|] eqn:Ehit.
    - intros [= <- <-]. exact Ehit.
    - destruct (similarity_term cfg df caches0 df_group indices) as [sim caches'].
      destruct (categorical_term cfg df df_group false) as [C|]; [|discriminate].
      simpl. intros [= <- <-]. simpl. apply lookup_insert_eq. }
  split; [exact Hstored|].
  unfold group_score.
  rewrite (bool_decide_eq_false_2 _ Hg'), (bool_decide_eq_false_2 _ Hc). simpl.
  rewrite (cache_key_permutation _ _ Hperm), Hstored. reflexivity.
Qed.

Lemma foldl_bind_none {A B : Type} (f : A -> B -> option A) (l : list B) :
  foldl (fun st item => st ≫= fun st => f st item) None l = None.
Proof. induction l as [|x l IH]; simpl; [reflexivity|exact IH]. Qed.

(** X11.  With [explain] the scorer builds, for every soft categorical column of
    the frame, a record that reads the locals [value_counts] and
    [balance_score].  They are bound only in the [balance] branch, so the call
    raises when the first such column is not scored by ["balance"], or is but
    holds a single value: [group_score(df_group, explain=True)] has no result. *)
Theorem group_score_explain_unbound_local cfg rules df caches indices df_group
    skipped col scoring_type rest :
  df_group <> [] -> columns df <> [] ->
  SOFT_CATEGORICAL cfg = skipped ++ (col, scoring_type) :: rest ->
  Forall (fun item => has_column df item.1 = false) skipped ->
  has_column df col = true ->
  scoring_type <> "balance"
  \/ (length (remove_dups ((fun c => strip (str_of_cell c)) <$> column_values df_group col))
      <= 1)%nat ->
  group_score cfg rules df caches indices df_group true = None.
Proof.
  intros Hg Hc Hsoft Hskip Hcol Hty. unfold group_score.
  rewrite (bool_decide_eq_false_2 _ Hg), (bool_decide_eq_false_2 _ Hc). simpl.
  assert (Hhit : match score_cache caches !! cache_key indices with
                 | Some cached => None
                 | None => None
                 end = (None : option Q))
    by (destruct (score_cache caches !! cache_key indices); reflexivity).
  rewrite Hhit.
  destruct (similarity_term cfg df caches df_group indices) as [sim caches'].
  assert (Hterm : categorical_term cfg df df_group true = None).
  { unfold categorical_term. rewrite Hsoft, foldl_app.
    assert (Hs : foldl (fun st item => st ≫= fun st => categorical_round df df_group true st item)
                   (Some (mkCatLocals 0 false false false)) skipped
                 = Some (mkCatLocals 0 false false false)).
    { clear Hsoft. induction Hskip as [|[c t] skipped Hc' Hskip IH]; [reflexivity|].
      simpl in Hc'. simpl. rewrite Hc'. exact IH. }
    rewrite Hs. simpl. rewrite Hcol.
    destruct (String.eqb scoring_type "diversity") eqn:Ed.
    - simpl. rewrite foldl_bind_none. reflexivity.
    - destruct (String.eqb scoring_type "balance") eqn:Eb.
      + apply String.eqb_eq in Eb. destruct Hty as [Hty|Hone]; [contradiction|].
        rewrite bool_decide_eq_false_2 by lia. simpl.
        rewrite foldl_bind_none. reflexivity.
      + simpl. rewrite foldl_bind_none. reflexivity. }
  rewrite Hterm. reflexivity.
Qed.
End ScoreCache.


(** ** The categorical cut, decided *)

Section CategoricalCut.
Context `{Runtime}.

Lemma build_normalization_rules_none cfg df rules0 col :
  ~ (unique_values df col ∩ FLEXIBLE_ANSWERS cfg ≠ ∅
     /\ unique_values df col ∖ (unique_values df col ∩ FLEXIBLE_ANSWERS cfg) ≠ ∅) ->
  rules0 !! col = None ->
  build_normalization_rules cfg df rules0 !! col = None.
Proof.
  intros Hn H0. unfold build_normalization_rules.
  apply (foldl_invariant (fun rules : NormRules => rules !! col = None)); [exact H0|].
  intros rules c _ Hr. destruct (decide (c = col)) as [->|Hne].
  - unfold build_rules_column. destruct (bool_decide (col ∈ skipped_columns)); [exact Hr|].
    fold (unique_values df col).
    destruct (bool_decide (unique_values df col ∩ FLEXIBLE_ANSWERS cfg ≠ ∅)) eqn:E1;
      [|exact Hr].
    destruct (bool_decide (unique_values df col
                           ∖ (unique_values df col ∩ FLEXIBLE_ANSWERS cfg) ≠ ∅)) eqn:E2;
      [|exact Hr].
    apply bool_decide_eq_true in E1, E2. exfalso. apply Hn. split; assumption.
  - rewrite build_rules_column_other by exact Hne. exact Hr.
Qed.

Lemma isdisjoint_singletons (x y : string) :
  isdisjoint {[x]} {[y]} = false <-> x = y.
Proof.
  unfold isdisjoint. rewrite bool_decide_eq_false. split.
  - intros Hne. destruct (decide (x = y)) as [E|E]; [exact E|].
    exfalso. apply Hne. apply set_eq. intros z.
    rewrite elem_of_intersection, !elem_of_singleton. split; [|intros Hz; inversion Hz].
    intros [-> Hz]. congruence.
  - intros -> E. apply (not_elem_of_empty (C := gset string) y). rewrite <- E.
    apply elem_of_intersection. split; apply elem_of_singleton; reflexivity.
Qed.

Lemma isdisjoint_false_elem (X Y : gset string) :
  isdisjoint X Y = false <-> exists z, z ∈ X /\ z ∈ Y.
Proof.
  unfold isdisjoint. rewrite bool_decide_eq_false. split.
  - intros Hne. destruct (set_choose_or_empty (X ∩ Y)) as [[z Hz]|E];
      [|exfalso; apply Hne, leibniz_equiv; exact E].
    apply elem_of_intersection in Hz. exists z. exact Hz.
  - intros (z & Hx & Hy) E. apply (not_elem_of_empty (C := gset string) z). rewrite <- E.
    apply elem_of_intersection. split; assumption.
Qed.

(** X12.  The categorical cut on one column, once [build_normalization_rules] has
    read the frame, the global rules holding nothing for the column from an
    earlier call: two answers of the column, stored without leading or
    trailing white space, pass iff they are equal, or one of them is a
    flexible answer and the column holds some concrete answer.  So two
    different concrete answers never pass, and in a column with nothing but
    flexible answers two different flexible answers do not pass either. *)
Theorem categorical_cut_decided cfg df rules0 col a b w v :
  rules0 !! col = None ->
  col ∈ columns df -> col ∉ skipped_columns ->
  a ∈ rows df -> b ∈ rows df ->
  a !! col = Some (Str w) -> b !! col = Some (Str v) ->
  strip w = w -> strip v = v ->
  categorical_passed (build_normalization_rules cfg df rules0) a b col = true
  <-> (w = v
       \/ ((w ∈ FLEXIBLE_ANSWERS cfg \/ v ∈ FLEXIBLE_ANSWERS cfg)
           /\ exists c, c ∈ unique_values df col /\ c ∉ FLEXIBLE_ANSWERS cfg)).
Proof.
  intros H0 Hcol Hskip Ha Hb Haw Hbv Hsw Hsv.
  pose proof (unique_values_elem _ _ _ _ Ha Haw) as Huw.
  pose proof (unique_values_elem _ _ _ _ Hb Hbv) as Huv.
  set (U := unique_values df col) in *. set (F := FLEXIBLE_ANSWERS cfg) in *.
  unfold categorical_passed, row_get. rewrite Haw, Hbv. simpl. rewrite Hsw, Hsv.
  rewrite negb_true_iff.
  destruct (decide (U ∩ F ≠ ∅ /\ U ∖ (U ∩ F) ≠ ∅)) as [[Hflex Hconc]|Hnot].
  - assert (Hrules : build_normalization_rules cfg df rules0 !! col
                     = Some (rules_of_column cfg df col))
      by (apply build_normalization_rules_lookup; assumption).
    assert (Hnorm : forall x, x ∈ U ->
              normalize_answer (build_normalization_rules cfg df rules0) x col
              = if decide (x ∈ F) then U ∖ (U ∩ F) else {[x]}).
    { intros x Hx. unfold normalize_answer. rewrite Hrules. unfold rules_of_column.
      fold U F. rewrite lookup_gset_to_gmap.
      destruct (decide (x ∈ F)) as [Hf|Hf].
      - rewrite option_guard_True by (apply elem_of_intersection; split; assumption).
        reflexivity.
      - rewrite option_guard_False; [reflexivity|].
        intros Hin. apply elem_of_intersection in Hin as [_ Hin]. contradiction. }
    rewrite (Hnorm w Huw), (Hnorm v Huv).
    destruct (set_choose_or_empty (U ∖ (U ∩ F))) as [[c Hc]|E];
      [|exfalso; apply Hconc, leibniz_equiv; exact E].
    assert (Hc' : c ∈ U /\ c ∉ F).
    { apply elem_of_difference in Hc as [Hc Hn]. split; [exact Hc|].
      intros Hf. apply Hn. apply elem_of_intersection. split; assumption. }
    assert (Hin : forall x, x ∈ U -> x ∉ F -> x ∈ U ∖ (U ∩ F)).
    { intros x Hx Hf. apply elem_of_difference. split; [exact Hx|].
      intros Hi. apply elem_of_intersection in Hi as [_ Hi]. contradiction. }
    destruct (decide (w ∈ F)) as [Hw|Hw], (decide (v ∈ F)) as [Hv|Hv].
    + rewrite isdisjoint_false_elem. split.
      * intros _. right. split; [left; exact Hw|exists c; exact Hc'].
      * intros _. exists c. split; exact Hc.
    + rewrite isdisjoint_false_elem. split.
      * intros _. right. split; [left; exact Hw|exists c; exact Hc'].
      * intros _. exists v. split; [apply Hin; assumption|apply elem_of_singleton; reflexivity].
    + rewrite isdisjoint_false_elem. split.
      * intros _. right. split; [right; exact Hv|exists c; exact Hc'].
      * intros _. exists w. split; [apply elem_of_singleton; reflexivity|apply Hin; assumption].
    + rewrite isdisjoint_singletons. split; [intros E; left; exact E|].
      intros [E|[[Hf|Hf] _]]; [exact E|contradiction|contradiction].
  - unfold normalize_answer. rewrite (build_normalization_rules_none _ _ _ _ Hnot H0).
    rewrite isdisjoint_singletons. split; [intros E; left; exact E|].
    intros [E|[Hf (c & Hc & Hcf)]]; [exact E|].
    exfalso. apply Hnot. split.
    + intros E. destruct Hf as [Hf|Hf];
        [apply (not_elem_of_empty (C := gset string) w)
        |apply (not_elem_of_empty (C := gset string) v)];
        rewrite <- E; apply elem_of_intersection; split; assumption.
    + intros E. apply (not_elem_of_empty (C := gset string) c). rewrite <- E.
      apply elem_of_difference. split; [exact Hc|].
      intros Hi. apply elem_of_intersection in Hi as [_ Hi]. contradiction.
Qed.
End CategoricalCut.

(** ** What a caller gets from the builder, the partitions and the explanations *)

Section BuilderContract.
Context `{Runtime} {St : Type}.
Variable group_size : Z.
Variable group_ok : list nat -> option bool.
Variable score : St -> list nat -> option (Q * St).

(** X3.  In a group that [build_one_group_optimized] returns, every member
    is compatible, in the matrix that was passed in, with every member that
    was added before it: the entry at the local indices of the two is true. *)
Theorem built_group_pairwise_compatible st st' candidates compat_matrix local_indices g :
  build_one_group_optimized group_size group_ok score st candidates compat_matrix
    local_indices = Some (g, st') ->
  forall p q x y, (p < q)%nat -> g !! p = Some x -> g !! q = Some y ->
    exists kx ky lx ly,
      candidates !! kx = Some x /\ local_indices !! kx = Some lx
      /\ candidates !! ky = Some y /\ local_indices !! ky = Some ly
      /\ mget compat_matrix ly lx = Some true.
Proof. apply build_one_group_compatible. Qed.
End BuilderContract.

Section Partitions.
Context `{Runtime}.

(** X2.  [partition_into_subspaces] and the engine's
    [_partition_by_subspaces] partition the rows: the keys of the result are
    distinct, every row index is in exactly one list, no list is empty, every
    list is in ascending order, and a row is in the list of its own key. *)
Theorem subspaces_partition_the_rows :
  (forall cfg df,
     let parts := partition_into_subspaces cfg df in
     NoDup (parts.*1)
     /\ concat (parts.*2) ≡ₚ seq 0 (length (rows df))
     /\ forall key idxs, (key, idxs) ∈ parts ->
          idxs <> [] /\ StronglySorted lt idxs
          /\ forall i, i ∈ idxs ->
               exists r, rows df !! i = Some r /\ subspace_key cfg r = key)
  /\ (forall p ff,
        let parts := _partition_by_subspaces p ff in
        NoDup (parts.*1)
        /\ concat (parts.*2) ≡ₚ seq 0 (length (frows ff))
        /\ forall key idxs, (key, idxs) ∈ parts ->
             idxs <> [] /\ StronglySorted lt idxs
             /\ forall i, i ∈ idxs ->
                  exists r, frows ff !! i = Some r /\ composite_key p r = key).
Proof.
  split.
  - intros cfg df parts.
    destruct (buckets_partition (subspace_key cfg) (rows df)) as (Hnd & Hperm & Hrows).
    split; [exact Hnd|]. split; [exact Hperm|].
    intros key idxs Hin. destruct (Hrows key idxs Hin) as [Hne Hall].
    split; [exact Hne|]. split; [|exact Hall].
    exact (proj1 (buckets_sorted (subspace_key cfg) (rows df) key idxs Hin)).
  - intros p ff parts.
    destruct (buckets_partition (composite_key p) (frows ff)) as (Hnd & Hperm & Hrows).
    split; [exact Hnd|]. split; [exact Hperm|].
    intros key idxs Hin. destruct (Hrows key idxs Hin) as [Hne Hall].
    split; [exact Hne|]. split; [|exact Hall].
    exact (proj1 (buckets_sorted (composite_key p) (frows ff) key idxs Hin)).
Qed.
End Partitions.

Section Explanations.
Context `{Runtime} {St : Type}.
Variable legacy_group_size : Z.
Variable group_ok : list nat -> option bool.
Variable score : St -> list nat -> option (Q * St).
Variable score_explain : St -> list nat -> option (Q * St).

(** X8.  The explanations of a run go with its groups, position by
    position (the router zips the two lists): there is one explanation per
    group, it lists the members of its group and their number, its subspace is
    the key of a partition that holds every member, and its score is the one
    that [group_score(..., explain=True)] gave for the group. *)
Theorem explanations_describe_groups p ff st groups explanations :
  run legacy_group_size group_ok score score_explain p ff st = Some (groups, explanations) ->
  length explanations = length groups
  /\ forall k g e, groups !! k = Some g -> explanations !! k = Some e ->
       e_members e = g /\ e_group_size e = length g
       /\ (exists indices,
             (e_subspace e, indices)
               ∈ (if negb (bool_decide (subspaces p = [])) then _partition_by_subspaces p ff
                  else [("global", seq 0 (length (frows ff)))])
             /\ forall x, x ∈ g -> x ∈ indices)
       /\ exists st0 st1, score_explain st0 g = Some (e_group_score e, st1).
Proof.
  intros Hrun.
  pose proof (run_provenance _ _ _ _ _ _ _ _ _ Hrun) as Hall.
  split; [symmetry; exact (Forall2_length _ _ _ Hall)|].
  intros k g e Hg He.
  destruct (Forall2_lookup_lr _ _ _ _ _ _ Hall Hg He) as (Hm & Hs & Hbuilt & Hscore).
  split; [exact Hm|]. split; [exact Hs|]. split; [|exact Hscore].
  destruct Hbuilt as (indices & available & df_subset & compat & st0 & st1
                      & Hkey & Hav & _ & _ & _ & Hne & Hb).
  exists indices. split; [exact Hkey|].
  intros x Hx. apply Hav.
  destruct (build_one_group_spec _ _ _ _ _ _ _ _ _ Hb)
    as [->|(seed & added & _ & _ & _ & Hin & _)]; [contradiction|].
  apply Hin. exact Hx.
Qed.
End Explanations.


(** ** The ranges of the terms of the score *)

Lemma Qsum_nonneg (l : list Q) : Forall (fun x => 0 <= x) l -> 0 <= Qsum l.
Proof.
  induction 1 as [|x l Hx Hl IH]; simpl; [apply Qle_refl|].
  change 0 with (0 + 0). apply Qplus_le_compat; assumption.
Qed.

Lemma Qsum_le_length (l : list Q) :
  Forall (fun x => x <= 1) l -> Qsum l <= inject_Z (Z.of_nat (length l)).
Proof.
  induction 1 as [|x l Hx Hl IH]; simpl length; [apply Qle_refl|].
  rewrite Nat2Z.inj_succ, <- Z.add_1_l, inject_Z_plus. simpl Qsum.
  apply Qplus_le_compat; assumption.
Qed.

Lemma Qdiv_nonneg (a b : Q) : 0 <= a -> 0 <= b -> 0 <= a / b.
Proof.
  intros Ha Hb. unfold Qdiv. apply Qmult_le_0_compat; [exact Ha|].
  apply Qinv_le_0_compat. exact Hb.
Qed.

Lemma inject_nat_nonneg (n : nat) : 0 <= inject_Z (Z.of_nat n).
Proof. change 0 with (inject_Z 0). rewrite <- Zle_Qle. lia. Qed.

Lemma Qdiv_le_one (a b : Q) : 0 <= a -> a <= b -> a / b <= 1.
Proof.
  intros Ha Hab. destruct (Qlt_le_dec 0 b) as [Hb|Hb].
  - apply Qle_shift_div_r; [exact Hb|]. rewrite Qmult_1_l. exact Hab.
  - assert (Hb0 : b == 0) by (apply Qle_antisym; [exact Hb|eapply Qle_trans; eassumption]).
    unfold Qdiv. rewrite Hb0. unfold Qinv. simpl. rewrite Qmult_0_r. discriminate.
Qed.

Lemma Qmean_nonneg (l : list Q) : Forall (fun x => 0 <= x) l -> 0 <= Qmean l.
Proof.
  intros Hl. unfold Qmean. apply Qdiv_nonneg; [apply Qsum_nonneg; exact Hl|].
  apply inject_nat_nonneg.
Qed.

Lemma Qmean_le_one (l : list Q) :
  Forall (fun x => 0 <= x) l -> Forall (fun x => x <= 1) l -> Qmean l <= 1.
Proof.
  intros H0 H1. unfold Qmean. apply Qdiv_le_one;
    [apply Qsum_nonneg; exact H0|apply Qsum_le_length; exact H1].
Qed.

Lemma py_min_nonneg x y : 0 <= x -> 0 <= y -> 0 <= py_min x y.
Proof. intros Hx Hy. apply py_min_le. split; assumption. Qed.

Lemma Qsquare_nonneg (x : Q) : 0 <= x * x.
Proof. nra. Qed.

Lemma sample_variance_nonneg (vals : list Q) :
  (1 < length vals)%nat -> 0 <= sample_variance vals.
Proof.
  intros Hlen. unfold sample_variance. apply Qdiv_nonneg.
  - apply Qsum_nonneg. apply Forall_fmap, Forall_forall. intros x _. simpl.
    apply Qsquare_nonneg.
  - change 0 with (inject_Z 0). rewrite <- Zle_Qle. lia.
Qed.

Lemma remove_dups_length_le {A : Type} `{EqDecision A} (l : list A) :
  (length (remove_dups l) <= length l)%nat.
Proof.
  induction l as [|x l IH]; simpl; [lia|].
  destruct (decide_rel elem_of x l); simpl; lia.
Qed.


Section ScoreRanges.
Context `{Runtime}.
Hypothesis sqrt_nonneg : forall q, 0 <= sqrtQ q.

Lemma div_vars_nonneg cfg df df_group : Forall (fun x => 0 <= x) (div_vars cfg df df_group).
Proof.
  unfold div_vars. apply (foldl_invariant (Forall (fun x => 0 <= x))); [constructor|].
  intros acc col _ Hacc. destruct (has_column df col); [|exact Hacc].
  destruct (bool_decide _) eqn:E; [|exact Hacc].
  apply bool_decide_eq_true in E. apply Forall_app. split; [exact Hacc|].
  constructor; [apply sample_variance_nonneg; exact E|constructor].
Qed.

Lemma diversity_nonneg cfg df df_group : 0 <= diversity cfg df df_group.
Proof.
  unfold diversity. pose proof (div_vars_nonneg cfg df df_group) as Hd.
  destruct (div_vars cfg df df_group) as [|v vs]; [apply Qle_refl|].
  apply Qmean_nonneg. exact Hd.
Qed.

Lemma row_distance_nonneg u v d : row_distance u v = Some d -> 0 <= d.
Proof.
  unfold row_distance. destruct (_ || _); [discriminate|]. intros [= <-]. apply sqrt_nonneg.
Qed.

Lemma sim_bonus_range cfg X : 0 <= sim_bonus_of cfg X /\ sim_bonus_of cfg X <= 1.
Proof.
  unfold sim_bonus_of. destruct (negb _); [split; [apply Qle_refl|discriminate]|].
  destruct (bool_decide _); [|split; [apply Qle_refl|discriminate]].
  set (pairs := combinations2 _).
  assert (Hd : Forall (fun x => 0 <= x) (omap (fun p => row_distance p.1 p.2) pairs)).
  { apply Forall_forall. intros d Hd. apply list_elem_of_omap in Hd as (p & _ & Hp).
    eapply row_distance_nonneg. exact Hp. }
  destruct (omap (fun p => row_distance p.1 p.2) pairs) as [|d ds] eqn:E;
    [split; [apply Qle_refl|discriminate]|].
  pose proof (Qmean_nonneg _ Hd) as Hm.
  assert (Hpos : 0 < 1 + Qmean (d :: ds)) by lra.
  split.
  - apply Qle_shift_div_l; [exact Hpos|]. lra.
  - apply Qle_shift_div_r; [exact Hpos|]. lra.
Qed.

Lemma similarity_term_range cfg df caches df_group indices :
  0 <= fst (similarity_term cfg df caches df_group indices)
  /\ fst (similarity_term cfg df caches df_group indices) <= 1.
Proof.
  unfold similarity_term. destruct (_ && _); [|split; [apply Qle_refl|discriminate]].
  destruct (get_cached_features cfg df caches df_group indices) as [X caches'].
  simpl. apply sim_bonus_range.
Qed.

Lemma categorical_round_range df df_group explain st item st' :
  categorical_round df df_group explain st item = Some st' ->
  categorical_diversity_score st <= categorical_diversity_score st'
  /\ categorical_diversity_score st' <= categorical_diversity_score st + 1.
Proof.
  unfold categorical_round. destruct item as [col ty].
  assert (Hsame : categorical_diversity_score st <= categorical_diversity_score st
                  /\ categorical_diversity_score st <= categorical_diversity_score st + 1)
    by (split; lra).
  destruct (has_column df col); [|intros [= <-]; exact Hsame].
  set (values := (fun c => strip (str_of_cell c)) <$> column_values df_group col).
  set (u := length (remove_dups values)).
  assert (Hu : (u <= length df_group)%nat).
  { unfold u. etransitivity; [apply remove_dups_length_le|].
    unfold values, column_values. rewrite !length_fmap. reflexivity. }
  assert (Hbonus : 0 <= inject_Z (Z.of_nat u) / inject_Z (Z.of_nat (length df_group))
                   /\ inject_Z (Z.of_nat u) / inject_Z (Z.of_nat (length df_group)) <= 1).
  { split; [apply Qdiv_nonneg; apply inject_nat_nonneg|].
    apply Qdiv_le_one; [apply inject_nat_nonneg|]. rewrite <- Zle_Qle. lia. }
  assert (Hbal : 0 <= py_min 1 (inject_Z (Z.of_nat u) / 3)
                 /\ py_min 1 (inject_Z (Z.of_nat u) / 3) <= 1).
  { split.
    - apply py_min_nonneg; [discriminate|]. apply Qdiv_nonneg; [apply inject_nat_nonneg|].
      discriminate.
    - apply py_min_ge. left. apply Qle_refl. }
  set (st1 := if String.eqb ty "diversity" then _ else _).
  assert (Hst1 : categorical_diversity_score st <= categorical_diversity_score st1
                 /\ categorical_diversity_score st1 <= categorical_diversity_score st + 1).
  { unfold st1. destruct (String.eqb ty "diversity"); [simpl; split; lra|].
    destruct (String.eqb ty "balance"); [|exact Hsame].
    destruct (bool_decide _); simpl; split; lra. }
  destruct explain; [|intros [= <-]; exact Hst1].
  destruct (_ && _); [intros [= <-]; exact Hst1|discriminate].
Qed.

Lemma categorical_term_range cfg df df_group explain C :
  categorical_term cfg df df_group explain = Some C ->
  0 <= C /\ C <= inject_Z (Z.of_nat (length (SOFT_CATEGORICAL cfg))).
Proof.
  unfold categorical_term.
  assert (Hgen : forall l st0 st,
            foldl (fun st item => st ≫= fun st => categorical_round df df_group explain st item)
                  (Some st0) l = Some st ->
            categorical_diversity_score st0 <= categorical_diversity_score st
            /\ categorical_diversity_score st
               <= categorical_diversity_score st0 + inject_Z (Z.of_nat (length l))).
  { induction l as [|item l IH]; intros st0 st; simpl foldl.
    - intros [= <-]. change (inject_Z (Z.of_nat (length (@nil (string * string))))) with 0.
      split; lra.
    - simpl mbind.
      destruct (categorical_round df df_group explain st0 item) as [st1|] eqn:E.
      + intros Hf. destruct (IH _ _ Hf) as [H1 H2].
        destruct (categorical_round_range _ _ _ _ _ _ E) as [H3 H4].
        simpl length. rewrite Nat2Z.inj_succ, <- Z.add_1_l, inject_Z_plus. change (inject_Z 1) with 1.
        split; lra.
      + rewrite foldl_bind_none. discriminate. }
  destruct (foldl _ _ _) as [st|] eqn:Ef; [|discriminate]. simpl. intros [= <-].
  destruct (Hgen _ _ _ Ef) as [H1 H2]. simpl in H1, H2. split; lra.
Qed.

Lemma average_overlap_range sets_list avg :
  average_overlap sets_list = Some avg -> 0 <= avg /\ avg <= 1.
Proof.
  unfold average_overlap. set (ratios := omap _ (combinations2 sets_list)).
  assert (Hr : Forall (fun x => 0 <= x) ratios /\ Forall (fun x => x <= 1) ratios).
  { split; apply Forall_forall; intros x Hx;
      apply list_elem_of_omap in Hx as ([A B] & _ & Hp); simpl in Hp;
      destruct (bool_decide _); try discriminate; injection Hp as <-.
    - apply Qdiv_nonneg; apply inject_nat_nonneg.
    - apply Qdiv_le_one; [apply inject_nat_nonneg|]. rewrite <- Zle_Qle.
      apply inj_le. apply subseteq_size. intros z Hz.
      apply elem_of_intersection in Hz as [Hz _]. apply elem_of_union. left. exact Hz. }
  destruct ratios as [|r rs] eqn:E; [discriminate|]. intros [= <-].
  destruct Hr as [H0 H1]. split; [apply (Qmean_nonneg (r :: rs)); exact H0|apply (Qmean_le_one (r :: rs)); assumption].
Qed.

Lemma multi_choice_term_range cfg rules df df_group :
  0 <= multi_choice_term cfg rules df df_group
  /\ multi_choice_term cfg rules df df_group
     <= inject_Z (Z.of_nat (length (SOFT_MULTI_CHOICE cfg))).
Proof.
  unfold multi_choice_term.
  assert (Hgen : forall l acc,
            acc <= foldl (fun multi_choice_overlap_score '(col, scoring_type) =>
                     if has_column df col && String.eqb scoring_type "overlap_bonus" then
                       match average_overlap ((fun val => to_set rules val (Some col))
                                                <$> column_values df_group col) with
                       | Some avg_overlap => multi_choice_overlap_score + avg_overlap
                       | None => multi_choice_overlap_score
                       end
                     else multi_choice_overlap_score) acc l
            /\ foldl (fun multi_choice_overlap_score '(col, scoring_type) =>
                     if has_column df col && String.eqb scoring_type "overlap_bonus" then
                       match average_overlap ((fun val => to_set rules val (Some col))
                                                <$> column_values df_group col) with
                       | Some avg_overlap => multi_choice_overlap_score + avg_overlap
                       | None => multi_choice_overlap_score
                       end
                     else multi_choice_overlap_score) acc l
               <= acc + inject_Z (Z.of_nat (length l))).
  { induction l as [|[col ty] l IH]; intros acc; simpl foldl.
    - change (inject_Z (Z.of_nat (length (@nil (string * string))))) with 0. split; lra.
    - simpl length. rewrite Nat2Z.inj_succ, <- Z.add_1_l, inject_Z_plus. change (inject_Z 1) with 1.
      destruct (has_column df col && String.eqb ty "overlap_bonus").
      + destruct (average_overlap _) as [avg|] eqn:E.
        * destruct (average_overlap_range _ _ E) as [H0 H1].
          destruct (IH (acc + avg)) as [H2 H3]. split; lra.
        * destruct (IH acc) as [H2 H3]. split; lra.
      + destruct (IH acc) as [H2 H3]. split; lra. }
  destruct (Hgen (SOFT_MULTI_CHOICE cfg) 0) as [H1 H2]. split; lra.
Qed.
End ScoreRanges.

Section ScoreBounds.
Context `{Runtime}.
Hypothesis sqrt_nonneg : forall q, 0 <= sqrtQ q.

(** a score that is computed, or read from a cache of non-negative scores, is
    not negative when the weights are not *)
Lemma group_score_lower cfg rules df caches indices df_group :
  0 <= BETA_DIVERSITY cfg -> 0 <= GAMMA_SIMILARITY cfg ->
  0 <= CATEGORICAL_DIVERSITY cfg -> 0 <= MULTI_CHOICE_OVERLAP cfg ->
  (forall k s, score_cache caches !! k = Some s -> 0 <= s) ->
  df_group <> [] -> columns df <> [] ->
  exists s caches',
    group_score cfg rules df caches indices df_group false = Some (s, caches')
    /\ 0 <= s
    /\ (forall k s', score_cache caches' !! k = Some s' -> 0 <= s').
Proof.
  intros Hb Hg Hk Hm Hcache Hne Hcol. unfold group_score.
  rewrite (bool_decide_eq_false_2 _ Hne), (bool_decide_eq_false_2 _ Hcol). simpl.
  destruct (score_cache caches !! cache_key indices) as [cached|] eqn:Ehit.
  - exists cached, caches. split; [reflexivity|]. split; [exact (Hcache _ _ Ehit)|exact Hcache].
  - pose proof (similarity_term_range sqrt_nonneg cfg df caches df_group indices) as [Hs0 Hs1].
    assert (Hsc : score_cache (similarity_term cfg df caches df_group indices).2
                  = score_cache caches).
    { unfold similarity_term. destruct (_ && _); [|reflexivity].
      unfold get_cached_features. destruct (feature_cache caches !! _); reflexivity. }
    destruct (similarity_term cfg df caches df_group indices) as [sim caches1].
    simpl in Hs0, Hs1, Hsc.
    destruct (categorical_term cfg df df_group false) as [C|] eqn:EC;
      [|destruct (categorical_term_total cfg df df_group) as [C' HC']; congruence].
    destruct (categorical_term_range _ _ _ _ _ EC) as [HC0 _].
    destruct (multi_choice_term_range cfg rules df df_group) as [HM0 _].
    pose proof (diversity_nonneg cfg df df_group) as HD0.
    simpl. eexists _, _. split; [reflexivity|].
    assert (Hscore : 0 <= BETA_DIVERSITY cfg * diversity cfg df df_group
                          + GAMMA_SIMILARITY cfg * sim
                          + CATEGORICAL_DIVERSITY cfg * C
                          + MULTI_CHOICE_OVERLAP cfg * multi_choice_term cfg rules df df_group).
    { pose proof (Qmult_le_0_compat _ _ Hb HD0). pose proof (Qmult_le_0_compat _ _ Hg Hs0).
      pose proof (Qmult_le_0_compat _ _ Hk HC0). pose proof (Qmult_le_0_compat _ _ Hm HM0).
      lra. }
    split; [exact Hscore|].
    intros k s'. simpl. rewrite Hsc.
    destruct (decide (k = cache_key indices)) as [->|Hneq].
    + rewrite lookup_insert_eq. intros [= <-]. exact Hscore.
    + rewrite lookup_insert_ne by congruence. apply Hcache.
Qed.

(** X13.  The four terms of the score are normalised: the numeric diversity
    D is not negative, the similarity bonus S lies between 0 and 1, the
    categorical term C between 0 and the number of soft categorical columns,
    and the multi-choice term M between 0 and the number of soft multi-choice
    columns. *)
Theorem score_terms_ranges cfg rules df caches df_group indices :
  0 <= diversity cfg df df_group
  /\ (0 <= fst (similarity_term cfg df caches df_group indices)
      /\ fst (similarity_term cfg df caches df_group indices) <= 1)
  /\ (forall explain C, categorical_term cfg df df_group explain = Some C ->
        0 <= C /\ C <= inject_Z (Z.of_nat (length (SOFT_CATEGORICAL cfg))))
  /\ (0 <= multi_choice_term cfg rules df df_group
      /\ multi_choice_term cfg rules df df_group
         <= inject_Z (Z.of_nat (length (SOFT_MULTI_CHOICE cfg)))).
Proof.
  split; [apply diversity_nonneg|].
  split; [apply similarity_term_range; exact sqrt_nonneg|].
  split; [|apply multi_choice_term_range].
  intros explain C. apply categorical_term_range.
Qed.

(** X14.  On frames whose numbers are finite, the floats being read as
    exact rationals: without [explain] the scorer always returns, and with
    weights that are not negative its score of a non-empty group is not
    negative either, whether it is computed or read from a cache of such
    scores: a scored group is never at the -1e9 of an empty frame, and the
    cache stays one of non-negative scores.  A cell inf in a [DEFINE_NUMERIC]
    column, whose variance and score are NaN in Python, is not a frame of the
    embedding. *)
Theorem group_score_nonnegative cfg rules df caches indices df_group :
  0 <= BETA_DIVERSITY cfg -> 0 <= GAMMA_SIMILARITY cfg ->
  0 <= CATEGORICAL_DIVERSITY cfg -> 0 <= MULTI_CHOICE_OVERLAP cfg ->
  (forall k s, score_cache caches !! k = Some s -> 0 <= s) ->
  df_group <> [] -> columns df <> [] ->
  exists s caches',
    group_score cfg rules df caches indices df_group false = Some (s, caches')
    /\ 0 <= s
    /\ (forall k s', score_cache caches' !! k = Some s' -> 0 <= s').
Proof. apply group_score_lower. Qed.
End ScoreBounds.

Lemma example_sqrt_nonneg (q : Q) : 0 <= example_sqrt q.
Proof.
  unfold example_sqrt, Qle. simpl. rewrite Z.mul_1_r. apply Z.sqrt_nonneg.
Qed.

(** ** The builder and [make_groups] return *)

Lemma dict_get_is_Some {V : Type} (d : list (nat * V)) k :
  k ∈ d.*1 -> is_Some (dict_get d k).
Proof.
  induction d as [|[k' v'] d IH]; simpl; [intros Hin; inversion Hin|].
  intros Hin. destruct (k =? k')%nat eqn:E; [eexists; reflexivity|].
  apply IH. apply elem_of_cons in Hin as [->|Hin]; [|exact Hin].
  rewrite Nat.eqb_refl in E. discriminate.
Qed.

Lemma global_keys_fold (entries acc : list (nat * nat)) k :
  k ∈ (foldl (fun d '(local_idx, global_idx) => dict_set d global_idx local_idx)
             acc entries).*1
  <-> k ∈ acc.*1 \/ k ∈ entries.*2.
Proof.
  revert acc. induction entries as [|[l g] entries IH]; intros acc; simpl.
  - split; [intros Hk; left; exact Hk|intros [Hk|Hk]; [exact Hk|inversion Hk]].
  - rewrite IH, dict_set_keys, elem_of_cons. tauto.
Qed.

Lemma local_to_global_fold (pairs acc : list (nat * nat)) :
  NoDup (acc.*1 ++ pairs.*1) ->
  foldl (fun d '(local_idx, global_idx) => dict_set d local_idx global_idx) acc pairs
  = acc ++ pairs.
Proof.
  revert acc. induction pairs as [|[l g] pairs IH]; intros acc Hnd; simpl.
  - rewrite app_nil_r. reflexivity.
  - simpl in Hnd. rewrite dict_set_fresh.
    + rewrite IH; [rewrite <- app_assoc; reflexivity|].
      rewrite fmap_app. simpl. rewrite <- app_assoc. exact Hnd.
    + apply NoDup_app in Hnd as (_ & Hdis & _). intros Hin.
      apply (Hdis l Hin). apply list_elem_of_here.
Qed.

(** every candidate has a local index in [global_to_local] when the local
    indices are distinct *)
Lemma global_to_local_total (pairs : list (nat * nat)) l g :
  NoDup (pairs.*1) -> (l, g) ∈ pairs ->
  exists l',
    dict_get (foldl (fun d '(local_idx, global_idx) => dict_set d global_idx local_idx) []
                (foldl (fun d '(local_idx, global_idx) => dict_set d local_idx global_idx) []
                   pairs)) g = Some l'
    /\ (l', g) ∈ pairs.
Proof.
  intros Hnd Hin.
  destruct (dict_get_is_Some
              (foldl (fun d '(local_idx, global_idx) => dict_set d global_idx local_idx) []
                 (foldl (fun d '(local_idx, global_idx) => dict_set d local_idx global_idx) []
                    pairs)) g) as [l' Hl'].
  - apply global_keys_fold. right. rewrite (local_to_global_fold pairs []) by exact Hnd.
    simpl. apply (list_elem_of_fmap_2 snd _ (l, g)). exact Hin.
  - exists l'. split; [exact Hl'|].
    apply global_to_local_entries. apply dict_get_elem. exact Hl'.
Qed.

Lemma all_compatible_total n compat_matrix local_idx group_local :
  square n compat_matrix -> (local_idx < n)%nat ->
  Forall (fun g => (g < n)%nat) group_local ->
  is_Some (all_compatible compat_matrix local_idx group_local).
Proof.
  intros Hsq Hl. induction 1 as [|g group_local Hg _ IH]; simpl; [eexists; reflexivity|].
  destruct (square_lookup n compat_matrix local_idx g Hsq Hl Hg) as [b ->].
  destruct b; [exact IH|eexists; reflexivity].
Qed.

Lemma pick_best_total (scored : list (nat * Q)) :
  scored <> [] -> Forall (fun p => - (1000000000) < p.2) scored ->
  exists x, pick_best scored = Some x /\ x ∈ scored.*1.
Proof.
  intros Hne Hall. destruct (pick_best scored) as [x|] eqn:E.
  - exists x. split; [reflexivity|].
    destruct (pick_best_Some _ _ E) as (pre & post & sx & -> & _).
    rewrite fmap_app, fmap_cons. apply elem_of_app. right. apply list_elem_of_here.
  - exfalso. destruct scored as [|[y sy] scored]; [contradiction|].
    pose proof (pick_best_None _ E y sy (list_elem_of_here _ _)) as Hle.
    apply Forall_inv in Hall. simpl in Hall. lra.
Qed.

Lemma compat_counts_total n compat_matrix candidates local_indices :
  (length local_indices <= length candidates)%nat ->
  square n compat_matrix -> Forall (fun j => (j < n)%nat) local_indices ->
  exists counts,
    compat_counts compat_matrix candidates local_indices = Some counts
    /\ (local_indices <> [] -> counts <> []).
Proof.
  intros Hlen Hsq Hall. unfold compat_counts.
  rewrite (enumerate_candidates_zip _ _ Hlen). simpl.
  assert (Hgen : forall pairs acc,
    Forall (fun p : nat * nat => (p.1 < n)%nat) pairs ->
    exists counts,
      foldl (fun acc '(local_idx, global_idx) =>
               d ← acc;
               c ← compat_count compat_matrix local_indices local_idx;
               Some (dict_set d global_idx c)) (Some acc) pairs = Some counts
      /\ (acc <> [] \/ pairs <> [] -> counts <> [])).
  { induction pairs as [|[l g] pairs IH]; intros acc Hp; simpl.
    - exists acc. split; [reflexivity|]. intros [Ha|Ha]; [exact Ha|contradiction].
    - apply Forall_cons in Hp as [Hl Hp]. simpl in Hl.
      rewrite (compat_count_degree n _ _ _ Hsq Hl Hall). simpl.
      destruct (IH (dict_set acc g (degree compat_matrix local_indices l)) Hp)
        as (counts & Hc & Hne).
      exists counts. split; [exact Hc|]. intros _. apply Hne. left.
      destruct acc as [|[k v] acc]; simpl; [discriminate|].
      destruct (g =? k)%nat; discriminate. }
  destruct (Hgen (zip local_indices candidates) []) as (counts & Hc & Hne).
  - apply Forall_forall. intros [l g] Hin. simpl.
    apply elem_of_zip_l in Hin. rewrite Forall_forall in Hall. apply Hall. exact Hin.
  - exists counts. split; [exact Hc|]. intros Hl. apply Hne. right.
    destruct local_indices as [|l ls]; [contradiction|].
    destruct candidates as [|c cs]; [simpl in Hlen; lia|]. discriminate.
Qed.

Lemma choose_seed_total n compat_matrix candidates local_indices :
  (length local_indices <= length candidates)%nat -> local_indices <> [] ->
  square n compat_matrix -> Forall (fun j => (j < n)%nat) local_indices ->
  exists seed, choose_seed compat_matrix candidates local_indices = Some seed
               /\ seed ∈ candidates.
Proof.
  intros Hlen Hne Hsq Hall. unfold choose_seed.
  destruct (compat_counts_total n compat_matrix candidates local_indices Hlen Hsq Hall)
    as (counts & Hc & Hcne).
  rewrite Hc. simpl.
  destruct (dict_argmin_first counts (Hcne Hne)) as (pre & post & k & v & Hk & _).
  exists k. split; [exact Hk|].
  eapply compat_counts_keys; [exact Hc|]. apply dict_argmin_in. exact Hk.
Qed.

Section BuilderReturns.
Context `{Runtime} {St : Type}.
Variable group_size : Z.
Variable group_ok : list nat -> option bool.
Variable score : St -> list nat -> option (Q * St).
(** what the callbacks are assumed to do: on rows of the frame the group
    constraints are decided, and a score above -1e9 is returned; [Sinv] is what
    the scorer keeps of its state *)
Variable in_frame : nat -> Prop.
Variable Sinv : St -> Prop.
Hypothesis group_ok_total : forall g, Forall in_frame g -> is_Some (group_ok g).
Hypothesis score_total : forall st g,
  Sinv st -> Forall in_frame g -> g <> [] ->
  exists s st', score st g = Some (s, st') /\ - (1000000000) < s /\ Sinv st'.

Variable n : nat.
Variable compat_matrix : matrix.
Variable global_to_local : list (nat * nat).
Variable candidates : list nat.
Hypothesis compat_square : square n compat_matrix.
Hypothesis candidates_in_frame : Forall in_frame candidates.
Hypothesis candidates_local : forall x, x ∈ candidates ->
  exists l, dict_get global_to_local x = Some l /\ (l < n)%nat.

Lemma is_feasible_total group_global x :
  Forall (fun g => g ∈ candidates) group_global -> x ∈ candidates ->
  is_Some (is_feasible group_ok compat_matrix global_to_local group_global x).
Proof.
  intros Hg Hx. unfold is_feasible.
  destruct (candidates_local x Hx) as (l & -> & Hl). simpl.
  assert (Hm : exists group_local,
             mapM (dict_get global_to_local) group_global = Some group_local
             /\ Forall (fun g => (g < n)%nat) group_local).
  { clear Hx. induction Hg as [|g group_global Hgc _ IH].
    - exists []. split; [reflexivity|constructor].
    - destruct IH as (group_local & Hm & Hall).
      destruct (candidates_local g Hgc) as (lg & Hlg & Hlt).
      exists (lg :: group_local). split; [|constructor; assumption].
      rewrite mapM_Some. constructor; [exact Hlg|]. rewrite <- mapM_Some. exact Hm. }
  destruct Hm as (group_local & -> & Hall). simpl.
  destruct (all_compatible_total n compat_matrix l group_local compat_square Hl Hall)
    as [ok ->].
  simpl. destruct ok; simpl; [|eexists; reflexivity].
  apply group_ok_total. rewrite Forall_forall in candidates_in_frame.
  apply Forall_app. split.
  - eapply Forall_impl; [exact Hg|]. intros y Hy. apply candidates_in_frame. exact Hy.
  - constructor; [apply candidates_in_frame; exact Hx|constructor].
Qed.

Lemma feasibles_total group_global remaining_global :
  Forall (fun g => g ∈ candidates) group_global ->
  Forall (fun g => g ∈ candidates) remaining_global ->
  exists fs,
    feasibles group_ok compat_matrix global_to_local group_global remaining_global = Some fs
    /\ Forall (fun x => x ∈ remaining_global) fs.
Proof.
  intros Hg Hr.
  assert (Hgen : forall rem acc,
    Forall (fun g => g ∈ candidates) rem ->
    is_Some (foldl (fun acc global_idx =>
               feasibles_global ← acc;
               feasible ← is_feasible group_ok compat_matrix global_to_local group_global
                            global_idx;
               Some (if feasible : bool then feasibles_global ++ [global_idx]
                     else feasibles_global)) (Some acc) rem)).
  { induction rem as [|x rem IH]; intros acc Hrem; simpl; [eexists; reflexivity|].
    apply Forall_cons in Hrem as [Hx Hrem].
    destruct (is_feasible_total group_global x Hg Hx) as [b ->]. simpl. apply IH. exact Hrem. }
  destruct (Hgen remaining_global [] Hr) as [fs Hfs]. exists fs. split; [exact Hfs|].
  rewrite (feasibles_spec _ _ _ _ _ _ Hfs). apply Forall_forall. intros x Hx.
  apply list_elem_of_filter in Hx as [_ Hx]. exact Hx.
Qed.

Lemma score_all_total st group_global fs :
  Sinv st -> Forall in_frame group_global -> Forall in_frame fs ->
  exists scored st',
    score_all score st group_global fs = Some (scored, st')
    /\ Sinv st' /\ Forall (fun p => - (1000000000) < p.2) scored.
Proof.
  intros Hst Hg Hfs. revert st Hst.
  induction Hfs as [|x fs Hx _ IH]; intros st Hst; simpl.
  - exists [], st. split; [reflexivity|]. split; [exact Hst|constructor].
  - destruct (score_total st (group_global ++ [x]) Hst) as (s & st1 & -> & Hs & Hst1).
    + apply Forall_app. split; [exact Hg|constructor; [exact Hx|constructor]].
    + destruct group_global; discriminate.
    + simpl. destruct (IH st1 Hst1) as (scored & st2 & -> & Hst2 & Hall). simpl.
      exists ((x, s) :: scored), st2. split; [reflexivity|]. split; [exact Hst2|].
      constructor; [exact Hs|exact Hall].
Qed.

Lemma extend_step_total st group_global remaining_global :
  Sinv st ->
  Forall (fun g => g ∈ candidates) group_global ->
  Forall (fun g => g ∈ candidates) remaining_global ->
  exists r st',
    extend_step group_ok score compat_matrix global_to_local st group_global
      remaining_global = Some (r, st')
    /\ Sinv st' /\ forall x, r = Some x -> x ∈ remaining_global.
Proof.
  intros Hst Hg Hr. unfold extend_step.
  destruct (feasibles_total group_global remaining_global Hg Hr) as (fs & -> & Hfs). simpl.
  destruct fs as [|f fs].
  - exists None, st. split; [reflexivity|]. split; [exact Hst|]. intros x Hx. discriminate.
  - assert (Hin : forall P : nat -> Prop,
              (forall x, x ∈ candidates -> P x) ->
              Forall (fun g => g ∈ candidates) group_global ->
              Forall P group_global).
    { intros P HP Hall. eapply Forall_impl; [exact Hall|]. exact HP. }
    rewrite Forall_forall in candidates_in_frame.
    destruct (score_all_total st group_global (f :: fs) Hst)
      as (scored & st' & Hsc & Hst' & Hall).
    + apply Hin; [exact candidates_in_frame|exact Hg].
    + apply Forall_forall. intros x Hx. apply candidates_in_frame.
      rewrite Forall_forall in Hfs, Hr. apply Hr, Hfs. exact Hx.
    + rewrite Hsc. simpl.
      pose proof (score_all_fst score _ _ _ _ _ Hsc) as Hfst.
      destruct (pick_best_total scored) as (x & -> & Hx).
      * intros ->. discriminate.
      * exact Hall.
      * simpl. exists (Some x), st'. split; [reflexivity|]. split; [exact Hst'|].
        intros y [= <-]. rewrite Hfst in Hx. rewrite Forall_forall in Hfs. apply Hfs. exact Hx.
Qed.

Lemma extend_loop_total fuel st group_global remaining_global :
  (length remaining_global <= fuel)%nat ->
  Sinv st ->
  Forall (fun g => g ∈ candidates) group_global ->
  Forall (fun g => g ∈ candidates) remaining_global ->
  exists g st',
    extend_loop group_size group_ok score fuel compat_matrix global_to_local st
      group_global remaining_global = Some (g, st')
    /\ Sinv st'.
Proof.
  revert st group_global remaining_global.
  induction fuel as [|fuel IH]; intros st group_global remaining_global Hf Hst Hg Hr; simpl.
  - destruct remaining_global; [|simpl in Hf; lia]. rewrite andb_false_r.
    exists group_global, st. split; [reflexivity|exact Hst].
  - destruct (_ && _) eqn:Ec; [|exists group_global, st; split; [reflexivity|exact Hst]].
    destruct (extend_step_total st group_global remaining_global Hst Hg Hr)
      as (r & st1 & -> & Hst1 & Hrx).
    simpl. destruct r as [x|]; [|exists group_global, st1; split; [reflexivity|exact Hst1]].
    pose proof (Hrx x eq_refl) as Hx.
    apply IH.
    + pose proof (length_filter_remove remaining_global x Hx). lia.
    + exact Hst1.
    + apply Forall_app. split; [exact Hg|]. constructor; [|constructor].
      rewrite Forall_forall in Hr. apply Hr. exact Hx.
    + apply Forall_forall. intros y Hy. apply list_elem_of_filter in Hy as [_ Hy].
      rewrite Forall_forall in Hr. apply Hr. exact Hy.
Qed.
End BuilderReturns.

Section BuilderReturns2.
Context `{Runtime} {St : Type}.
Variable group_size : Z.
Variable group_ok : list nat -> option bool.
Variable score : St -> list nat -> option (Q * St).
Variable in_frame : nat -> Prop.
Variable Sinv : St -> Prop.
Hypothesis group_ok_total : forall g, Forall in_frame g -> is_Some (group_ok g).
Hypothesis score_total : forall st g,
  Sinv st -> Forall in_frame g -> g <> [] ->
  exists s st', score st g = Some (s, st') /\ - (1000000000) < s /\ Sinv st'.

(** the builder returns when it is called as the drivers call it: one local
    index per candidate, the local indices distinct and within the matrix *)
Lemma build_one_group_total n st candidates compat_matrix local_indices :
  length local_indices = length candidates -> NoDup local_indices ->
  square n compat_matrix -> Forall (fun j => (j < n)%nat) local_indices ->
  Forall in_frame candidates -> Sinv st ->
  exists g st',
    build_one_group_optimized group_size group_ok score st candidates compat_matrix
      local_indices = Some (g, st')
    /\ Sinv st'.
Proof.
  intros Hlen Hnd Hsq Hall Hframe Hst. unfold build_one_group_optimized.
  destruct (bool_decide (candidates = []) || bool_decide (local_indices = [])) eqn:Ee.
  { exists [], st. split; [reflexivity|exact Hst]. }
  apply orb_false_iff in Ee as [_ Hl]. apply bool_decide_eq_false in Hl.
  rewrite (enumerate_candidates_zip candidates local_indices) by lia. simpl.
  destruct (choose_seed_total n compat_matrix candidates local_indices) as (seed & -> & Hseed);
    [lia|exact Hl|exact Hsq|exact Hall|].
  simpl.
  set (global_to_local := foldl _ [] (foldl _ [] (zip local_indices candidates))).
  assert (Hloc : forall x, x ∈ candidates ->
            exists l, dict_get global_to_local x = Some l /\ (l < n)%nat).
  { intros x Hx. apply list_elem_of_lookup in Hx as [k Hk].
    destruct (lookup_lt_is_Some_2 local_indices k) as [l Hlk].
    { rewrite Hlen. eapply lookup_lt_Some. exact Hk. }
    destruct (global_to_local_total (zip local_indices candidates) l x) as (l' & Hl' & Hin).
    - rewrite fst_zip by lia. exact Hnd.
    - apply list_elem_of_lookup. exists k. rewrite lookup_zip_with, Hlk. simpl.
      rewrite Hk. reflexivity.
    - exists l'. split; [exact Hl'|]. apply elem_of_zip_l in Hin.
      rewrite Forall_forall in Hall. apply Hall. exact Hin. }
  set (remaining := set_iter (filter (fun g => g ≠ seed) candidates)).
  destruct (extend_loop_total group_size group_ok score in_frame Sinv group_ok_total
              score_total n compat_matrix global_to_local candidates Hsq Hframe Hloc
              (length remaining) st [seed] remaining) as (g & st' & -> & Hst').
  - lia.
  - exact Hst.
  - constructor; [exact Hseed|constructor].
  - apply Forall_forall. intros y Hy. unfold remaining in Hy.
    rewrite set_iter_perm, elem_of_remove_dups in Hy.
    apply list_elem_of_filter in Hy as [_ Hy]. exact Hy.
  - simpl. eexists _, _. split; [reflexivity|exact Hst'].
Qed.
End BuilderReturns2.

Lemma list_index_total (pool : list nat) x :
  x ∈ pool -> exists k, list_index pool x = Some k.
Proof.
  induction pool as [|y pool IH]; [intros Hin; inversion Hin|].
  intros Hin. simpl. destruct (x =? y)%nat eqn:E; [exists 0%nat; reflexivity|].
  apply elem_of_cons in Hin as [->|Hin]; [rewrite Nat.eqb_refl in E; discriminate|].
  destruct (IH Hin) as [k ->]. exists (S k). reflexivity.
Qed.

Lemma list_index_lookup (pool : list nat) x k :
  list_index pool x = Some k -> pool !! k = Some x.
Proof.
  revert k. induction pool as [|y pool IH]; intros k; simpl; [discriminate|].
  destruct (x =? y)%nat eqn:E.
  - intros [= <-]. apply Nat.eqb_eq in E. subst. reflexivity.
  - destruct (list_index pool x) as [k'|]; [|discriminate]. simpl. intros [= <-].
    simpl. apply IH. reflexivity.
Qed.

(** the local indices of the available candidates: one for each, distinct,
    and within the pool *)
Lemma local_indices_total (pool available : list nat) :
  (forall x, x ∈ available -> x ∈ pool) -> NoDup available ->
  exists local_indices,
    mapM (list_index pool) available = Some local_indices
    /\ length local_indices = length available
    /\ NoDup local_indices
    /\ Forall (fun j => (j < length pool)%nat) local_indices.
Proof.
  induction available as [|x available IH]; intros Hsub Hnd.
  - exists []. split; [reflexivity|]. split; [reflexivity|]. split; constructor.
  - apply NoDup_cons in Hnd as [Hx Hnd].
    destruct IH as (ls & Hm & Hlen & Hnds & Hall);
      [intros y Hy; apply Hsub; right; exact Hy|exact Hnd|].
    destruct (list_index_total pool x) as [k Hk]; [apply Hsub; left|].
    exists (k :: ls). split; [|split; [simpl; lia|split]].
    + rewrite mapM_Some. constructor; [exact Hk|]. rewrite <- mapM_Some. exact Hm.
    + apply NoDup_cons. split; [|exact Hnds]. intros Hin.
      apply list_elem_of_lookup in Hin as [i Hi].
      apply mapM_Some_1 in Hm.
      destruct (Forall2_lookup_r _ _ _ _ _ Hm Hi) as (y & Hy & Hky).
      apply list_index_lookup in Hk, Hky. rewrite Hk in Hky. injection Hky as <-.
      apply Hx. apply list_elem_of_lookup. exists i. exact Hy.
    + constructor; [|exact Hall]. apply list_index_lookup in Hk.
      eapply lookup_lt_Some. exact Hk.
Qed.

Lemma StronglySorted_lt_NoDup (l : list nat) : StronglySorted lt l -> NoDup l.
Proof.
  induction 1 as [|a l Hs IH Ha]; constructor; [|exact IH].
  intros Hin. rewrite Forall_forall in Ha. specialize (Ha a Hin). lia.
Qed.

Section MakeGroupsReturns.
Context `{Runtime}.
Hypothesis sqrt_nonneg : forall q, 0 <= sqrtQ q.
Variable cfg : Config.
Variable rules : NormRules.
Variable df : DataFrame.
Hypothesis beta_nonneg : 0 <= BETA_DIVERSITY cfg.
Hypothesis gamma_nonneg : 0 <= GAMMA_SIMILARITY cfg.
Hypothesis kappa_nonneg : 0 <= CATEGORICAL_DIVERSITY cfg.
Hypothesis mu_nonneg : 0 <= MULTI_CHOICE_OVERLAP cfg.
Hypothesis has_columns : columns df <> [].

(** the score cache holds scores that were computed *)
Definition scores_computed (c : Caches) : Prop :=
  forall k s, score_cache c !! k = Some s -> 0 <= s.

Lemma group_ok_on_total g :
  Forall (fun i => (i < length (rows df))%nat) g -> is_Some (group_ok_on cfg df g).
Proof.
  intros Hg. unfold group_ok_on. destruct (iloc_total df g Hg) as [df_try ->].
  simpl. eexists; reflexivity.
Qed.

Lemma score_on_total c g :
  scores_computed c -> Forall (fun i => (i < length (rows df))%nat) g -> g <> [] ->
  exists s c', score_on cfg rules df c g = Some (s, c')
               /\ - (1000000000) < s /\ scores_computed c'.
Proof.
  intros Hc Hg Hne. unfold score_on.
  destruct (iloc_total df g Hg) as [df_group Ei]. rewrite Ei. simpl.
  destruct (group_score_lower sqrt_nonneg cfg rules df c g df_group
              beta_nonneg gamma_nonneg kappa_nonneg mu_nonneg Hc)
    as (s & c' & Hs & H0 & Hc').
  - apply iloc_length in Ei. intros ->. destruct g; [contradiction|discriminate].
  - exact has_columns.
  - exists s, c'. split; [exact Hs|]. split; [|exact Hc'].
    apply Qlt_le_trans with 0; [reflexivity|exact H0].
Qed.

Lemma subspace_loop_total fuel n compat_matrix pool st :
  square n compat_matrix -> (length pool <= n)%nat -> NoDup pool ->
  Forall (fun i => (i < length (rows df))%nat) pool ->
  scores_computed (caches st) ->
  (length (filter (fun i => i ∉ used st) pool) < fuel)%nat ->
  exists st', subspace_loop fuel cfg rules df compat_matrix pool st = Some st'
              /\ scores_computed (caches st').
Proof.
  intros Hsq. revert pool st.
  induction fuel as [|fuel IH]; intros pool st Hn Hnd Hrows Hc Hf; [lia|].
  simpl. destruct (bool_decide _); [exists st; split; [reflexivity|exact Hc]|].
  set (available := filter (fun i => i ∉ used st) pool) in *.
  destruct (local_indices_total pool available) as (ls & -> & Hlen & Hnds & Hall).
  { intros x Hx. apply list_elem_of_filter in Hx as [_ Hx]. exact Hx. }
  { apply NoDup_filter. exact Hnd. }
  simpl.
  destruct (build_one_group_total (GROUP_SIZE cfg) (group_ok_on cfg df) (score_on cfg rules df)
              (fun i => (i < length (rows df))%nat) scores_computed
              group_ok_on_total score_on_total n (caches st) available compat_matrix ls)
    as (g & c' & Eb & Hc'); [exact Hlen|exact Hnds|exact Hsq| | |exact Hc|].
  { eapply Forall_impl; [exact Hall|]. intros j Hj. simpl in Hj. lia. }
  { apply Forall_forall. intros x Hx. apply list_elem_of_filter in Hx as [_ Hx].
    rewrite Forall_forall in Hrows. apply Hrows. exact Hx. }
  rewrite Eb. simpl.
  destruct (build_one_group_spec _ _ _ _ _ _ _ _ _ Eb)
    as [->|(seed & added & _ & Hg & _ & Hin & _)].
  - rewrite bool_decide_eq_true_2 by reflexivity. eexists. split; [reflexivity|exact Hc'].
  - rewrite bool_decide_eq_false_2 by (rewrite Hg; discriminate).
    assert (Hseed : seed ∈ available) by (apply Hin; rewrite Hg; left).
    apply list_elem_of_filter in Hseed as [Hnot Hpool].
    set (used' := used st ∪ list_to_set g).
    assert (Hlt : (length (filter (fun i => i ∉ used') (filter (fun i => i ∉ used') pool))
                   < length available)%nat).
    { eapply Nat.le_lt_trans; [apply length_filter|].
      apply (length_filter_narrow _ _ pool seed); [|exact Hpool|exact Hnot|].
      - intros y Hy Hu. apply Hy. apply elem_of_union. left. exact Hu.
      - intros Hs. apply Hs. apply elem_of_union. right.
        apply elem_of_list_to_set. rewrite Hg. left. }
    apply IH; simpl; fold used'.
    + pose proof (length_filter (fun i => i ∉ used') pool). lia.
    + apply NoDup_filter. exact Hnd.
    + apply Forall_forall. intros x Hx. apply list_elem_of_filter in Hx as [_ Hx].
      rewrite Forall_forall in Hrows. apply Hrows. exact Hx.
    + exact Hc'.
    + lia.
Qed.

Lemma process_bucket_total st idxs :
  NoDup idxs -> Forall (fun i => (i < length (rows df))%nat) idxs ->
  scores_computed (caches st) ->
  exists st', process_bucket cfg rules df st idxs = Some st'
              /\ scores_computed (caches st').
Proof.
  intros Hnd Hrows Hc. unfold process_bucket.
  destruct (bool_decide _); [exists st; split; [reflexivity|exact Hc]|].
  set (pool := filter (fun i => i ∉ used st) idxs).
  assert (Hpool : Forall (fun i => (i < length (rows df))%nat) pool).
  { apply Forall_forall. intros x Hx. apply list_elem_of_filter in Hx as [_ Hx].
    rewrite Forall_forall in Hrows. apply Hrows. exact Hx. }
  unfold build_compatibility_matrix_per_subspace.
  destruct (vectorized_matrix_total cfg rules df (Some pool) Hpool) as [m Hm].
  rewrite Hm. cbn -[subspace_loop].
  destruct (vectorized_matrix_ok _ _ _ _ _ Hm) as (Hsq & _). simpl in Hsq.
  apply (subspace_loop_total _ (length pool)); [exact Hsq|lia| |exact Hpool|exact Hc|].
  - apply NoDup_filter. exact Hnd.
  - pose proof (length_filter (fun i => i ∉ used st) pool). lia.
Qed.

Lemma make_groups_total caches0 :
  (VALIDATE_INPUT cfg = true -> validate_config cfg = true /\ validate_dataframe cfg df = true) ->
  exists groups, make_groups cfg rules df caches0 = Some groups.
Proof.
  intros Hval. unfold make_groups.
  assert (Ev : VALIDATE_INPUT cfg && negb (validate_config cfg && validate_dataframe cfg df)
               = false).
  { destruct (VALIDATE_INPUT cfg); [|reflexivity].
    destruct (Hval eq_refl) as [-> ->]. reflexivity. }
  rewrite Ev.
  assert (Hgen : forall (parts : list (list (string * string) * list nat)) st,
    (forall key idxs, (key, idxs) ∈ parts ->
       NoDup idxs /\ Forall (fun i => (i < length (rows df))%nat) idxs) ->
    scores_computed (caches st) ->
    exists st',
      foldl (fun st '(_, idxs) => st ≫= fun st => process_bucket cfg rules df st idxs)
            (Some st) parts = Some st').
  { induction parts as [|[key idxs] parts IH]; intros st Hparts Hc; simpl.
    - exists st. reflexivity.
    - destruct (Hparts key idxs (list_elem_of_here _ _)) as [Hnd Hrows].
      destruct (process_bucket_total st idxs Hnd Hrows Hc) as (st1 & -> & Hc1).
      apply IH; [|exact Hc1]. intros k i Hin. apply (Hparts k i). right. exact Hin. }
  destruct (Hgen (partition_into_subspaces cfg df)
              (mkRunState [] ∅ (clear_caches caches0))) as [st' Hst'].
  - intros key idxs Hin.
    destruct (buckets_sorted (subspace_key cfg) (rows df) key idxs Hin) as [Hs Hlt].
    split; [apply StronglySorted_lt_NoDup; exact Hs|].
    apply Forall_forall. exact Hlt.
  - intros k s Hk. simpl in Hk. rewrite lookup_empty in Hk. discriminate.
  - rewrite Hst'. eexists. reflexivity.
Qed.
End MakeGroupsReturns.

(** ** The vectorised matrix and the pairwise cuts agree *)

Lemma foldl_all {A : Type} (P : A -> bool) (l : list A) (r : bool) :
  foldl (fun result x => if P x then result else false) r l = r && forallb P l.
Proof.
  revert r. induction l as [|x l IH]; intros r; simpl; [rewrite andb_true_r; reflexivity|].
  rewrite IH. destruct (P x), r; reflexivity.
Qed.

Lemma mget_set_diag_off (m : matrix) i j : i <> j -> mget (set_diag m) i j = mget m i j.
Proof.
  intros Hne. unfold mget, set_diag. rewrite list_lookup_imap.
  destruct (m !! i) as [r|]; [|reflexivity]. simpl.
  apply list_lookup_insert_ne. exact Hne.
Qed.

(** the entry of [compat & layer & ... & layer] *)
Lemma fold_layers_entry {A : Type} (f : matrix -> A -> matrix) (present : A -> bool)
    (layer : A -> matrix) (entry : A -> bool) (l : list A) (m : matrix) b i j :
  (forall c x, f c x = if present x then mand c (layer x) else c) ->
  (forall x, x ∈ l -> present x = true -> mget (layer x) i j = Some (entry x)) ->
  mget m i j = Some b ->
  mget (foldl f m l) i j = Some (b && forallb (fun x => implb (present x) (entry x)) l).
Proof.
  intros Hf. revert m b. induction l as [|x l IH]; intros m b Hl Hm; simpl.
  - rewrite andb_true_r. exact Hm.
  - rewrite Hf. destruct (present x) eqn:Ep; simpl.
    + rewrite (IH _ (b && entry x)).
      * rewrite andb_assoc. reflexivity.
      * intros y Hy. apply Hl. right. exact Hy.
      * rewrite mget_mand, Hm, (Hl x (list_elem_of_here _ _) Ep). reflexivity.
    + apply IH; [|exact Hm]. intros y Hy. apply Hl. right. exact Hy.
Qed.

Lemma forallb_ext_elem {A : Type} (f g : A -> bool) (l : list A) :
  (forall x, x ∈ l -> f x = g x) -> forallb f l = forallb g l.
Proof.
  induction l as [|x l IH]; intros Hfg; simpl; [reflexivity|].
  rewrite (Hfg x (list_elem_of_here _ _)), IH; [reflexivity|].
  intros y Hy. apply Hfg. right. exact Hy.
Qed.

Lemma forallb_elem {A : Type} (f : A -> bool) (l : list A) x :
  forallb f l = true -> x ∈ l -> f x = true.
Proof.
  intros Hall Hx. rewrite forallb_forall in Hall. apply Hall, list_elem_of_In. exact Hx.
Qed.

Section Agreement.
Context `{Runtime}.

(** the entries of the multi-choice layer off the diagonal *)
Lemma mget_multi_layer rules df_subset col i j :
  let n := length df_subset in
  let sets_list := (fun val => to_set rules val (Some col)) <$> column_values df_subset col in
  (i < n)%nat -> (j < n)%nat -> i <> j ->
  mget (multi_layer rules df_subset col) i j
  = Some (bool_decide (0 < size (default ∅ (sets_list !! i) ∩ default ∅ (sets_list !! j)))%nat).
Proof.
  intros n sets_list Hi Hj Hne.
  destruct (multi_layer_ok rules df_subset col) as (Hsq & _ & Htrue).
  fold n in Hsq, Htrue. fold sets_list in Htrue.
  destruct (bool_decide _) eqn:E.
  - apply bool_decide_eq_true in E.
    unfold multi_layer. fold n. fold sets_list.
    rewrite mget_set_diag_off by exact Hne.
    set (step := fun (m : matrix) (i j : nat) =>
           if bool_decide (0 < size (default ∅ (sets_list !! i)
                                     ∩ default ∅ (sets_list !! j)))%nat
           then mset (mset m i j true) j i true else m).
    assert (Hgen : forall a b, (a < b)%nat -> (b < n)%nat ->
              (0 < size (default ∅ (sets_list !! a) ∩ default ∅ (sets_list !! b)))%nat ->
              mget (pair_loop n step (zeros n)) a b = Some true
              /\ mget (pair_loop n step (zeros n)) b a = Some true).
    { intros a b Hab Hb Hov.
      apply (pair_loop_established (square n)
               (fun m => mget m a b = Some true /\ mget m b a = Some true) n step
               (zeros n) a b Hab Hb).
      - apply square_replicate.
      - intros m i' j' Hij' Hj' Hm. unfold step. destruct (bool_decide _); [|exact Hm].
        apply square_set_pair. exact Hm.
      - intros m Hm. unfold step. rewrite bool_decide_eq_true_2 by exact Hov.
        rewrite !(mget_set_pair n) by (assumption || lia).
        rewrite !decide_True by tauto. split; reflexivity.
      - intros m i' j' Hij' Hj' Hm [H1 H2]. unfold step.
        destruct (bool_decide _); [|split; assumption].
        rewrite !(mget_set_pair n) by (assumption || lia).
        split; case_decide; (reflexivity || assumption). }
    destruct (Nat.lt_trichotomy i j) as [Hlt|[->|Hgt]]; [|contradiction|].
    + exact (proj1 (Hgen i j Hlt Hj E)).
    + apply (Hgen j i Hgt Hi). rewrite (comm_L (∩)). exact E.
  - apply bool_decide_eq_false in E.
    destruct (square_lookup n _ i j Hsq Hi Hj) as [b Hb]. rewrite Hb.
    destruct b; [|reflexivity]. exfalso. apply E. apply Htrue; assumption.
Qed.

(** the age rule between two rows, as the age layer of the matrix applies it *)
Definition age_cut (cfg : Config) (a b : gmap string cell) : bool :=
  match AGE_RULES cfg with
  | Some age_rules =>
      match to_numeric (row_get a (field age_rules) NaN),
            to_numeric (row_get b (field age_rules) NaN) with
      | Some x, Some y => check_age_compatibility (Some x) (Some y) (Some age_rules)
      | _, _ => false
      end
  | None => true
  end.

Lemma pass_pairwise_cuts_all cfg rules a b :
  pass_pairwise_cuts cfg rules a b
  = forallb (categorical_passed rules a b) (CUT_CATEGORICAL cfg)
    && forallb (multi_passed rules a b) (CUT_MULTI cfg)
    && forallb (fun p => numeric_passed a b p.1 p.2) (CUT_NUMERIC_TOL cfg).
Proof.
  unfold pass_pairwise_cuts.
  assert (E : forall r l,
            foldl (fun result '(col, tol) => if numeric_passed a b col tol then result else false)
                  r l
            = foldl (fun result p => if numeric_passed a b p.1 p.2 then result else false) r l).
  { intros r l. revert r. induction l as [|[col tol] l IH]; intros r; simpl; [reflexivity|].
    apply IH. }
  rewrite E, !foldl_all. simpl. reflexivity.
Qed.

Lemma column_values_lookup (rs : list (gmap string cell)) col i r :
  rs !! i = Some r -> column_values rs col !! i = Some (row_get r col NaN).
Proof. intros Hr. unfold column_values. rewrite list_lookup_fmap, Hr. reflexivity. Qed.

Lemma numeric_passed_values a b col tol :
  numeric_passed a b col tol
  = match to_numeric (row_get a col NaN), to_numeric (row_get b col NaN) with
    | Some x, Some y => within_tol x y tol
    | _, _ => false
    end.
Proof.
  unfold numeric_passed.
  destruct (row_get a col NaN) as [|s|q], (row_get b col NaN) as [|s'|q']; simpl;
    try reflexivity; destruct (float_of_str s); reflexivity.
Qed.

(** the matrix entry of two different rows is the verdict of the pairwise
    cuts together with the age rule *)
Lemma vectorized_entry_value cfg rules df idxs compat i j x y a b :
  validate_dataframe cfg df = true ->
  (forall col, col ∈ CUT_CATEGORICAL cfg -> is_Some (a !! col) /\ is_Some (b !! col)) ->
  build_compatibility_matrix_vectorized cfg rules df (Some idxs) = Some compat ->
  idxs !! i = Some x -> idxs !! j = Some y -> i <> j ->
  rows df !! x = Some a -> rows df !! y = Some b ->
  mget compat i j = Some (pass_pairwise_cuts cfg rules a b && age_cut cfg a b).
Proof.
  intros Hval Hcells Hbuild Hix Hjy Hne Ha Hb.
  pose proof (lookup_lt_Some _ _ _ Hix) as Hi. pose proof (lookup_lt_Some _ _ _ Hjy) as Hj.
  revert Hbuild. unfold build_compatibility_matrix_vectorized. simpl.
  destruct (length idxs =? 0)%nat eqn:En; [apply Nat.eqb_eq in En; lia|].
  destruct (iloc df idxs) as [df_subset|] eqn:Hiloc; [|discriminate].
  simpl. intros [= <-].
  pose proof (iloc_length _ _ _ Hiloc) as Hlen. rewrite <- Hlen in *. clear En.
  set (n := length df_subset) in *.
  assert (Hra : df_subset !! i = Some a).
  { unfold iloc in Hiloc. apply mapM_Some_1 in Hiloc.
    destruct (Forall2_lookup_l _ _ _ _ _ Hiloc Hix) as (r & Hr & Hx). congruence. }
  assert (Hrb : df_subset !! j = Some b).
  { unfold iloc in Hiloc. apply mapM_Some_1 in Hiloc.
    destruct (Forall2_lookup_l _ _ _ _ _ Hiloc Hjy) as (r & Hr & Hx). congruence. }
  unfold validate_dataframe in Hval.
  apply andb_true_iff in Hval as [Hval _]. apply andb_true_iff in Hval as [Hval Hvage].
  apply andb_true_iff in Hval as [Hval _]. apply andb_true_iff in Hval as [Hval Hvnum].
  apply andb_true_iff in Hval as [Hvcat Hvmulti].
  rewrite mget_set_diag_off by exact Hne.
  rewrite (fold_layers_entry _ (fun p => has_column df p.1)
             (fun p => numeric_layer df_subset p.1 p.2)
             (fun p => numeric_passed a b p.1 p.2) _ _
             (forallb (categorical_passed rules a b) (CUT_CATEGORICAL cfg)
              && forallb (multi_passed rules a b) (CUT_MULTI cfg)
              && age_cut cfg a b)).
  - rewrite pass_pairwise_cuts_all.
    assert (E : forallb (fun p : string * Q => implb (has_column df p.1)
                                                  (numeric_passed a b p.1 p.2))
                        (CUT_NUMERIC_TOL cfg)
                = forallb (fun p => numeric_passed a b p.1 p.2) (CUT_NUMERIC_TOL cfg)).
    { apply forallb_ext_elem. intros [col tol] Hin. simpl.
      pose proof (forallb_elem _ _ _ Hvnum Hin) as Hc. simpl in Hc. rewrite Hc. reflexivity. }
    rewrite E.
    destruct (forallb (categorical_passed rules a b) _), (forallb (multi_passed rules a b) _),
      (age_cut cfg a b), (forallb (fun p : string * Q => numeric_passed a b p.1 p.2) _);
      reflexivity.
  - intros c [col tol]. reflexivity.
  - intros [col tol] _ _. simpl. rewrite mget_numeric_layer by assumption.
    rewrite decide_False by exact Hne.
    rewrite !list_lookup_fmap, (column_values_lookup _ _ _ _ Hra),
      (column_values_lookup _ _ _ _ Hrb). simpl.
    rewrite numeric_passed_values. reflexivity.
  - assert (Hm : mget (foldl (fun compat col =>
                        if has_column df col then mand compat (multi_layer rules df_subset col)
                        else compat)
                      (foldl (fun compat col =>
                        if has_column df col
                        then mand compat (categorical_layer rules df_subset col)
                        else compat) (ones n) (CUT_CATEGORICAL cfg)) (CUT_MULTI cfg)) i j
                     = Some (forallb (categorical_passed rules a b) (CUT_CATEGORICAL cfg)
                             && forallb (multi_passed rules a b) (CUT_MULTI cfg))).
    { rewrite (fold_layers_entry _ (has_column df) (multi_layer rules df_subset)
                 (multi_passed rules a b) _ _
                 (forallb (categorical_passed rules a b) (CUT_CATEGORICAL cfg))).
      - f_equal. f_equal. apply forallb_ext_elem. intros col Hin.
        rewrite (forallb_elem _ _ _ Hvmulti Hin). reflexivity.
      - reflexivity.
      - intros col _ _. rewrite mget_multi_layer by assumption.
        rewrite !list_lookup_fmap, (column_values_lookup _ _ _ _ Hra),
          (column_values_lookup _ _ _ _ Hrb). simpl.
        unfold multi_passed, row_get.
        destruct (a !! col) as [va|], (b !! col) as [vb|]; reflexivity.
      - rewrite (fold_layers_entry _ (has_column df) (categorical_layer rules df_subset)
                   (categorical_passed rules a b) _ _ true).
        + f_equal. simpl. apply forallb_ext_elem. intros col Hin.
          rewrite (forallb_elem _ _ _ Hvcat Hin). reflexivity.
        + reflexivity.
        + intros col Hin _. unfold categorical_layer. rewrite mget_mtab by assumption.
          rewrite !list_lookup_fmap, (column_values_lookup _ _ _ _ Hra),
            (column_values_lookup _ _ _ _ Hrb). simpl.
          unfold categorical_passed, row_get.
          destruct (Hcells col Hin) as [[va ->] [vb ->]]. reflexivity.
        + unfold ones. apply mget_replicate; assumption. }
    unfold age_cut. destruct (AGE_RULES cfg) as [age_rules|].
    + rewrite Hvage. rewrite mget_mand, Hm. unfold age_layer.
      rewrite mget_mtab by assumption.
      apply Nat.eqb_neq in Hne. rewrite Hne.
      rewrite !list_lookup_fmap, (column_values_lookup _ _ _ _ Hra),
        (column_values_lookup _ _ _ _ Hrb). simpl. reflexivity.
    + rewrite Hm, andb_true_r. reflexivity.
Qed.
End Agreement.

Section Returns.
Context `{Runtime}.

(** X15.  On frames whose numbers are finite, the floats being read as
    exact rationals: [make_groups] returns a list of groups, with no lookup,
    index search or removal of the chosen candidate failing on the way,
    exactly when the validation it is configured to run passes; this for a
    frame with at least one column and weights that are not negative.  The
    scores are then numbers and some candidate is the best of every round; a
    cell inf in a [DEFINE_NUMERIC] column, with which every trial score is NaN
    and the removal of the candidate raises, is not a frame of the
    embedding. *)
Theorem make_groups_returns cfg rules df caches0 :
  (forall q, 0 <= sqrtQ q) ->
  0 <= BETA_DIVERSITY cfg -> 0 <= GAMMA_SIMILARITY cfg ->
  0 <= CATEGORICAL_DIVERSITY cfg -> 0 <= MULTI_CHOICE_OVERLAP cfg ->
  columns df <> [] ->
  (is_Some (make_groups cfg rules df caches0)
   <-> (VALIDATE_INPUT cfg = true ->
        validate_config cfg = true /\ validate_dataframe cfg df = true)).
Proof.
  intros Hsqrt Hb Hg Hk Hm Hcols. split.
  - intros [groups Hrun] Hv. revert Hrun. unfold make_groups. rewrite Hv. simpl.
    destruct (validate_config cfg); [|discriminate].
    destruct (validate_dataframe cfg df); [|discriminate]. intros _. split; reflexivity.
  - intros Hval.
    destruct (make_groups_total Hsqrt cfg rules df Hb Hg Hk Hm Hcols caches0 Hval)
      as [groups Hrun].
    exists groups. exact Hrun.
Qed.

(** X16.  The vectorised matrix and [pass_pairwise_cuts] agree on rows whose
    cells in the numeric cut columns are numbers or missing: on a frame that
    passes [validate_dataframe], the entry of two different such rows of the
    matrix is the verdict of [pass_pairwise_cuts] on the two rows, together
    with the age rule where age rules are configured (the pairwise cuts do not
    look at the age).  A text in a numeric cut column is left out: the cut
    reads it with [float()] and the matrix with [pd.to_numeric], which the
    embedding does not tell apart. *)
Theorem vectorized_matrix_agrees_with_pairwise_cuts cfg rules df idxs compat i j x y a b :
  validate_dataframe cfg df = true ->
  (forall col, col ∈ CUT_CATEGORICAL cfg -> is_Some (a !! col) /\ is_Some (b !! col)) ->
  (forall col tol s, (col, tol) ∈ CUT_NUMERIC_TOL cfg ->
     a !! col <> Some (Str s) /\ b !! col <> Some (Str s)) ->
  build_compatibility_matrix_vectorized cfg rules df (Some idxs) = Some compat ->
  idxs !! i = Some x -> idxs !! j = Some y -> i <> j ->
  rows df !! x = Some a -> rows df !! y = Some b ->
  mget compat i j = Some (pass_pairwise_cuts cfg rules a b && age_cut cfg a b).
Proof. intros Hval Hcells _. apply vectorized_entry_value; assumption. Qed.
End Returns.

(** ** Which groups of [make_groups] were checked against the pairwise cuts *)

Section FirstGroup.
Context `{Runtime}.
Variable cfg : Config.
Variable rules : NormRules.
Variable df : DataFrame.

(** any two members of [g] pass the pairwise cuts and the age rule *)
Definition pairwise_compatible (g : list nat) : Prop :=
  forall x y a b, x ∈ g -> y ∈ g -> x <> y ->
    rows df !! x = Some a -> rows df !! y = Some b ->
    pass_pairwise_cuts cfg rules a b = true /\ age_cut cfg a b = true.

(** a member of [g] and a member of [g'] have the same subspace key *)
Definition same_subspace (g g' : list nat) : Prop :=
  exists x x' a a',
    x ∈ g /\ x' ∈ g' /\ rows df !! x = Some a /\ rows df !! x' = Some a'
    /\ subspace_key cfg a = subspace_key cfg a'.

Hypothesis frame_valid : validate_dataframe cfg df = true.
Hypothesis cells_present :
  forall r col, r ∈ rows df -> col ∈ CUT_CATEGORICAL cfg -> is_Some (r !! col).

(** a group built with the matrix of the very pool its local indices point
    into *)
Lemma fresh_matrix_group pool available local_indices compat st g st' :
  build_compatibility_matrix_vectorized cfg rules df (Some pool) = Some compat ->
  mapM (list_index pool) available = Some local_indices ->
  build_one_group_optimized (GROUP_SIZE cfg) (group_ok_on cfg df) (score_on cfg rules df)
    st available compat local_indices = Some (g, st') ->
  pairwise_compatible g.
Proof.
  intros Hm Hl Hb.
  destruct (vectorized_matrix_ok _ _ _ _ _ Hm) as (Hsq & _ & Hsym). simpl in Hsq, Hsym.
  assert (Hboth : forall p q x y a b, (p < q)%nat -> g !! p = Some x -> g !! q = Some y ->
            x <> y -> rows df !! x = Some a -> rows df !! y = Some b ->
            pass_pairwise_cuts cfg rules a b && age_cut cfg a b = true
            /\ pass_pairwise_cuts cfg rules b a && age_cut cfg b a = true).
  { intros p q x y a b Hpq Hp Hq Hne Ha Hrb.
    destruct (build_one_group_compatible _ _ _ _ _ _ _ _ _ Hb p q x y Hpq Hp Hq)
      as (kx & ky & lx & ly & Hcx & Hlx & Hcy & Hly & Hentry).
    apply mapM_Some_1 in Hl.
    destruct (Forall2_lookup_l _ _ _ _ _ Hl Hcx) as (lx' & Hlx' & Hix).
    destruct (Forall2_lookup_l _ _ _ _ _ Hl Hcy) as (ly' & Hly' & Hiy).
    rewrite Hlx in Hlx'. injection Hlx' as <-. rewrite Hly in Hly'. injection Hly' as <-.
    apply list_index_lookup in Hix, Hiy.
    assert (Hll : lx <> ly) by (intros ->; congruence).
    pose proof (lookup_lt_Some _ _ _ Hix) as Hltx.
    pose proof (lookup_lt_Some _ _ _ Hiy) as Hlty.
    assert (Hra : a ∈ rows df) by (apply list_elem_of_lookup; eexists; exact Ha).
    assert (Hrb' : b ∈ rows df) by (apply list_elem_of_lookup; eexists; exact Hrb).
    split.
    - pose proof (vectorized_entry_value cfg rules df pool compat lx ly x y a b frame_valid
                    (fun col Hcol => conj (cells_present a col Hra Hcol)
                                          (cells_present b col Hrb' Hcol))
                    Hm Hix Hiy Hll Ha Hrb) as Hv.
      rewrite (Hsym lx ly Hltx Hlty), Hentry in Hv. injection Hv as Hv. symmetry. exact Hv.
    - pose proof (vectorized_entry_value cfg rules df pool compat ly lx y x b a frame_valid
                    (fun col Hcol => conj (cells_present b col Hrb' Hcol)
                                          (cells_present a col Hra Hcol))
                    Hm Hiy Hix (not_eq_sym Hll) Hrb Ha) as Hv.
      rewrite Hentry in Hv. injection Hv as Hv. symmetry. exact Hv. }
  intros x y a b Hx Hy Hne Ha Hrb.
  apply list_elem_of_lookup in Hx as [p Hp]. apply list_elem_of_lookup in Hy as [q Hq].
  destruct (Nat.lt_trichotomy p q) as [Hlt|[->|Hgt]].
  - destruct (Hboth p q x y a b Hlt Hp Hq Hne Ha Hrb) as [H1 _].
    apply andb_true_iff in H1. exact H1.
  - congruence.
  - destruct (Hboth q p y x b a Hgt Hq Hp (not_eq_sym Hne) Hrb Ha) as [_ H1].
    apply andb_true_iff in H1. exact H1.
Qed.

Lemma subspace_loop_appends fuel compat pool st st' :
  subspace_loop fuel cfg rules df compat pool st = Some st' ->
  exists rest,
    all_groups st' = all_groups st ++ rest
    /\ Forall (fun g => g <> [] /\ forall x, x ∈ g -> x ∈ pool) rest.
Proof.
  revert pool st. induction fuel as [|fuel IH]; intros pool st; simpl.
  - destruct (bool_decide _); [|discriminate].
    intros [= <-]. exists []. rewrite app_nil_r. split; [reflexivity|constructor].
  - destruct (bool_decide _).
    { intros [= <-]. exists []. rewrite app_nil_r. split; [reflexivity|constructor]. }
    destruct (mapM (list_index pool) _) as [local_indices|]; [|discriminate]. simpl.
    destruct (build_one_group_optimized _ _ _ _ _ _ _) as [[group caches']|] eqn:Eb;
      [|discriminate].
    simpl. destruct (bool_decide (group = [])) eqn:Eg.
    { intros [= <-]. exists []. rewrite app_nil_r. split; [reflexivity|constructor]. }
    apply bool_decide_eq_false in Eg. intros Hloop.
    destruct (IH _ _ Hloop) as (rest & Hrest & Hall). simpl in Hrest.
    exists (group :: rest). split; [rewrite Hrest, <- app_assoc; reflexivity|].
    constructor.
    + split; [exact Eg|]. intros x Hx.
      destruct (build_one_group_spec _ _ _ _ _ _ _ _ _ Eb)
        as [->|(seed & added & _ & _ & _ & Hin & _)]; [contradiction|].
      apply Hin, list_elem_of_filter in Hx as [_ Hx]. exact Hx.
    + eapply Forall_impl; [exact Hall|]. intros g [Hne Hg]. split; [exact Hne|].
      intros x Hx. apply Hg, list_elem_of_filter in Hx as [_ Hx]. exact Hx.
Qed.

(** the groups that one subspace adds: the first was built with a fresh
    matrix *)
Lemma process_bucket_groups st idxs st' :
  process_bucket cfg rules df st idxs = Some st' ->
  all_groups st' = all_groups st
  \/ exists g rest,
       all_groups st' = all_groups st ++ g :: rest
       /\ pairwise_compatible g
       /\ Forall (fun g => g <> [] /\ forall x, x ∈ g -> x ∈ idxs) (g :: rest).
Proof.
  unfold process_bucket. destruct (bool_decide _); [intros [= <-]; left; reflexivity|].
  set (pool := filter (fun i => i ∉ used st) idxs).
  unfold build_compatibility_matrix_per_subspace.
  destruct (build_compatibility_matrix_vectorized cfg rules df (Some pool)) as [compat|] eqn:Em;
    [|discriminate].
  cbn -[subspace_loop]. simpl subspace_loop.
  destruct (bool_decide _); [intros [= <-]; left; reflexivity|].
  destruct (mapM (list_index pool) _) as [local_indices|] eqn:El; [|discriminate]. simpl.
  destruct (build_one_group_optimized _ _ _ _ _ _ _) as [[group caches']|] eqn:Eb;
    [|discriminate].
  simpl. destruct (bool_decide (group = [])) eqn:Eg; [intros [= <-]; left; reflexivity|].
  apply bool_decide_eq_false in Eg. intros Hloop. right.
  destruct (subspace_loop_appends _ _ _ _ _ Hloop) as (rest & Hrest & Hall). simpl in Hrest.
  exists group, rest. split; [rewrite Hrest, <- app_assoc; reflexivity|].
  split; [exact (fresh_matrix_group _ _ _ _ _ _ _ Em El Eb)|].
  constructor.
  - split; [exact Eg|]. intros x Hx.
    destruct (build_one_group_spec _ _ _ _ _ _ _ _ _ Eb)
      as [->|(seed & added & _ & _ & _ & Hin & _)]; [contradiction|].
    apply Hin, list_elem_of_filter in Hx as [_ Hx]. unfold pool in Hx.
    apply list_elem_of_filter in Hx as [_ Hx]. exact Hx.
  - eapply Forall_impl; [exact Hall|]. intros g [Hne Hg]. split; [exact Hne|].
    intros x Hx. apply Hg, list_elem_of_filter in Hx as [_ Hx]. unfold pool in Hx.
    apply list_elem_of_filter in Hx as [_ Hx]. exact Hx.
Qed.

(** what is known of the groups so far: each lies in one subspace, and the
    first group of each subspace is pairwise compatible *)
Definition first_groups_checked (gs : list (list nat)) : Prop :=
  forall k g, gs !! k = Some g ->
    (g <> [] /\ exists key idxs, (key, idxs) ∈ partition_into_subspaces cfg df
                                 /\ forall x, x ∈ g -> x ∈ idxs)
    /\ ((forall k' g', (k' < k)%nat -> gs !! k' = Some g' -> ~ same_subspace g g') ->
        pairwise_compatible g).

Lemma first_groups_checked_app gs key idxs g rest :
  (key, idxs) ∈ partition_into_subspaces cfg df ->
  first_groups_checked gs ->
  pairwise_compatible g ->
  Forall (fun g => g <> [] /\ forall x, x ∈ g -> x ∈ idxs) (g :: rest) ->
  first_groups_checked (gs ++ g :: rest).
Proof.
  intros Hkey Hgs Hg Hall k g' Hk.
  destruct (buckets_partition (subspace_key cfg) (rows df)) as (_ & _ & Hrows).
  destruct (Hrows key idxs Hkey) as [_ Hkeys].
  destruct (decide (k < length gs)%nat) as [Hlt|Hge].
  - rewrite lookup_app_l in Hk by exact Hlt.
    destruct (Hgs k g' Hk) as [H1 H2]. split; [exact H1|].
    intros Hfirst. apply H2. intros k' g'' Hk' Hg''. apply (Hfirst k' g'' Hk').
    rewrite lookup_app_l by lia. exact Hg''.
  - rewrite lookup_app_r in Hk by lia.
    assert (Hin : g' ∈ g :: rest) by (apply list_elem_of_lookup; eexists; exact Hk).
    rewrite Forall_forall in Hall. destruct (Hall g' Hin) as [Hne Hidx].
    split; [split; [exact Hne|exists key, idxs; split; [exact Hkey|exact Hidx]]|].
    destruct (k - length gs)%nat as [|d] eqn:Ed.
    + simpl in Hk. injection Hk as <-. intros _. exact Hg.
    + intros Hfirst. exfalso.
      apply (Hfirst (length gs) g); [lia| |].
      * rewrite lookup_app_r by lia. rewrite Nat.sub_diag. reflexivity.
      * destruct (Hall g (list_elem_of_here _ _)) as [Hgne Hgidx].
        destruct g' as [|x' g']; [contradiction|]. destruct g as [|x g]; [contradiction|].
        destruct (Hkeys x' (Hidx x' (list_elem_of_here _ _))) as (a' & Ha' & Hka').
        destruct (Hkeys x (Hgidx x (list_elem_of_here _ _))) as (a & Ha & Hka).
        exists x', x, a', a. split; [left|]. split; [left|].
        split; [exact Ha'|]. split; [exact Ha|]. rewrite Hka, Hka'. reflexivity.
Qed.

Lemma make_groups_first_groups caches0 groups :
  make_groups cfg rules df caches0 = Some groups -> first_groups_checked groups.
Proof.
  unfold make_groups.
  destruct (VALIDATE_INPUT cfg && negb _); [discriminate|].
  destruct (foldl _ _ _) as [st|] eqn:Ef; [|discriminate].
  simpl. intros [= <-].
  assert (Hinv : forall st', Some st = Some st' -> first_groups_checked (all_groups st')).
  { rewrite <- Ef.
    apply (foldl_invariant
             (fun acc : option RunState =>
                forall st', acc = Some st' -> first_groups_checked (all_groups st'))).
    - intros st' [= <-] k g Hk. discriminate.
    - intros acc [key idxs] Hin Hacc st'.
      destruct acc as [st0|]; [|discriminate]. simpl. intros Hb.
      destruct (process_bucket_groups _ _ _ Hb) as [->|(g & rest & -> & Hg & Hall)].
      + apply Hacc. reflexivity.
      + eapply first_groups_checked_app; [exact Hin|apply Hacc; reflexivity|exact Hg|exact Hall]. }
  exact (Hinv st eq_refl).
Qed.
End FirstGroup.

(** X17.  [make_groups] builds the compatibility matrix of a subspace once
    and keeps it while the pool shrinks, the local indices being taken from the
    shrunk pool.  So the first group emitted for a subspace is checked: any
    two of its members pass [pass_pairwise_cuts] and the age rule.  A later
    group of the same subspace is checked against the entries of other
    participants: over [stale_df] the second group holds the participants 5 and
    6, who have no area in common and fail the pairwise cuts. *)
Theorem make_groups_checks_first_group_of_subspace :
  (forall (R : Runtime) cfg rules df caches0 groups,
     validate_dataframe cfg df = true ->
     (forall r col, r ∈ rows df -> col ∈ CUT_CATEGORICAL cfg -> is_Some (r !! col)) ->
     make_groups cfg rules df caches0 = Some groups ->
     forall k g, groups !! k = Some g ->
       (forall k' g', (k' < k)%nat -> groups !! k' = Some g' -> ~ same_subspace cfg df g g') ->
       pairwise_compatible cfg rules df g)
  /\ (exists groups g a b,
        @make_groups cpython_runtime stale_cfg ∅ stale_df no_caches = Some groups
        /\ g ∈ groups /\ 5%nat ∈ g /\ 6%nat ∈ g
        /\ rows stale_df !! 5%nat = Some a /\ rows stale_df !! 6%nat = Some b
        /\ @pass_pairwise_cuts cpython_runtime stale_cfg ∅ a b = false).
Proof.
  split.
  - intros R cfg rules df caches0 groups Hval Hcells Hrun k g Hk Hfirst.
    exact (proj2 (make_groups_first_groups cfg rules df Hval Hcells caches0 groups Hrun k g Hk)
             Hfirst).
  - exists [[4; 0; 1; 2]; [3; 5; 6; 7]]%nat, [3; 5; 6; 7]%nat,
      {[ "area" := Str "v" ]}, {[ "area" := Str "s" ]}.
    split; [vm_compute; reflexivity|].
    split; [apply list_elem_of_further, list_elem_of_here|].
    split; [apply list_elem_of_further, list_elem_of_here|].
    split; [do 2 apply list_elem_of_further; apply list_elem_of_here|].
    split; [reflexivity|]. split; [reflexivity|]. vm_compute. reflexivity.
Qed.

(** ** The global normalisation rules across calls *)

Section RulesPersist.
Context `{Runtime}.

(** a column that the frame gives no rules for keeps the rules it had *)
Lemma build_normalization_rules_kept cfg df rules col :
  ~ (col ∈ columns df /\ (col ∉ skipped_columns)
     /\ unique_values df col ∩ FLEXIBLE_ANSWERS cfg ≠ ∅
     /\ unique_values df col ∖ (unique_values df col ∩ FLEXIBLE_ANSWERS cfg) ≠ ∅) ->
  build_normalization_rules cfg df rules !! col = rules !! col.
Proof.
  intros Hn. unfold build_normalization_rules.
  apply (foldl_invariant (fun r : NormRules => r !! col = rules !! col)); [reflexivity|].
  intros r c Hc Hr. destruct (decide (c = col)) as [->|Hne];
    [|rewrite build_rules_column_other by exact Hne; exact Hr].
  unfold build_rules_column.
  destruct (bool_decide (col ∈ skipped_columns)) eqn:Es; [exact Hr|].
  apply bool_decide_eq_false in Es.
  fold (unique_values df col).
  destruct (bool_decide (unique_values df col ∩ FLEXIBLE_ANSWERS cfg ≠ ∅)) eqn:E1;
    [|exact Hr].
  destruct (bool_decide (unique_values df col
                         ∖ (unique_values df col ∩ FLEXIBLE_ANSWERS cfg) ≠ ∅)) eqn:E2;
    [|exact Hr].
  apply bool_decide_eq_true in E1, E2. exfalso. apply Hn. repeat split; assumption.
Qed.

(** X18.  [build_normalization_rules] only ever adds to the global rules or
    overwrites them: a column of the frame (not a skipped contact column) that
    holds both a flexible and a concrete answer gets the rules of this frame,
    and every other column keeps whatever rules an earlier call left there.
    Calling it again on the same frame changes nothing. *)
Theorem normalization_rules_persist cfg df rules :
  (forall col,
     col ∈ columns df -> col ∉ skipped_columns ->
     unique_values df col ∩ FLEXIBLE_ANSWERS cfg ≠ ∅ ->
     unique_values df col ∖ (unique_values df col ∩ FLEXIBLE_ANSWERS cfg) ≠ ∅ ->
     build_normalization_rules cfg df rules !! col = Some (rules_of_column cfg df col))
  /\ (forall col,
        ~ (col ∈ columns df /\ (col ∉ skipped_columns)
           /\ unique_values df col ∩ FLEXIBLE_ANSWERS cfg ≠ ∅
           /\ unique_values df col ∖ (unique_values df col ∩ FLEXIBLE_ANSWERS cfg) ≠ ∅) ->
        build_normalization_rules cfg df rules !! col = rules !! col)
  /\ build_normalization_rules cfg df (build_normalization_rules cfg df rules)
     = build_normalization_rules cfg df rules.
Proof.
  split; [intros col; apply build_normalization_rules_lookup|].
  split; [intros col; apply build_normalization_rules_kept|].
  apply map_eq. intros col.
  destruct (decide (col ∈ columns df /\ (col ∉ skipped_columns)
                    /\ unique_values df col ∩ FLEXIBLE_ANSWERS cfg ≠ ∅
                    /\ unique_values df col
                       ∖ (unique_values df col ∩ FLEXIBLE_ANSWERS cfg) ≠ ∅))
    as [(H1 & H2 & H3 & H4)|Hn].
  - rewrite !build_normalization_rules_lookup by assumption. reflexivity.
  - rewrite (build_normalization_rules_kept _ _ (build_normalization_rules cfg df rules))
      by exact Hn. reflexivity.
Qed.
End RulesPersist.

(** ** The engine's matrix keeps every pair that meets the hard constraints *)

Section EngineComplete.
Context `{Runtime}.

Lemma categorical_break_holds ff df_subset i j fields ri rj :
  df_subset !! i = Some ri -> df_subset !! j = Some rj ->
  (forall fld, fld ∈ fields -> fld ∈ fcolumns ff ->
     _check_categorical_match (feature_of ri fld) (feature_of rj fld) = true) ->
  categorical_break ff df_subset i j fields = Some false.
Proof.
  intros Hi Hj. induction fields as [|f fields IH]; intros Hall; simpl; [reflexivity|].
  rewrite (fcell_at_row _ _ _ _ Hi), (fcell_at_row _ _ _ _ Hj). simpl.
  assert (Hrest : categorical_break ff df_subset i j fields = Some false).
  { apply IH. intros fld Hin. apply Hall. right. exact Hin. }
  destruct (bool_decide (f ∈ fcolumns ff)) eqn:Ef; [|exact Hrest].
  apply bool_decide_eq_true in Ef. rewrite (Hall f (list_elem_of_here _ _) Ef). exact Hrest.
Qed.

Lemma multi_break_holds ff df_subset i j fields ri rj :
  df_subset !! i = Some ri -> df_subset !! j = Some rj ->
  (forall fld, fld ∈ fields -> fld ∈ fcolumns ff ->
     _check_multi_overlap (feature_of ri fld) (feature_of rj fld) = true) ->
  multi_break ff df_subset i j fields = Some false.
Proof.
  intros Hi Hj. induction fields as [|f fields IH]; intros Hall; simpl; [reflexivity|].
  rewrite (fcell_at_row _ _ _ _ Hi), (fcell_at_row _ _ _ _ Hj). simpl.
  assert (Hrest : multi_break ff df_subset i j fields = Some false).
  { apply IH. intros fld Hin. apply Hall. right. exact Hin. }
  destruct (bool_decide (f ∈ fcolumns ff)) eqn:Ef; [|exact Hrest].
  apply bool_decide_eq_true in Ef. rewrite (Hall f (list_elem_of_here _ _) Ef). exact Hrest.
Qed.

Lemma numeric_break_holds ff df_subset i j fields ri rj :
  df_subset !! i = Some ri -> df_subset !! j = Some rj ->
  (forall fld tol, (fld, tol) ∈ fields -> fld ∈ fcolumns ff ->
     notna (feature_of ri fld) = true -> notna (feature_of rj fld) = true ->
     exists x y, float_of_fcell (feature_of ri fld) = Some x
                 /\ float_of_fcell (feature_of rj fld) = Some y
                 /\ Qabs (x - y) <= tol) ->
  numeric_break ff df_subset i j fields = Some false.
Proof.
  intros Hi Hj. induction fields as [|[f t] fields IH]; intros Hall; simpl; [reflexivity|].
  rewrite (fcell_at_row _ _ _ _ Hi), (fcell_at_row _ _ _ _ Hj). simpl.
  assert (Hrest : numeric_break ff df_subset i j fields = Some false).
  { apply IH. intros fld tol Hin. apply Hall. right. exact Hin. }
  destruct (bool_decide (f ∈ fcolumns ff)) eqn:Ef; [|exact Hrest].
  apply bool_decide_eq_true in Ef.
  destruct (notna (feature_of ri f)) eqn:Ni; [|exact Hrest].
  destruct (notna (feature_of rj f)) eqn:Nj; [|exact Hrest]. simpl.
  destruct (Hall f t (list_elem_of_here _ _) Ef Ni Nj) as (x & y & -> & -> & Hle). simpl.
  unfold within_tol. rewrite (proj2 (Qle_bool_iff _ _) Hle). exact Hrest.
Qed.

(** the round of a pair that meets the hard constraints leaves the matrix
    as it is *)
Lemma engine_pair_step_holds p ff df_subset compat i j ri rj :
  df_subset !! i = Some ri -> df_subset !! j = Some rj ->
  mget compat i j = Some true ->
  hard_constraints_hold p ff ri rj ->
  engine_pair_step p ff df_subset compat i j = Some compat.
Proof.
  intros Hi Hj Hm (Hcat & Hmulti & Hnum & Hage). unfold engine_pair_step.
  remember (_check_age_compatibility (age_rules p)) as chk eqn:Echk.
  rewrite (categorical_break_holds _ _ _ _ _ _ _ Hi Hj Hcat). simpl. rewrite Hm. simpl.
  rewrite (multi_break_holds _ _ _ _ _ _ _ Hi Hj Hmulti). simpl. rewrite Hm. simpl.
  rewrite (numeric_break_holds _ _ _ _ _ _ _ Hi Hj Hnum). simpl.
  destruct (age_rules p) as [r|] eqn:Er; [|reflexivity].
  rewrite Hm. simpl.
  destruct (bool_decide (field r ∈ fcolumns ff)) eqn:Ef; [|reflexivity].
  apply bool_decide_eq_true in Ef.
  rewrite (fcell_at_row _ _ _ _ Hi), (fcell_at_row _ _ _ _ Hj). simpl.
  destruct (notna (feature_of ri (field r))) eqn:Ni; [|reflexivity].
  destruct (notna (feature_of rj (field r))) eqn:Nj; [|reflexivity]. simpl.
  rewrite Echk, (Hage r eq_refl Ef Ni Nj). reflexivity.
Qed.

(** the round of a pair changes no entry but its own two *)
Lemma engine_pair_step_elsewhere n p ff df_subset compat a b m i j :
  square n compat -> (a < n)%nat -> (b < n)%nat ->
  engine_pair_step p ff df_subset compat a b = Some m ->
  ~ ((i = a /\ j = b) \/ (i = b /\ j = a)) ->
  mget m i j = mget compat i j.
Proof.
  intros Hsq Ha Hb Hstep Hne. revert Hstep. unfold engine_pair_step.
  remember (_check_age_compatibility (age_rules p)) as chk eqn:Echk. clear Echk.
  assert (Hclear : forall broke c, square n c ->
            mget (clear_if broke c a b) i j = mget c i j).
  { intros broke c Hc. destruct broke; simpl; [|reflexivity].
    rewrite (mget_clear_pair n) by assumption. rewrite decide_False by exact Hne. reflexivity. }
  assert (Hsqc : forall broke c, square n c -> square n (clear_if broke c a b)).
  { intros broke c Hc. destruct broke; [apply square_set_pair|]; assumption. }
  destruct (categorical_break ff df_subset a b (categorical_equal p)) as [b1|]; [|discriminate].
  simpl. set (c1 := clear_if b1 compat a b).
  assert (H1 : mget c1 i j = mget compat i j) by (apply Hclear; exact Hsq).
  assert (Hsq1 : square n c1) by (apply Hsqc; exact Hsq).
  destruct (mget c1 a b) as [[|]|]; simpl; [|intros [= <-]; exact H1|discriminate].
  destruct (multi_break ff df_subset a b (multi_overlap p)) as [b2|]; [|discriminate].
  simpl. set (c2 := clear_if b2 c1 a b).
  assert (H2 : mget c2 i j = mget compat i j) by (rewrite <- H1; apply Hclear; exact Hsq1).
  assert (Hsq2 : square n c2) by (apply Hsqc; exact Hsq1).
  destruct (mget c2 a b) as [[|]|]; simpl; [|intros [= <-]; exact H2|discriminate].
  destruct (numeric_break ff df_subset a b (numeric_tol p)) as [b3|]; [|discriminate].
  simpl. set (c3 := clear_if b3 c2 a b).
  assert (H3 : mget c3 i j = mget compat i j) by (rewrite <- H2; apply Hclear; exact Hsq2).
  assert (Hsq3 : square n c3) by (apply Hsqc; exact Hsq2).
  destruct (age_rules p) as [r|]; [|intros [= <-]; exact H3].
  destruct (mget c3 a b) as [[|]|]; simpl; [|intros [= <-]; exact H3|discriminate].
  destruct (bool_decide (field r ∈ fcolumns ff)); [|intros [= <-]; exact H3].
  destruct (fcell_at df_subset a (field r)) as [age_i|]; [|discriminate]. simpl.
  destruct (fcell_at df_subset b (field r)) as [age_j|]; [|discriminate]. simpl.
  destruct (notna age_i && notna age_j); [|intros [= <-]; exact H3].
  destruct (chk age_i age_j) as [ok|]; [|discriminate]. simpl.
  destruct ok; simpl; intros [= <-]; [exact H3|].
  rewrite (mget_clear_pair n) by assumption. rewrite decide_False by exact Hne. exact H3.
Qed.

Lemma engine_matrix_entry_complete p ff df_subset indices m i j ri rj :
  _build_compatibility_matrix p ff df_subset indices = Some m ->
  (i < j)%nat -> (j < length indices)%nat ->
  df_subset !! i = Some ri -> df_subset !! j = Some rj ->
  hard_constraints_hold p ff ri rj ->
  mget m i j = Some true.
Proof.
  unfold _build_compatibility_matrix. set (n := length indices).
  destruct (pair_loop n _ _) as [compat|] eqn:E; [|discriminate].
  simpl. intros [= <-] Hij Hjn Hri Hrj Hhold.
  assert (HQ : forall c, Some compat = Some c ->
                 (square n c /\ symmetric n c) /\ mget c i j = Some true).
  { rewrite <- E.
    apply (pair_loop_invariant
             (fun acc : option matrix => forall c, acc = Some c ->
                (square n c /\ symmetric n c) /\ mget c i j = Some true)).
    - intros c [= <-]. split; [apply ones_ok|]. unfold ones. apply mget_replicate; lia.
    - intros acc a b Hab Hb Hacc c Hc.
      destruct acc as [c0|]; [|discriminate]. simpl in Hc.
      destruct (Hacc c0 eq_refl) as [Hok Hm0].
      split; [eapply (engine_pair_step_ok n); [| |exact Hok|exact Hc]; lia|].
      destruct (decide (a = i /\ b = j)) as [[-> ->]|Hne].
      + rewrite (engine_pair_step_holds _ _ _ _ _ _ _ _ Hri Hrj Hm0 Hhold) in Hc.
        injection Hc as <-. exact Hm0.
      + rewrite (engine_pair_step_elsewhere n _ _ _ _ _ _ _ _ _ (proj1 Hok) (Nat.lt_trans _ _ _ Hab Hb) Hb Hc);
          [exact Hm0|].
        intros [[-> ->]|[-> ->]]; [apply Hne; split; reflexivity|lia]. }
  destruct (HQ compat eq_refl) as [[Hsq _] Hm].
  rewrite (mget_set_diag n) by (try assumption; lia).
  rewrite decide_False by lia. exact Hm.
Qed.

(** X19.  The engine's matrix is exactly the relation of the hard
    constraints: for two rows [i < j] of the subset the entry is true iff their
    values match on every [categorical_equal] field and overlap on every
    [multi_overlap] field of the frame, two present values of a [numeric_tol]
    field are within its tolerance and two present ages are compatible. *)
Theorem engine_matrix_characterised p ff df_subset indices m i j ri rj :
  _build_compatibility_matrix p ff df_subset indices = Some m ->
  (i < j)%nat -> (j < length indices)%nat ->
  df_subset !! i = Some ri -> df_subset !! j = Some rj ->
  (mget m i j = Some true <-> hard_constraints_hold p ff ri rj).
Proof.
  intros Hm Hij Hj Hri Hrj. split.
  - apply (engine_matrix_entry p ff df_subset indices m i j ri rj); assumption.
  - apply (engine_matrix_entry_complete p ff df_subset indices m i j ri rj); assumption.
Qed.
End EngineComplete.

(** ** The multi-choice normalisers *)

Lemma elem_of_foldl_union {A : Type} (f : A -> gset string) (l : list A) (acc : gset string) x :
  x ∈ foldl (fun result part => result ∪ f part) acc l
  <-> x ∈ acc \/ exists part, part ∈ l /\ x ∈ f part.
Proof.
  revert acc. induction l as [|p l IH]; intros acc; simpl.
  - split; [intros Hx; left; exact Hx|intros [Hx|(part & Hp & _)]; [exact Hx|inversion Hp]].
  - rewrite IH, elem_of_union. split.
    + intros [[Hx|Hx]|(part & Hp & Hx)].
      * left. exact Hx.
      * right. exists p. split; [left|exact Hx].
      * right. exists part. split; [right; exact Hp|exact Hx].
    + intros [Hx|(part & Hp & Hx)]; [left; left; exact Hx|].
      apply elem_of_cons in Hp as [->|Hp]; [left; right; exact Hx|].
      right. exists part. split; [exact Hp|exact Hx].
Qed.

Lemma nonempty_str_iff (s : string) : nonempty_str s = true <-> s <> "".
Proof. destruct s; simpl; split; try discriminate; try congruence; reflexivity. Qed.

Section MultiNormalisers.
Context `{Runtime}.

Lemma service_normalize_answer_nonempty svc v fld :
  isna v || is_empty_str v = false -> service_normalize_answer svc v fld <> ∅.
Proof.
  intros Hv. unfold service_normalize_answer. rewrite Hv. clear Hv.
  destruct (normalization_rules svc !! fld) as [rules|];
    [|apply (non_empty_singleton_L (C := gset string))].
  destruct (bool_decide _ || bool_decide _);
    [|apply (non_empty_singleton_L (C := gset string))].
  destruct (bool_decide (expansion rules = ∅)) eqn:E1; simpl.
  - destruct (bool_decide (options rules = ∅)) eqn:E2; simpl.
    + apply (non_empty_singleton_L (C := gset string)).
    + apply bool_decide_eq_false in E2. exact E2.
  - apply bool_decide_eq_false in E1. exact E1.
Qed.

(** X20.  The service's [normalize_answer] returns the empty set only for a
    missing value (NaN, None or the empty string): every other value, a string
    of blanks included, gives a non-empty set.  [normalize_multi_answer]
    returns the empty set for a missing value and for a value none of whose
    comma-separated parts is other than blank, and for nothing else. *)
Theorem service_normalizers_empty svc v fld :
  (service_normalize_answer svc v fld = ∅ <-> isna v || is_empty_str v = true)
  /\ (service_normalize_multi_answer svc v fld = ∅
      <-> (isna v || is_empty_str v = true
           \/ forall part, part ∈ split_comma (str_of_cell v) -> strip part = "")).
Proof.
  split.
  - split.
    + intros He. destruct (isna v || is_empty_str v) eqn:Ev; [reflexivity|].
      exfalso. exact (service_normalize_answer_nonempty svc v fld Ev He).
    + intros Hv. unfold service_normalize_answer. rewrite Hv. reflexivity.
  - unfold service_normalize_multi_answer.
    destruct (isna v || is_empty_str v) eqn:Ev; [split; [intros _; left|]; reflexivity|].
    split.
    + intros He. right. intros part Hp.
      destruct (strip part) as [|c s] eqn:Es; [reflexivity|]. exfalso.
      destruct (set_choose_or_empty (service_normalize_answer svc (Str (String c s)) fld))
        as [[x Hx]|Hempty].
      * apply (not_elem_of_empty (C := gset string) x). rewrite <- He.
        apply elem_of_foldl_union. right. exists (String c s). split; [|exact Hx].
        apply list_elem_of_filter. split; [reflexivity|].
        rewrite <- Es. apply list_elem_of_fmap_2. exact Hp.
      * apply (service_normalize_answer_nonempty svc (Str (String c s)) fld); [reflexivity|].
        apply leibniz_equiv. exact Hempty.
    + intros [Hc|Hblank]; [discriminate|].
      apply set_eq. intros x. rewrite elem_of_foldl_union. split; [|intros Hx; inversion Hx].
      intros [Hx|(part & Hp & _)]; [exact Hx|]. exfalso.
      apply list_elem_of_filter in Hp as [Hne Hp].
      apply list_elem_of_fmap in Hp as (raw & -> & Hraw).
      rewrite (Hblank raw Hraw) in Hne. discriminate.
Qed.

(** X21.  The two multi-choice normalisers of the legacy module differ by
    the blank parts alone: [normalize_multi_answer] holds whatever [to_set]
    holds for the column and, when some comma-separated part of the answer is
    blank, what the empty answer normalises to. *)
Theorem normalize_multi_answer_and_to_set rules v col x :
  col <> "" ->
  (x ∈ normalize_multi_answer rules v col
   <-> (x ∈ to_set rules v (Some col)
        \/ (isna v || is_empty_str v = false
            /\ (exists part, part ∈ split_comma (str_of_cell v) /\ strip part = "")
            /\ x ∈ normalize_answer rules "" col))).
Proof.
  intros Hcol. unfold normalize_multi_answer, to_set.
  destruct (isna v || is_empty_str v) eqn:Ev.
  { split; [intros Hx; inversion Hx|intros [Hx|(Hc & _)]; [inversion Hx|discriminate]]. }
  rewrite (proj2 (nonempty_str_iff col) Hcol).
  rewrite !elem_of_foldl_union. split.
  - intros [Hx|(part & Hp & Hx)]; [inversion Hx|].
    destruct part as [|c s] eqn:Epart.
    + right. split; [reflexivity|]. split; [|exact Hx].
      apply list_elem_of_fmap in Hp as (raw & Hraw & Hin). exists raw. split; [exact Hin|].
      symmetry. exact Hraw.
    + left. right. exists (String c s). split; [|exact Hx].
      apply list_elem_of_filter. split; [reflexivity|exact Hp].
  - intros [[Hx|(part & Hp & Hx)]|(_ & (raw & Hraw & Hs) & Hx)]; [inversion Hx| |].
    + right. exists part. split; [|exact Hx].
      apply list_elem_of_filter in Hp as [_ Hp]. exact Hp.
    + right. exists "". split; [|exact Hx]. rewrite <- Hs. apply list_elem_of_fmap_2. exact Hraw.
Qed.
End MultiNormalisers.

(** ** What the engine reads of the policy *)

Section PolicyFields.
Context `{Runtime} {St : Type}.
Variable legacy_group_size : Z.
Variable group_ok : list nat -> option bool.
Variable score : St -> list nat -> option (Q * St).
Variable score_explain : St -> list nat -> option (Q * St).

(** the entries of the policy that the run reads *)
Definition same_hard_policy (p p' : Policy) : Prop :=
  subspaces p = subspaces p'
  /\ categorical_equal p = categorical_equal p'
  /\ multi_overlap p = multi_overlap p'
  /\ numeric_tol p = numeric_tol p'
  /\ age_rules p = age_rules p'
  /\ min_group_size p = min_group_size p'.

Lemma build_matrix_same_policy p p' ff df_subset indices :
  same_hard_policy p p' ->
  _build_compatibility_matrix p ff df_subset indices
  = _build_compatibility_matrix p' ff df_subset indices.
Proof.
  intros (_ & Hc & Hm & Hn & Ha & _).
  unfold _build_compatibility_matrix, engine_pair_step. rewrite Hc, Hm, Hn, Ha. reflexivity.
Qed.

Lemma process_loop_same_policy fuel p p' ff key available compat_matrix es :
  same_hard_policy p p' ->
  process_loop legacy_group_size group_ok score score_explain fuel p ff key available
    compat_matrix es
  = process_loop legacy_group_size group_ok score score_explain fuel p' ff key available
      compat_matrix es.
Proof.
  intros Hp. pose proof Hp as (_ & _ & _ & _ & _ & Hmin).
  revert available compat_matrix es.
  induction fuel as [|fuel IH]; intros available compat_matrix es; simpl; rewrite Hmin;
    [reflexivity|].
  destruct (bool_decide _); [|reflexivity].
  destruct (_build_group _ _ _ _ _ _ _) as [[group st1]|]; [|reflexivity]. simpl.
  destruct (bool_decide (group = [])); [reflexivity|].
  destruct (_create_group_explanation _ _ _ _) as [[e st2]|]; [|reflexivity]. simpl.
  destruct (bool_decide _); [apply IH|].
  destruct (features_iloc ff _) as [df_subset|]; [|reflexivity]. simpl.
  rewrite (build_matrix_same_policy p p') by exact Hp.
  destruct (_build_compatibility_matrix p' ff df_subset _) as [m|]; [|reflexivity]. simpl.
  apply IH.
Qed.

Lemma run_same_policy p p' ff st :
  same_hard_policy p p' ->
  run legacy_group_size group_ok score score_explain p ff st
  = run legacy_group_size group_ok score score_explain p' ff st.
Proof.
  intros Hp. pose proof Hp as (Hs & _ & _ & _ & _ & Hmin).
  unfold run.
  assert (Epart : _partition_by_subspaces p ff = _partition_by_subspaces p' ff).
  { unfold _partition_by_subspaces, composite_key. rewrite Hs. reflexivity. }
  rewrite Epart, Hs.
  assert (Estep : forall es key indices,
            _process_subspace legacy_group_size group_ok score score_explain p ff es key
              indices
            = _process_subspace legacy_group_size group_ok score score_explain p' ff es key
                indices).
  { intros es key indices. unfold _process_subspace. rewrite Hmin.
    destruct (bool_decide _); [reflexivity|].
    destruct (features_iloc ff _) as [df_subset|]; [|reflexivity].
    cbn -[process_loop].
    rewrite (build_matrix_same_policy p p') by exact Hp.
    destruct (_build_compatibility_matrix p' ff df_subset _) as [m|]; [|reflexivity].
    cbn -[process_loop]. apply process_loop_same_policy. exact Hp. }
  f_equal.
  generalize (Some (mkEngineState [] (list_to_set (seq 0 (length (frows ff)))) [] st)).
  generalize (if negb (bool_decide (subspaces p' = [])) then _partition_by_subspaces p' ff
              else [("global", seq 0 (length (frows ff)))]).
  intros parts. induction parts as [|[key indices] parts IH]; intros acc; simpl; [reflexivity|].
  rewrite <- IH. f_equal. destruct acc as [es|]; [|reflexivity]. simpl. apply Estep.
Qed.

(** X22.  The groups of a run depend on the policy through its subspaces,
    its hard constraints, its age rules and the minimal group size alone: two
    policies that agree on these give the same groups, whatever their
    [group_size], [max_group_size], soft [weights] and [numeric_features],
    flexible answers and [defer_if_infeasible]. *)
Theorem run_reads_hard_policy_only p p' ff st :
  subspaces p = subspaces p' ->
  categorical_equal p = categorical_equal p' ->
  multi_overlap p = multi_overlap p' ->
  numeric_tol p = numeric_tol p' ->
  age_rules p = age_rules p' ->
  min_group_size p = min_group_size p' ->
  fst <$> run legacy_group_size group_ok score score_explain p ff st
  = fst <$> run legacy_group_size group_ok score score_explain p' ff st.
Proof.
  intros Hs Hc Hm Hn Ha Hmin. rewrite (run_same_policy p p'); [reflexivity|].
  repeat split; assumption.
Qed.
End PolicyFields.

(** ** The band of an age *)

Lemma first_band_head (bs : list AgeBand) (a : Q) (n : nat) :
  first_band bs a (Z.of_nat n)
  = match head (fst <$> filter (fun p : nat * AgeBand => in_band a p.2 = true)
                          (imap (fun i b => ((n + i)%nat, b)) bs)) with
    | Some i => Z.of_nat i
    | None => (-1)%Z
    end.
Proof.
  revert n. induction bs as [|b bs IH]; intros n; [reflexivity|].
  cbn [first_band imap]. rewrite filter_cons. cbn [snd].
  destruct (in_band a b) eqn:Eb.
  - rewrite decide_True by reflexivity. simpl. rewrite Nat.add_0_r. reflexivity.
  - rewrite decide_False by discriminate.
    replace (Z.of_nat n + 1)%Z with (Z.of_nat (S n)) by lia. rewrite IH.
    rewrite (imap_ext (fun i b => ((S n + i)%nat, b)) ((fun i b => ((n + i)%nat, b)) ∘ S) bs);
      [reflexivity|].
    intros i x _. simpl. f_equal. lia.
Qed.

(** X23.  [get_age_band] returns the band that [pass_group_constraints]
    uses as the band of an age, the first one that contains it (-1 for none).
    Under band rules that [validate_config] accepts, an age is compatible with
    itself exactly when it lies in some band. *)
Theorem get_age_band_first_band cfg r a :
  AGE_RULES cfg = Some r -> validate_config cfg = true -> max_age_difference r = None ->
  get_age_band (Some a) (Some r)
  = match band_id (bands r) a with Some i => Z.of_nat i | None => (-1)%Z end
  /\ ((0 <= get_age_band (Some a) (Some r))%Z
      <-> check_age_compatibility (Some a) (Some a) (Some r) = true).
Proof.
  intros Hr Hval Hlegacy.
  assert (Hband : get_age_band (Some a) (Some r)
                  = match band_id (bands r) a with Some i => Z.of_nat i | None => (-1)%Z end).
  { unfold get_age_band, band_id, bands_of. rewrite (first_band_head _ _ 0). reflexivity. }
  split; [exact Hband|]. rewrite Hband.
  assert (Hspread : forall i s, band_spread (bands r) i s -> 0 <= s).
  { intros i s Hs. unfold band_spread in Hs.
    destruct (bands r !! i) as [b|] eqn:Hb; [|discriminate]. simpl in Hs.
    unfold validate_config in Hval. rewrite Hr in Hval.
    apply andb_true_iff in Hval as [_ Hval]. apply andb_true_iff in Hval as [_ Hval].
    rewrite forallb_forall in Hval.
    assert (Hin : In b (bands r)).
    { apply list_elem_of_In. apply list_elem_of_lookup. exists i. exact Hb. }
    specialize (Hval b Hin). apply andb_true_iff in Hval as [_ Hval].
    rewrite Hs in Hval. apply Qle_bool_iff. exact Hval. }
  rewrite (check_age_compatibility_bands r a a Hlegacy).
  unfold band_id. destruct (bands_of (bands r) a) as [|i l] eqn:E; simpl.
  - split; [lia|]. intros [[i Hi] _]. apply elem_of_bands_of in Hi. rewrite E in Hi.
    inversion Hi.
  - split; [intros _|lia].
    assert (Hi : band_contains (bands r) i a).
    { apply elem_of_bands_of. rewrite E. left. }
    split; [exists i; exact Hi|]. split; [exists i; exact Hi|].
    left. split; [exists i; split; exact Hi|].
    intros k s _ _ Hs.
    assert (E0 : a - a == 0) by ring.
    rewrite E0. exact (Hspread k s Hs).
Qed.

(** * The properties on the example data *)

(** ** C1 *)

(** C1 on the three participants of [ex_df]: the builder returns a matrix,
    true on its diagonal and symmetric. *)
Lemma compatibility_matrix_example :
  exists compat,
    @build_compatibility_matrix_vectorized cpython_runtime ex_cfg ex_rules ex_df None
      = Some compat
    /\ forall i j, (i < 3)%nat -> (j < 3)%nat ->
         mget compat i i = Some true /\ mget compat i j = mget compat j i.
Proof.
  apply (proj1 (@compatibility_matrix_symmetric_reflexive cpython_runtime)
           ex_cfg ex_rules ex_df None).
  repeat constructor.
Defined.

(** ** C2 *)

(** C2 does not hold of the engine.  The policy asks for groups of at
    least five members; of the five participants of [bug_features] the last
    two are incompatible, the builder assembles the four members 3, 0, 1, 2
    and, its own minimum being the literal 4, returns them: the engine emits
    a group of four.  Conversely a policy whose [group_size] and
    [max_group_size] are 4 gets a group of five, the builder filling groups up
    to the [GROUP_SIZE] of the legacy module. *)
Theorem emitted_group_below_policy_minimum :
  min_group_size bug_policy = 5%Z
  /\ fst <$> bug_run bug_policy = Some [[3; 0; 1; 2]]%nat
  /\ group_size small_policy = 4%Z /\ max_group_size small_policy = 4%Z
  /\ fst <$> bug_run small_policy = Some [[0; 1; 2; 3; 4]]%nat.
Proof. vm_compute. repeat split. Qed.

(** ** C3 *)

(** C3 on a run of [make_groups] that emits two groups. *)
Lemma emitted_groups_disjoint_example :
  exists groups,
    @make_groups cpython_runtime tie_cfg ∅ tie_df no_caches = Some groups
    /\ length groups = 2%nat
    /\ NoDup (concat groups).
Proof.
  exists [[0; 8; 1; 2]; [3; 4; 5; 6]]%nat.
  assert (Hrun : @make_groups cpython_runtime tie_cfg ∅ tie_df no_caches
                 = Some [[0; 8; 1; 2]; [3; 4; 5; 6]]%nat) by (vm_compute; reflexivity).
  split; [exact Hrun|]. split; [reflexivity|].
  exact (proj1 (proj1 (@emitted_groups_disjoint cpython_runtime) _ _ _ _ _ Hrun)).
Defined.

(** ** C4 *)


(** ** C5 *)

(** C5 under [ex_age_rules] for the ages 22 and 27, and for a missing age. *)
Lemma age_compatibility_example :
  (check_age_compatibility (Some 22) (Some 27) (Some ex_age_rules) = true <->
   ((exists i, band_contains (bands ex_age_rules) i 22)
    /\ (exists i, band_contains (bands ex_age_rules) i 27)
    /\ spec_age_compatible ex_age_rules 22 27))
  /\ check_age_compatibility None (Some 27) (Some ex_age_rules) = false.
Proof.
  destruct (@age_compatibility_rule cpython_runtime ex_age_rules eq_refl)
    as (Hiff & Hmiss & _).
  split; [exact (Hiff 22 27)|exact (proj1 (Hmiss (Some 27)))].
Defined.

(** C5 as the specification words it fails for an age that lies in no band.
    The ages 15 and 25 share no band, crossing is allowed and they are 10
    apart, within the spread 100 of the band of 25: compatible by the rule of
    the specification, incompatible for the legacy algorithm, which refuses an
    age outside every band, and for the engine, which bounds a crossing by
    [boundary_slack_years]. *)
Lemma age_outside_bands_counterexample :
  spec_age_compatible ex_age_rules 15 25
  /\ check_age_compatibility (Some 15) (Some 25) (Some ex_age_rules) = false
  /\ engine_age_compatible ex_age_rules 15 25 = false.
Proof.
  split; [|split; vm_compute; reflexivity].
  right. split; [|split; [reflexivity|]].
  - intros (i & (b & Hb & Hlo & _) & _).
    destruct i as [|i]; [|destruct i; discriminate].
    injection Hb as <-. vm_compute in Hlo. apply Hlo. reflexivity.
  - exists 0%nat, 100. split; [|split].
    + right. exists (mkBand 20 30 (Some 100)). split; [reflexivity|].
      split; vm_compute; discriminate.
    + reflexivity.
    + vm_compute. discriminate.
Qed.

(** ** C6 *)



(** ** C7 *)

(** C7 on the first round after the seed 0 of the candidates 0, 1, 2, 3, 8. *)
Lemma extension_step_example :
  exists st' scored pre post sx,
    extend_step tie_group_ok tie_score (ones 5) tie_global_to_local no_caches
      [0%nat] tie_remaining = Some (Some 8%nat, st')
    /\ scored.*1 = tie_remaining
    /\ scored = pre ++ (8%nat, sx) :: post
    /\ (forall y sy, (y, sy) ∈ scored -> sy <= sx)
    /\ (forall y sy, (y, sy) ∈ pre -> sy < sx).
Proof.
  destruct (extend_step tie_group_ok tie_score (ones 5) tie_global_to_local no_caches
              [0%nat] tie_remaining) as [[x st']|] eqn:Hstep;
    [|vm_compute in Hstep; discriminate].
  assert (Hx : x = Some 8%nat).
  { assert (E : fst <$> Some (x, st') = Some (Some 8%nat))
      by (rewrite <- Hstep; vm_compute; reflexivity).
    injection E as ->. reflexivity. }
  subst x.
  destruct (extension_takes_first_maximum tie_group_ok tie_score _ _ _ _ _ _ _ Hstep)
    as (scored & pre & post & sx & _ & H2 & H3 & H4 & H5 & _).
  exists st', scored, pre, post, sx.
  split; [reflexivity|]. split; [|repeat split; assumption].
  rewrite H2. vm_compute. reflexivity.
Defined.

(** C7 as the specification words it fails on ties: the tie is broken by
    the iteration order of the set of remaining candidates, not by the index.
    After the seed 0 the set [{1, 2, 3, 8}] is iterated as 8, 1, 2, 3; the
    candidates are all feasible and score the same; the round appends 8, not
    1, and with groups of four the builder returns 0, 8, 1, 2, leaving out 3. *)
Lemma extension_lowest_index_counterexample :
  tie_remaining = [8; 1; 2; 3]%nat
  /\ fst <$> extend_step tie_group_ok tie_score (ones 5) tie_global_to_local no_caches
               [0%nat] tie_remaining = Some (Some 8%nat)
  /\ is_feasible tie_group_ok (ones 5) tie_global_to_local [0%nat] 1%nat = Some true
  /\ fst <$> tie_score no_caches [0; 1]%nat = fst <$> tie_score no_caches [0; 8]%nat
  /\ fst <$> build_one_group_optimized 4 tie_group_ok tie_score (H := cpython_runtime)
               no_caches [0; 1; 2; 3; 8]%nat (ones 5) [0; 1; 2; 3; 4]%nat
     = Some [0; 8; 1; 2]%nat.
Proof. vm_compute. repeat split. Qed.

(** ** C8 *)

(** C8 does not hold of a run of [make_groups].  Over [stale_df] the matrix
    of the one subspace is built for the pool 0..7, whose local indices are
    the participants' own.  After the first group 4, 0, 1, 2 the pool is 3, 5,
    6, 7 and the local indices are taken from the shrunk pool: 0, 1, 2, 3.
    The builder reads the rows 0..3 of the old matrix, which are the rows of
    the participants 0, 1, 2, 3 and all have three true entries, and chooses
    the seed 3.  Among the available participants 3, 5, 6, 7 the degree of 3
    is 3 and the degree of 5 is 1, in the rows of the matrix that belong to
    them as in the matrix built afresh for the shrunk pool: the seed of the
    second group is the most compatible available candidate, not the least. *)
Theorem seed_of_later_group_not_least_compatible :
  exists compat_matrix fresh_matrix,
    @build_compatibility_matrix_per_subspace cpython_runtime stale_cfg ∅ stale_df
      [0; 1; 2; 3; 4; 5; 6; 7]%nat = Some compat_matrix
    /\ @make_groups cpython_runtime stale_cfg ∅ stale_df no_caches
       = Some [[4; 0; 1; 2]; [3; 5; 6; 7]]%nat
    /\ filter (fun i => i ∉ (list_to_set [4; 0; 1; 2]%nat : gset nat))
         [0; 1; 2; 3; 4; 5; 6; 7]%nat = [3; 5; 6; 7]%nat
    /\ mapM (list_index [3; 5; 6; 7]%nat) [3; 5; 6; 7]%nat = Some [0; 1; 2; 3]%nat
    /\ choose_seed compat_matrix [3; 5; 6; 7]%nat [0; 1; 2; 3]%nat = Some 3%nat
    /\ fst <$> @build_one_group_optimized _ (GROUP_SIZE stale_cfg)
                 (@group_ok_on cpython_runtime stale_cfg stale_df)
                 (@score_on cpython_runtime stale_cfg ∅ stale_df) cpython_runtime no_caches
                 [3; 5; 6; 7]%nat compat_matrix [0; 1; 2; 3]%nat
       = Some [3; 5; 6; 7]%nat
    /\ degree compat_matrix [3; 5; 6; 7]%nat 3 = 3%nat
    /\ degree compat_matrix [3; 5; 6; 7]%nat 5 = 1%nat
    /\ @build_compatibility_matrix_per_subspace cpython_runtime stale_cfg ∅ stale_df
         [3; 5; 6; 7]%nat = Some fresh_matrix
    /\ degree fresh_matrix [0; 1; 2; 3]%nat 0 = 3%nat
    /\ degree fresh_matrix [0; 1; 2; 3]%nat 1 = 1%nat.
Proof.
  destruct (@build_compatibility_matrix_per_subspace cpython_runtime stale_cfg ∅ stale_df
              [0; 1; 2; 3; 4; 5; 6; 7]%nat) as [compat_matrix|] eqn:E;
    [|vm_compute in E; discriminate].
  destruct (@build_compatibility_matrix_per_subspace cpython_runtime stale_cfg ∅ stale_df
              [3; 5; 6; 7]%nat) as [fresh_matrix|] eqn:F;
    [|vm_compute in F; discriminate].
  exists compat_matrix, fresh_matrix.
  vm_compute in E. injection E as <-. vm_compute in F. injection F as <-.
  split; [reflexivity|]. split; [vm_compute; reflexivity|].
  split; [vm_compute; reflexivity|]. split; [vm_compute; reflexivity|].
  split; [vm_compute; reflexivity|]. split; [vm_compute; reflexivity|].
  split; [vm_compute; reflexivity|]. split; [vm_compute; reflexivity|].
  split; [reflexivity|]. split; vm_compute; reflexivity.
Qed.

(** ** C9 *)

(** C9 on the two participants of [soft_df]. *)
Lemma group_score_example :
  exists C caches1,
    @categorical_term cpython_runtime soft_cfg soft_df (rows soft_df) false = Some C
    /\ @group_score cpython_runtime soft_cfg ∅ soft_df no_caches [0; 1]%nat (rows soft_df) false
       = Some (BETA_DIVERSITY soft_cfg * @diversity cpython_runtime soft_cfg soft_df (rows soft_df)
               + GAMMA_SIMILARITY soft_cfg
                 * fst (@similarity_term cpython_runtime soft_cfg soft_df no_caches
                          (rows soft_df) [0; 1]%nat)
               + CATEGORICAL_DIVERSITY soft_cfg * C
               + MULTI_CHOICE_OVERLAP soft_cfg
                 * @multi_choice_term cpython_runtime soft_cfg ∅ soft_df (rows soft_df),
               caches1).
Proof.
  refine (proj1 (proj2 (@group_score_formula cpython_runtime soft_cfg ∅ soft_df no_caches
                          [0; 1]%nat (rows soft_df) _ _)) _).
  - discriminate.
  - discriminate.
  - vm_compute. reflexivity.
Defined.

(** C9 as the specification words it fails on the default weights.  With
    the weights of [default_config] the group of [soft_df] has [D = 2],
    [S = 1/2], [C = 2/3] and [M = 1/2] and scores
    [1 * D + 0.2 * S + 0.1 * C + 0.1 * M], not
    [1 * D + 0.2 * S + 0.4 * C + 0.5 * M]. *)
Lemma group_score_default_weights_counterexample :
  exists s,
    fst <$> @group_score cpython_runtime soft_cfg ∅ soft_df no_caches [0; 1]%nat
              (rows soft_df) false = Some s
    /\ @diversity cpython_runtime soft_cfg soft_df (rows soft_df) == 2
    /\ fst (@similarity_term cpython_runtime soft_cfg soft_df no_caches (rows soft_df)
              [0; 1]%nat) == 1 # 2
    /\ @categorical_term cpython_runtime soft_cfg soft_df (rows soft_df) false = Some (2 # 3)
    /\ @multi_choice_term cpython_runtime soft_cfg ∅ soft_df (rows soft_df) == 1 # 2
    /\ s == 1 * 2 + (2 # 10) * (1 # 2) + (1 # 10) * (2 # 3) + (1 # 10) * (1 # 2)
    /\ ~ s == 1 * 2 + (2 # 10) * (1 # 2) + (4 # 10) * (2 # 3) + (5 # 10) * (1 # 2).
Proof.
  eexists. split; [vm_compute; reflexivity|].
  repeat split; try (vm_compute; reflexivity).
  vm_compute. discriminate.
Qed.

(** ** C10 *)

(** C10 on [ex_df]: the third participant left the areas blank and is
    paired with nobody. *)
Lemma missing_multi_value_example :
  "area" ∈ CUT_MULTI ex_cfg
  /\ @to_set cpython_runtime ex_rules NaN (Some "area") = ∅
  /\ @pass_pairwise_cuts cpython_runtime ex_cfg ex_rules ex_row_en ex_row_he = false
  /\ exists compat,
       @build_compatibility_matrix_vectorized cpython_runtime ex_cfg ex_rules ex_df
         (Some [0; 1; 2]%nat) = Some compat
       /\ mget compat 2 0 = Some false /\ mget compat 0 2 = Some false.
Proof.
  assert (Hcol : "area" ∈ CUT_MULTI ex_cfg) by left.
  destruct (@missing_multi_value_never_pairs cpython_runtime ex_cfg ex_rules "area" Hcol)
    as (Hset & Hpair & Hmatrix).
  split; [exact Hcol|].
  split; [apply Hset; left; reflexivity|].
  split; [apply (Hpair ex_row_en ex_row_he); left; reflexivity|].
  eexists. split; [vm_compute; reflexivity|].
  refine (proj2 (proj2 (Hmatrix ex_df [0; 1; 2]%nat (rows ex_df) _ 2%nat 0%nat ex_row_en
                          _ _ _ _ _ _ _ _))).
  - reflexivity.
  - vm_compute. reflexivity.
  - reflexivity.
  - simpl. lia.
  - simpl. lia.
  - discriminate.
  - reflexivity.
  - left. reflexivity.
Defined.

(** ** The further properties on the example data *)

(** the builder on the five candidates of [tie_df], all compatible: the
    second and the fourth member of the group it returns *)
Lemma built_group_pairwise_compatible_example :
  exists kx ky lx ly,
    [0; 1; 2; 3; 8]%nat !! kx = Some 8%nat /\ [0; 1; 2; 3; 4]%nat !! kx = Some lx
    /\ [0; 1; 2; 3; 8]%nat !! ky = Some 2%nat /\ [0; 1; 2; 3; 4]%nat !! ky = Some ly
    /\ mget (ones 5) ly lx = Some true.
Proof.
  destruct (build_one_group_optimized (H := cpython_runtime) 4 tie_group_ok tie_score
              no_caches [0; 1; 2; 3; 8]%nat (ones 5) [0; 1; 2; 3; 4]%nat)
    as [[g st']|] eqn:E; [|vm_compute in E; discriminate].
  assert (Hg : g = [0; 8; 1; 2]%nat).
  { assert (Hf : fst <$> build_one_group_optimized (H := cpython_runtime) 4 tie_group_ok
                   tie_score no_caches [0; 1; 2; 3; 8]%nat (ones 5) [0; 1; 2; 3; 4]%nat
                 = Some [0; 8; 1; 2]%nat) by (vm_compute; reflexivity).
    rewrite E in Hf. simpl in Hf. congruence. }
  subst g.
  exact (built_group_pairwise_compatible 4 tie_group_ok tie_score _ _ _ _ _ _ E
           1%nat 3%nat 8%nat 2%nat ltac:(lia) eq_refl eq_refl).
Defined.

(** the engine over [bug_features]: the members 0 and 3 of its group *)
Lemma engine_hard_constraints_example :
  exists rx ry,
    frows bug_features !! 0%nat = Some rx /\ frows bug_features !! 3%nat = Some ry
    /\ @hard_constraints_hold cpython_runtime bug_policy bug_features rx ry.
Proof.
  destruct (bug_run bug_policy) as [[groups explanations]|] eqn:E;
    [|vm_compute in E; discriminate].
  assert (Hg : groups = [[3; 0; 1; 2]]%nat).
  { assert (Hf : fst <$> bug_run bug_policy = Some [[3; 0; 1; 2]]%nat)
      by (vm_compute; reflexivity).
    rewrite E in Hf. simpl in Hf. congruence. }
  subst groups. unfold bug_run in E.
  apply (engine_groups_satisfy_hard_constraints _ _ _ _ _ _ _ _ _ E [3; 0; 1; 2]%nat).
  - apply list_elem_of_here.
  - apply list_elem_of_further, list_elem_of_here.
  - apply list_elem_of_here.
  - lia.
Defined.

(** the statistics of the run over [bug_features] *)
Lemma engine_statistics_example :
  exists es,
    bug_run_engine bug_policy = Some es
    /\ grouped_participants (get_statistics bug_features es)
       = Z.of_nat (sum_list (group_sizes (get_statistics bug_features es)))
    /\ total_participants (get_statistics bug_features es)
       = (sum_list (group_sizes (get_statistics bug_features es))
          + ungrouped_participants (get_statistics bug_features es))%nat.
Proof.
  destruct (bug_run_engine bug_policy) as [es|] eqn:E; [|vm_compute in E; discriminate].
  exists es. split; [reflexivity|]. unfold bug_run_engine in E.
  destruct (engine_statistics_add_up _ _ _ _ _ _ _ _ E) as (_ & _ & H1 & H2 & _).
  split; [exact H1|exact H2].
Defined.

(** the explanation of the group of the run over [bug_features] *)
Lemma explanations_describe_groups_example :
  exists groups explanations,
    bug_run bug_policy = Some (groups, explanations)
    /\ length explanations = length groups.
Proof.
  destruct (bug_run bug_policy) as [[groups explanations]|] eqn:E;
    [|vm_compute in E; discriminate].
  exists groups, explanations. split; [reflexivity|]. unfold bug_run in E.
  exact (proj1 (explanations_describe_groups _ _ _ _ _ _ _ _ _ E)).
Defined.

(** the four participants of [banded_df] pass the group constraints *)
Lemma pass_group_constraints_example :
  exists ages,
    @to_numeric cpython_runtime <$> column_values (rows banded_df) "age" = Some <$> ages
    /\ (forall a b, a ∈ ages -> b ∈ ages -> a - b <= 6)
    /\ (forall a b, a ∈ ages -> b ∈ ages ->
          band_id (bands banded_rules) a = band_id (bands banded_rules) b).
Proof.
  destruct (@pass_group_constraints_accepted cpython_runtime banded_cfg banded_df
              (rows banded_df) banded_rules)
    as (ages & Hages & Hdiff & _ & Hband).
  - reflexivity.
  - reflexivity.
  - discriminate.
  - vm_compute. reflexivity.
  - exists ages. split; [exact Hages|]. split.
    + intros a b. apply Hdiff. reflexivity.
    + apply Hband; [discriminate|reflexivity].
Defined.

(** the two groups of [make_groups] over [city_df]: the members 2 and 6 of
    the first one live in the same city *)
Lemma make_groups_subspace_example :
  exists rx ry,
    rows city_df !! 2%nat = Some rx /\ rows city_df !! 6%nat = Some ry
    /\ @subspace_key cpython_runtime city_cfg rx = @subspace_key cpython_runtime city_cfg ry.
Proof.
  assert (Hrun : @make_groups cpython_runtime city_cfg ∅ city_df no_caches
                 = Some [[0; 2; 4; 6]; [1; 3; 5; 7]]%nat) by (vm_compute; reflexivity).
  destruct (@make_groups_members_share_subspace cpython_runtime _ _ _ _ _ Hrun
              [0; 2; 4; 6]%nat 2%nat 6%nat)
    as (rx & ry & Hx & Hy & Hkey & _).
  - apply list_elem_of_here.
  - apply list_elem_of_further, list_elem_of_here.
  - do 3 apply list_elem_of_further. apply list_elem_of_here.
  - exists rx, ry. split; [exact Hx|]. split; [exact Hy|exact Hkey].
Defined.

(** the score of the two participants of [soft_df], asked for again with the
    index the other way round *)
Lemma group_score_cache_example :
  exists s caches1,
    @group_score cpython_runtime soft_cfg ∅ soft_df no_caches [0; 1]%nat (rows soft_df) false
    = Some (s, caches1)
    /\ @group_score cpython_runtime soft_cfg ∅ soft_df caches1 [1; 0]%nat (rows soft_df) false
       = Some (s, caches1).
Proof.
  destruct (@group_score cpython_runtime soft_cfg ∅ soft_df no_caches [0; 1]%nat
              (rows soft_df) false) as [[s caches1]|] eqn:E; [|vm_compute in E; discriminate].
  exists s, caches1. split; [reflexivity|].
  apply (proj2 (@group_score_served_from_cache cpython_runtime soft_cfg ∅ soft_df no_caches
                  [0; 1]%nat (rows soft_df) s caches1 [1; 0]%nat (rows soft_df)
                  ltac:(discriminate) ltac:(discriminate) E (perm_swap _ _ _)
                  ltac:(discriminate))).
Defined.

(** the explained score of [soft_df] under a configuration that scores the
    language by diversity *)
Lemma group_score_explain_example :
  @group_score cpython_runtime diversity_cfg ∅ soft_df no_caches [0; 1]%nat (rows soft_df) true
  = None.
Proof.
  apply (@group_score_explain_unbound_local cpython_runtime diversity_cfg ∅ soft_df no_caches
           [0; 1]%nat (rows soft_df) [] "lang" "diversity" []).
  - discriminate.
  - discriminate.
  - reflexivity.
  - constructor.
  - reflexivity.
  - left. discriminate.
Defined.

(** the languages of [ex_df]: the flexible answer against a concrete one *)
Lemma categorical_cut_example :
  @categorical_passed cpython_runtime
    (@build_normalization_rules cpython_runtime ex_cfg ex_df ∅) ex_row_any ex_row_he "lang"
  = true.
Proof.
  apply (@categorical_cut_decided cpython_runtime ex_cfg ex_df ∅ "lang" ex_row_any ex_row_he
           "any" "he").
  - reflexivity.
  - apply list_elem_of_here.
  - apply (bool_decide_unpack _). vm_compute. exact I.
  - apply list_elem_of_further, list_elem_of_here.
  - apply list_elem_of_here.
  - reflexivity.
  - reflexivity.
  - reflexivity.
  - reflexivity.
  - right. split; [left; apply (bool_decide_unpack _); vm_compute; exact I|].
    exists "he". split; apply (bool_decide_unpack _); vm_compute; exact I.
Defined.

(** the terms of the score of [soft_df] *)
Lemma score_terms_example :
  0 <= @diversity cpython_runtime soft_cfg soft_df (rows soft_df)
  /\ fst (@similarity_term cpython_runtime soft_cfg soft_df no_caches (rows soft_df)
            [0; 1]%nat) <= 1.
Proof.
  destruct (@score_terms_ranges cpython_runtime example_sqrt_nonneg soft_cfg ∅ soft_df
              no_caches (rows soft_df) [0; 1]%nat) as (HD & [_ HS] & _).
  split; [exact HD|exact HS].
Defined.

(** the score of [soft_df] *)
Lemma group_score_nonnegative_example :
  exists s caches',
    @group_score cpython_runtime soft_cfg ∅ soft_df no_caches [0; 1]%nat (rows soft_df) false
    = Some (s, caches')
    /\ 0 <= s.
Proof.
  destruct (@group_score_nonnegative cpython_runtime example_sqrt_nonneg soft_cfg ∅ soft_df
              no_caches [0; 1]%nat (rows soft_df))
    as (s & caches' & Hs & H0 & _).
  - discriminate.
  - discriminate.
  - discriminate.
  - discriminate.
  - intros k s Hk. simpl in Hk. rewrite lookup_empty in Hk. discriminate.
  - discriminate.
  - discriminate.
  - exists s, caches'. split; [exact Hs|exact H0].
Defined.

(** [make_groups] over the nine participants of [tie_df] *)
Lemma make_groups_returns_example :
  is_Some (@make_groups cpython_runtime tie_cfg ∅ tie_df no_caches).
Proof.
  apply (@make_groups_returns cpython_runtime tie_cfg ∅ tie_df no_caches example_sqrt_nonneg).
  - discriminate.
  - discriminate.
  - discriminate.
  - discriminate.
  - discriminate.
  - intros _. split; reflexivity.
Defined.

(** the matrix of [ex_df]: the entry of the first two participants *)
Lemma vectorized_matrix_agreement_example :
  exists compat,
    @build_compatibility_matrix_vectorized cpython_runtime ex_cfg ex_rules ex_df
      (Some [0; 1; 2]%nat) = Some compat
    /\ mget compat 0 1
       = Some (@pass_pairwise_cuts cpython_runtime ex_cfg ex_rules ex_row_he ex_row_any
               && @age_cut cpython_runtime ex_cfg ex_row_he ex_row_any).
Proof.
  destruct (@build_compatibility_matrix_vectorized cpython_runtime ex_cfg ex_rules ex_df
              (Some [0; 1; 2]%nat)) as [compat|] eqn:E; [|vm_compute in E; discriminate].
  exists compat. split; [reflexivity|].
  apply (@vectorized_matrix_agrees_with_pairwise_cuts cpython_runtime ex_cfg ex_rules ex_df
           [0; 1; 2]%nat compat 0%nat 1%nat 0%nat 1%nat ex_row_he ex_row_any).
  - reflexivity.
  - intros col Hcol. apply list_elem_of_singleton in Hcol as ->.
    split; eexists; reflexivity.
  - intros col tol s Hcol. apply list_elem_of_singleton in Hcol as [= -> ->].
    split; discriminate.
  - exact E.
  - reflexivity.
  - reflexivity.
  - discriminate.
  - reflexivity.
  - reflexivity.
Defined.

(** the engine's matrix of [gap_features]: the one pair of it *)
Lemma engine_matrix_example :
  exists m,
    @_build_compatibility_matrix cpython_runtime gap_policy gap_features
      (frows gap_features) [0; 1]%nat = Some m
    /\ (mget m 0 1 = Some true
        <-> @hard_constraints_hold cpython_runtime gap_policy gap_features
              {[ "budget" := FNum 3 ]} {[ "budget" := FNaN ]}).
Proof.
  destruct (@_build_compatibility_matrix cpython_runtime gap_policy gap_features
              (frows gap_features) [0; 1]%nat) as [m|] eqn:E; [|vm_compute in E; discriminate].
  exists m. split; [reflexivity|].
  apply (@engine_matrix_characterised cpython_runtime gap_policy gap_features
           (frows gap_features) [0; 1]%nat m 0%nat 1%nat).
  - exact E.
  - lia.
  - simpl. lia.
  - reflexivity.
  - reflexivity.
Defined.

(** an answer with a blank part: the legacy [normalize_multi_answer] keeps
    the empty string *)
Lemma normalize_multi_answer_example :
  "" ∈ @normalize_multi_answer cpython_runtime ∅ (Str "he, ") "lang".
Proof.
  apply (proj2 (@normalize_multi_answer_and_to_set cpython_runtime ∅ (Str "he, ") "lang" ""
                  ltac:(discriminate))).
  right. split; [reflexivity|]. split.
  - exists " ". split; [|reflexivity]. vm_compute.
    apply list_elem_of_further, list_elem_of_here.
  - vm_compute. reflexivity.
Defined.

(** the run over [bug_features] under a policy that differs from
    [bug_policy] in what the run does not read *)
Lemma run_reads_hard_policy_example :
  fst <$> bug_run bug_policy
  = fst <$> bug_run (mkPolicy 3 [] [] [] [("budget", 2)] ["budget"] [("diversity", 1)]
                       None {[ "any" ]} 5 3 false).
Proof.
  unfold bug_run. apply run_reads_hard_policy_only; reflexivity.
Defined.

(** the age 25 under [banded_rules] *)
Lemma get_age_band_example :
  get_age_band (Some 25) (Some banded_rules) = 0%Z
  /\ check_age_compatibility (Some 25) (Some 25) (Some banded_rules) = true.
Proof.
  destruct (get_age_band_first_band banded_cfg banded_rules 25 eq_refl eq_refl eq_refl)
    as [H1 H2].
  split; [rewrite H1; reflexivity|].
  apply H2. rewrite H1. vm_compute. discriminate.
Defined.

(** the seed of three candidates of which the second and the third are
    incompatible *)
Lemma seed_example :
  exists k seed local_seed,
    choose_seed [[true; true; true]; [true; true; false]; [true; false; true]]
                [4; 5; 7]%nat [0; 1; 2]%nat = Some seed
    /\ [4; 5; 7]%nat !! k = Some seed /\ [0; 1; 2]%nat !! k = Some local_seed
    /\ (forall k' l', [0; 1; 2]%nat !! k' = Some l' ->
          (degree [[true; true; true]; [true; true; false]; [true; false; true]]
                  [0; 1; 2]%nat local_seed
           <= degree [[true; true; true]; [true; true; false]; [true; false; true]]
                  [0; 1; 2]%nat l')%nat).
Proof.
  destruct (seed_is_least_compatible 3
              [[true; true; true]; [true; true; false]; [true; false; true]]
              [4; 5; 7]%nat [0; 1; 2]%nat)
    as (k & seed & local_seed & H1 & H2 & H3 & H4 & _).
  - discriminate.
  - reflexivity.
  - apply (bool_decide_unpack _). vm_compute. exact I.
  - split; [reflexivity|]. repeat constructor.
  - repeat constructor.
  - exists k, seed, local_seed. repeat split; assumption.
Defined.
